(** * Bicubic resize operator of MACE: [mace/ops/resize_bicubic.cc]

    The development embeds the CPU kernel (coefficient table, sample
    locator, 1D interpolation, 2D resize loop nest) and the two operator
    adapters, over an executable model of IEEE-754 binary32 arithmetic
    built on the Standard Library's [SpecFloat] (precision 24, exponent
    bound 128, round to nearest even). *)

From Stdlib Require Import ZArith Lia List Bool QArith Qabs Qpower Ring Lqa.
From Stdlib Require Import SpecFloat.
Import ListNotations.
Local Open Scope Z_scope.

(** ** binary32 arithmetic ([float]) *)

Module F32.

Definition prec : Z := 24.
Definition emax : Z := 128.

Definition float : Type := spec_float.

Definition add : float -> float -> float := SFadd prec emax.
Definition sub : float -> float -> float := SFsub prec emax.
Definition mul : float -> float -> float := SFmul prec emax.
Definition div : float -> float -> float := SFdiv prec emax.
Definition abs : float -> float := SFabs.
Definition leb : float -> float -> bool := SFleb.

(** Conversion of an integer to [float] (round to nearest even), as in
    [static_cast<float>(n)] and the implicit conversions of mixed
    integer/float expressions. *)
Definition of_Z (n : Z) : float := binary_normalize prec emax n 0 false.

Definition zero : float := S754_zero false.
Definition one : float := of_Z 1.

(** The literals [0.5f], [-0.5f] and [-0.75f]. *)
Definition half : float := S754_finite false 8388608 (-24).
Definition minus_half : float := S754_finite true 8388608 (-24).
Definition minus_three_quarters : float := S754_finite true 12582912 (-24).

(** [std::numeric_limits<float>::min()], the smallest positive normalized
    float, 2^-126. *)
Definition flt_min : float := S754_finite false 8388608 (-149).

Definition is_finite (x : float) : bool :=
  match x with
  | S754_zero _ | S754_finite _ _ _ => true
  | _ => false
  end.

(** The signed mantissa of a finite float. *)
Definition smant (s : bool) (m : positive) : Z := cond_Zopp s (Zpos m).

(** Exact value of a float as a rational (0 for infinities and NaN). *)
Definition to_Q (x : float) : Q :=
  match x with
  | S754_finite s m e => (inject_Z (smant s m) * Qpower 2 e)%Q
  | _ => 0%Q
  end.

(** Exact value of a finite float in units of 2^-149 (every finite
    binary32 number is an integer multiple of 2^-149). *)
Definition ulps (x : float) : Z :=
  match x with
  | S754_finite s m e => smant s m * 2 ^ (e + 149)
  | _ => 0
  end.

(** Mathematical floor of the value, when there is one. *)
Definition floorZ (x : float) : option Z :=
  match x with
  | S754_zero _ => Some 0
  | S754_finite s m e =>
      Some (if 0 <=? e then smant s m * 2 ^ e else smant s m / 2 ^ (- e))
  | _ => None
  end.

(** [std::floor] on [float]: the result is again a float. *)
Definition floor (x : float) : float :=
  match x with
  | S754_finite s m e =>
      if 0 <=? e then x
      else binary_normalize prec emax (smant s m / 2 ^ (- e)) 0 s
  | _ => x
  end.

(** Integer obtained by discarding the fractional part (C++ conversion
    of a floating value to an integer type), when the value is finite. *)
Definition truncZ (x : float) : option Z :=
  match x with
  | S754_zero _ => Some 0
  | S754_finite s m e =>
      Some (if 0 <=? e then smant s m * 2 ^ e
            else cond_Zopp s (Zpos m / 2 ^ (- e)))
  | _ => None
  end.

(** Rounding of the quotient [m / d] to the nearest integer, ties to the
    even one. *)
Definition round_half_even (m d : Z) : Z :=
  let q := m / d in
  match (2 * (m mod d)) ?= d with
  | Lt => q
  | Gt => q + 1
  | Eq => if Z.even q then q else q + 1
  end.

(** Nearest integer in the default rounding mode ([rintf]), when the
    value is finite. *)
Definition rintZ (x : float) : option Z :=
  match x with
  | S754_zero _ => Some 0
  | S754_finite s m e =>
      Some (if 0 <=? e then smant s m * 2 ^ e
            else cond_Zopp s (round_half_even (Zpos m) (2 ^ (- e))))
  | _ => None
  end.

(** binary64 detour of [x += 1.0]: the float is widened to double, the
    double sum is formed and the result is rounded back to float. *)
Definition to_double (x : float) : spec_float :=
  match x with
  | S754_finite s m e => binary_normalize 53 1024 (smant s m) e s
  | _ => x
  end.

Definition of_double (d : spec_float) : float :=
  match d with
  | S754_finite s m e => binary_normalize prec emax (smant s m) e s
  | _ => d
  end.

Definition add_double (x : float) (d : spec_float) : float :=
  of_double (SFadd 53 1024 (to_double x) d).

Definition one_double : spec_float := binary_normalize 53 1024 1 0 false.

End F32.

Definition float : Type := F32.float.

(** ** [index_t]: 64-bit signed integers *)

Definition index_min : Z := - 2 ^ 63.
Definition index_max : Z := 2 ^ 63 - 1.

Definition in_index_range (z : Z) : bool :=
  (index_min <=? z) && (z <=? index_max).

(** Two's complement wrap-around of 64-bit arithmetic. *)
Definition wrap64 (z : Z) : Z := (z + 2 ^ 63) mod 2 ^ 64 - 2 ^ 63.

(** What a float-to-[index_t] conversion yields when the operand has no
    representable integer value (NaN, infinity, out of range) is fixed by
    the target, not by the source: it is a parameter of the model. *)
Record Platform : Type := { cvt_invalid : float -> Z }.

(** x86-64 ([cvttss2si], [cvtss2si]): the "integer indefinite" value. *)
Definition x86_64 : Platform := {| cvt_invalid := fun _ => index_min |}.

(** AArch64 ([fcvtzs], [fcvtns]): NaN gives 0, the rest saturates. *)
Definition aarch64 : Platform :=
  {| cvt_invalid := fun x =>
       match x with
       | S754_infinity true | S754_finite true _ _ => index_min
       | S754_infinity false | S754_finite false _ _ => index_max
       | _ => 0
       end |}.

Section Conversions.
Variable P : Platform.

(** [static_cast<index_t>(x)] *)
Definition to_index (x : float) : Z :=
  match F32.truncZ x with
  | Some n => if in_index_range n then n else cvt_invalid P x
  | None => cvt_invalid P x
  end.

(** [lrintf(x)] *)
Definition lrintf (x : float) : Z :=
  match F32.rintZ x with
  | Some n => if in_index_range n then n else cvt_invalid P x
  | None => cvt_invalid P x
  end.
End Conversions.

(** ** Coordinate transformation modes

    The enumeration lives in
    [mace/ops/common/coordinate_transformation_mode.h]; the operator builds
    it from an integer argument with [static_cast], so that any other
    integer is a possible value too. *)
Inductive CoordinateTransformationMode : Type :=
| NONE
| HALF_PIXEL
| PYTORCH_HALF_PIXEL
| OTHER_MODE (v : Z).

Definition mode_eqb (a b : CoordinateTransformationMode) : bool :=
  match a, b with
  | NONE, NONE | HALF_PIXEL, HALF_PIXEL
  | PYTORCH_HALF_PIXEL, PYTORCH_HALF_PIXEL => true
  | OTHER_MODE v, OTHER_MODE w => v =? w
  | _, _ => false
  end.

(** Vectors of exactly four elements ([weights], [indices], [values],
    [coeff]). *)
Record quad (A : Type) : Type := Quad { q0 : A; q1 : A; q2 : A; q3 : A }.
Arguments Quad {A} _ _ _ _.
Arguments q0 {A} _.
Arguments q1 {A} _.
Arguments q2 {A} _.
Arguments q3 {A} _.

Definition quad_map {A B : Type} (f : A -> B) (q : quad A) : quad B :=
  Quad (f (q0 q)) (f (q1 q)) (f (q2 q)) (f (q3 q)).

Definition quad_list {A : Type} (q : quad A) : list A :=
  [q0 q; q1 q; q2 q; q3 q].

(** Reading [p[i]] from a buffer: outside of the buffer there is no
    defined value. *)
Definition read {A : Type} (buf : list A) (i : Z) : option A :=
  if i <? 0 then None else nth_error buf (Z.to_nat i).

(** Writing [p[i] = v]. *)
Fixpoint set_nth {A : Type} (n : nat) (v : A) (l : list A) : list A :=
  match l, n with
  | [], _ => []
  | _ :: t, O => v :: t
  | h :: t, S k => h :: set_nth k v t
  end.

Definition write {A : Type} (buf : list A) (i : Z) (v : A) : option (list A) :=
  if (0 <=? i) && (i <? Z.of_nat (length buf))
  then Some (set_nth (Z.to_nat i) v buf) else None.

Definition Zrange (n : Z) : list Z := map Z.of_nat (seq 0 (Z.to_nat n)).

(** ** The kernel, for a table resolution [kTableSize]

    [common::utils::kTableSize] is declared in [mace/ops/common/utils.h]
    and is taken as a parameter. *)
Section Kernel.
Variable kTableSize : Z.
Variable P : Platform.

(** [InitCoeffsTable]: entries [2i] and [2i+1] for [i = 0 .. kTableSize]. *)
Definition coeff_near (A x : float) : float :=
  F32.add
    (F32.mul
       (F32.mul
          (F32.sub (F32.mul (F32.add A (F32.of_Z 2)) x)
                   (F32.add A (F32.of_Z 3)))
          x)
       x)
    (F32.of_Z 1).

Definition coeff_far (A x : float) : float :=
  F32.sub
    (F32.mul
       (F32.add
          (F32.mul (F32.sub (F32.mul A x) (F32.mul (F32.of_Z 5) A)) x)
          (F32.mul (F32.of_Z 8) A))
       x)
    (F32.mul (F32.of_Z 4) A).

Definition table_x (i : Z) : float :=
  F32.div (F32.mul (F32.of_Z i) F32.one) (F32.of_Z kTableSize).

Definition InitCoeffsTable (A : float) : list float :=
  flat_map
    (fun i =>
       let x := table_x i in
       [coeff_near A x; coeff_far A (F32.add_double x F32.one_double)])
    (Zrange (kTableSize + 1)).

(** [GetCoeffsTable]: the two tables are built once and kept. *)
Definition GetCoeffsTable (is_tensorflow_half_pixel : bool) : list float :=
  if is_tensorflow_half_pixel
  then InitCoeffsTable F32.minus_half
  else InitCoeffsTable F32.minus_three_quarters.

(** [Bound] *)
Definition Bound (val limit : Z) : Z :=
  Z.min (wrap64 (limit - 1)) (Z.max 0 val).

(** Lines 72-77 of [GetWeightsAndIndices]: the continuous input
    coordinate. *)
Definition gwi_in (scale : float) (mode : CoordinateTransformationMode)
           (out_loc out_size : Z) : float :=
  let in0 := F32.mul (F32.of_Z out_loc) scale in
  if mode_eqb mode HALF_PIXEL then
    F32.sub (F32.mul (F32.add (F32.of_Z out_loc) F32.half) scale) F32.half
  else if mode_eqb mode PYTORCH_HALF_PIXEL then
    if 1 <? out_size
    then F32.sub (F32.mul (F32.add (F32.of_Z out_loc) F32.half) scale)
                 F32.half
    else F32.of_Z 0
  else in0.

(** Lines 78-80. *)
Definition gwi_in_loc (inp : float) : Z := to_index P (F32.floor inp).

Definition gwi_delta (inp : float) : float :=
  F32.sub inp (F32.of_Z (gwi_in_loc inp)).

Definition gwi_offset (inp : float) : Z :=
  lrintf P (F32.mul (gwi_delta inp) (F32.of_Z kTableSize)).

(** Lines 82-83. *)
Definition gwi_indices (in_loc limit : Z) : quad Z :=
  Quad (Bound (wrap64 (in_loc - 1)) limit)
       (Bound in_loc limit)
       (Bound (wrap64 (in_loc + 1)) limit)
       (Bound (wrap64 (in_loc + 2)) limit).

(** The four table positions read by either branch. *)
Definition tab_pos (offset : Z) : quad Z :=
  Quad (wrap64 (wrap64 (offset * 2) + 1))
       (wrap64 (offset * 2))
       (wrap64 (wrap64 (kTableSize - offset) * 2))
       (wrap64 (wrap64 (wrap64 (kTableSize - offset) * 2) + 1)).

(** A tap of the half-pixel branch: the table is read only when the
    clamped index is the nominal one. *)
Definition hp_tap (tab : list float) (index nominal pos : Z)
  : option float :=
  if index =? nominal then read tab pos else Some (S754_zero false).

(** Lines 99-107: renormalisation. *)
Definition hp_threshold : float := F32.mul (F32.of_Z 1000) F32.flt_min.

Definition hp_weight_sum (w : quad float) : float :=
  F32.add (F32.add (F32.add (q0 w) (q1 w)) (q2 w)) (q3 w).

Definition hp_normalize (w : quad float) : quad float :=
  let weight_sum := hp_weight_sum w in
  if F32.leb hp_threshold (F32.abs weight_sum) then
    let one_over_weight_sum := F32.div F32.one weight_sum in
    quad_map (fun x => F32.mul x one_over_weight_sum) w
  else w.

(** Lines 84-114: the weights, from the offset and the indices. *)
Definition gwi_weights (mode : CoordinateTransformationMode)
           (in_loc offset : Z) (indices : quad Z) : option (quad float) :=
  let pos := tab_pos offset in
  if mode_eqb mode HALF_PIXEL then
    let coeffs_tab := GetCoeffsTable true in
    match hp_tap coeffs_tab (q0 indices) (wrap64 (in_loc - 1)) (q0 pos),
          hp_tap coeffs_tab (q1 indices) in_loc (q1 pos),
          hp_tap coeffs_tab (q2 indices) (wrap64 (in_loc + 1)) (q2 pos),
          hp_tap coeffs_tab (q3 indices) (wrap64 (in_loc + 2)) (q3 pos)
    with
    | Some w0, Some w1, Some w2, Some w3 =>
        Some (hp_normalize (Quad w0 w1 w2 w3))
    | _, _, _, _ => None
    end
  else
    let coeffs_tab := GetCoeffsTable false in
    match read coeffs_tab (q0 pos), read coeffs_tab (q1 pos),
          read coeffs_tab (q2 pos), read coeffs_tab (q3 pos)
    with
    | Some w0, Some w1, Some w2, Some w3 => Some (Quad w0 w1 w2 w3)
    | _, _, _, _ => None
    end.

(** [GetWeightsAndIndices]: [None] when a table read falls outside of
    the table. *)
Definition GetWeightsAndIndices (scale : float)
           (mode : CoordinateTransformationMode)
           (out_loc out_size limit : Z) : option (quad float * quad Z) :=
  let inp := gwi_in scale mode out_loc out_size in
  let in_loc := gwi_in_loc inp in
  let offset := gwi_offset inp in
  let indices := gwi_indices in_loc limit in
  match gwi_weights mode in_loc offset indices with
  | Some weights => Some (weights, indices)
  | None => None
  end.

End Kernel.

(** ** Interpolation

    [Interpolate1D] and the 4x4 patch computation are written over a
    carrier with an addition and a multiplication: the program is their
    reading over binary32. *)
Class Arith (F : Type) : Type :=
  { fadd : F -> F -> F;
    fmul : F -> F -> F }.

#[export] Instance F32_Arith : Arith float :=
  {| fadd := F32.add; fmul := F32.mul |}.

Section Interpolation.
Context {F : Type} `{Arith F}.

(** [Interpolate1D] *)
Definition Interpolate1D (weights values : quad F) : F :=
  fadd
    (fadd
       (fadd (fmul (q0 values) (q0 weights))
             (fmul (q1 values) (q1 weights)))
       (fmul (q2 values) (q2 weights)))
    (fmul (q3 values) (q3 weights)).

(** Lines 160-170 of [ResizeImage], on the 4x4 patch [patch i j] holding
    [channel_input_ptr[y_indices[i] * in_width + x_indices[j]]]. *)
Definition patch_rows (patch : quad (quad F)) (x_weights : quad F)
  : quad F :=
  quad_map (fun values => Interpolate1D x_weights values) patch.

Definition interpolate_patch (patch : quad (quad F))
           (y_weights x_weights : quad F) : F :=
  Interpolate1D y_weights (patch_rows patch x_weights).

(** The full 2D convolution of the specification: one sum, in row-major
    order, of the sixteen products [y_weight[i] * x_weight[j] * input],
    each product formed by [prod3]. *)
Definition sum_from (t : F) (ts : list F) : F := fold_left fadd ts t.

Definition conv_terms (prod3 : F -> F -> F -> F) (patch : quad (quad F))
           (y_weights x_weights : quad F) : list F :=
  flat_map
    (fun yr : F * quad F =>
       map (fun xv : F * F => prod3 (fst yr) (fst xv) (snd xv))
           (combine (quad_list x_weights) (quad_list (snd yr))))
    (combine (quad_list y_weights) (quad_list patch)).

Definition full_convolution (prod3 : F -> F -> F -> F)
           (patch : quad (quad F)) (y_weights x_weights : quad F)
  : option F :=
  match conv_terms prod3 patch y_weights x_weights with
  | t :: ts => Some (sum_from t ts)
  | [] => None
  end.

(** The three ways of forming a product of three factors. *)
Definition prod_yx_v (y x v : F) : F := fmul (fmul y x) v.
Definition prod_y_xv (y x v : F) : F := fmul y (fmul x v).
Definition prod_yv_x (y x v : F) : F := fmul (fmul y v) x.

End Interpolation.

(** ** The 2D resize driver *)

Definition bind {A B : Type} (o : option A) (f : A -> option B) : option B :=
  match o with
  | Some a => f a
  | None => None
  end.

Notation "x <- c ;; k" := (bind c (fun x => k))
  (at level 61, c at next level, right associativity).

Fixpoint foldM {A S : Type} (f : S -> A -> option S) (l : list A) (s : S)
  : option S :=
  match l with
  | [] => Some s
  | a :: t => s' <- f s a ;; foldM f t s'
  end.

Definition imul (a b : Z) : Z := wrap64 (a * b).
Definition iadd (a b : Z) : Z := wrap64 (a + b).

Section Driver.
Variable kTableSize : Z.
Variable P : Platform.

(** The values read for the patch: rows [y_indices], columns
    [x_indices] of the channel plane starting at [base]. *)
Definition read_patch (images : list float) (base in_width : Z)
           (y_indices x_indices : quad Z) : option (quad (quad float)) :=
  let row (yi : Z) : option (quad float) :=
    v0 <- read images (iadd base (iadd (imul yi in_width) (q0 x_indices))) ;;
    v1 <- read images (iadd base (iadd (imul yi in_width) (q1 x_indices))) ;;
    v2 <- read images (iadd base (iadd (imul yi in_width) (q2 x_indices))) ;;
    v3 <- read images (iadd base (iadd (imul yi in_width) (q3 x_indices))) ;;
    Some (Quad v0 v1 v2 v3) in
  r0 <- row (q0 y_indices) ;;
  r1 <- row (q1 y_indices) ;;
  r2 <- row (q2 y_indices) ;;
  r3 <- row (q3 y_indices) ;;
  Some (Quad r0 r1 r2 r3).

(** The body of the channel loop: output element [(b, y, x, c)]. *)
Definition ResizeImage_element (images : list float)
           (in_height in_width out_height out_width channels : Z)
           (y_weights x_weights : quad float) (y_indices x_indices : quad Z)
           (b y x c : Z) (output : list float) : option (list float) :=
  let channel_input :=
    imul (imul (iadd (imul b channels) c) in_height) in_width in
  let channel_output :=
    imul (imul (iadd (imul b channels) c) out_height) out_width in
  patch <- read_patch images channel_input in_width y_indices x_indices ;;
  write output (iadd channel_output (iadd (imul y out_width) x))
        (interpolate_patch patch y_weights x_weights).

(** [ResizeImage]: the loop nest over batch, output row, output column
    and channel.  [Compute2D] hands the (batch, row) range to the worker
    pool in disjoint blocks; every output element is written once, from
    read-only data, so that the result is the one of the sequential
    nest. *)
Definition ResizeImage (images : list float)
           (batch_size in_height in_width out_height out_width channels : Z)
           (height_scale width_scale : float)
           (mode : CoordinateTransformationMode) (output : list float)
  : option (list float) :=
  foldM
    (fun out b =>
       foldM
         (fun out y =>
            yy <- GetWeightsAndIndices kTableSize P height_scale mode y
                    out_height in_height ;;
            foldM
              (fun out x =>
                 xx <- GetWeightsAndIndices kTableSize P width_scale mode x
                         out_width in_width ;;
                 foldM
                   (fun out c =>
                      ResizeImage_element images in_height in_width
                        out_height out_width channels
                        (fst yy) (fst xx) (snd yy) (snd xx) b y x c out)
                   (Zrange channels) out)
              (Zrange out_width) out)
         (Zrange out_height) out)
    (Zrange batch_size) output.

End Driver.

(** ** Operator adapters *)

Record Tensor : Type := { dims : list Z; data : list float }.

Inductive MaceStatus : Type :=
| MACE_SUCCESS
| MACE_ERROR (code : Z).

(** The two [MACE_CHECK]s of [Run]. *)
Inductive check : Type :=
| CheckInputRank
| CheckInputSize.

(** How a call of [Run] ends: a failed [MACE_CHECK] aborts, otherwise a
    status is returned; [Undefined] stands for an access outside of a
    buffer. *)
Inductive result : Type :=
| Abort (c : check)
| Return (st : MaceStatus)
| Undefined.

(** The calls made by [Run], in order. *)
Inductive call : Type :=
| CallTensorResize (shape : list Z)
| CallCopy (count : Z)
| CallResizeImage
| CallKernelCompute (out_height out_width : Z).

Record outcome : Type :=
  { res : result; out : Tensor; calls : list call }.

Record ResizeBicubicOp : Type :=
  { align_corners_ : bool;
    coordinate_transformation_mode_ : CoordinateTransformationMode;
    size_ : list Z }.

Definition status_eqb (a b : MaceStatus) : bool :=
  match a, b with
  | MACE_SUCCESS, MACE_SUCCESS => true
  | MACE_ERROR x, MACE_ERROR y => x =? y
  | _, _ => false
  end.

(** [std::copy(first, first + count, dest)] *)
Definition std_copy (src : list float) (count : Z) (dest : list float)
  : option (list float) :=
  if (count <=? Z.of_nat (length src)) && (count <=? Z.of_nat (length dest))
  then Some (firstn (Z.to_nat count) src ++ skipn (Z.to_nat count) dest)
  else None.

Section Operators.
Variable kTableSize : Z.
Variable P : Platform.

(** Collaborators declared outside of [resize_bicubic.cc]:
    [Tensor::Resize], [common::utils::GetSizeParamFromTensor],
    [common::utils::CalculateResizeScale] and the OpenCL kernel's
    [Compute]. *)
Variable Tensor_Resize : Tensor -> list Z -> MaceStatus * Tensor.
Variable GetSizeParamFromTensor : Tensor -> Z * Z.
Variable CalculateResizeScale : Z -> Z -> bool -> float.
Variable kernel_Compute : Tensor -> Z -> Z -> Tensor -> MaceStatus * Tensor.

(** Is the static [size_] usable (lines 207 and 289)? *)
Definition static_size (size_ : list Z) : option (Z * Z) :=
  match size_ with
  | [h; w] => if (0 <? h) && (0 <? w) then Some (h, w) else None
  | _ => None
  end.

(** Lines 205-214: the output size, or the failed check.  [extra] holds
    the inputs after [Input(0)], so that [InputSize()] is
    [1 + length extra]. *)
Definition resolve_size (size_ : list Z) (extra : list Tensor)
  : option (Z * Z) :=
  match static_size size_ with
  | Some hw => Some hw
  | None =>
      match extra with
      | size_tensor :: _ => Some (GetSizeParamFromTensor size_tensor)
      | [] => None
      end
  end.

(** [ResizeBicubicOp<DeviceType::CPU, float>::Run] *)
Definition Run_CPU (op : ResizeBicubicOp) (input : Tensor)
           (extra : list Tensor) (output : Tensor) : outcome :=
  match dims input with
  | [batch; channels; in_height; in_width] =>
      match resolve_size (size_ op) extra with
      | None => {| res := Abort CheckInputSize; out := output; calls := [] |}
      | Some (out_height, out_width) =>
          let out_shape := [batch; channels; out_height; out_width] in
          let '(st, output1) := Tensor_Resize output out_shape in
          if negb (status_eqb st MACE_SUCCESS) then
            {| res := Return st; out := output1;
               calls := [CallTensorResize out_shape] |}
          else if (out_height =? in_height) && (out_width =? in_width) then
            let count :=
              imul (imul (imul batch channels) in_height) in_width in
            match std_copy (data input) count (data output1) with
            | Some d =>
                {| res := Return MACE_SUCCESS;
                   out := {| dims := dims output1; data := d |};
                   calls := [CallTensorResize out_shape; CallCopy count] |}
            | None =>
                {| res := Undefined; out := output1;
                   calls := [CallTensorResize out_shape; CallCopy count] |}
            end
          else
            let height_scale :=
              CalculateResizeScale in_height out_height (align_corners_ op) in
            let width_scale :=
              CalculateResizeScale in_width out_width (align_corners_ op) in
            match ResizeImage kTableSize P (data input) batch in_height
                    in_width out_height out_width channels height_scale
                    width_scale (coordinate_transformation_mode_ op)
                    (data output1)
            with
            | Some d =>
                {| res := Return MACE_SUCCESS;
                   out := {| dims := dims output1; data := d |};
                   calls := [CallTensorResize out_shape; CallResizeImage] |}
            | None =>
                {| res := Undefined; out := output1;
                   calls := [CallTensorResize out_shape; CallResizeImage] |}
            end
      end
  | _ => {| res := Abort CheckInputRank; out := output; calls := [] |}
  end.

(** [ResizeBicubicOp<DeviceType::GPU, float>::Run] *)
Definition Run_GPU (op : ResizeBicubicOp) (input : Tensor)
           (extra : list Tensor) (output : Tensor) : outcome :=
  match dims input with
  | [_; _; _; _] =>
      match resolve_size (size_ op) extra with
      | None => {| res := Abort CheckInputSize; out := output; calls := [] |}
      | Some (out_height, out_width) =>
          let '(st, output1) :=
            kernel_Compute input out_height out_width output in
          {| res := Return st; out := output1;
             calls := [CallKernelCompute out_height out_width] |}
      end
  | _ => {| res := Abort CheckInputRank; out := output; calls := [] |}
  end.

End Operators.

(** ** The coordinate mapping in the words of the specification

    Modes besides the three named ones are not described there; the code
    gives them the plain scaling. *)
Definition spec_in (scale : float) (mode : CoordinateTransformationMode)
           (out_coord out_size : Z) : float :=
  let half_pixel :=
    F32.sub (F32.mul (F32.add (F32.of_Z out_coord) F32.half) scale)
            F32.half in
  match mode with
  | HALF_PIXEL => half_pixel
  | PYTORCH_HALF_PIXEL => if out_size <=? 1 then F32.zero else half_pixel
  | NONE | OTHER_MODE _ => F32.mul (F32.of_Z out_coord) scale
  end.

(** ** Descriptions of the two weight branches *)

(** The four weights read from a table without any treatment. *)
Definition plain_weights (tab : list float) (pos : quad Z)
  : option (quad float) :=
  match read tab (q0 pos), read tab (q1 pos),
        read tab (q2 pos), read tab (q3 pos)
  with
  | Some w0, Some w1, Some w2, Some w3 => Some (Quad w0 w1 w2 w3)
  | _, _, _, _ => None
  end.

(** The four taps of the half-pixel branch before renormalisation. *)
Definition hp_raw_weights (tab : list float) (in_loc : Z)
           (indices pos : quad Z) : option (quad float) :=
  match hp_tap tab (q0 indices) (wrap64 (in_loc - 1)) (q0 pos),
        hp_tap tab (q1 indices) in_loc (q1 pos),
        hp_tap tab (q2 indices) (wrap64 (in_loc + 1)) (q2 pos),
        hp_tap tab (q3 indices) (wrap64 (in_loc + 2)) (q3 pos)
  with
  | Some w0, Some w1, Some w2, Some w3 => Some (Quad w0 w1 w2 w3)
  | _, _, _, _ => None
  end.


(** ** A concrete resize: a 3x3 plane to 2x2 (scale 3/2)

    The plane holds [0.1f] at (1,0) and [1.0f] at (1,1), zero elsewhere. *)
Definition tenth : float := S754_finite false 13421773 (-27).
Definition three_halves : float := S754_finite false 12582912 (-23).

Definition plane3 : list float :=
  [ F32.zero; F32.zero; F32.zero;
    tenth;    F32.one;  F32.zero;
    F32.zero; F32.zero; F32.zero ].

(** ** The half-pixel weights of an offset, and their exact sum *)

(** The four positions read for a table offset in [0, kTableSize]. *)
Definition nominal_pos (K a : Z) : quad Z :=
  Quad (2 * a + 1) (2 * a) (2 * (K - a)) (2 * (K - a) + 1).

(** The weights returned in HALF_PIXEL mode when no tap is clamped. *)
Definition hp_weights_at (K : Z) (tab : list float) (a : Z)
  : option (quad float) :=
  option_map hp_normalize (plain_weights tab (nominal_pos K a)).

Definition quad_sum_Q (w : quad float) : Q :=
  (F32.to_Q (q0 w) + F32.to_Q (q1 w) + F32.to_Q (q2 w) + F32.to_Q (q3 w))%Q.

Definition tolerance : Q := 1 # 100000.

Definition sums_to_one (w : quad float) : bool :=
  forallb F32.is_finite (quad_list w)
  && Qle_bool (Qabs (quad_sum_Q w - 1)) tolerance.

Definition all_offsets_sum_to_one (K : Z) (tab : list float) : bool :=
  forallb
    (fun a =>
       match hp_weights_at K tab a with
       | Some w => sums_to_one w
       | None => false
       end)
    (Zrange (K + 1)).

(** The nominal (unclamped) tap positions around [in_loc]. *)
Definition nominal_indices (in_loc : Z) : quad Z :=
  Quad (wrap64 (in_loc - 1)) in_loc (wrap64 (in_loc + 1))
       (wrap64 (in_loc + 2)).

(** What lines 87-98 assign to one tap: the table entry when the clamped
    index is the nominal one, zero otherwise. *)
Definition tap_weight (tab : list float) (index nominal pos : Z) (r : float)
  : Prop :=
  if index =? nominal then read tab pos = Some r else r = S754_zero false.

(** ** Magnitude bounds

    [at_most s B eb x]: [x] is the zero of sign [s], or a finite number of
    sign [s] whose magnitude is at most [B * 2^eb]. *)
Definition at_most (s : bool) (B eb : Z) (x : float) : Prop :=
  x = S754_zero s \/
  exists m e, x = S754_finite s m e /\ e <= eb /\ Zpos m <= B * 2 ^ (eb - e).

(** A [float] of the program is a binary32 number: its mantissa and
    exponent are in the canonical form of the format. *)
Definition valid (x : float) : bool := valid_binary F32.prec F32.emax x.

(** Table resolutions for which the half-pixel table is checked entry by
    entry: the powers of two up to 4096 (MACE uses [1 << 10]). *)
Definition table_resolutions : list Z :=
  [1; 2; 4; 8; 16; 32; 64; 128; 256; 512; 1024; 2048; 4096].

Definition half_pixel_tables_sum_to_one : bool :=
  forallb
    (fun K => all_offsets_sum_to_one K (InitCoeffsTable K F32.minus_half))
    table_resolutions.
(** ** The value of one output element

    Row-major position of element [(b, c, y, x)] of an NCHW tensor. *)
Definition nchw_pos (channels height width b c y x : Z) : Z :=
  ((b * channels + c) * height + y) * width + x.

Section ElementValue.
Variable kTableSize : Z.
Variable P : Platform.

(** What the loop nest of [ResizeImage] computes for the output element
    [(b, c, y, x)]: the weights and indices of row [y] and of column [x],
    the 4x4 patch of channel plane [(b, c)], and its interpolation. *)
Definition element_value (images : list float)
           (in_height in_width out_height out_width channels : Z)
           (height_scale width_scale : float)
           (mode : CoordinateTransformationMode) (b y x c : Z)
  : option float :=
  yy <- GetWeightsAndIndices kTableSize P height_scale mode y out_height
          in_height ;;
  xx <- GetWeightsAndIndices kTableSize P width_scale mode x out_width
          in_width ;;
  patch <- read_patch images
             (imul (imul (iadd (imul b channels) c) in_height) in_width)
             in_width (snd yy) (snd xx) ;;
  Some (interpolate_patch patch (fst yy) (fst xx)).

End ElementValue.

(** The input coordinate of an output coordinate is a finite number whose
    integer part fits in [index_t]. *)
Definition coord_ok (scale : float) (mode : CoordinateTransformationMode)
           (out_loc out_size : Z) : bool :=
  match F32.floorZ (gwi_in scale mode out_loc out_size) with
  | Some n => in_index_range n
  | None => false
  end.

(** State of the output buffer while the loop nest runs: elements marked
    [Done] hold their value, nothing is written behind the
    [batch * channels * out_height * out_width] elements of the output
    tensor, and the buffer keeps its length. *)
Definition element_written (kTableSize : Z) (P : Platform)
           (images : list float)
           (in_height in_width out_height out_width channels : Z)
           (height_scale width_scale : float)
           (mode : CoordinateTransformationMode)
           (out : list float) (b y x c : Z) : Prop :=
  exists v,
    element_value kTableSize P images in_height in_width out_height
      out_width channels height_scale width_scale mode b y x c = Some v /\
    read out (nchw_pos channels out_height out_width b c y x) = Some v.

Definition resize_invariant (kTableSize : Z) (P : Platform)
           (images : list float)
           (batch_size in_height in_width out_height out_width channels : Z)
           (height_scale width_scale : float)
           (mode : CoordinateTransformationMode) (output : list float)
           (Done : Z -> Z -> Z -> Z -> Prop) (out : list float) : Prop :=
  length out = length output /\
  (forall i,
      batch_size * channels * out_height * out_width <= i ->
      read out i = read output i) /\
  (forall b y x c,
      0 <= b < batch_size -> 0 <= y < out_height ->
      0 <= x < out_width -> 0 <= c < channels ->
      Done b y x c ->
      element_written kTableSize P images in_height in_width out_height
        out_width channels height_scale width_scale mode out b y x c).

(** ** The table, entry by entry

    The entries written by the iteration [i] of [InitCoeffsTable], and the
    four weights read for the table offset [a]. *)
Definition entry_near (K : Z) (A : float) (i : Z) : float :=
  coeff_near A (table_x K i).

Definition entry_far (K : Z) (A : float) (i : Z) : float :=
  coeff_far A (F32.add_double (table_x K i) F32.one_double).

Definition weights_at (K : Z) (A : float) (a : Z) : quad float :=
  Quad (entry_far K A a) (entry_near K A a)
       (entry_near K A (K - a)) (entry_far K A (K - a)).

Definition is_zero (x : float) : bool :=
  match x with
  | S754_zero _ => true
  | _ => false
  end.

Definition float_eqb (x y : float) : bool :=
  match x, y with
  | S754_zero s, S754_zero t => Bool.eqb s t
  | S754_finite s m e, S754_finite t n f =>
      Bool.eqb s t && Pos.eqb m n && Z.eqb e f
  | _, _ => false
  end.

Definition quad_eqb (v w : quad float) : bool :=
  float_eqb (q0 v) (q0 w) && float_eqb (q1 v) (q1 w)
  && float_eqb (q2 v) (q2 w) && float_eqb (q3 v) (q3 w).

(** Sum of the magnitudes of four weights. *)
Definition quad_abs_sum_Q (w : quad float) : Q :=
  (Qabs (F32.to_Q (q0 w)) + Qabs (F32.to_Q (q1 w))
   + Qabs (F32.to_Q (q2 w)) + Qabs (F32.to_Q (q3 w)))%Q.

(** Table resolutions for which the tables are examined offset by
    offset: the powers of two up to [1 << 10], the resolution of MACE. *)
Definition checked_resolutions : list Z :=
  [1; 2; 4; 8; 16; 32; 64; 128; 256; 512; 1024].

(** The weights of the default table: finite, summing to one within
    [tolerance], with magnitudes adding up to at most 11/8. *)
Definition default_weights_ok (w : quad float) : bool :=
  sums_to_one w && Qle_bool (quad_abs_sum_Q w) (11 # 8).

(** The taps of the half-pixel branch that are kept ([true]) or replaced
    by zero ([false]). *)
Definition keep_taps (keep : quad bool) (t : quad float) : quad float :=
  Quad (if q0 keep then q0 t else S754_zero false)
       (if q1 keep then q1 t else S754_zero false)
       (if q2 keep then q2 t else S754_zero false)
       (if q3 keep then q3 t else S754_zero false).

Definition tap_patterns : list (quad bool) :=
  flat_map
    (fun b0 =>
       flat_map
         (fun b1 =>
            flat_map
              (fun b2 => map (fun b3 => Quad b0 b1 b2 b3) [true; false])
              [true; false])
         [true; false])
    [true; false].

(** The weights returned by the half-pixel branch sum to one, or are all
    zero. *)
Definition half_pixel_weights_ok (w : quad float) : bool :=
  sums_to_one w || forallb is_zero (quad_list w).

Definition all_patterns_ok (t : quad float) : bool :=
  forallb (fun keep => half_pixel_weights_ok (hp_normalize (keep_taps keep t)))
          tap_patterns.

(** The weights of the table offset 0: the sample itself. *)
Definition unit_weights : quad float :=
  Quad (S754_zero false) F32.one (S754_zero false) (S754_zero false).

(** Which taps of the half-pixel branch keep their table entry: those
    whose clamped index is the nominal one. *)
Definition kept_taps (in_loc : Z) (idx : quad Z) : quad bool :=
  Quad (q0 idx =? wrap64 (in_loc - 1)) (q1 idx =? in_loc)
       (q2 idx =? wrap64 (in_loc + 1)) (q3 idx =? wrap64 (in_loc + 2)).

(** ** Exact (rational) arithmetic *)

Definition Q_Arith : Arith Q := {| fadd := Qplus; fmul := Qmult |}.

Definition quad_abs_sum (w : quad Q) : Q :=
  (Qabs (q0 w) + Qabs (q1 w) + Qabs (q2 w) + Qabs (q3 w))%Q.

Definition quad_sum (w : quad Q) : Q :=
  (q0 w + q1 w + q2 w + q3 w)%Q.

Definition constant_patch {F : Type} (c : F) : quad (quad F) :=
  Quad (Quad c c c c) (Quad c c c c) (Quad c c c c) (Quad c c c c).

(** ** Construction of the operators

    The arguments of the operator are read through
    [Operation::GetOptionalArg] and [Operation::GetRepeatedArgs], which
    take the name of the argument and the value to use when the operator
    definition has no such argument; the integer of the coordinate mode is
    cast to the enumeration.  All of them are declared outside of
    [resize_bicubic.cc]: the three lookups, by the name of their argument,
    are functions of the default value. *)
Section Construction.
Variable GetOptionalArg_align_corners : bool -> bool.
Variable GetOptionalArg_coordinate_transformation_mode : Z -> Z.
Variable GetRepeatedArgs_size : list Z -> list Z.
Variable mode_of_int : Z -> CoordinateTransformationMode.

(** [ResizeBicubicOp<DeviceType::CPU, float>::ResizeBicubicOp] *)
Definition ResizeBicubicOp_CPU : ResizeBicubicOp :=
  {| align_corners_ := GetOptionalArg_align_corners false;
     coordinate_transformation_mode_ :=
       mode_of_int (GetOptionalArg_coordinate_transformation_mode 0);
     size_ := GetRepeatedArgs_size [-1; -1] |}.

(** [ResizeBicubicOp<DeviceType::GPU, float>::ResizeBicubicOp]: the kernel
    exists for the image memory type only, any other one ends in
    [MACE_NOT_IMPLEMENTED] ([None]).  [align_corners] and the mode go to
    the kernel. *)
Definition ResizeBicubicOp_GPU (memory_is_gpu_image : bool)
  : option ResizeBicubicOp :=
  let align_corners := GetOptionalArg_align_corners false in
  let coordinate_transformation_mode :=
    mode_of_int (GetOptionalArg_coordinate_transformation_mode 0) in
  let size := GetRepeatedArgs_size [-1; -1] in
  if memory_is_gpu_image
  then Some {| align_corners_ := align_corners;
               coordinate_transformation_mode_ :=
                 coordinate_transformation_mode;
               size_ := size |}
  else None.

End Construction.

(** ** Relations between runs, and between values

    Two runs end alike: both fail, or both complete with results related
    by [R]. *)
Definition ends_alike {S : Type} (R : S -> S -> Prop) (r r' : option S)
  : Prop :=
  match r, r' with
  | Some t, Some t' => R t t'
  | None, None => True
  | _, _ => False
  end.

Definition same_length (s s' : list float) : Prop := length s = length s'.

(** Two floats of the same value: equal, or two zeros (of any sign). *)
Definition same_value (a b : float) : Prop :=
  a = b \/ (is_zero a = true /\ is_zero b = true).

(** A binary32 number that is neither an infinity nor a NaN. *)
Definition finite_float (v : float) : bool := F32.is_finite v && valid v.

(** A 3x3 plane holding 1 .. 9, row by row. *)
Definition ramp3 : list float := map F32.of_Z [1; 2; 3; 4; 5; 6; 7; 8; 9].

(** ** The work items of [Compute2D]

    [ResizeImage] hands the loops over the batch and the output rows to
    [ThreadPool::Compute2D], which runs the body for blocks of pairs
    [(b, y)] on the threads of the pool, in no fixed order.
    [ResizeImage_row] is that body for one pair, [ResizeImage_rows] runs
    it on a sequence of pairs one after the other, and [row_items] is the
    sequence of the nest written in [ResizeImage]. *)
Section WorkItems.
Variable kTableSize : Z.
Variable P : Platform.

Definition ResizeImage_row (images : list float)
           (in_height in_width out_height out_width channels : Z)
           (height_scale width_scale : float)
           (mode : CoordinateTransformationMode) (b y : Z)
           (output : list float) : option (list float) :=
  yy <- GetWeightsAndIndices kTableSize P height_scale mode y out_height
          in_height ;;
  foldM
    (fun out x =>
       xx <- GetWeightsAndIndices kTableSize P width_scale mode x out_width
               in_width ;;
       foldM
         (fun out c =>
            ResizeImage_element images in_height in_width out_height
              out_width channels (fst yy) (fst xx) (snd yy) (snd xx)
              b y x c out)
         (Zrange channels) out)
    (Zrange out_width) output.

Definition ResizeImage_rows (images : list float)
           (in_height in_width out_height out_width channels : Z)
           (height_scale width_scale : float)
           (mode : CoordinateTransformationMode) (work : list (Z * Z))
           (output : list float) : option (list float) :=
  foldM
    (fun out item =>
       ResizeImage_row images in_height in_width out_height out_width
         channels height_scale width_scale mode (fst item) (snd item) out)
    work output.

End WorkItems.

Definition row_items (batch_size out_height : Z) : list (Z * Z) :=
  flat_map (fun b => map (fun y => (b, y)) (Zrange out_height))
           (Zrange batch_size).

(** ** The cubic convolution kernel

    The two polynomials of [InitCoeffsTable] over the rationals, that is
    without rounding: [kernel_near] on [0, 1] and [kernel_far] on
    [1, 2]. *)
Definition kernel_near (A x : Q) : Q :=
  (((A + 2) * x - (A + 3)) * x * x + 1)%Q.

Definition kernel_far (A x : Q) : Q :=
  (((A * x - 5 * A) * x + 8 * A) * x - 4 * A)%Q.

(** 2^-20 *)
Definition table_accuracy : Q := 1 # 1048576.

Definition close_to (v : float) (q : Q) : bool :=
  F32.is_finite v && Qle_bool (Qabs (F32.to_Q v - q)) table_accuracy.

Definition entries_accurate (K : Z) (A : float) (i : Z) : bool :=
  let x := (inject_Z i / inject_Z K)%Q in
  close_to (entry_near K A i) (kernel_near (F32.to_Q A) x)
  && close_to (entry_far K A i) (kernel_far (F32.to_Q A) (x + 1)).

Definition table_accurate (A : float) : bool :=
  forallb
    (fun K => forallb (entries_accurate K A) (Zrange (K + 1)))
    checked_resolutions.
(** ** Rounding to an integer, and rounding errors *)

(** [z] is an integer nearest to [q], the even one when [q] is half-way
    between two integers. *)
Definition nearest_even (z : Z) (q : Q) : Prop :=
  (Qabs (inject_Z z - q) <= 1 # 2)%Q /\
  ((Qabs (inject_Z z - q) == 1 # 2)%Q -> Z.even z = true).

(** The unit roundoff of binary32, 2^-24, and half of the least positive
    (subnormal) binary32 number, 2^-150. *)
Definition unit_roundoff : Q := 1 # 16777216.
Definition underflow_unit : Q := 1 # (2 ^ 150)%positive.

(** [(1 + 2^-24)^k] *)
Fixpoint upow (k : nat) : Q :=
  match k with
  | O => 1
  | S k' => (1 + unit_roundoff) * upow k'
  end.

(** The float [x] stands for the exact value [R], of magnitude at most
    [M]: it is off by at most the relative error of [k] roundings on [M],
    plus [b]. *)
Definition approx (x : float) (R M : Q) (k : nat) (b : Q) : Prop :=
  (Qabs (F32.to_Q x - R) <= (upow k - 1) * M + b)%Q /\
  (Qabs R <= M)%Q /\ (0 <= b)%Q.

Definition valid_quad (q : quad float) : Prop :=
  valid (q0 q) = true /\ valid (q1 q) = true /\
  valid (q2 q) = true /\ valid (q3 q) = true.

Definition valid_patch (p : quad (quad float)) : Prop :=
  valid_quad (q0 p) /\ valid_quad (q1 p) /\
  valid_quad (q2 p) /\ valid_quad (q3 p).

(** The error of [Interpolate1D] after the errors [b] of its values:
    each product adds half of the least subnormal number, each of the
    roundings scales what was there. *)
Definition product_error (w b : Q) : Q :=
  ((1 + unit_roundoff) * Qabs w * b + underflow_unit)%Q.

Definition Interpolate1D_error (w b : quad Q) : Q :=
  ((1 + unit_roundoff)
   * ((1 + unit_roundoff)
      * ((1 + unit_roundoff)
         * (product_error (q0 w) (q0 b) + product_error (q1 w) (q1 b))
         + product_error (q2 w) (q2 b))
      + product_error (q3 w) (q3 b)))%Q.

(** The exact value, the magnitude and the error of one product
    [y * x * v] of the full convolution. *)
Definition exact3 (t : float * float * float) : Q :=
  let '(y, x, v) := t in (F32.to_Q y * F32.to_Q x * F32.to_Q v)%Q.

Definition abs3 (t : float * float * float) : Q :=
  let '(y, x, v) := t in
  (Qabs (F32.to_Q y) * Qabs (F32.to_Q x) * Qabs (F32.to_Q v))%Q.

Definition err3 (t : float * float * float) : Q :=
  let '(y, x, v) := t in
  ((1 + unit_roundoff)
   * (Qabs (F32.to_Q y) + Qabs (F32.to_Q x) + Qabs (F32.to_Q v))
   * underflow_unit + underflow_unit)%Q.

Definition valid3 (t : float * float * float) : Prop :=
  let '(y, x, v) := t in
  valid y = true /\ valid x = true /\ valid v = true.

Definition apply3 (prod3 : float -> float -> float -> float)
           (t : float * float * float) : float :=
  let '(y, x, v) := t in prod3 y x v.

(** The factors of the sixteen products, in the order of [conv_terms]. *)
Definition conv_factors (patch : quad (quad float))
           (y_weights x_weights : quad float)
  : list (float * float * float) :=
  flat_map
    (fun yr : float * quad float =>
       map (fun xv : float * float => (fst yr, fst xv, snd xv))
           (combine (quad_list x_weights) (quad_list (snd yr))))
    (combine (quad_list y_weights) (quad_list patch)).

(** The error of a running sum after the errors [errs] of its terms. *)
Definition sum_error (b : Q) (errs : list Q) : Q :=
  fold_left (fun b c => ((1 + unit_roundoff) * (b + c))%Q) errs b.

(** ** The interpolation without rounding *)

Definition to_Q_quad (q : quad float) : quad Q := quad_map F32.to_Q q.

Definition to_Q_patch (p : quad (quad float)) : quad (quad Q) :=
  quad_map to_Q_quad p.

Definition magnitudes (q : quad float) : quad Q :=
  quad_map (fun x => Qabs (F32.to_Q x)) q.

Definition magnitudes_patch (p : quad (quad float)) : quad (quad Q) :=
  quad_map magnitudes p.

(** The value of the interpolation without rounding, and the same
    expression on the magnitudes: the sum of the magnitudes of the sixteen
    products. *)
Definition exact_value (patch : quad (quad float))
           (y_weights x_weights : quad float) : Q :=
  @interpolate_patch Q Q_Arith (to_Q_patch patch) (to_Q_quad y_weights)
    (to_Q_quad x_weights).

Definition magnitude_sum (patch : quad (quad float))
           (y_weights x_weights : quad float) : Q :=
  @interpolate_patch Q Q_Arith (magnitudes_patch patch)
    (magnitudes y_weights) (magnitudes x_weights).

(** One plus the magnitudes of all the operands. *)
Definition operand_sum (patch : quad (quad float))
           (y_weights x_weights : quad float) : Q :=
  (1 + quad_sum (magnitudes y_weights) + quad_sum (magnitudes x_weights)
   + quad_sum (quad_map (fun row => quad_sum (magnitudes row)) patch))%Q.

(** The weights of the table offset K/2, [(-3/32, 19/32, 19/32, -3/32)];
    the patch of the element (1,1) of [plane3] resized to 2x2; a row of
    samples at 0.95 times the largest binary32 number. *)
Definition mid_weights : quad float :=
  Quad (S754_finite true 12582912 (-27)) (S754_finite false 9961472 (-24))
       (S754_finite false 9961472 (-24)) (S754_finite true 12582912 (-27)).

Definition zero_row : quad float :=
  Quad F32.zero F32.zero F32.zero F32.zero.

Definition large_row : quad float :=
  let v := S754_finite false 15938355 104 in Quad v v v v.

Definition plane3_patch : quad (quad float) :=
  Quad zero_row (Quad tenth F32.one F32.zero F32.zero) zero_row zero_row.

Definition large_patch : quad (quad float) :=
  Quad zero_row large_row zero_row zero_row.

(** * Properties *)

(** ** 64-bit wrap-around *)

Ltac index_lia := unfold index_min, index_max in *; lia.

Lemma wrap64_id (z : Z) : index_min <= z <= index_max -> wrap64 z = z.
Proof.
  unfold index_min, index_max, wrap64. intros Hz.
  rewrite Z.mod_small; lia.
Qed.

Lemma wrap64_range (z : Z) : index_min <= wrap64 z <= index_max.
Proof.
  unfold index_min, index_max, wrap64.
  pose proof (Z.mod_pos_bound (z + 2 ^ 63) (2 ^ 64)). lia.
Qed.

Lemma wrap64_congr (a b k : Z) : a = b + k * 2 ^ 64 -> wrap64 a = wrap64 b.
Proof.
  intros ->. unfold wrap64.
  replace (b + k * 2 ^ 64 + 2 ^ 63) with (b + 2 ^ 63 + k * 2 ^ 64) by ring.
  now rewrite Z.mod_add by lia.
Qed.

Lemma wrap64_decomp (z : Z) : exists k, wrap64 z = z + k * 2 ^ 64.
Proof.
  exists (- ((z + 2 ^ 63) / 2 ^ 64)). unfold wrap64.
  rewrite Z.mod_eq by lia. ring.
Qed.

(** ** Buffers and ranges *)

Lemma In_Zrange (n a : Z) : 0 <= a < n -> In a (Zrange n).
Proof.
  intros Ha. unfold Zrange. apply in_map_iff.
  exists (Z.to_nat a). split; [ lia | ].
  apply in_seq. lia.
Qed.

Lemma read_Some_range {A : Type} (buf : list A) (i : Z) (v : A) :
  read buf i = Some v -> 0 <= i < Z.of_nat (length buf).
Proof.
  unfold read. destruct (Z.ltb_spec i 0); [ discriminate | ].
  intros Hn. assert (Hlt : (Z.to_nat i < length buf)%nat).
  { apply nth_error_Some. congruence. }
  lia.
Qed.

Lemma read_in_range {A : Type} (buf : list A) (i : Z) :
  0 <= i < Z.of_nat (length buf) -> exists v, read buf i = Some v.
Proof.
  intros Hi. unfold read. destruct (Z.ltb_spec i 0); [ lia | ].
  destruct (nth_error buf (Z.to_nat i)) as [v | ] eqn:E.
  - now exists v.
  - apply nth_error_None in E. lia.
Qed.

Lemma std_copy_all (src dest : list float) :
  length dest = length src ->
  std_copy src (Z.of_nat (length src)) dest = Some src.
Proof.
  intros Hlen. unfold std_copy. rewrite Hlen, Z.leb_refl. cbn [andb].
  rewrite Nat2Z.id, firstn_all, <- Hlen, skipn_all, app_nil_r.
  reflexivity.
Qed.

Lemma imul_product (a b c d : Z) :
  index_min <= a * b * c * d <= index_max ->
  imul (imul (imul a b) c) d = a * b * c * d.
Proof.
  intros Hr. unfold imul.
  destruct (wrap64_decomp (a * b)) as [k1 ->].
  rewrite (wrap64_congr ((a * b + k1 * 2 ^ 64) * c) (a * b * c) (k1 * c))
    by ring.
  destruct (wrap64_decomp (a * b * c)) as [k2 ->].
  rewrite (wrap64_congr ((a * b * c + k2 * 2 ^ 64) * d) (a * b * c * d)
             (k2 * d)) by ring.
  now apply wrap64_id.
Qed.

(** ** Facts on the binary32 operations *)

Lemma pow2_pos (k : Z) : 0 <= k -> 0 < 2 ^ k.
Proof. intros. apply Z.pow_pos_nonneg; lia. Qed.

Lemma pow2_split (a b : Z) : 0 <= a -> 0 <= b -> 2 ^ (a + b) = 2 ^ a * 2 ^ b.
Proof. intros. apply Z.pow_add_r; assumption. Qed.

Lemma pow2_le_inv (a b : Z) : 0 <= a -> 2 ^ a <= 2 ^ b -> a <= b.
Proof.
  intros Ha H. destruct (Z.le_gt_cases a b) as [ | Hgt ]; [ assumption | ].
  exfalso. destruct (Z.le_gt_cases 0 b) as [Hb | Hb].
  - assert (2 ^ b < 2 ^ a) by (apply Z.pow_lt_mono_r; lia). lia.
  - rewrite (Z.pow_neg_r 2 b) in H by lia.
    pose proof (pow2_pos a Ha). lia.
Qed.

Lemma digits2_pos_bounds (m : positive) :
  2 ^ (Zpos (digits2_pos m) - 1) <= Zpos m < 2 ^ Zpos (digits2_pos m).
Proof.
  induction m as [m IH | m IH | ]; cbn [digits2_pos].
  - rewrite Pos2Z.inj_succ.
    replace (Z.succ (Zpos (digits2_pos m)) - 1)
      with (Z.succ (Zpos (digits2_pos m) - 1)) by lia.
    rewrite !Z.pow_succ_r by lia. lia.
  - rewrite Pos2Z.inj_succ.
    replace (Z.succ (Zpos (digits2_pos m)) - 1)
      with (Z.succ (Zpos (digits2_pos m) - 1)) by lia.
    rewrite !Z.pow_succ_r by lia. lia.
  - cbn. lia.
Qed.

Lemma digits2_pos_unique (m : positive) (d : Z) :
  2 ^ (d - 1) <= Zpos m < 2 ^ d -> Zpos (digits2_pos m) = d.
Proof.
  intros [Hlo Hhi]. pose proof (digits2_pos_bounds m) as [Blo Bhi].
  set (d' := Zpos (digits2_pos m)) in *.
  assert (0 < d).
  { destruct (Z.le_gt_cases d 0) as [Hd | Hd]; [ | exact Hd ].
    exfalso. destruct (Z.eq_dec d 0) as [-> | Hn]; [ cbn in Hhi; lia | ].
    rewrite (Z.pow_neg_r 2 d) in Hhi by lia. lia. }
  destruct (Z.lt_trichotomy d' d) as [Hlt | [Heq | Hgt]]; [ | exact Heq | ].
  - assert (2 ^ d' <= 2 ^ (d - 1)) by (apply Z.pow_le_mono_r; lia). lia.
  - assert (2 ^ d <= 2 ^ (d' - 1)) by (apply Z.pow_le_mono_r; lia). lia.
Qed.

Lemma digits_shift (m m1 : positive) (j : Z) :
  0 <= j -> Zpos m1 = Zpos m * 2 ^ j ->
  Zpos (digits2_pos m1) = Zpos (digits2_pos m) + j.
Proof.
  intros Hj Hm1. apply digits2_pos_unique.
  pose proof (digits2_pos_bounds m) as [Hlo Hhi].
  pose proof (pow2_pos j Hj) as Hp.
  pose proof (Pos2Z.is_pos (digits2_pos m)) as Hd.
  rewrite Hm1.
  replace (Zpos (digits2_pos m) + j - 1)
    with ((Zpos (digits2_pos m) - 1) + j) by lia.
  rewrite !pow2_split by lia. split.
  - apply Z.mul_le_mono_nonneg_r; lia.
  - apply Z.mul_lt_mono_pos_r; lia.
Qed.

Lemma digits_div (m q : positive) (n : Z) :
  0 < n -> Zpos q = Zpos m / 2 ^ n ->
  Zpos (digits2_pos q) = Zpos (digits2_pos m) - n.
Proof.
  intros Hn Hq. pose proof (digits2_pos_bounds m) as [Hlo Hhi].
  set (d := Zpos (digits2_pos m)) in *.
  pose proof (pow2_pos n ltac:(lia)) as Hp.
  assert (Hge : 2 ^ n <= Zpos m).
  { destruct (Z.le_gt_cases (2 ^ n) (Zpos m)) as [ | Hlt ]; [ assumption | ].
    rewrite Z.div_small in Hq by lia. lia. }
  assert (Hnd : n < d).
  { apply (Z.pow_lt_mono_r_iff 2); [ lia | unfold d; lia | lia ]. }
  apply digits2_pos_unique. rewrite Hq. split.
  - apply Z.div_le_lower_bound; [ lia | ].
    rewrite Z.mul_comm, <- pow2_split by lia.
    replace (d - n - 1 + n) with (d - 1) by lia. exact Hlo.
  - apply Z.div_lt_upper_bound; [ lia | ].
    rewrite <- pow2_split by lia.
    replace (n + (d - n)) with d by lia. exact Hhi.
Qed.

Lemma digits_succ (m p : positive) :
  Zpos p = Zpos m + 1 ->
  Zpos (digits2_pos p) = Zpos (digits2_pos m) \/
  (Zpos p = 2 ^ Zpos (digits2_pos m) /\
   Zpos (digits2_pos p) = Zpos (digits2_pos m) + 1).
Proof.
  intros Hp. pose proof (digits2_pos_bounds m) as [Hlo Hhi].
  set (d := Zpos (digits2_pos m)) in *.
  destruct (Z.eq_dec (Zpos m + 1) (2 ^ d)) as [Heq | Hne].
  - right. split; [ lia | ].
    apply digits2_pos_unique. replace (d + 1 - 1) with d by lia.
    rewrite Z.pow_add_r by (unfold d; lia). lia.
  - left. apply digits2_pos_unique. lia.
Qed.

Lemma digits_mul_lower (a b : positive) :
  Zpos (digits2_pos a) + Zpos (digits2_pos b) - 1
  <= Zpos (digits2_pos (a * b)).
Proof.
  pose proof (digits2_pos_bounds a) as [Alo _].
  pose proof (digits2_pos_bounds b) as [Blo _].
  pose proof (digits2_pos_bounds (a * b)) as [_ Phi].
  set (da := Zpos (digits2_pos a)) in *.
  set (db := Zpos (digits2_pos b)) in *.
  assert (Hlt : 2 ^ (da - 1 + (db - 1)) < 2 ^ Zpos (digits2_pos (a * b))).
  { rewrite pow2_split by (unfold da, db; lia).
    apply Z.le_lt_trans with (2 := Phi). rewrite Pos2Z.inj_mul.
    pose proof (pow2_pos (da - 1) ltac:(unfold da; lia)).
    pose proof (pow2_pos (db - 1) ltac:(unfold db; lia)).
    apply Z.mul_le_mono_nonneg; lia. }
  apply Z.pow_lt_mono_r_iff in Hlt; lia.
Qed.

(** A positive [m] with [m * 2^e <= B * 2^eb], where [B] has at most 24
    bits, has its leading bit at most 24 places above [eb]. *)
Lemma digits_below (m : positive) (e B eb : Z) :
  e <= eb -> 0 < B < 2 ^ 24 -> Zpos m <= B * 2 ^ (eb - e) ->
  Zpos (digits2_pos m) + e - 24 <= eb.
Proof.
  intros Hek HB Hm. pose proof (digits2_pos_bounds m) as [Hlo _].
  pose proof (pow2_pos (eb - e) ltac:(lia)) as Hp.
  assert (Hlt : 2 ^ (Zpos (digits2_pos m) - 1) < 2 ^ (24 + (eb - e))).
  { rewrite pow2_split by lia.
    apply Z.le_lt_trans with (1 := Hlo). apply Z.le_lt_trans with (1 := Hm).
    apply Z.mul_lt_mono_pos_r; [ exact Hp | apply HB ]. }
  apply Z.pow_lt_mono_r_iff in Hlt; lia.
Qed.

Lemma fexp32 (x : Z) : fexp F32.prec F32.emax x = Z.max (x - 24) (-149).
Proof. reflexivity. Qed.

Lemma valid_finite (s : bool) (m : positive) (e : Z) :
  valid (S754_finite s m e) = true ->
  fexp F32.prec F32.emax (Zpos (digits2_pos m) + e) = e /\
  -149 <= e <= 104 /\ Zpos m < 2 ^ 24.
Proof.
  unfold valid, valid_binary, bounded, canonical_mantissa.
  intros H. apply andb_prop in H as [Hc Hb].
  apply Z.eqb_eq in Hc. apply Z.leb_le in Hb.
  unfold F32.emax, F32.prec in Hb.
  split; [ exact Hc | ]. rewrite fexp32 in Hc.
  split; [ lia | ].
  pose proof (digits2_pos_bounds m) as [_ Hhi].
  apply Z.lt_le_trans with (1 := Hhi).
  apply Z.pow_le_mono_r; lia.
Qed.

Lemma valid_finite_intro (s : bool) (m : positive) (e : Z) :
  fexp F32.prec F32.emax (Zpos (digits2_pos m) + e) = e -> e <= 104 ->
  valid (S754_finite s m e) = true.
Proof.
  intros Hc He. unfold valid, valid_binary, bounded, canonical_mantissa.
  rewrite Hc, Z.eqb_refl. apply Z.leb_le.
  unfold F32.emax, F32.prec. lia.
Qed.

(** *** Shifts and rounding *)

(** [iter_pos] is the iteration counted in unary. *)
Lemma iter_pos_nat {A : Type} (f : A -> A) (n : positive) (x : A) :
  iter_pos f n x = Nat.iter (Pos.to_nat n) f x.
Proof.
  revert x. induction n as [n IH | n IH | ]; intros x; cbn [iter_pos].
  - rewrite !IH, Pos2Nat.inj_xI.
    replace (S (2 * Pos.to_nat n)) with (Pos.to_nat n + (Pos.to_nat n + 1))%nat
      by lia.
    rewrite !Nat.iter_add. cbn. reflexivity.
  - rewrite !IH, Pos2Nat.inj_xO.
    replace (2 * Pos.to_nat n)%nat with (Pos.to_nat n + Pos.to_nat n)%nat
      by lia.
    now rewrite Nat.iter_add.
  - reflexivity.
Qed.

(** One step of the right shift, on a non-negative mantissa. *)
Lemma shr_1_spec (m : Z) (r s : bool) :
  0 <= m ->
  shr_1 (Build_shr_record m r s)
  = Build_shr_record (m / 2) (Z.odd m) (r || s).
Proof.
  intros Hm. rewrite <- Z.div2_div.
  destruct m as [ | [p | p | ] | p ]; try lia; reflexivity.
Qed.

(** [n] steps of the right shift from an exact record: the mantissa is the
    quotient by [2^n], and the location is exact when nothing was lost. *)
Lemma shr_iter_spec (m : Z) (n : nat) :
  0 <= m ->
  let mrs := Nat.iter n shr_1 (Build_shr_record m false false) in
  shr_m mrs = m / 2 ^ Z.of_nat n /\
  (m mod 2 ^ Z.of_nat n = 0 -> shr_r mrs = false /\ shr_s mrs = false).
Proof.
  intros Hm. induction n as [ | n IH ].
  - cbn. rewrite Z.div_1_r. auto.
  - cbn zeta in *. rewrite Nat2Z.inj_succ, Z.pow_succ_r by lia.
    rewrite Nat.iter_succ.
    destruct (Nat.iter n shr_1 _) as [m' r' s'] eqn:E.
    cbn [shr_m shr_r shr_s] in IH. destruct IH as [IHm IHe].
    assert (Hp : 0 < 2 ^ Z.of_nat n) by (apply pow2_pos; lia).
    assert (Hm' : 0 <= m') by (rewrite IHm; apply Z.div_pos; lia).
    rewrite shr_1_spec by exact Hm'. cbn [shr_m shr_r shr_s].
    split.
    + rewrite IHm, Z.div_div by lia. f_equal. ring.
    + intros Hmod.
      assert (Hdiv : m = 2 * 2 ^ Z.of_nat n * (m / (2 * 2 ^ Z.of_nat n))).
      { rewrite (Z.div_mod m (2 * 2 ^ Z.of_nat n)) at 1 by lia. lia. }
      assert (Hmod' : m mod 2 ^ Z.of_nat n = 0).
      { rewrite Hdiv.
        replace (2 * 2 ^ Z.of_nat n * (m / (2 * 2 ^ Z.of_nat n)))
          with (2 * (m / (2 * 2 ^ Z.of_nat n)) * 2 ^ Z.of_nat n) by ring.
        apply Z.mod_mul. lia. }
      destruct (IHe Hmod') as [-> ->]. split; [ | reflexivity ].
      rewrite IHm. rewrite Hdiv at 1.
      replace (2 * 2 ^ Z.of_nat n * (m / (2 * 2 ^ Z.of_nat n)))
        with (2 * (m / (2 * 2 ^ Z.of_nat n)) * 2 ^ Z.of_nat n) by ring.
      rewrite Z.div_mul by lia.
      rewrite Z.odd_mul. reflexivity.
Qed.

Lemma shr_spec (m e n : Z) :
  0 <= m -> 0 < n ->
  exists mrs,
    shr (Build_shr_record m false false) e n = (mrs, e + n) /\
    shr_m mrs = m / 2 ^ n /\
    (m mod 2 ^ n = 0 -> loc_of_shr_record mrs = loc_Exact).
Proof.
  intros Hm Hn. destruct n as [ | p | p ]; try lia.
  unfold shr. rewrite iter_pos_nat.
  pose proof (shr_iter_spec m (Pos.to_nat p) Hm) as H. cbn zeta in H.
  rewrite positive_nat_Z in H. destruct H as [H1 H2].
  eexists. split; [ reflexivity | ]. split; [ exact H1 | ].
  intros Hmod. destruct (H2 Hmod) as [Hr Hs].
  destruct (Nat.iter _ _ _) as [m' r' s']. cbn in Hr, Hs. subst.
  reflexivity.
Qed.

Lemma shr_nonpos (mrs : shr_record) (e n : Z) :
  n <= 0 -> shr mrs e n = (mrs, e).
Proof. intros Hn. destruct n; try lia; reflexivity. Qed.

Lemma shift_pos_iter (m : positive) (d : positive) :
  Zpos (Pos.iter xO m d) = Zpos m * 2 ^ Zpos d.
Proof.
  induction d as [ | d IH ] using Pos.peano_ind.
  - cbn. lia.
  - rewrite Pos.iter_succ, Pos2Z.inj_succ, Z.pow_succ_r by lia.
    rewrite Pos2Z.inj_xO, IH. ring.
Qed.

(** [shl_align] keeps the value and lowers the exponent to the target. *)
Lemma shl_align_spec (m : positive) (e e' : Z) :
  let '(m1, e1) := shl_align m e e' in
  e1 = Z.min e e' /\ Zpos m1 = Zpos m * 2 ^ (e - e1).
Proof.
  unfold shl_align. destruct (e' - e) as [ | d | d ] eqn:Ed.
  - split; [ lia | ]. replace (e - e) with 0 by lia. cbn. lia.
  - split; [ lia | ]. replace (e - e) with 0 by lia. cbn. lia.
  - split; [ lia | ]. rewrite shift_pos_iter. f_equal. f_equal. lia.
Qed.

Lemma round_nearest_even_bounds (m : Z) (l : location) :
  m <= round_nearest_even m l <= m + 1 /\
  (l = loc_Exact -> round_nearest_even m l = m).
Proof.
  destruct l as [ | [ | | ] ]; cbn; try destruct (Z.even m);
    (split; [ lia | first [ reflexivity | discriminate ] ]).
Qed.

Lemma shr_fexp_noshift (m : positive) (e : Z) :
  fexp F32.prec F32.emax (Zpos (digits2_pos m) + e) <= e ->
  shr_fexp F32.prec F32.emax (Zpos m) e loc_Exact
  = (Build_shr_record (Zpos m) false false, e).
Proof.
  intros H. unfold shr_fexp. cbn [Zdigits2 shr_record_of_loc].
  apply shr_nonpos. lia.
Qed.

Lemma shr_fexp_shift (m q : positive) (e n : Z) :
  n = fexp F32.prec F32.emax (Zpos (digits2_pos m) + e) - e ->
  0 < n -> Zpos m = Zpos q * 2 ^ n ->
  exists mrs,
    shr_fexp F32.prec F32.emax (Zpos m) e loc_Exact = (mrs, e + n) /\
    shr_m mrs = Zpos q /\ loc_of_shr_record mrs = loc_Exact.
Proof.
  intros Hn Hpos Hm. unfold shr_fexp. cbn [Zdigits2 shr_record_of_loc].
  rewrite <- Hn.
  destruct (shr_spec (Zpos m) e n ltac:(lia) Hpos) as (mrs & Hs & Hq & Hl).
  pose proof (pow2_pos n ltac:(lia)) as Hp.
  exists mrs. split; [ exact Hs | ]. split.
  - rewrite Hq, Hm. apply Z.div_mul. lia.
  - apply Hl. rewrite Hm. apply Z.mod_mul. lia.
Qed.

Lemma shr_fexp_zero (e : Z) :
  shr_m (fst (shr_fexp F32.prec F32.emax 0 e loc_Exact)) = 0.
Proof.
  unfold shr_fexp. cbn [Zdigits2 shr_record_of_loc].
  set (n := fexp F32.prec F32.emax (0 + e) - e).
  destruct (Z.le_gt_cases n 0) as [Hn | Hn].
  - now rewrite shr_nonpos.
  - destruct (shr_spec 0 e n ltac:(lia) ltac:(lia)) as (mrs & -> & Hm & _).
    cbn. rewrite Hm. apply Z.div_0_l.
    pose proof (pow2_pos n ltac:(lia)). lia.
Qed.

(** *** Rounding below a binary32 bound *)

(** One stage "shift to the target exponent, then round" keeps a value
    that is at most [B * 2^eb] at most [B * 2^eb]. *)
Lemma shr_fexp_upper (m : positive) (e B eb : Z) :
  -149 <= eb -> 0 < B < 2 ^ 24 -> e <= eb -> Zpos m <= B * 2 ^ (eb - e) ->
  exists mrs e',
    shr_fexp F32.prec F32.emax (Zpos m) e loc_Exact = (mrs, e') /\
    e <= e' <= eb /\
    0 <= shr_m mrs /\
    0 <= round_nearest_even (shr_m mrs) (loc_of_shr_record mrs)
      <= B * 2 ^ (eb - e').
Proof.
  intros Hk HB Hek Hm.
  pose proof (digits_below m e B eb Hek HB Hm) as Hd.
  unfold shr_fexp. cbn [Zdigits2 shr_record_of_loc]. rewrite fexp32.
  set (d := Zpos (digits2_pos m)) in *.
  set (n := Z.max (d + e - 24) (-149) - e).
  destruct (Z.le_gt_cases n 0) as [Hn | Hn].
  - rewrite shr_nonpos by exact Hn.
    eexists _, _. split; [ reflexivity | ]. cbn. lia.
  - destruct (shr_spec (Zpos m) e n ltac:(lia) ltac:(lia))
      as (mrs & Hshr & Hmrs & Hloc).
    exists mrs, (e + n). split; [ exact Hshr | ].
    assert (Hp : 0 < 2 ^ n) by (apply pow2_pos; lia).
    assert (Hsplit : 2 ^ (eb - e) = 2 ^ (eb - (e + n)) * 2 ^ n).
    { rewrite <- pow2_split by lia. f_equal. lia. }
    assert (Hq : 0 <= Zpos m / 2 ^ n <= B * 2 ^ (eb - (e + n))).
    { split; [ apply Z.div_pos; lia | ].
      apply Z.div_le_upper_bound; [ lia | ].
      rewrite Hsplit in Hm. lia. }
    repeat split; try lia.
    + destruct (round_nearest_even_bounds (shr_m mrs)
                  (loc_of_shr_record mrs)) as [[Hlo _] _]. lia.
    + destruct (round_nearest_even_bounds (shr_m mrs)
                  (loc_of_shr_record mrs)) as [[_ Hhi] Hex].
      destruct (Z.eq_dec (Zpos m mod 2 ^ n) 0) as [Hz | Hnz].
      * rewrite (Hex (Hloc Hz)). lia.
      * assert (Zpos m / 2 ^ n <> B * 2 ^ (eb - (e + n))).
        { intros Heq. apply Hnz.
          pose proof (Z.div_mod (Zpos m) (2 ^ n) ltac:(lia)) as Hdm.
          pose proof (Z.mod_pos_bound (Zpos m) (2 ^ n) Hp).
          rewrite Heq, Hsplit in *. lia. }
        lia.
Qed.

(** Rounding to binary32 of [m * 2^e <= B * 2^eb], the bound being a
    binary32 number, stays at most the bound. *)
Lemma binary_round_aux_upper (s : bool) (m : positive) (e B eb : Z) :
  -149 <= eb <= 104 -> 0 < B < 2 ^ 24 -> e <= eb ->
  Zpos m <= B * 2 ^ (eb - e) ->
  at_most s B eb
    (binary_round_aux F32.prec F32.emax s (Zpos m) e loc_Exact).
Proof.
  intros Hk HB Hek Hm. unfold binary_round_aux.
  destruct (shr_fexp_upper m e B eb ltac:(lia) HB Hek Hm)
    as (mrs1 & e1 & -> & He1 & Hm1 & Hr).
  set (r := round_nearest_even (shr_m mrs1) (loc_of_shr_record mrs1)) in *.
  destruct r as [ | p | p ] eqn:Er; try lia.
  - pose proof (shr_fexp_zero e1) as Hz.
    destruct (shr_fexp F32.prec F32.emax 0 e1 loc_Exact) as [mrs2 e2].
    cbn in Hz. rewrite Hz. now left.
  - destruct (shr_fexp_upper p e1 B eb ltac:(lia) HB ltac:(lia) ltac:(lia))
      as (mrs2 & e2 & -> & He2 & Hm2 & Hr2).
    destruct (round_nearest_even_bounds (shr_m mrs2)
                (loc_of_shr_record mrs2)) as [[Hlo _] _].
    destruct (shr_m mrs2) as [ | m2 | m2 ] eqn:Em2; try lia.
    + now left.
    + replace (e2 <=? F32.emax - F32.prec) with true
        by (symmetry; apply Z.leb_le; unfold F32.emax, F32.prec; lia).
      right. exists m2, e2. repeat split; lia.
Qed.

Lemma binary_round_upper (s : bool) (m : positive) (e B eb : Z) :
  -149 <= eb <= 104 -> 0 < B < 2 ^ 24 -> e <= eb ->
  Zpos m <= B * 2 ^ (eb - e) ->
  at_most s B eb (binary_round F32.prec F32.emax s m e).
Proof.
  intros Hk HB Hek Hm. unfold binary_round.
  pose proof (shl_align_spec m e
                (fexp F32.prec F32.emax (Zpos (digits2_pos m) + e))) as Hs.
  destruct (shl_align m e _) as [m1 e1]. destruct Hs as [He1 Hm1].
  apply binary_round_aux_upper; try lia.
  rewrite Hm1.
  replace (eb - e1) with ((eb - e) + (e - e1)) by lia.
  rewrite pow2_split by lia.
  pose proof (pow2_pos (e - e1) ltac:(lia)).
  pose proof (pow2_pos (eb - e) ltac:(lia)). nia.
Qed.

(** *** Exact results *)

Lemma binary_round_aux_noshift (s : bool) (m : positive) (e : Z) :
  fexp F32.prec F32.emax (Zpos (digits2_pos m) + e) <= e -> e <= 104 ->
  binary_round_aux F32.prec F32.emax s (Zpos m) e loc_Exact
  = S754_finite s m e.
Proof.
  intros H He. unfold binary_round_aux.
  rewrite shr_fexp_noshift by exact H.
  cbn [shr_m loc_of_shr_record round_nearest_even].
  rewrite shr_fexp_noshift by exact H. cbn [shr_m].
  replace (e <=? F32.emax - F32.prec) with true; [ reflexivity | ].
  symmetry. apply Z.leb_le. unfold F32.emax, F32.prec. lia.
Qed.

Lemma binary_round_aux_shift (s : bool) (m q : positive) (e n : Z) :
  n = fexp F32.prec F32.emax (Zpos (digits2_pos m) + e) - e ->
  0 < n -> Zpos m = Zpos q * 2 ^ n -> e + n <= 104 ->
  binary_round_aux F32.prec F32.emax s (Zpos m) e loc_Exact
  = S754_finite s q (e + n).
Proof.
  intros Hn Hpos Hm He. unfold binary_round_aux.
  destruct (shr_fexp_shift m q e n Hn Hpos Hm) as (mrs & -> & Hq & Hl).
  rewrite Hq, Hl. cbn [round_nearest_even].
  pose proof (digits_shift q m n ltac:(lia) Hm) as Hd.
  rewrite shr_fexp_noshift
    by (replace (Zpos (digits2_pos q) + (e + n))
          with (Zpos (digits2_pos m) + e) by lia; lia).
  cbn [shr_m].
  replace (e + n <=? F32.emax - F32.prec) with true; [ reflexivity | ].
  symmetry. apply Z.leb_le. unfold F32.emax, F32.prec. lia.
Qed.

(** Rounding a number that the format holds changes nothing: either the
    mantissa is padded to the target exponent [E], or the bits below [E]
    are all zero. *)
Lemma binary_round_pad (s : bool) (m m1 : positive) (e E : Z) :
  E = fexp F32.prec F32.emax (Zpos (digits2_pos m) + e) ->
  E <= e -> E <= 104 -> Zpos m1 = Zpos m * 2 ^ (e - E) ->
  binary_round F32.prec F32.emax s m e = S754_finite s m1 E.
Proof.
  intros HE Hle H104 Hm1. unfold binary_round. rewrite <- HE.
  pose proof (shl_align_spec m e E) as Hs.
  destruct (shl_align m e E) as [m' e']. destruct Hs as [He' Hm'].
  assert (He : e' = E) by lia. rewrite He in *. clear He.
  assert (m' = m1) by (apply Pos2Z.inj; congruence). subst m'.
  apply binary_round_aux_noshift; [ | exact H104 ].
  rewrite (digits_shift m m1 (e - E)) by (lia || assumption).
  replace (Zpos (digits2_pos m) + (e - E) + E)
    with (Zpos (digits2_pos m) + e) by lia.
  lia.
Qed.

Lemma binary_round_strip (s : bool) (m q : positive) (e E : Z) :
  E = fexp F32.prec F32.emax (Zpos (digits2_pos m) + e) ->
  e < E -> E <= 104 -> Zpos m = Zpos q * 2 ^ (E - e) ->
  binary_round F32.prec F32.emax s m e = S754_finite s q E.
Proof.
  intros HE Hlt H104 Hm. unfold binary_round. rewrite <- HE.
  pose proof (shl_align_spec m e E) as Hs.
  destruct (shl_align m e E) as [m' e']. destruct Hs as [He' Hm'].
  assert (He : e' = e) by lia. rewrite He in *. clear He.
  replace (e - e) with 0 in Hm' by lia. rewrite Z.pow_0_r, Z.mul_1_r in Hm'.
  apply Pos2Z.inj in Hm'. subst m'.
  rewrite (binary_round_aux_shift s m q e (E - e)); try lia; try exact Hm.
  f_equal. lia.
Qed.

(** Conversion of a small integer to binary32 is exact. *)
Lemma binary_round_small (s : bool) (p : positive) :
  Zpos p < 2 ^ 24 ->
  exists mn en,
    binary_round F32.prec F32.emax s p 0 = S754_finite s mn en /\
    -23 <= en <= 0 /\ Zpos mn = Zpos p * 2 ^ (- en) /\ Zpos mn < 2 ^ 24.
Proof.
  intros Hp. pose proof (digits2_pos_bounds p) as [Hlo Hhi].
  set (d := Zpos (digits2_pos p)) in *.
  assert (Hd : 1 <= d <= 24).
  { split; [ unfold d; lia | ].
    assert (d - 1 < 24); [ | lia ].
    apply (Z.pow_lt_mono_r_iff 2); lia. }
  pose proof (pow2_pos (24 - d) ltac:(lia)) as Hpw.
  assert (Hpos : 0 < Zpos p * 2 ^ (24 - d)) by lia.
  destruct (Zpos p * 2 ^ (24 - d)) as [ | mn | mn ] eqn:Emn; try lia.
  exists mn, (d - 24).
  split.
  - apply binary_round_pad; try lia.
    + rewrite fexp32. fold d. lia.
    + rewrite <- Emn. f_equal. f_equal. lia.
  - split; [ lia | ]. split.
    + rewrite <- Emn. f_equal. f_equal. lia.
    + rewrite <- Emn.
      replace (2 ^ 24) with (2 ^ d * 2 ^ (24 - d))
        by (rewrite <- pow2_split by lia; f_equal; lia).
      apply Z.mul_lt_mono_pos_r; lia.
Qed.

(** Conversion of an integer below 2^24 in magnitude, as a case
    analysis. *)
Lemma binary_normalize_small (n : Z) (sz : bool) :
  - 2 ^ 24 < n < 2 ^ 24 ->
  (n = 0 /\ binary_normalize F32.prec F32.emax n 0 sz = S754_zero sz) \/
  exists s p mn en,
    n = cond_Zopp s (Zpos p) /\
    binary_normalize F32.prec F32.emax n 0 sz = S754_finite s mn en /\
    -23 <= en <= 0 /\ Zpos mn = Zpos p * 2 ^ (- en) /\ Zpos mn < 2 ^ 24.
Proof.
  intros Hn. destruct n as [ | p | p ].
  - left. now split.
  - right. destruct (binary_round_small false p ltac:(lia))
      as (mn & en & H1 & H2 & H3 & H4).
    exists false, p, mn, en. repeat split; (assumption || lia).
  - right. destruct (binary_round_small true p ltac:(lia))
      as (mn & en & H1 & H2 & H3 & H4).
    exists true, p, mn, en. repeat split; (assumption || lia).
Qed.

(** Conversion of the value of an integral binary32 number gives the
    number back. *)
Lemma of_Z_integral (s : bool) (m : positive) (e : Z) :
  valid (S754_finite s m e) = true -> 0 <= e ->
  F32.of_Z (F32.smant s m * 2 ^ e) = S754_finite s m e.
Proof.
  intros Hv He. destruct (valid_finite s m e Hv) as (Hc & Hr & Hm).
  pose proof (pow2_pos e He) as Hpw.
  assert (Hpos : 0 < Zpos m * 2 ^ e) by lia.
  destruct (Zpos m * 2 ^ e) as [ | p | p ] eqn:Ep; try lia.
  assert (Hround : binary_round F32.prec F32.emax s p 0 = S754_finite s m e).
  { pose proof (digits_shift m p e He (eq_sym Ep)) as Hd.
    assert (HE : e = fexp F32.prec F32.emax (Zpos (digits2_pos p) + 0)).
    { rewrite Hd.
      replace (Zpos (digits2_pos m) + e + 0)
        with (Zpos (digits2_pos m) + e) by lia.
      now rewrite Hc. }
    destruct (Z.eq_dec e 0) as [He0 | Hne].
    - apply binary_round_pad; try lia.
      rewrite He0 in Ep. rewrite He0. cbn in Ep |- *. lia.
    - apply binary_round_strip; try lia.
      rewrite Z.sub_0_r. lia. }
  unfold F32.of_Z, F32.smant.
  destruct s; cbn [cond_Zopp].
  - replace (- Zpos m * 2 ^ e) with (Zneg p) by lia. exact Hround.
  - rewrite Ep. exact Hround.
Qed.

Lemma sub_finite (s s' : bool) (m m' : positive) (e e' : Z) :
  F32.sub (S754_finite s m e) (S754_finite s' m' e')
  = binary_normalize F32.prec F32.emax
      (cond_Zopp s (Zpos (fst (shl_align m e (Z.min e e'))))
       - cond_Zopp s' (Zpos (fst (shl_align m' e' (Z.min e e')))))
      (Z.min e e') false.
Proof. reflexivity. Qed.

Lemma cond_Zopp_mul (s : bool) (a b : Z) :
  cond_Zopp s a * b = cond_Zopp s (a * b).
Proof. destruct s; cbn; ring. Qed.

(** *** The operations stay within binary32 *)

(** The closing steps of [binary_round_aux]: a mantissa in canonical
    position or one past it (after the rounding carried into a new bit). *)
Lemma round_tail_valid (s : bool) (p : positive) (E : Z) :
  fexp F32.prec F32.emax (Zpos (digits2_pos p) + E) = E \/
  (exists d, 0 < d /\ Zpos p = 2 ^ d /\
             fexp F32.prec F32.emax (d + E) = E) ->
  valid
    (let '(mrs, e) := shr_fexp F32.prec F32.emax (Zpos p) E loc_Exact in
     match shr_m mrs with
     | 0 => S754_zero s
     | Zpos m => if e <=? F32.emax - F32.prec
                 then S754_finite s m e else S754_infinity s
     | Zneg _ => S754_nan
     end) = true.
Proof.
  intros [Hc | (d & Hd & Hp & Hc)].
  - rewrite shr_fexp_noshift by lia. cbn [shr_m].
    destruct (Z.leb_spec E (F32.emax - F32.prec)) as [HE | HE];
      [ | reflexivity ].
    apply valid_finite_intro; [ exact Hc | ].
    unfold F32.emax, F32.prec in HE. lia.
  - assert (Hdig : Zpos (digits2_pos p) = d + 1).
    { apply digits2_pos_unique. rewrite Hp.
      replace (d + 1 - 1) with d by lia.
      rewrite Z.pow_add_r by lia. lia. }
    rewrite fexp32 in Hc.
    destruct (Z.eq_dec (fexp F32.prec F32.emax (d + 1 + E)) E) as [He | He].
    + rewrite shr_fexp_noshift by (rewrite Hdig; lia). cbn [shr_m].
      destruct (Z.leb_spec E (F32.emax - F32.prec)) as [HE | HE];
        [ | reflexivity ].
      apply valid_finite_intro; [ now rewrite Hdig | ].
      unfold F32.emax, F32.prec in HE. lia.
    + rewrite fexp32 in He.
      assert (Hq : 0 < 2 ^ (d - 1)) by (apply pow2_pos; lia).
      destruct (2 ^ (d - 1)) as [ | q | q ] eqn:Eq; try lia.
      assert (Hpq : Zpos p = Zpos q * 2 ^ 1).
      { rewrite Hp, <- Eq, <- pow2_split by lia. f_equal. lia. }
      destruct (shr_fexp_shift p q E 1) as (mrs & -> & Hm & _);
        [ rewrite Hdig, fexp32; lia | lia | exact Hpq | ].
      rewrite Hm.
      destruct (Z.leb_spec (E + 1) (F32.emax - F32.prec)) as [HE | HE];
        [ | reflexivity ].
      apply valid_finite_intro.
      * assert (Hdq : Zpos (digits2_pos q) = d).
        { apply digits2_pos_unique. rewrite <- Eq.
          split; [ lia | ]. apply Z.pow_lt_mono_r; lia. }
        rewrite Hdq, fexp32. lia.
      * unfold F32.emax, F32.prec in HE. lia.
Qed.

Lemma binary_round_aux_valid (s : bool) (m : positive) (e : Z) :
  e <= fexp F32.prec F32.emax (Zpos (digits2_pos m) + e) ->
  valid (binary_round_aux F32.prec F32.emax s (Zpos m) e loc_Exact) = true.
Proof.
  intros Hle. unfold binary_round_aux.
  set (E := fexp F32.prec F32.emax (Zpos (digits2_pos m) + e)) in *.
  destruct (Z.eq_dec E e) as [Heq | Hne].
  - rewrite shr_fexp_noshift by (fold E; lia).
    cbn [shr_m loc_of_shr_record round_nearest_even].
    apply round_tail_valid. left. fold E. lia.
  - unfold shr_fexp at 1. cbn [Zdigits2 shr_record_of_loc]. fold E.
    destruct (shr_spec (Zpos m) e (E - e) ltac:(lia) ltac:(lia))
      as (mrs & -> & Hm1 & _).
    replace (e + (E - e)) with E by lia.
    pose proof (pow2_pos (E - e) ltac:(lia)) as Hp.
    destruct (round_nearest_even_bounds (shr_m mrs) (loc_of_shr_record mrs))
      as [[Hlo Hhi] _].
    set (r := round_nearest_even (shr_m mrs) (loc_of_shr_record mrs)) in *.
    assert (Hm1pos : 0 <= shr_m mrs)
      by (rewrite Hm1; apply Z.div_pos; lia).
    destruct r as [ | p | p ] eqn:Er; try lia.
    + pose proof (shr_fexp_zero E) as Hz.
      destruct (shr_fexp F32.prec F32.emax 0 E loc_Exact) as [mrs2 e2].
      cbn in Hz. rewrite Hz. reflexivity.
    + apply round_tail_valid.
      destruct (shr_m mrs) as [ | q | q ] eqn:Eq; try lia.
      * (* everything was shifted out: the result is the least number *)
        assert (p = 1%positive) by lia. subst p. left. cbn [digits2_pos].
        assert (Hsmall : Zpos m < 2 ^ (E - e)).
        { destruct (Z.lt_ge_cases (Zpos m) (2 ^ (E - e))) as [ | Hge ];
            [ assumption | ].
          assert (1 <= Zpos m / 2 ^ (E - e));
            [ apply Z.div_le_lower_bound; lia | lia ]. }
        pose proof (digits2_pos_bounds m) as [Blo _].
        assert (Zpos (digits2_pos m) - 1 < E - e).
        { apply (Z.pow_lt_mono_r_iff 2); lia. }
        assert (HE : E = Z.max (Zpos (digits2_pos m) + e - 24) (-149))
          by (unfold E; apply fexp32).
        rewrite fexp32. lia.
      * pose proof (digits_div m q (E - e) ltac:(lia) Hm1) as Hdq.
        assert (Hcq : fexp F32.prec F32.emax (Zpos (digits2_pos q) + E) = E).
        { rewrite Hdq.
          replace (Zpos (digits2_pos m) - (E - e) + E)
            with (Zpos (digits2_pos m) + e) by lia.
          reflexivity. }
        destruct (Z.eq_dec (Zpos p) (Zpos q)) as [Hpq | Hpq].
        -- left. injection Hpq as ->. exact Hcq.
        -- destruct (digits_succ q p ltac:(lia)) as [Hd | [Hp2 Hd]].
           ++ left. now rewrite Hd.
           ++ right. exists (Zpos (digits2_pos q)).
              split; [ lia | ]. split; [ exact Hp2 | exact Hcq ].
Qed.

Lemma binary_round_valid (s : bool) (m : positive) (e : Z) :
  valid (binary_round F32.prec F32.emax s m e) = true.
Proof.
  unfold binary_round.
  set (E := fexp F32.prec F32.emax (Zpos (digits2_pos m) + e)).
  pose proof (shl_align_spec m e E) as Hs.
  destruct (shl_align m e E) as [m1 e1]. destruct Hs as [He1 Hm1].
  apply binary_round_aux_valid.
  rewrite (digits_shift m m1 (e - e1)) by (lia || assumption).
  replace (Zpos (digits2_pos m) + (e - e1) + e1)
    with (Zpos (digits2_pos m) + e) by lia.
  fold E. lia.
Qed.

Lemma binary_normalize_valid (m e : Z) (sz : bool) :
  valid (binary_normalize F32.prec F32.emax m e sz) = true.
Proof.
  destruct m; cbn [binary_normalize];
    [ reflexivity | apply binary_round_valid | apply binary_round_valid ].
Qed.

Lemma of_Z_valid (n : Z) : valid (F32.of_Z n) = true.
Proof. apply binary_normalize_valid. Qed.

Lemma add_valid (x y : float) :
  valid x = true -> valid y = true -> valid (F32.add x y) = true.
Proof.
  intros Hx Hy. unfold F32.add.
  destruct x as [ sx | sx | | sx mx ex ], y as [ sy | sy | | sy my ey ];
    cbn [SFadd]; try assumption; try reflexivity;
    try (destruct sx, sy; reflexivity).
  apply binary_normalize_valid.
Qed.

Lemma sub_valid (x y : float) :
  valid x = true -> valid y = true -> valid (F32.sub x y) = true.
Proof.
  intros Hx Hy. unfold F32.sub.
  destruct x as [ sx | sx | | sx mx ex ], y as [ sy | sy | | sy my ey ];
    cbn [SFsub]; try assumption; try reflexivity;
    try (destruct sx, sy; reflexivity).
  apply binary_normalize_valid.
Qed.

Lemma mul_valid (x y : float) :
  valid x = true -> valid y = true -> valid (F32.mul x y) = true.
Proof.
  intros Hx Hy. unfold F32.mul.
  destruct x as [ sx | sx | | sx mx ex ], y as [ sy | sy | | sy my ey ];
    cbn [SFmul]; try reflexivity.
  destruct (valid_finite sx mx ex Hx) as (Hcx & Hrx & _).
  destruct (valid_finite sy my ey Hy) as (Hcy & Hry & _).
  apply binary_round_aux_valid.
  pose proof (digits_mul_lower mx my) as Hd.
  rewrite fexp32 in *. lia.
Qed.

(** *** Rounding to the nearest integer *)

Lemma round_half_even_bounds (m d K : Z) :
  0 <= m -> 0 < d -> m <= K * d ->
  0 <= F32.round_half_even m d <= K.
Proof.
  intros Hm Hd HK. unfold F32.round_half_even.
  pose proof (Z.div_mod m d ltac:(lia)) as Hdm.
  pose proof (Z.mod_pos_bound m d Hd) as Hr.
  assert (Hq : 0 <= m / d) by (apply Z.div_pos; lia).
  assert (HqK : m / d <= K).
  { apply Z.div_le_upper_bound; [ lia | ]. rewrite Z.mul_comm. exact HK. }
  assert (Hmod : 0 < m mod d -> m / d < K) by nia.
  destruct (Z.compare_spec (2 * (m mod d)) d);
    try destruct (Z.even (m / d)); lia.
Qed.

Lemma round_half_even_nearest (m d : Z) :
  0 < d ->
  let q := F32.round_half_even m d in
  2 * Z.abs (q * d - m) <= d /\
  (2 * Z.abs (q * d - m) = d -> Z.even q = true).
Proof.
  intros Hd. cbn zeta. unfold F32.round_half_even.
  pose proof (Z.div_mod m d ltac:(lia)) as Hdm.
  pose proof (Z.mod_pos_bound m d Hd) as Hr.
  set (q := m / d) in *. set (r := m mod d) in *.
  destruct (Z.compare_spec (2 * r) d) as [Heq | Hlt | Hgt].
  - destruct (Z.even q) eqn:Ev.
    + split; [ nia | intros _; exact Ev ].
    + split; [ nia | ]. intros _.
      rewrite Z.add_1_r, Z.even_succ, <- Z.negb_even, Ev. reflexivity.
  - split; [ nia | nia ].
  - split; [ nia | nia ].
Qed.

Lemma to_Q_nonneg_exp (s : bool) (m : positive) (e : Z) :
  0 <= e ->
  (F32.to_Q (S754_finite s m e) == inject_Z (F32.smant s m * 2 ^ e))%Q.
Proof.
  intros He. unfold F32.to_Q.
  rewrite inject_Z_mult, Zpower_Qpower by exact He. reflexivity.
Qed.

Lemma to_Q_neg_exp (s : bool) (m : positive) (e : Z) :
  e < 0 ->
  (F32.to_Q (S754_finite s m e)
   == F32.smant s m # Z.to_pos (2 ^ (- e)))%Q.
Proof.
  intros He. unfold F32.to_Q.
  pose proof (pow2_pos (- e) ltac:(lia)) as Hp.
  rewrite (Qmake_Qdiv (F32.smant s m)), Z2Pos.id by exact Hp.
  rewrite Zpower_Qpower by lia. unfold Qdiv.
  replace e with (- - e) at 1 by lia.
  rewrite Qpower_opp. reflexivity.
Qed.

(** [rintZ] is a nearest integer, the even one of the two in a tie. *)
Lemma rintZ_nearest (x : float) (n : Z) :
  F32.rintZ x = Some n ->
  (Qabs (inject_Z n - F32.to_Q x) <= 1 # 2)%Q /\
  ((Qabs (inject_Z n - F32.to_Q x) == 1 # 2)%Q -> Z.even n = true).
Proof.
  destruct x as [ s | s | | s m e ]; try discriminate; cbn [F32.rintZ].
  - intros [= <-]. split; [ discriminate | ]. intros H. discriminate H.
  - destruct (Z.leb_spec 0 e) as [He | He]; intros [= <-].
    + rewrite to_Q_nonneg_exp by exact He.
      setoid_replace (inject_Z (F32.smant s m * 2 ^ e)
                      - inject_Z (F32.smant s m * 2 ^ e))%Q with 0%Q by ring.
      split; [ discriminate | ]. intros H. discriminate H.
    + rewrite to_Q_neg_exp by exact He.
      pose proof (pow2_pos (- e) ltac:(lia)) as Hp.
      destruct (round_half_even_nearest (Zpos m) (2 ^ (- e)) Hp)
        as [Hnear Htie].
      set (q := F32.round_half_even (Zpos m) (2 ^ (- e))) in *.
      set (d := 2 ^ (- e)) in *.
      assert (Hval : (inject_Z (cond_Zopp s q) - (F32.smant s m # Z.to_pos d)
                      == cond_Zopp s (q * d - Zpos m) # Z.to_pos d)%Q).
      { unfold Qeq, Qminus, Qplus, Qopp, inject_Z. cbn [Qnum Qden].
        rewrite Pos.mul_1_l, !Z2Pos.id by exact Hp. unfold F32.smant.
        destruct s; cbn [cond_Zopp]; ring. }
      rewrite Hval.
      assert (Habs : (Qabs (cond_Zopp s (q * d - Zpos m) # Z.to_pos d)
                      == Z.abs (q * d - Zpos m) # Z.to_pos d)%Q).
      { unfold Qabs. destruct s; cbn [cond_Zopp]; [ | reflexivity ].
        now rewrite Z.abs_opp. }
      rewrite Habs. split.
      * unfold Qle. cbn [Qnum Qden]. rewrite Z2Pos.id by exact Hp. lia.
      * intros Heq. unfold Qeq in Heq. cbn [Qnum Qden] in Heq.
        rewrite Z2Pos.id in Heq by exact Hp.
        assert (Hq : Z.even q = true) by (apply Htie; lia).
        destruct s; cbn [cond_Zopp]; [ now rewrite Z.even_opp | exact Hq ].
Qed.

(** *** The rounding step of binary32 *)

(** After [n + 1] steps of the right shift the round bit is the last bit
    shifted out and the sticky bit tells whether a lower bit was set. *)
Lemma shr_iter_loc (m : Z) (n : nat) :
  0 <= m ->
  let mrs := Nat.iter (S n) shr_1 (Build_shr_record m false false) in
  shr_m mrs = m / 2 ^ Z.of_nat (S n) /\
  shr_r mrs = Z.odd (m / 2 ^ Z.of_nat n) /\
  shr_s mrs = negb (m mod 2 ^ Z.of_nat n =? 0).
Proof.
  intros Hm. induction n as [ | n IH ].
  - cbn zeta. cbn [Nat.iter]. rewrite shr_1_spec by exact Hm.
    cbn [shr_m shr_r shr_s]. change (Z.of_nat 1) with 1.
    change (Z.of_nat 0) with 0. rewrite Z.pow_0_r, Z.pow_1_r, Z.div_1_r.
    rewrite Z.mod_1_r. repeat split; reflexivity.
  - cbn zeta in *. rewrite Nat.iter_succ.
    destruct (Nat.iter (S n) shr_1 _) as [m' r' s'].
    cbn [shr_m shr_r shr_s] in IH. destruct IH as (IHm & IHr & IHs).
    assert (Hp : 0 < 2 ^ Z.of_nat n) by (apply pow2_pos; lia).
    assert (Hp' : 0 < 2 ^ Z.of_nat (S n)) by (apply pow2_pos; lia).
    assert (Hm' : 0 <= m') by (rewrite IHm; apply Z.div_pos; lia).
    rewrite shr_1_spec by exact Hm'. cbn [shr_m shr_r shr_s].
    assert (E2 : 2 ^ Z.of_nat (S n) = 2 * 2 ^ Z.of_nat n).
    { rewrite Nat2Z.inj_succ, Z.pow_succ_r by lia. reflexivity. }
    assert (E3 : 2 ^ Z.of_nat (S (S n)) = 2 ^ Z.of_nat (S n) * 2).
    { rewrite (Nat2Z.inj_succ (S n)), Z.pow_succ_r by lia. ring. }
    split; [ | split ].
    + rewrite IHm, E3, Z.div_div by lia. reflexivity.
    + now rewrite IHm.
    + rewrite IHr, IHs.
      pose proof (Z.div_mod m (2 ^ Z.of_nat n) ltac:(lia)) as Hdm.
      pose proof (Z.mod_pos_bound m (2 ^ Z.of_nat n) Hp) as Hr.
      pose proof (Z.div_mod (m / 2 ^ Z.of_nat n) 2 ltac:(lia)) as Hdm2.
      pose proof (Z.mod_pos_bound (m / 2 ^ Z.of_nat n) 2 ltac:(lia)) as Hr2.
      assert (Hmod : m mod 2 ^ Z.of_nat (S n)
                     = (m / 2 ^ Z.of_nat n) mod 2 * 2 ^ Z.of_nat n
                       + m mod 2 ^ Z.of_nat n).
      { symmetry. apply Z.mod_unique_pos
          with (q := m / 2 ^ Z.of_nat n / 2); [ nia | ]. rewrite E2. nia. }
      rewrite Hmod, Zodd_mod.
      destruct (Z.eqb_spec ((m / 2 ^ Z.of_nat n) mod 2) 1) as [H1 | H1].
      * rewrite H1. cbn [orb].
        destruct (Z.eqb_spec (1 * 2 ^ Z.of_nat n + m mod 2 ^ Z.of_nat n) 0);
          [ lia | reflexivity ].
      * assert (H0 : (m / 2 ^ Z.of_nat n) mod 2 = 0) by lia.
        rewrite H0. cbn [orb]. rewrite Z.mul_0_l, Z.add_0_l. reflexivity.
Qed.

(** Shifting out [n] bits and rounding to nearest even is the rounded
    quotient by [2^n]. *)
Lemma shr_round_spec (m e n : Z) :
  0 <= m -> 0 < n ->
  exists mrs,
    shr (Build_shr_record m false false) e n = (mrs, e + n) /\
    round_nearest_even (shr_m mrs) (loc_of_shr_record mrs)
    = F32.round_half_even m (2 ^ n).
Proof.
  intros Hm Hn. destruct n as [ | p | p ]; try lia.
  unfold shr. rewrite iter_pos_nat.
  destruct (Pos2Nat.is_succ p) as [k Hk]. rewrite Hk.
  pose proof (shr_iter_loc m k Hm) as H. cbn zeta in H.
  assert (Hp : Zpos p = Z.of_nat (S k)) by lia.
  destruct (Nat.iter (S k) shr_1 _) as [m' r' s'].
  cbn [shr_m shr_r shr_s] in H. destruct H as (H1 & H2 & H3).
  eexists. split; [ reflexivity | ].
  cbn [shr_m]. rewrite Hp. unfold F32.round_half_even.
  assert (Hpk : 0 < 2 ^ Z.of_nat k) by (apply pow2_pos; lia).
  assert (E2 : 2 ^ Z.of_nat (S k) = 2 * 2 ^ Z.of_nat k).
  { rewrite Nat2Z.inj_succ, Z.pow_succ_r by lia. reflexivity. }
  pose proof (Z.div_mod m (2 ^ Z.of_nat k) ltac:(lia)) as Hdm.
  pose proof (Z.mod_pos_bound m (2 ^ Z.of_nat k) Hpk) as Hr.
  pose proof (Z.div_mod (m / 2 ^ Z.of_nat k) 2 ltac:(lia)) as Hdm2.
  pose proof (Z.mod_pos_bound (m / 2 ^ Z.of_nat k) 2 ltac:(lia)) as Hr2.
  assert (Hmod : m mod 2 ^ Z.of_nat (S k)
                 = (m / 2 ^ Z.of_nat k) mod 2 * 2 ^ Z.of_nat k
                   + m mod 2 ^ Z.of_nat k).
  { symmetry. apply Z.mod_unique_pos
      with (q := m / 2 ^ Z.of_nat k / 2); [ nia | ]. rewrite E2. nia. }
  rewrite <- H1, Hmod, E2. rewrite Zodd_mod in H2.
  destruct (Z.eqb_spec ((m / 2 ^ Z.of_nat k) mod 2) 1) as [Hb | Hb].
  - rewrite Hb in *. subst r'.
    destruct (Z.eqb_spec (m mod 2 ^ Z.of_nat k) 0) as [Hz | Hz];
      cbn [negb] in H3; subst s'; cbn [loc_of_shr_record round_nearest_even].
    + rewrite Hz.
      replace (2 * (1 * 2 ^ Z.of_nat k + 0) ?= 2 * 2 ^ Z.of_nat k) with Eq
        by (symmetry; apply Z.compare_eq_iff; lia).
      reflexivity.
    + replace (2 * (1 * 2 ^ Z.of_nat k + m mod 2 ^ Z.of_nat k)
               ?= 2 * 2 ^ Z.of_nat k) with Gt
        by (symmetry; apply Z.compare_gt_iff; lia).
      reflexivity.
  - assert (H0 : (m / 2 ^ Z.of_nat k) mod 2 = 0) by lia.
    rewrite H0 in *. subst r'.
    replace (2 * (0 * 2 ^ Z.of_nat k + m mod 2 ^ Z.of_nat k)
             ?= 2 * 2 ^ Z.of_nat k) with Lt
      by (symmetry; apply Z.compare_lt_iff; lia).
    destruct s'; reflexivity.
Qed.

(** The closing steps of [binary_round_aux] keep the value. *)
Lemma round_tail_spec (s : bool) (p : positive) (E : Z) :
  fexp F32.prec F32.emax (Zpos (digits2_pos p) + E) = E \/
  (exists d, 0 < d /\ Zpos p = 2 ^ d /\
             fexp F32.prec F32.emax (d + E) = E) ->
  let x :=
    (let '(mrs, e) := shr_fexp F32.prec F32.emax (Zpos p) E loc_Exact in
     match shr_m mrs with
     | 0 => S754_zero s
     | Zpos m => if e <=? F32.emax - F32.prec
                 then S754_finite s m e else S754_infinity s
     | Zneg _ => S754_nan
     end) in
  x = S754_infinity s \/
  exists m2 e2,
    x = S754_finite s m2 e2 /\ E <= e2 /\ Zpos m2 * 2 ^ (e2 - E) = Zpos p.
Proof.
  intros [Hc | (d & Hd & Hp & Hc)]; cbn zeta.
  - rewrite shr_fexp_noshift by lia. cbn [shr_m].
    destruct (Z.leb_spec E (F32.emax - F32.prec)) as [HE | HE];
      [ | now left ].
    right. exists p, E. rewrite Z.sub_diag. cbn. repeat split; lia.
  - assert (Hdig : Zpos (digits2_pos p) = d + 1).
    { apply digits2_pos_unique. rewrite Hp.
      replace (d + 1 - 1) with d by lia.
      rewrite Z.pow_add_r by lia. lia. }
    rewrite fexp32 in Hc.
    destruct (Z.eq_dec (fexp F32.prec F32.emax (d + 1 + E)) E) as [He | He].
    + rewrite shr_fexp_noshift by (rewrite Hdig; lia). cbn [shr_m].
      destruct (Z.leb_spec E (F32.emax - F32.prec)) as [HE | HE];
        [ | now left ].
      right. exists p, E. rewrite Z.sub_diag. cbn. repeat split; lia.
    + rewrite fexp32 in He.
      assert (Hq : 0 < 2 ^ (d - 1)) by (apply pow2_pos; lia).
      destruct (2 ^ (d - 1)) as [ | q | q ] eqn:Eq; try lia.
      assert (Hpq : Zpos p = Zpos q * 2 ^ 1).
      { rewrite Hp, <- Eq, <- pow2_split by lia. f_equal. lia. }
      destruct (shr_fexp_shift p q E 1) as (mrs & -> & Hm & _);
        [ rewrite Hdig, fexp32; lia | lia | exact Hpq | ].
      rewrite Hm.
      destruct (Z.leb_spec (E + 1) (F32.emax - F32.prec)) as [HE | HE];
        [ | now left ].
      right. exists q, (E + 1).
      replace (E + 1 - E) with 1 by lia. repeat split; lia.
Qed.

(** [binary_round_aux] on [m * 2^e], with [e] at or below the exponent [E]
    that the format gives to numbers of this magnitude: the result is the
    quotient of [m] by [2^(E - e)] rounded to nearest even, in units of
    [2^E] - or an infinity when that is too large. *)
Lemma binary_round_aux_spec (s : bool) (m : positive) (e : Z) :
  let E := fexp F32.prec F32.emax (Zpos (digits2_pos m) + e) in
  e <= E ->
  let q := F32.round_half_even (Zpos m) (2 ^ (E - e)) in
  let x := binary_round_aux F32.prec F32.emax s (Zpos m) e loc_Exact in
  (q = 0 /\ x = S754_zero s) \/
  x = S754_infinity s \/
  exists m2 e2,
    x = S754_finite s m2 e2 /\ E <= e2 /\ Zpos m2 * 2 ^ (e2 - E) = q.
Proof.
  intros E Hle q x.
  assert (Hx : x = let '(mrs, e2) :=
                     shr_fexp F32.prec F32.emax q E loc_Exact in
                   match shr_m mrs with
                   | 0 => S754_zero s
                   | Zpos m2 => if e2 <=? F32.emax - F32.prec
                                then S754_finite s m2 e2
                                else S754_infinity s
                   | Zneg _ => S754_nan
                   end).
  { subst x. unfold binary_round_aux.
    destruct (Z.eq_dec E e) as [Heq | Hne].
    - rewrite shr_fexp_noshift by (fold E; lia).
      cbn [shr_m loc_of_shr_record round_nearest_even].
      subst q. rewrite Heq, Z.sub_diag. unfold F32.round_half_even.
      rewrite Z.pow_0_r, Z.mod_1_r, Z.div_1_r. reflexivity.
    - unfold shr_fexp at 1. cbn [Zdigits2 shr_record_of_loc]. fold E.
      destruct (shr_round_spec (Zpos m) e (E - e) ltac:(lia) ltac:(lia))
        as (mrs & -> & ->).
      replace (e + (E - e)) with E by lia. reflexivity. }
  rewrite Hx. clear Hx x.
  pose proof (pow2_pos (E - e) ltac:(lia)) as Hp.
  pose proof (Z.div_mod (Zpos m) (2 ^ (E - e)) ltac:(lia)) as Hdm.
  pose proof (Z.mod_pos_bound (Zpos m) (2 ^ (E - e)) Hp) as Hmod.
  assert (Hq0 : 0 <= Zpos m / 2 ^ (E - e)) by (apply Z.div_pos; lia).
  assert (Hq : Zpos m / 2 ^ (E - e) <= q <= Zpos m / 2 ^ (E - e) + 1).
  { subst q. unfold F32.round_half_even.
    destruct (_ ?= _); try destruct (Z.even _); lia. }
  assert (Hqe : E = e -> q = Zpos m).
  { intros Heq. subst q. rewrite Heq, Z.sub_diag. unfold F32.round_half_even.
    rewrite Z.pow_0_r, Z.mod_1_r, Z.div_1_r. reflexivity. }
  destruct q as [ | p | p ] eqn:Er; try lia.
  - left. split; [ reflexivity | ].
    pose proof (shr_fexp_zero E) as Hz.
    destruct (shr_fexp F32.prec F32.emax 0 E loc_Exact) as [mrs2 e2].
    cbn in Hz. rewrite Hz. reflexivity.
  - right. apply round_tail_spec.
    destruct (Zpos m / 2 ^ (E - e)) as [ | q' | q' ] eqn:Eq; try lia.
    + assert (p = 1%positive) by lia. subst p. left. cbn [digits2_pos].
      assert (Hsmall : Zpos m < 2 ^ (E - e)) by lia.
      pose proof (digits2_pos_bounds m) as [Blo _].
      assert (Zpos (digits2_pos m) - 1 < E - e).
      { apply (Z.pow_lt_mono_r_iff 2); lia. }
      assert (HE : E = Z.max (Zpos (digits2_pos m) + e - 24) (-149))
        by (unfold E; apply fexp32).
      rewrite fexp32. lia.
    + assert (Hcq : fexp F32.prec F32.emax (Zpos (digits2_pos q') + E) = E).
      { destruct (Z.eq_dec E e) as [Heq | Hne].
        - rewrite Heq, Z.sub_diag, Z.pow_0_r, Z.div_1_r in Eq.
          injection Eq as <-.
          replace (Zpos (digits2_pos m) + E)
            with (Zpos (digits2_pos m) + e) by lia.
          reflexivity.
        - pose proof (digits_div m q' (E - e) ltac:(lia) (eq_sym Eq)) as Hdq.
          rewrite Hdq.
          replace (Zpos (digits2_pos m) - (E - e) + E)
            with (Zpos (digits2_pos m) + e) by lia.
          reflexivity. }
      destruct (Z.eq_dec (Zpos p) (Zpos q')) as [Hpq | Hpq].
      * left. injection Hpq as ->. exact Hcq.
      * destruct (digits_succ q' p ltac:(lia)) as [Hd | [Hp2 Hd]].
        -- left. now rewrite Hd.
        -- right. exists (Zpos (digits2_pos q')).
           split; [ lia | ]. split; [ exact Hp2 | exact Hcq ].
Qed.

(** *** Rounding errors *)

Lemma Qpow2_pos (e : Z) : (0 < Qpower 2 e)%Q.
Proof. apply Qpower_0_lt. reflexivity. Qed.

Lemma Qpow2_add (a b : Z) : (Qpower 2 (a + b) == Qpower 2 a * Qpower 2 b)%Q.
Proof. apply Qpower_plus. discriminate. Qed.

Lemma Qpow2_Z (n : Z) : 0 <= n -> (inject_Z (2 ^ n) == Qpower 2 n)%Q.
Proof. intros Hn. now rewrite Zpower_Qpower. Qed.

Lemma Qpow2_le (a b : Z) : a <= b -> (Qpower 2 a <= Qpower 2 b)%Q.
Proof.
  intros H. replace b with (a + (b - a)) by lia. rewrite Qpow2_add.
  pose proof (Qpow2_pos a). 
  assert (1 <= Qpower 2 (b - a))%Q.
  { rewrite <- Qpow2_Z by lia. 
    pose proof (pow2_pos (b - a) ltac:(lia)).
    change 1%Q with (inject_Z 1). rewrite <- Zle_Qle. lia. }
  nra.
Qed.

Lemma Qabs_inject_Z (z : Z) : (Qabs (inject_Z z) == inject_Z (Z.abs z))%Q.
Proof. reflexivity. Qed.

(** A finite number in units of [2^E]. *)
Lemma to_Q_units (s : bool) (m : positive) (e E q : Z) :
  E <= e -> Zpos m * 2 ^ (e - E) = q ->
  (F32.to_Q (S754_finite s m e)
   == inject_Z (cond_Zopp s q) * Qpower 2 E)%Q.
Proof.
  intros HE Hq. unfold F32.to_Q, F32.smant.
  replace e with ((e - E) + E) at 1 by lia.
  rewrite Qpow2_add, <- Qpow2_Z by lia.
  rewrite <- Hq, <- cond_Zopp_mul, inject_Z_mult. ring.
Qed.

(** The result of rounding [m * 2^e] is within half a unit [2^E] of it,
    and is [m * 2^e] itself when [E = e]. *)
Lemma binary_round_aux_error (s : bool) (m : positive) (e : Z) :
  let E := fexp F32.prec F32.emax (Zpos (digits2_pos m) + e) in
  let x := binary_round_aux F32.prec F32.emax s (Zpos m) e loc_Exact in
  let v := (inject_Z (cond_Zopp s (Zpos m)) * Qpower 2 e)%Q in
  e <= E -> F32.is_finite x = true ->
  (Qabs (F32.to_Q x - v) <= (1 # 2) * Qpower 2 E)%Q /\
  (E = e -> F32.to_Q x == v)%Q.
Proof.
  intros E x v Hle Hfin.
  pose proof (binary_round_aux_spec s m e Hle) as H. cbn zeta in H.
  fold E in H. fold x in H.
  pose proof (pow2_pos (E - e) ltac:(lia)) as Hp.
  destruct (round_half_even_nearest (Zpos m) (2 ^ (E - e)) Hp)
    as [Hnear _]. cbn zeta in Hnear.
  set (q := F32.round_half_even (Zpos m) (2 ^ (E - e))) in *.
  assert (Hval : (F32.to_Q x == inject_Z (cond_Zopp s q) * Qpower 2 E)%Q).
  { destruct H as [[Hq ->] | [-> | (m2 & e2 & -> & He2 & Hm2)]].
    - rewrite Hq. destruct s; cbn; ring.
    - discriminate.
    - now apply to_Q_units. }
  assert (HE : (Qpower 2 E == inject_Z (2 ^ (E - e)) * Qpower 2 e)%Q).
  { rewrite Qpow2_Z by lia. rewrite <- Qpow2_add. 
    replace (E - e + e) with E by lia. reflexivity. }
  assert (Hdiff : (F32.to_Q x - v
                   == inject_Z (cond_Zopp s (q * 2 ^ (E - e) - Zpos m))
                      * Qpower 2 e)%Q).
  { rewrite Hval. unfold v. rewrite HE.
    generalize (Qpower 2 e). intros pe.
    destruct s; cbn [cond_Zopp];
      unfold Z.sub;
      rewrite ?inject_Z_opp, inject_Z_plus, inject_Z_mult, ?inject_Z_opp;
      ring. }
  split.
  - rewrite Hdiff, Qabs_Qmult, Qabs_inject_Z.
    rewrite (Qabs_pos (Qpower 2 e)) by (apply Qlt_le_weak, Qpow2_pos).
    rewrite HE.
    assert (Ha : Z.abs (cond_Zopp s (q * 2 ^ (E - e) - Zpos m))
                 = Z.abs (q * 2 ^ (E - e) - Zpos m))
      by (destruct s; cbn [cond_Zopp]; lia).
    rewrite Ha.
    pose proof (Qpow2_pos e) as Hpe.
    assert (Hz : (inject_Z (Z.abs (q * 2 ^ (E - e) - Zpos m))
                  <= (1 # 2) * inject_Z (2 ^ (E - e)))%Q).
    { apply Qmult_le_l with (z := 2%Q); [ reflexivity | ].
      setoid_replace (2 * ((1 # 2) * inject_Z (2 ^ (E - e))))%Q
        with (inject_Z (2 ^ (E - e))) by ring.
      change 2%Q with (inject_Z 2). rewrite <- inject_Z_mult, <- Zle_Qle.
      exact Hnear. }
    nra.
  - intros Heq.
    assert (Hq : q * 2 ^ (E - e) - Zpos m = 0).
    { subst q. rewrite Heq, Z.sub_diag. unfold F32.round_half_even.
      rewrite Z.pow_0_r, Z.mod_1_r, Z.div_1_r.
      change (2 * 0 ?= 1) with Lt. cbv iota. lia. }
    rewrite Hq in Hdiff.
    assert (Hz : (inject_Z (cond_Zopp s 0) == 0)%Q) by now destruct s.
    rewrite Hz in Hdiff. lra.
Qed.

(** Rounding changes nothing when the bits to be shifted out are zero. *)
Lemma binary_round_aux_exact (s : bool) (m : positive) (e : Z) :
  let E := fexp F32.prec F32.emax (Zpos (digits2_pos m) + e) in
  let x := binary_round_aux F32.prec F32.emax s (Zpos m) e loc_Exact in
  e <= E -> Zpos m mod 2 ^ (E - e) = 0 -> F32.is_finite x = true ->
  (F32.to_Q x == inject_Z (cond_Zopp s (Zpos m)) * Qpower 2 e)%Q.
Proof.
  intros E x Hle Hmod Hfin.
  pose proof (binary_round_aux_spec s m e Hle) as H. cbn zeta in H.
  fold E in H. fold x in H.
  pose proof (pow2_pos (E - e) ltac:(lia)) as Hp.
  pose proof (Z.div_mod (Zpos m) (2 ^ (E - e)) ltac:(lia)) as Hdm.
  assert (Hq : F32.round_half_even (Zpos m) (2 ^ (E - e)) * 2 ^ (E - e)
               = Zpos m).
  { unfold F32.round_half_even. rewrite Hmod.
    replace (2 * 0 ?= 2 ^ (E - e)) with Lt
      by (symmetry; apply Z.compare_lt_iff; lia).
    lia. }
  set (q := F32.round_half_even (Zpos m) (2 ^ (E - e))) in *.
  assert (HE : (Qpower 2 E == inject_Z (2 ^ (E - e)) * Qpower 2 e)%Q).
  { rewrite Qpow2_Z by lia. rewrite <- Qpow2_add.
    replace (E - e + e) with E by lia. reflexivity. }
  assert (Hval : (F32.to_Q x == inject_Z (cond_Zopp s q) * Qpower 2 E)%Q).
  { destruct H as [[H0 ->] | [-> | (m2 & e2 & -> & He2 & Hm2)]].
    - rewrite H0 in Hq. lia.
    - discriminate.
    - now apply to_Q_units. }
  rewrite Hval, HE, <- Hq, <- cond_Zopp_mul, inject_Z_mult. ring.
Qed.

Lemma binary_round_error (s : bool) (p : positive) (e : Z) :
  let E := fexp F32.prec F32.emax (Zpos (digits2_pos p) + e) in
  let x := binary_round F32.prec F32.emax s p e in
  let v := (inject_Z (cond_Zopp s (Zpos p)) * Qpower 2 e)%Q in
  F32.is_finite x = true ->
  (Qabs (F32.to_Q x - v) <= (1 # 2) * Qpower 2 E)%Q /\
  (E <= e -> (F32.to_Q x == v)%Q).
Proof.
  intros E x v Hfin. subst x. unfold binary_round in *. fold E in Hfin |- *.
  pose proof (shl_align_spec p e E) as Hs.
  destruct (shl_align p e E) as [mz ez]. destruct Hs as [Hez Hmz].
  pose proof (digits_shift p mz (e - ez) ltac:(lia) Hmz) as Hd.
  assert (HE : fexp F32.prec F32.emax (Zpos (digits2_pos mz) + ez) = E).
  { rewrite Hd. unfold E. f_equal. lia. }
  pose proof (binary_round_aux_error s mz ez) as H. cbn zeta in H.
  rewrite HE in H. specialize (H ltac:(lia) Hfin).
  assert (Hv : (inject_Z (cond_Zopp s (Zpos mz)) * Qpower 2 ez == v)%Q).
  { assert (Hpe : (Qpower 2 e == Qpower 2 (e - ez) * Qpower 2 ez)%Q).
    { rewrite <- Qpow2_add. replace (e - ez + ez) with e by lia.
      reflexivity. }
    unfold v. rewrite Hpe, Hmz, <- cond_Zopp_mul, inject_Z_mult.
    rewrite Qpow2_Z by lia. ring. }
  rewrite Hv in H. destruct H as [H1 H2].
  split; [ exact H1 | ]. intros Hle. apply H2. lia.
Qed.

Lemma binary_normalize_error (t e : Z) (sz : bool) :
  let E := fexp F32.prec F32.emax (Zdigits2 t + e) in
  let x := binary_normalize F32.prec F32.emax t e sz in
  let v := (inject_Z t * Qpower 2 e)%Q in
  F32.is_finite x = true ->
  (Qabs (F32.to_Q x - v) <= (1 # 2) * Qpower 2 E)%Q /\
  (E <= e -> (F32.to_Q x == v)%Q).
Proof.
  intros E x v Hfin. destruct t as [ | p | p ].
  - subst x v. cbn [binary_normalize F32.to_Q].
    setoid_replace (0 - inject_Z 0 * Qpower 2 e)%Q with 0%Q by ring.
    split; [ | intros _; ring ].
    pose proof (Qpow2_pos E). cbn [Qabs Z.abs Qnum Qden]. lra.
  - exact (binary_round_error false p e Hfin).
  - exact (binary_round_error true p e Hfin).
Qed.

(** Half a unit in the last place, against the magnitude. *)
Lemma half_unit_bound (m : positive) (e : Z) :
  let E := fexp F32.prec F32.emax (Zpos (digits2_pos m) + e) in
  ((1 # 2) * Qpower 2 E
   <= unit_roundoff * (inject_Z (Zpos m) * Qpower 2 e) + underflow_unit)%Q /\
  (-149 <= e -> e < E ->
   ((1 # 2) * Qpower 2 E
    <= unit_roundoff * (inject_Z (Zpos m) * Qpower 2 e))%Q).
Proof.
  intros E. unfold E. rewrite fexp32.
  pose proof (digits2_pos_bounds m) as [Hlo _].
  set (d := Zpos (digits2_pos m)) in *.
  assert (Hd : 1 <= d) by (unfold d; lia).
  pose proof (Qpow2_pos e) as Hpe.
  assert (Hm : (inject_Z (2 ^ (d - 1)) <= inject_Z (Zpos m))%Q)
    by (rewrite <- Zle_Qle; exact Hlo).
  assert (Hrel : ((1 # 2) * Qpower 2 (d + e - 24)
                  <= unit_roundoff * (inject_Z (Zpos m) * Qpower 2 e))%Q).
  { replace (d + e - 24) with ((d - 1) + (e + - 23)) by lia.
    rewrite !Qpow2_add, <- Qpow2_Z by lia.
    assert (Hc : (Qpower 2 (-23) == 2 * unit_roundoff)%Q) by reflexivity.
    rewrite Hc. 
    assert (0 <= inject_Z (2 ^ (d - 1)))%Q.
    { change 0%Q with (inject_Z 0). rewrite <- Zle_Qle.
      apply Z.lt_le_incl, pow2_pos. lia. }
    unfold unit_roundoff in *. nra. }
  assert (Hu : (0 <= unit_roundoff * (inject_Z (Zpos m) * Qpower 2 e))%Q).
  { assert (0 <= inject_Z (Zpos m))%Q
      by (change 0%Q with (inject_Z 0); rewrite <- Zle_Qle; lia).
    unfold unit_roundoff. nra. }
  split.
  - destruct (Z.max_spec (d + e - 24) (-149)) as [[_ ->] | [_ ->]].
    + assert (Hc : ((1 # 2) * Qpower 2 (-149) == underflow_unit)%Q)
        by reflexivity.
      rewrite Hc. lra.
    + assert (0 <= underflow_unit)%Q by discriminate. lra.
  - intros He Hlt.
    destruct (Z.max_spec (d + e - 24) (-149)) as [[_ HM] | [_ HM]];
      rewrite HM in *; [ lia | exact Hrel ].
Qed.

Lemma of_Z_pow2 (j : Z) :
  0 <= j <= 23 -> F32.of_Z (2 ^ j) = S754_finite false 8388608 (j - 23).
Proof.
  intros Hj. pose proof (pow2_pos j ltac:(lia)) as Hp.
  destruct (2 ^ j) as [ | p | p ] eqn:Ep; try lia.
  unfold F32.of_Z. cbn [binary_normalize].
  assert (Hd : Zpos (digits2_pos p) = j + 1).
  { apply digits2_pos_unique. rewrite <- Ep.
    replace (j + 1 - 1) with j by lia. split; [ lia | ].
    apply Z.pow_lt_mono_r; lia. }
  apply binary_round_pad.
  - rewrite Hd, fexp32. lia.
  - lia.
  - lia.
  - rewrite <- Ep.
    replace (0 - (j - 23)) with (23 - j) by lia.
    rewrite <- pow2_split by lia. replace (j + (23 - j)) with 23 by lia.
    reflexivity.
Qed.

Lemma at_most_finite (s : bool) (B eb : Z) (x : float) :
  at_most s B eb x -> F32.is_finite x = true.
Proof. intros [-> | (m & e & -> & _)]; reflexivity. Qed.

(** *** The errors of a product and of a sum *)

Lemma is_finite_mul_inv (x y : float) :
  F32.is_finite (F32.mul x y) = true ->
  F32.is_finite x = true /\ F32.is_finite y = true.
Proof.
  destruct x as [ sx | sx | | sx mx ex ], y as [ sy | sy | | sy my ey ];
    cbn; intros H; try discriminate; split; reflexivity.
Qed.

Lemma is_finite_add_inv (x y : float) :
  F32.is_finite (F32.add x y) = true ->
  F32.is_finite x = true /\ F32.is_finite y = true.
Proof.
  destruct x as [ sx | sx | | sx mx ex ], y as [ sy | sy | | sy my ey ];
    cbn [F32.add SFadd F32.is_finite]; intros H; try discriminate;
    try (destruct sx, sy; discriminate); split; reflexivity.
Qed.

Lemma to_Q_zero (s : bool) : F32.to_Q (S754_zero s) = 0%Q.
Proof. reflexivity. Qed.

Lemma cond_Zopp_xorb (s t : bool) (a b : Z) :
  cond_Zopp (xorb s t) (a * b) = cond_Zopp s a * cond_Zopp t b.
Proof. destruct s, t; cbn; ring. Qed.

(** The rounding error of a product: relative to the product, or half of
    the least subnormal number. *)
Lemma mul_error (x y : float) :
  valid x = true -> valid y = true ->
  F32.is_finite (F32.mul x y) = true ->
  (Qabs (F32.to_Q (F32.mul x y) - F32.to_Q x * F32.to_Q y)
   <= unit_roundoff * Qabs (F32.to_Q x * F32.to_Q y) + underflow_unit)%Q.
Proof.
  intros Hx Hy Hfin.
  assert (Hpos : forall q, (0 <= unit_roundoff * Qabs q + underflow_unit)%Q).
  { intros q. pose proof (Qabs_nonneg q).
    assert (0 <= underflow_unit)%Q by discriminate.
    unfold unit_roundoff. nra. }
  assert (Hzero : forall a q, (a == 0)%Q ->
             (Qabs a <= unit_roundoff * Qabs q + underflow_unit)%Q).
  { intros a q ->. apply Hpos. }
  destruct x as [ sx | sx | | sx mx ex ], y as [ sy | sy | | sy my ey ];
    try discriminate Hfin;
    try (apply Hzero; unfold F32.mul; cbn [SFmul]; rewrite !to_Q_zero;
         ring).
  destruct (valid_finite sx mx ex Hx) as (Hcx & Hrx & _).
  destruct (valid_finite sy my ey Hy) as (Hcy & Hry & _).
  pose proof (digits_mul_lower mx my) as Hd.
  assert (Hle : ex + ey
                <= fexp F32.prec F32.emax
                     (Zpos (digits2_pos (mx * my)) + (ex + ey)))
    by (rewrite fexp32 in *; lia).
  pose proof (binary_round_aux_error (xorb sx sy) (mx * my) (ex + ey))
    as H. cbn zeta in H.
  change (F32.mul (S754_finite sx mx ex) (S754_finite sy my ey))
    with (binary_round_aux F32.prec F32.emax (xorb sx sy)
            (Zpos (mx * my)) (ex + ey) loc_Exact) in Hfin |- *.
  destruct (H Hle Hfin) as [Herr _]. clear H.
  assert (Hv : (inject_Z (cond_Zopp (xorb sx sy) (Zpos (mx * my)))
                * Qpower 2 (ex + ey)
                == F32.to_Q (S754_finite sx mx ex)
                   * F32.to_Q (S754_finite sy my ey))%Q).
  { unfold F32.to_Q, F32.smant.
    rewrite Pos2Z.inj_mul, cond_Zopp_xorb, inject_Z_mult, Qpow2_add. ring. }
  rewrite Hv in Herr.
  eapply Qle_trans; [ exact Herr | ].
  destruct (half_unit_bound (mx * my) (ex + ey)) as [Hb _].
  eapply Qle_trans; [ exact Hb | ].
  apply Qplus_le_compat; [ | apply Qle_refl ].
  rewrite <- Hv, Qabs_Qmult, Qabs_inject_Z.
  rewrite (Qabs_pos (Qpower 2 (ex + ey)))
    by (apply Qlt_le_weak, Qpow2_pos).
  replace (Z.abs (cond_Zopp (xorb sx sy) (Zpos (mx * my))))
    with (Zpos (mx * my)) by (destruct (xorb sx sy); reflexivity).
  apply Qle_refl.
Qed.

(** The rounding error of a sum is relative to the sum. *)
Lemma add_error (x y : float) :
  valid x = true -> valid y = true ->
  F32.is_finite (F32.add x y) = true ->
  (Qabs (F32.to_Q (F32.add x y) - (F32.to_Q x + F32.to_Q y))
   <= unit_roundoff * Qabs (F32.to_Q x + F32.to_Q y))%Q.
Proof.
  intros Hx Hy Hfin.
  assert (Hpos : forall q, (0 <= unit_roundoff * Qabs q)%Q).
  { intros q. pose proof (Qabs_nonneg q). unfold unit_roundoff. nra. }
  assert (Hzero : forall a q, (a == 0)%Q ->
                              (Qabs a <= unit_roundoff * Qabs q)%Q).
  { intros a q ->. apply Hpos. }
  destruct x as [ sx | sx | | sx mx ex ], y as [ sy | sy | | sy my ey ];
    try discriminate Hfin;
    try (destruct sx, sy; discriminate Hfin).
  - apply Hzero. destruct sx, sy; cbn; ring.
  - apply Hzero. unfold F32.add. cbn [SFadd]. rewrite to_Q_zero. ring.
  - apply Hzero. unfold F32.add. cbn [SFadd]. rewrite to_Q_zero. ring.
  - destruct (valid_finite sx mx ex Hx) as (Hcx & Hrx & _).
    destruct (valid_finite sy my ey Hy) as (Hcy & Hry & _).
    set (ez := Z.min ex ey).
    pose proof (shl_align_spec mx ex ez) as H1.
    pose proof (shl_align_spec my ey ez) as H2.
    change (F32.add (S754_finite sx mx ex) (S754_finite sy my ey))
      with (binary_normalize F32.prec F32.emax
              (cond_Zopp sx (Zpos (fst (shl_align mx ex ez)))
               + cond_Zopp sy (Zpos (fst (shl_align my ey ez))))
              ez false) in Hfin |- *.
    destruct (shl_align mx ex ez) as [m1 e1].
    destruct (shl_align my ey ez) as [m2 e2].
    destruct H1 as [He1 Hm1], H2 as [He2 Hm2]. cbn [fst] in *.
    assert (Ee1 : e1 = ez) by (unfold ez in *; lia).
    assert (Ee2 : e2 = ez) by (unfold ez in *; lia).
    rewrite Ee1 in Hm1. rewrite Ee2 in Hm2. clear He1 He2 Ee1 Ee2 e1 e2.
    assert (Hez : ez <= ex /\ ez <= ey /\ -149 <= ez) by (unfold ez; lia).
    set (t := cond_Zopp sx (Zpos m1) + cond_Zopp sy (Zpos m2)) in *.
    assert (Hv : (inject_Z t * Qpower 2 ez
                  == F32.to_Q (S754_finite sx mx ex)
                     + F32.to_Q (S754_finite sy my ey))%Q).
    { unfold F32.to_Q, F32.smant, t.
      assert (Hpx : (Qpower 2 ex == Qpower 2 (ex - ez) * Qpower 2 ez)%Q).
      { rewrite <- Qpow2_add. replace (ex - ez + ez) with ex by lia.
        reflexivity. }
      assert (Hpy : (Qpower 2 ey == Qpower 2 (ey - ez) * Qpower 2 ez)%Q).
      { rewrite <- Qpow2_add. replace (ey - ez + ez) with ey by lia.
        reflexivity. }
      rewrite Hpx, Hpy, Hm1, Hm2, <- !cond_Zopp_mul.
      rewrite inject_Z_plus, !inject_Z_mult, !Qpow2_Z by lia. ring. }
    pose proof (binary_normalize_error t ez false) as H. cbn zeta in H.
    destruct (H Hfin) as [Herr Hexact]. clear H.
    rewrite Hv in Herr, Hexact.
    set (E := fexp F32.prec F32.emax (Zdigits2 t + ez)) in *.
    destruct (Z.le_gt_cases E ez) as [Hle | Hgt].
    + apply Hzero. rewrite (Hexact Hle). ring.
    + eapply Qle_trans; [ exact Herr | ].
      rewrite <- Hv, Qabs_Qmult, Qabs_inject_Z.
      rewrite (Qabs_pos (Qpower 2 ez)) by (apply Qlt_le_weak, Qpow2_pos).
      destruct t as [ | p | p ] eqn:Et.
      * unfold E in Hgt. cbn [Zdigits2] in Hgt. rewrite fexp32 in Hgt. lia.
      * apply (proj2 (half_unit_bound p ez)); [ lia | exact Hgt ].
      * apply (proj2 (half_unit_bound p ez)); [ lia | exact Hgt ].
Qed.

(** ** The sample locator *)

(** *** Input coordinate, integer part and fractional position *)

(** C5. The continuous input coordinate of lines 72-77 is the one of the
    specification: [out_coord * scale] without a mode, the half-pixel
    formula [(out_coord + 0.5) * scale - 0.5] in HALF_PIXEL mode, and in
    PYTORCH_HALF_PIXEL mode the same formula when [out_size > 1] and [0]
    otherwise. *)
Theorem C5_input_coordinate
        (scale : float) (mode : CoordinateTransformationMode)
        (out_coord out_size : Z) :
  gwi_in scale mode out_coord out_size
  = spec_in scale mode out_coord out_size.
Proof.
  unfold gwi_in, spec_in.
  destruct mode; cbn [mode_eqb]; try reflexivity.
  destruct (Z.ltb_spec 1 out_size), (Z.leb_spec out_size 1);
    try lia; reflexivity.
Qed.

(** The input coordinate of a binary32 scale is a binary32 number. *)
Lemma gwi_in_valid (scale : float) (mode : CoordinateTransformationMode)
      (out_loc out_size : Z) :
  valid scale = true -> valid (gwi_in scale mode out_loc out_size) = true.
Proof.
  intros Hs. unfold gwi_in.
  assert (Hhp : valid (F32.sub
                         (F32.mul (F32.add (F32.of_Z out_loc) F32.half) scale)
                         F32.half) = true).
  { apply sub_valid; [ | reflexivity ].
    apply mul_valid; [ | exact Hs ].
    apply add_valid; [ apply of_Z_valid | reflexivity ]. }
  destruct (mode_eqb mode HALF_PIXEL); [ exact Hhp | ].
  destruct (mode_eqb mode PYTORCH_HALF_PIXEL).
  - destruct (1 <? out_size); [ exact Hhp | reflexivity ].
  - apply mul_valid; [ apply of_Z_valid | exact Hs ].
Qed.

Lemma floor_small (s : bool) (m : positive) (k : Z) :
  0 < k -> Zpos m < 2 ^ 24 ->
  - 2 ^ 24 < F32.smant s m / 2 ^ k < 2 ^ 24.
Proof.
  intros Hk Hm. pose proof (pow2_pos k ltac:(lia)) as Hp.
  assert (H1 : 1 <= 2 ^ k) by lia.
  unfold F32.smant. destruct s; cbn [cond_Zopp].
  - split.
    + apply Z.lt_le_trans with (- Zpos m); [ lia | ].
      apply Z.div_le_lower_bound; [ lia | ]. nia.
    + apply Z.le_lt_trans with 0; [ | lia ].
      apply Z.lt_succ_r. apply Z.div_lt_upper_bound; lia.
  - split.
    + apply Z.lt_le_trans with 0; [ lia | ]. apply Z.div_pos; lia.
    + apply Z.div_lt_upper_bound; [ lia | ]. nia.
Qed.

Lemma truncZ_small (s : bool) (mn p : positive) (en : Z) :
  en <= 0 -> Zpos mn = Zpos p * 2 ^ (- en) ->
  F32.truncZ (S754_finite s mn en) = Some (cond_Zopp s (Zpos p)).
Proof.
  intros Hen Hmn. unfold F32.truncZ, F32.smant.
  pose proof (pow2_pos (- en) ltac:(lia)) as Hp.
  destruct (Z.leb_spec 0 en) as [H0 | H0].
  - assert (en = 0) by lia. subst en. cbn in Hmn.
    rewrite Hmn. f_equal. destruct s; cbn; lia.
  - rewrite Hmn, Z.div_mul by lia. reflexivity.
Qed.

Lemma in_index_range_small (n : Z) :
  - 2 ^ 24 < n < 2 ^ 24 -> in_index_range n = true.
Proof.
  intros H. unfold in_index_range, index_min, index_max.
  apply andb_true_intro. split; apply Z.leb_le; lia.
Qed.

(** On a binary32 number whose floor fits [index_t], lines 78 computes
    that floor, on every platform. *)
Lemma gwi_in_loc_floor (P : Platform) (inp : float) (n : Z) :
  valid inp = true -> F32.floorZ inp = Some n ->
  in_index_range n = true ->
  gwi_in_loc P inp = n.
Proof.
  intros Hv Hf Hr. unfold gwi_in_loc, to_index.
  destruct inp as [ s | s | | s m e ]; try discriminate.
  - cbn in Hf |- *. now injection Hf as <-.
  - destruct (valid_finite s m e Hv) as (Hc & He & Hm).
    cbn [F32.floorZ] in Hf. cbn [F32.floor].
    destruct (Z.leb_spec 0 e) as [H0 | H0].
    + cbn [F32.truncZ]. destruct (Z.leb_spec 0 e); try lia.
      injection Hf as <-. now rewrite Hr.
    + injection Hf as Hn.
      pose proof (floor_small s m (- e) ltac:(lia) Hm) as Hsmall.
      rewrite Hn in Hsmall.
      rewrite Hn.
      destruct (binary_normalize_small n s Hsmall)
        as [[-> ->] | (s' & p & mn & en & Hnp & -> & Hen & Hmn & _)].
      * reflexivity.
      * rewrite (truncZ_small s' mn p en) by (lia || assumption).
        rewrite <- Hnp. now rewrite in_index_range_small.
Qed.

(** The fractional position is a zero or a positive number at most 1. *)
Lemma gwi_delta_unit (P : Platform) (inp : float) (n : Z) :
  valid inp = true -> F32.floorZ inp = Some n ->
  in_index_range n = true ->
  gwi_delta P inp = S754_zero true \/ at_most false 1 0 (gwi_delta P inp).
Proof.
  intros Hv Hf Hr. unfold gwi_delta.
  rewrite (gwi_in_loc_floor P inp n Hv Hf Hr).
  destruct inp as [ s | s | | s m e ]; try discriminate.
  - (* a zero *)
    cbn in Hf. injection Hf as <-.
    destruct s; [ left | right; left ]; reflexivity.
  - destruct (valid_finite s m e Hv) as (Hc & He & Hm).
    cbn [F32.floorZ] in Hf.
    destruct (Z.leb_spec 0 e) as [H0 | H0]; injection Hf as Hn.
    + (* an integer *)
      right. left. rewrite <- Hn, (of_Z_integral s m e Hv H0).
      rewrite sub_finite, Z.sub_diag. reflexivity.
    + (* a fraction *)
      set (k := - e) in *.
      pose proof (pow2_pos k ltac:(lia)) as Hpk.
      pose proof (floor_small s m k ltac:(lia) Hm) as Hsmall.
      rewrite Hn in Hsmall.
      pose proof (Z.div_mod (F32.smant s m) (2 ^ k) ltac:(lia)) as Hdm.
      pose proof (Z.mod_pos_bound (F32.smant s m) (2 ^ k) Hpk) as Hmod.
      rewrite Hn in Hdm. set (r := F32.smant s m mod 2 ^ k) in *.
      unfold F32.of_Z.
      destruct (binary_normalize_small n false Hsmall)
        as [[-> ->] | (sn & p & mn & en & Hnp & -> & Hen & Hmn & _)].
      * (* floor 0: the number itself *)
        right. right. exists m, e.
        assert (s = false).
        { destruct s; [ | reflexivity ]. unfold F32.smant in Hdm.
          cbn in Hdm. lia. }
        subst s. unfold F32.smant in Hdm. cbn [cond_Zopp] in Hdm.
        split; [ reflexivity | ]. split; [ lia | ].
        replace (0 - e) with k by (unfold k; lia). lia.
      * (* the difference of two finite numbers *)
        right. rewrite sub_finite.
        set (ez := Z.min e en).
        pose proof (shl_align_spec m e ez) as H1.
        pose proof (shl_align_spec mn en ez) as H2.
        destruct (shl_align m e ez) as [m1 e1].
        destruct (shl_align mn en ez) as [m2 e2].
        destruct H1 as [He1 Hm1], H2 as [He2 Hm2]. cbn [fst].
        assert (Ee1 : e1 = ez) by (unfold ez in *; lia).
        assert (Ee2 : e2 = ez) by (unfold ez in *; lia).
        rewrite Ee1 in Hm1. rewrite Ee2 in Hm2. clear He1 He2 Ee1 Ee2.
        assert (Hez : ez <= e /\ ez <= en) by (unfold ez; lia).
        pose proof (pow2_pos (e - ez) ltac:(lia)) as Hp1.
        pose proof (pow2_pos (en - ez) ltac:(lia)) as Hp2.
        pose proof (pow2_pos (- en) ltac:(lia)) as Hp3.
        assert (Hk : 2 ^ (- ez) = 2 ^ k * 2 ^ (e - ez)).
        { rewrite <- pow2_split by lia. f_equal. unfold k. lia. }
        assert (Hk' : 2 ^ (- ez) = 2 ^ (- en) * 2 ^ (en - ez)).
        { rewrite <- pow2_split by lia. f_equal. lia. }
        assert (HT : cond_Zopp s (Zpos m1) - cond_Zopp sn (Zpos m2)
                     = r * 2 ^ (e - ez)).
        { rewrite Hm1, Hm2, Hmn, <- !cond_Zopp_mul, <- Hnp.
          fold (F32.smant s m). rewrite Hdm.
          replace (n * 2 ^ (- en) * 2 ^ (en - ez))
            with (n * (2 ^ (- en) * 2 ^ (en - ez))) by ring.
          rewrite <- Hk', Hk. ring. }
        rewrite HT.
        assert (HTr : 0 <= r * 2 ^ (e - ez) < 2 ^ (- ez)).
        { rewrite Hk. split; [ nia | ].
          apply Z.mul_lt_mono_pos_r; lia. }
        destruct (r * 2 ^ (e - ez)) as [ | t | t ] eqn:Et; try lia.
        -- left. reflexivity.
        -- cbn [binary_normalize].
           apply binary_round_upper; try lia.
           rewrite Z.mul_1_l, Z.sub_0_l. lia.
Qed.

Lemma lrintf_of_rintZ (P : Platform) (x : float) (n K : Z) :
  F32.rintZ x = Some n -> 0 <= n <= K -> K < 2 ^ 24 ->
  0 <= lrintf P x <= K.
Proof.
  intros Hx Hn HK. unfold lrintf. rewrite Hx.
  rewrite in_index_range_small by lia. exact Hn.
Qed.

(** The table offset of a binary32 coordinate whose floor fits [index_t]
    lies in [0, K], for every table resolution [K] below 2^24. *)
Lemma gwi_offset_range (K : Z) (P : Platform) (inp : float) (n : Z) :
  1 <= K < 2 ^ 24 ->
  valid inp = true -> F32.floorZ inp = Some n ->
  in_index_range n = true ->
  0 <= gwi_offset K P inp <= K.
Proof.
  intros HK Hv Hf Hr. unfold gwi_offset.
  destruct K as [ | pK | pK ]; try lia.
  destruct (binary_round_small false pK ltac:(lia))
    as (mk & ek & HKf & Hek & Hmk & Hmk24).
  change (F32.of_Z (Zpos pK)) with (binary_round F32.prec F32.emax false pK 0).
  rewrite HKf.
  destruct (gwi_delta_unit P inp n Hv Hf Hr)
    as [Hd | [Hd | (md & ed & Hd & Hed & Hmd)]]; rewrite Hd.
  - apply (lrintf_of_rintZ P _ 0); [ reflexivity | lia | lia ].
  - apply (lrintf_of_rintZ P _ 0); [ reflexivity | lia | lia ].
  - unfold F32.mul, SFmul. cbn [xorb].
    rewrite Z.mul_1_l, Z.sub_0_l in Hmd.
    pose proof (pow2_pos (- ed) ltac:(lia)) as Hp1.
    assert (Hprod : Zpos (md * mk) <= Zpos mk * 2 ^ (ek - (ed + ek))).
    { replace (ek - (ed + ek)) with (- ed) by lia.
      rewrite Pos2Z.inj_mul. nia. }
    destruct (binary_round_aux_upper false (md * mk) (ed + ek) (Zpos mk) ek
                ltac:(lia) ltac:(lia) ltac:(lia) Hprod)
      as [Hz | (m' & e' & Hz & He' & Hm')]; rewrite Hz.
    + apply (lrintf_of_rintZ P _ 0); [ reflexivity | lia | lia ].
    + pose proof (pow2_pos (- ek) ltac:(lia)) as Hp2.
      pose proof (pow2_pos (ek - e') ltac:(lia)) as Hp3.
      assert (Hbound : Zpos m' <= Zpos pK * 2 ^ (- e')).
      { replace (- e') with (- ek + (ek - e')) by lia.
        rewrite pow2_split by lia. rewrite Hmk in Hm'. lia. }
      eapply lrintf_of_rintZ; [ reflexivity | | lia ].
      unfold F32.smant. cbn [cond_Zopp].
      destruct (Z.leb_spec 0 e') as [H0 | H0].
      * assert (e' = 0) by lia. subst e'. cbn in Hbound |- *. lia.
      * apply round_half_even_bounds; lia.
Qed.

(** *** The table and its reads *)

Lemma flat_map_pair_length {A B : Type} (f : A -> B * B) (l : list A) :
  length (flat_map (fun a => [fst (f a); snd (f a)]) l)
  = (2 * length l)%nat.
Proof. induction l as [ | a l IH ]; cbn [flat_map length app]; lia. Qed.

Lemma InitCoeffsTable_length (K : Z) (A : float) :
  Z.of_nat (length (InitCoeffsTable K A)) = 2 * Z.max 0 (K + 1).
Proof.
  unfold InitCoeffsTable.
  rewrite (flat_map_pair_length
             (fun i => (coeff_near A (table_x K i),
                        coeff_far A (F32.add_double (table_x K i)
                                       F32.one_double)))).
  unfold Zrange. rewrite length_map, length_seq. lia.
Qed.

Lemma tab_pos_nominal (K offset : Z) :
  0 <= offset <= K -> K < 2 ^ 24 ->
  tab_pos K offset = nominal_pos K offset.
Proof.
  intros Ho HK. unfold tab_pos, nominal_pos.
  rewrite (wrap64_id (offset * 2)) by (unfold index_min, index_max; lia).
  rewrite (wrap64_id (K - offset)) by (unfold index_min, index_max; lia).
  rewrite (wrap64_id ((K - offset) * 2))
    by (unfold index_min, index_max; lia).
  rewrite !wrap64_id by (unfold index_min, index_max; lia).
  f_equal; lia.
Qed.

(** A table position inside of the table determines an offset in [0, K],
    and with it the other three positions. *)
Lemma tab_pos_in_table (K offset : Z) :
  0 <= K < 2 ^ 24 ->
  0 <= wrap64 (offset * 2) < 2 * (K + 1) ->
  exists a, 0 <= a <= K /\ tab_pos K offset = nominal_pos K a.
Proof.
  intros HK Hp.
  destruct (wrap64_decomp (offset * 2)) as [k Hk].
  exists (offset + k * 2 ^ 63).
  assert (H2a : wrap64 (offset * 2) = 2 * (offset + k * 2 ^ 63)) by lia.
  split; [ lia | ].
  unfold tab_pos, nominal_pos. rewrite H2a.
  destruct (wrap64_decomp (K - offset)) as [j ->].
  rewrite (wrap64_congr ((K - offset + j * 2 ^ 64) * 2)
             (2 * (K - (offset + k * 2 ^ 63))) (k + 2 * j)) by lia.
  rewrite (wrap64_id (2 * (K - (offset + k * 2 ^ 63)))) by index_lia.
  rewrite !wrap64_id by index_lia.
  reflexivity.
Qed.

Lemma plain_weights_defined (tab : list float) (K a : Z) :
  0 <= a <= K -> Z.of_nat (length tab) = 2 * (K + 1) ->
  exists w, plain_weights tab (nominal_pos K a) = Some w.
Proof.
  intros Ha Hlen. unfold plain_weights, nominal_pos. cbn [q0 q1 q2 q3].
  destruct (read_in_range tab (2 * a + 1) ltac:(lia)) as [w0 ->].
  destruct (read_in_range tab (2 * a) ltac:(lia)) as [w1 ->].
  destruct (read_in_range tab (2 * (K - a)) ltac:(lia)) as [w2 ->].
  destruct (read_in_range tab (2 * (K - a) + 1) ltac:(lia)) as [w3 ->].
  now eexists.
Qed.

Lemma hp_raw_weights_defined (tab : list float) (K a in_loc : Z)
      (indices : quad Z) :
  0 <= a <= K -> Z.of_nat (length tab) = 2 * (K + 1) ->
  exists w, hp_raw_weights tab in_loc indices (nominal_pos K a) = Some w.
Proof.
  intros Ha Hlen. unfold hp_raw_weights, hp_tap, nominal_pos.
  cbn [q0 q1 q2 q3].
  destruct (read_in_range tab (2 * a + 1) ltac:(lia)) as [w0 ->].
  destruct (read_in_range tab (2 * a) ltac:(lia)) as [w1 ->].
  destruct (read_in_range tab (2 * (K - a)) ltac:(lia)) as [w2 ->].
  destruct (read_in_range tab (2 * (K - a) + 1) ltac:(lia)) as [w3 ->].
  destruct (_ =? _), (_ =? _), (_ =? _), (_ =? _); now eexists.
Qed.

Lemma gwi_weights_half_pixel (K in_loc offset : Z) (indices : quad Z) :
  gwi_weights K HALF_PIXEL in_loc offset indices
  = option_map (hp_normalize)
      (hp_raw_weights (InitCoeffsTable K F32.minus_half) in_loc indices
         (tab_pos K offset)).
Proof.
  unfold gwi_weights, hp_raw_weights, GetCoeffsTable. cbn [mode_eqb].
  repeat destruct (hp_tap _ _ _ _); reflexivity.
Qed.

Lemma gwi_weights_other (K : Z) (mode : CoordinateTransformationMode)
      (in_loc offset : Z) (indices : quad Z) :
  mode <> HALF_PIXEL ->
  gwi_weights K mode in_loc offset indices
  = plain_weights (InitCoeffsTable K F32.minus_three_quarters)
      (tab_pos K offset).
Proof.
  intros Hm. unfold gwi_weights, plain_weights, GetCoeffsTable.
  destruct mode; try congruence; reflexivity.
Qed.

Lemma gwi_weights_defined (K : Z) (mode : CoordinateTransformationMode)
      (in_loc offset : Z) (indices : quad Z) :
  0 <= offset <= K -> K < 2 ^ 24 ->
  exists w, gwi_weights K mode in_loc offset indices = Some w.
Proof.
  intros Ho HK.
  assert (Hlen : forall A,
             Z.of_nat (length (InitCoeffsTable K A)) = 2 * (K + 1))
    by (intros A; rewrite InitCoeffsTable_length; lia).
  destruct (mode_eqb mode HALF_PIXEL) eqn:Em.
  - assert (mode = HALF_PIXEL) by (destruct mode; try discriminate; reflexivity).
    subst mode. rewrite gwi_weights_half_pixel, tab_pos_nominal by lia.
    destruct (hp_raw_weights_defined (InitCoeffsTable K F32.minus_half) K
                offset in_loc indices Ho (Hlen _)) as [w ->].
    now eexists.
  - rewrite gwi_weights_other, tab_pos_nominal
      by (lia || (intros ->; discriminate)).
    apply plain_weights_defined; [ exact Ho | apply Hlen ].
Qed.

Lemma plain_weights_q1 (tab : list float) (pos : quad Z) (w : quad float) :
  plain_weights tab pos = Some w -> read tab (q1 pos) = Some (q1 w).
Proof.
  unfold plain_weights.
  destruct (read tab (q0 pos)), (read tab (q1 pos)), (read tab (q2 pos)),
    (read tab (q3 pos)); try discriminate.
  now intros [= <-].
Qed.

Lemma hp_tap_weight (tab : list float) (index nominal pos : Z) (r : float) :
  hp_tap tab index nominal pos = Some r -> tap_weight tab index nominal pos r.
Proof.
  unfold hp_tap, tap_weight. destruct (index =? nominal).
  - trivial.
  - now intros [= <-].
Qed.

Lemma hp_raw_weights_unclamped (tab : list float) (in_loc : Z) (pos : quad Z) :
  hp_raw_weights tab in_loc (nominal_indices in_loc) pos
  = plain_weights tab pos.
Proof.
  unfold hp_raw_weights, plain_weights, nominal_indices, hp_tap. cbn [q0 q1 q2 q3].
  rewrite !Z.eqb_refl. reflexivity.
Qed.

(** *** The table offset *)

(** For a table resolution that is a power of two, scaling the
    fractional position by it is exact, and the result has a nearest
    integer in [0, K]. *)
Lemma gwi_scaled_exact (j : Z) (delta : float) :
  0 <= j <= 23 -> valid delta = true ->
  delta = S754_zero true \/ at_most false 1 0 delta ->
  let scaled := F32.mul delta (F32.of_Z (2 ^ j)) in
  (F32.to_Q scaled == F32.to_Q delta * inject_Z (2 ^ j))%Q /\
  exists n, F32.rintZ scaled = Some n /\ 0 <= n <= 2 ^ j.
Proof.
  intros Hj Hv Hd scaled. subst scaled. rewrite of_Z_pow2 by exact Hj.
  pose proof (pow2_pos j ltac:(lia)) as Hpj.
  destruct Hd as [-> | [-> | (md & ed & -> & Hed & Hmd)]].
  - split; [ cbn; ring | ]. exists 0. split; [ reflexivity | lia ].
  - split; [ cbn; ring | ]. exists 0. split; [ reflexivity | lia ].
  - destruct (valid_finite false md ed Hv) as (Hc & Hr & Hm24).
    rewrite Z.mul_1_l, Z.sub_0_l in Hmd.
    pose proof (pow2_pos (- ed) ltac:(lia)) as Hp1.
    set (mk := 8388608%positive). set (ek := j - 23).
    change (F32.mul (S754_finite false md ed) (S754_finite false mk ek))
      with (binary_round_aux F32.prec F32.emax false (Zpos (md * mk))
              (ed + ek) loc_Exact).
    assert (Hprod : Zpos (md * mk) <= Zpos mk * 2 ^ (ek - (ed + ek))).
    { replace (ek - (ed + ek)) with (- ed) by lia.
      rewrite Pos2Z.inj_mul. nia. }
    pose proof (binary_round_aux_upper false (md * mk) (ed + ek) (Zpos mk) ek
                  ltac:(unfold ek; lia) ltac:(unfold mk; lia) ltac:(lia)
                  Hprod) as Hup.
    pose proof (at_most_finite _ _ _ _ Hup) as Hfin.
    assert (Hdig : Zpos (digits2_pos (md * mk))
                   = Zpos (digits2_pos md) + 23).
    { apply (digits_shift md (md * mk) 23); [ lia | ].
      rewrite Pos2Z.inj_mul. reflexivity. }
    pose proof (digits2_pos_bounds md) as [Dlo Dhi].
    assert (Hd24 : 1 <= Zpos (digits2_pos md) <= 24).
    { split; [ lia | ].
      assert (Zpos (digits2_pos md) - 1 < 24); [ | lia ].
      apply (Z.pow_lt_mono_r_iff 2); lia. }
    set (E := fexp F32.prec F32.emax (Zpos (digits2_pos (md * mk))
                                      + (ed + ek))).
    assert (HE : E = Z.max (Zpos (digits2_pos md) + 23 + (ed + ek) - 24)
                           (-149))
      by (unfold E; rewrite Hdig, fexp32; reflexivity).
    assert (Hle : ed + ek <= E) by lia.
    assert (Hsh : 0 <= E - (ed + ek) <= 23) by (unfold ek in *; lia).
    assert (Hmod : Zpos (md * mk) mod 2 ^ (E - (ed + ek)) = 0).
    { rewrite Pos2Z.inj_mul.
      replace (Zpos mk) with (2 ^ (23 - (E - (ed + ek)))
                              * 2 ^ (E - (ed + ek)))
        by (rewrite <- pow2_split by lia;
            replace (23 - (E - (ed + ek)) + (E - (ed + ek))) with 23 by lia;
            reflexivity).
      rewrite Z.mul_assoc. apply Z.mod_mul.
      pose proof (pow2_pos (E - (ed + ek)) ltac:(lia)). lia. }
    pose proof (binary_round_aux_exact false (md * mk) (ed + ek) Hle Hmod
                  Hfin) as Hex.
    split.
    + rewrite Hex. unfold F32.to_Q, F32.smant. cbn [cond_Zopp].
      rewrite Pos2Z.inj_mul, inject_Z_mult, Qpow2_add.
      assert (Hk : (inject_Z (Zpos mk) * Qpower 2 ek == inject_Z (2 ^ j))%Q).
      { replace (Zpos mk) with (2 ^ 23) by reflexivity.
        rewrite Qpow2_Z, <- Qpow2_add, <- Qpow2_Z by lia.
        unfold ek. replace (23 + (j - 23)) with j by lia. reflexivity. }
      rewrite <- Hk. ring.
    + destruct Hup as [Hz | (m' & e' & Hz & He' & Hm')]; rewrite Hz.
      * exists 0. split; [ reflexivity | lia ].
      * eexists. split; [ reflexivity | ].
        assert (Hbound : Zpos m' <= 2 ^ j * 2 ^ (- e')).
        { replace (Zpos mk) with (2 ^ 23) in Hm' by reflexivity.
          rewrite <- pow2_split in Hm' by (unfold ek in *; lia).
          rewrite <- pow2_split by (unfold ek in *; lia).
          replace (j + - e') with (23 + (ek - e')) by (unfold ek; lia).
          exact Hm'. }
        unfold F32.smant. cbn [cond_Zopp].
        destruct (Z.leb_spec 0 e') as [H0 | H0].
        -- assert (e' = 0) by (unfold ek in *; lia). subst e'.
           cbn in Hbound |- *. lia.
        -- apply round_half_even_bounds; lia.
Qed.

(** The fractional position [in - floor(in)] is computed with one
    rounding: it is off by at most 2^-25, and exact for a coordinate that
    is not negative. *)
Lemma gwi_delta_value (P : Platform) (inp : float) (n : Z) :
  valid inp = true -> F32.floorZ inp = Some n ->
  in_index_range n = true ->
  let frac := (F32.to_Q inp - inject_Z n)%Q in
  (Qabs (F32.to_Q (gwi_delta P inp) - frac) <= 1 # 2 ^ 25)%Q /\
  ((0 <= F32.to_Q inp)%Q -> (F32.to_Q (gwi_delta P inp) == frac)%Q).
Proof.
  intros Hv Hf Hr frac.
  assert (Hzero : forall a : Q, (a == 0)%Q -> (Qabs a <= 1 # 2 ^ 25)%Q).
  { intros a ->. discriminate. }
  assert (Hexact : (F32.to_Q (gwi_delta P inp) == frac)%Q ->
            (Qabs (F32.to_Q (gwi_delta P inp) - frac) <= 1 # 2 ^ 25)%Q /\
            ((0 <= F32.to_Q inp)%Q ->
             (F32.to_Q (gwi_delta P inp) == frac)%Q)).
  { intros H. split; [ apply Hzero; rewrite H; ring | intros _; exact H ]. }
  pose proof (gwi_delta_unit P inp n Hv Hf Hr) as Hunit.
  unfold gwi_delta in *.
  rewrite (gwi_in_loc_floor P inp n Hv Hf Hr) in *.
  destruct inp as [ s | s | | s m e ]; try discriminate.
  - cbn in Hf. injection Hf as <-. apply Hexact. subst frac.
    destruct s; cbn; ring.
  - destruct (valid_finite s m e Hv) as (Hc & He & Hm).
    cbn [F32.floorZ] in Hf.
    destruct (Z.leb_spec 0 e) as [H0 | H0]; injection Hf as Hn.
    + apply Hexact. subst frac.
      rewrite <- Hn, (of_Z_integral s m e Hv H0).
      rewrite sub_finite, Z.sub_diag. cbn [binary_normalize].
      rewrite to_Q_zero, to_Q_nonneg_exp by exact H0. ring.
    + set (k := - e) in *.
      pose proof (pow2_pos k ltac:(lia)) as Hpk.
      pose proof (floor_small s m k ltac:(lia) Hm) as Hsmall.
      rewrite Hn in Hsmall.
      pose proof (Z.div_mod (F32.smant s m) (2 ^ k) ltac:(lia)) as Hdm.
      pose proof (Z.mod_pos_bound (F32.smant s m) (2 ^ k) Hpk) as Hmod.
      rewrite Hn in Hdm. set (r := F32.smant s m mod 2 ^ k) in *.
      assert (Hfrac : (frac == inject_Z r * Qpower 2 e)%Q).
      { subst frac. unfold F32.to_Q. rewrite Hdm.
        rewrite inject_Z_plus, inject_Z_mult.
        assert (Hone : (inject_Z (2 ^ k) * Qpower 2 e == 1)%Q).
        { rewrite Qpow2_Z, <- Qpow2_add by lia.
          unfold k. replace (- e + e) with 0 by lia. reflexivity. }
        setoid_replace ((inject_Z (2 ^ k) * inject_Z n + inject_Z r)
                        * Qpower 2 e - inject_Z n)%Q
          with (inject_Z n * (inject_Z (2 ^ k) * Qpower 2 e - 1)
                + inject_Z r * Qpower 2 e)%Q by ring.
        rewrite Hone. ring. }
      unfold F32.of_Z in *.
      destruct (binary_normalize_small n false Hsmall)
        as [[-> E0] | (sn & p & mn & en & Hnp & E1 & Hen & Hmn & _)].
      * rewrite E0 in *. apply Hexact. subst frac.
        change (F32.sub (S754_finite s m e) (S754_zero false))
          with (S754_finite s m e).
        rewrite Z.mul_0_r, Z.add_0_l in Hdm. cbn [inject_Z]. ring.
      * rewrite E1 in *. rewrite sub_finite in *.
        set (ez := Z.min e en) in *.
        pose proof (shl_align_spec m e ez) as H1.
        pose proof (shl_align_spec mn en ez) as H2.
        destruct (shl_align m e ez) as [m1 e1].
        destruct (shl_align mn en ez) as [m2 e2].
        destruct H1 as [He1 Hm1], H2 as [He2 Hm2]. cbn [fst] in *.
        assert (Ee1 : e1 = ez) by (unfold ez in *; lia).
        assert (Ee2 : e2 = ez) by (unfold ez in *; lia).
        rewrite Ee1 in Hm1. rewrite Ee2 in Hm2. clear He1 He2 Ee1 Ee2.
        assert (Hez : ez <= e /\ ez <= en) by (unfold ez; lia).
        pose proof (pow2_pos (e - ez) ltac:(lia)) as Hp1.
        pose proof (pow2_pos (en - ez) ltac:(lia)) as Hp2.
        pose proof (pow2_pos (- en) ltac:(lia)) as Hp3.
        assert (Hk : 2 ^ (- ez) = 2 ^ k * 2 ^ (e - ez)).
        { rewrite <- pow2_split by lia. f_equal. unfold k. lia. }
        assert (Hk' : 2 ^ (- ez) = 2 ^ (- en) * 2 ^ (en - ez)).
        { rewrite <- pow2_split by lia. f_equal. lia. }
        assert (HT : cond_Zopp s (Zpos m1) - cond_Zopp sn (Zpos m2)
                     = r * 2 ^ (e - ez)).
        { rewrite Hm1, Hm2, Hmn, <- !cond_Zopp_mul, <- Hnp.
          fold (F32.smant s m). rewrite Hdm.
          replace (n * 2 ^ (- en) * 2 ^ (en - ez))
            with (n * (2 ^ (- en) * 2 ^ (en - ez))) by ring.
          rewrite <- Hk', Hk. ring. }
        rewrite HT in *.
        assert (HTr : 0 <= r * 2 ^ (e - ez) < 2 ^ (- ez)).
        { rewrite Hk. split; [ nia | ].
          apply Z.mul_lt_mono_pos_r; lia. }
        set (T := r * 2 ^ (e - ez)) in *.
        assert (Hfin : F32.is_finite
                         (binary_normalize F32.prec F32.emax T ez false)
                       = true).
        { destruct Hunit as [Hu | Hu]; [ now rewrite Hu | ].
          exact (at_most_finite _ _ _ _ Hu). }
        pose proof (binary_normalize_error T ez false) as Herr.
        cbn zeta in Herr. destruct (Herr Hfin) as [Hb Hex]. clear Herr.
        assert (HTv : (inject_Z T * Qpower 2 ez == frac)%Q).
        { rewrite Hfrac. unfold T. rewrite inject_Z_mult, Qpow2_Z by lia.
          assert (Hpe : (Qpower 2 e == Qpower 2 (e - ez) * Qpower 2 ez)%Q).
          { rewrite <- Qpow2_add. replace (e - ez + ez) with e by lia.
            reflexivity. }
          rewrite Hpe. ring. }
        rewrite HTv in Hb, Hex.
        set (E := fexp F32.prec F32.emax (Zdigits2 T + ez)) in *.
        assert (HdT : Zdigits2 T + ez <= 0).
        { destruct T as [ | t | t ] eqn:Et; cbn [Zdigits2]; try lia.
          pose proof (digits2_pos_bounds t) as [Tlo _].
          assert (Zpos (digits2_pos t) - 1 < - ez); [ | lia ].
          apply (Z.pow_lt_mono_r_iff 2); lia. }
        split.
        -- eapply Qle_trans; [ exact Hb | ].
           assert (HE24 : E <= -24) by (unfold E; rewrite fexp32; lia).
           pose proof (Qpow2_le E (-24) HE24) as Hle.
           assert (Hc25 : (Qpower 2 (-24) == 2 * (1 # 2 ^ 25))%Q)
             by reflexivity.
           rewrite Hc25 in Hle. lra.
        -- intros Hnonneg. apply Hex.
           assert (Hs : s = false).
           { destruct s; [ | reflexivity ]. exfalso.
             unfold F32.to_Q, F32.smant in Hnonneg. cbn [cond_Zopp] in Hnonneg.
             pose proof (Qpow2_pos e) as Hpe.
             assert (inject_Z (- Zpos m) < 0)%Q
               by (change 0%Q with (inject_Z 0); rewrite <- Zlt_Qlt; lia).
             nra. }
           subst s. unfold F32.smant in *. cbn [cond_Zopp] in *.
           assert (Hr24 : r < 2 ^ 24).
           { assert (r <= Zpos m); [ | lia ].
             unfold r. apply Z.mod_le; lia. }
           assert (HdT' : Zdigits2 T <= 24 + (e - ez)).
           { destruct T as [ | t | t ] eqn:Et; cbn [Zdigits2]; try lia.
             pose proof (digits2_pos_bounds t) as [Tlo _].
             assert (Zpos (digits2_pos t) - 1 < 24 + (e - ez)); [ | lia ].
             apply (Z.pow_lt_mono_r_iff 2); [ lia | lia | ].
             rewrite pow2_split by lia. nia. }
           unfold E. rewrite fexp32. unfold ez in *. lia.
Qed.

Lemma nearest_even_ext (z : Z) (q q' : Q) :
  (q == q')%Q -> nearest_even z q -> nearest_even z q'.
Proof. intros Hq [H1 H2]. unfold nearest_even. rewrite <- Hq. auto. Qed.

(** C7 (as amended). For a binary32 scale, a table resolution [K = 2^j]
    with [0 <= j <= 23], and an input coordinate [in] that is finite with
    a floor [n] that fits [index_t]: line 78 computes [n]; the fractional
    position [delta] of line 79, the binary32 difference of [in] and
    [float(n)], is finite and within 2^-25 of [frac = in - n]; its
    binary32 product with [K] is exact; the table offset is the integer
    nearest to [delta * K], the even one in a tie, and not the
    truncation; so the offset is within [1/2 + K * 2^-25] of
    [frac * K].  When the coordinate is not negative [delta] is [frac]
    itself and the offset is the integer nearest to [frac * K]. *)
Theorem C7_offset_rounds_binary32_fraction
        (j : Z) (P : Platform) (scale : float)
        (mode : CoordinateTransformationMode) (out_loc out_size n : Z) :
  0 <= j <= 23 -> valid scale = true ->
  let K := 2 ^ j in
  let inp := gwi_in scale mode out_loc out_size in
  F32.floorZ inp = Some n -> in_index_range n = true ->
  let frac := (F32.to_Q inp - inject_Z n)%Q in
  let delta := gwi_delta P inp in
  let offset := gwi_offset K P inp in
  gwi_in_loc P inp = n /\
  F32.is_finite delta = true /\
  (Qabs (F32.to_Q delta - frac) <= 1 # 2 ^ 25)%Q /\
  (F32.to_Q (F32.mul delta (F32.of_Z K)) == F32.to_Q delta * inject_Z K)%Q /\
  nearest_even offset (F32.to_Q delta * inject_Z K) /\
  (Qabs (inject_Z offset - frac * inject_Z K)
   <= (1 # 2) + inject_Z K * (1 # 2 ^ 25))%Q /\
  ((0 <= F32.to_Q inp)%Q ->
   (F32.to_Q delta == frac)%Q /\ nearest_even offset (frac * inject_Z K)).
Proof.
  intros Hj Hs K inp Hf Hr frac delta offset.
  pose proof (gwi_in_valid scale mode out_loc out_size Hs) as Hv.
  fold inp in Hv.
  pose proof (gwi_in_loc_floor P inp n Hv Hf Hr) as Hloc.
  pose proof (gwi_delta_unit P inp n Hv Hf Hr) as Hunit. fold delta in Hunit.
  destruct (gwi_delta_value P inp n Hv Hf Hr) as [Hclose Hexact].
  fold frac delta in Hclose, Hexact.
  assert (Hdv : valid delta = true).
  { unfold delta, gwi_delta. apply sub_valid; [ exact Hv | apply of_Z_valid ]. }
  destruct (gwi_scaled_exact j delta Hj Hdv Hunit) as [Hprod (n' & Hrint & Hn')].
  fold K in Hprod, Hrint, Hn'.
  pose proof (pow2_pos j ltac:(lia)) as HK0.
  assert (HK24 : K < 2 ^ 24) by (apply Z.pow_lt_mono_r; lia).
  assert (Hoff : offset = n').
  { unfold offset, gwi_offset. fold delta. unfold lrintf.
    rewrite Hrint, in_index_range_small by lia. reflexivity. }
  destruct (rintZ_nearest _ _ Hrint) as [Hnear Htie].
  assert (Hne : nearest_even offset (F32.to_Q delta * inject_Z K)).
  { rewrite Hoff. apply (nearest_even_ext _ _ _ Hprod). split; assumption. }
  split; [ exact Hloc | ].
  split.
  { destruct Hunit as [Hu | Hu]; [ now rewrite Hu | ].
    exact (at_most_finite _ _ _ _ Hu). }
  split; [ exact Hclose | ]. split; [ exact Hprod | ].
  split; [ exact Hne | ]. split.
  - destruct Hne as [Hn1 _].
    setoid_replace (inject_Z offset - frac * inject_Z K)%Q
      with ((inject_Z offset - F32.to_Q delta * inject_Z K)
            + (F32.to_Q delta - frac) * inject_Z K)%Q by ring.
    eapply Qle_trans; [ apply Qabs_triangle | ].
    rewrite Qabs_Qmult.
    assert (HKq : (0 < inject_Z K)%Q)
      by (change 0%Q with (inject_Z 0); rewrite <- Zlt_Qlt; fold K in HK0; lia).
    rewrite (Qabs_pos (inject_Z K)) by lra.
    set (a := Qabs (inject_Z offset - F32.to_Q delta * inject_Z K)) in *.
    set (b := Qabs (F32.to_Q delta - frac)) in *.
    assert (Hc : ((1 # 2 ^ 25) == 1 # 33554432)%Q) by reflexivity.
    rewrite Hc in *. nra.
  - intros Hnonneg. pose proof (Hexact Hnonneg) as He.
    split; [ exact He | ].
    apply (nearest_even_ext _ (F32.to_Q delta * inject_Z K)); [ | exact Hne ].
    rewrite He. reflexivity.
Qed.

Lemma C7_offset_rounds_binary32_fraction_witness :
  let scale : float := S754_finite false 12582912 (-34) in
  let inp := gwi_in scale NONE 1 2 in
  gwi_offset 1024 x86_64 inp = 1 /\
  (F32.to_Q inp * 1024 == 3 # 4)%Q /\
  nearest_even (gwi_offset 1024 x86_64 inp) (F32.to_Q inp * 1024).
Proof.
  cbn zeta.
  destruct (C7_offset_rounds_binary32_fraction 10 x86_64
              (S754_finite false 12582912 (-34)) NONE 1 2 0)
    as (_ & _ & _ & _ & _ & _ & H).
  - lia.
  - reflexivity.
  - vm_compute. reflexivity.
  - reflexivity.
  - split; [ vm_compute; reflexivity | ].
    split; [ vm_compute; reflexivity | ].
    destruct H as [_ H]; [ vm_compute; discriminate | ].
    refine (nearest_even_ext _ _ _ _ H).
    vm_compute. reflexivity.
Defined.

(** C7 fails as stated.  With the binary32 scale 11730940 * 2^-26 in
    HALF_PIXEL mode the output coordinate 0 has the input coordinate
    -13844481 * 2^-25, of floor -1: the fractional position times 1024 is
    19709951/32768 = 601.49997, nearest to 601, but its binary32 value is
    601.5 exactly and the offset is 602.  With the scale 2^100 and no
    mode the coordinate 2^100 of the output coordinate 1 is an integer, of
    fractional position 0, and the offset on x86-64 is the least
    [index_t]. *)
Lemma C7_offset_counterexample :
  let scale := S754_finite false 11730940 (-26) in
  let inp := gwi_in scale HALF_PIXEL 0 8 in
  let frac := (F32.to_Q inp - inject_Z (-1))%Q in
  let huge := gwi_in (S754_finite false 8388608 77) NONE 1 2 in
  valid scale = true /\
  F32.floorZ inp = Some (-1) /\
  (frac * 1024 == 19709951 # 32768)%Q /\
  nearest_even 601 (frac * 1024) /\
  gwi_offset 1024 x86_64 inp = 602 /\
  gwi_offset 1024 aarch64 inp = 602 /\
  ~ nearest_even 602 (frac * 1024) /\
  F32.floorZ huge = Some (2 ^ 100) /\
  (F32.to_Q huge - inject_Z (2 ^ 100) == 0)%Q /\
  gwi_offset 1024 x86_64 huge = - 2 ^ 63.
Proof.
  cbn zeta.
  assert (E : ((F32.to_Q (gwi_in (S754_finite false 11730940 (-26))
                            HALF_PIXEL 0 8) - inject_Z (-1)) * 1024
               == 19709951 # 32768)%Q) by (vm_compute; reflexivity).
  split; [ reflexivity | ].
  split; [ vm_compute; reflexivity | ].
  split; [ exact E | ].
  split.
  { apply (nearest_even_ext _ _ _ (Qeq_sym _ _ E)).
    split; [ vm_compute; discriminate | ].
    intros H. vm_compute in H. discriminate H. }
  split; [ vm_compute; reflexivity | ].
  split; [ vm_compute; reflexivity | ].
  split.
  { intros H. apply (nearest_even_ext _ _ _ E) in H.
    destruct H as [H _]. vm_compute in H. apply H. reflexivity. }
  split; [ vm_compute; reflexivity | ].
  split; vm_compute; reflexivity.
Qed.

(** C6 (as amended). For a binary32 scale, when the continuous input
    coordinate of lines 72-77 is finite and its floor fits [index_t], the
    table offset lies in [0, K] on every platform, for every table
    resolution K from 1 to 2^24 - 1: the four positions read are
    [2*offset+1], [2*offset], [2*(K-offset)] and [2*(K-offset)+1], all
    inside the table of 2*(K+1) entries, and [GetWeightsAndIndices] returns
    its weights and indices without reading outside of the table. *)
Theorem C6_offset_within_table
        (K : Z) (P : Platform) (scale : float)
        (mode : CoordinateTransformationMode)
        (out_loc out_size limit n : Z) :
  1 <= K < 2 ^ 24 ->
  valid scale = true ->
  let inp := gwi_in scale mode out_loc out_size in
  F32.floorZ inp = Some n ->
  in_index_range n = true ->
  let offset := gwi_offset K P inp in
  0 <= offset <= K /\
  tab_pos K offset
  = Quad (2 * offset + 1) (2 * offset)
         (2 * (K - offset)) (2 * (K - offset) + 1) /\
  (forall i, In i (quad_list (tab_pos K offset)) -> 0 <= i < 2 * (K + 1)) /\
  (forall b, Z.of_nat (length (GetCoeffsTable K b)) = 2 * (K + 1)) /\
  exists w idx,
    GetWeightsAndIndices K P scale mode out_loc out_size limit
    = Some (w, idx).
Proof.
  intros HK Hs inp Hf Hr offset.
  pose proof (gwi_in_valid scale mode out_loc out_size Hs) as Hv.
  fold inp in Hv.
  pose proof (gwi_offset_range K P inp n HK Hv Hf Hr) as Ho.
  fold offset in Ho.
  pose proof (tab_pos_nominal K offset Ho ltac:(lia)) as Hpos.
  split; [ exact Ho | ]. split; [ exact Hpos | ]. split; [ | split ].
  - rewrite Hpos. unfold nominal_pos, quad_list. cbn [q0 q1 q2 q3].
    intros i [<- | [<- | [<- | [<- | []]]]]; lia.
  - intros b. unfold GetCoeffsTable.
    destruct b; rewrite InitCoeffsTable_length; lia.
  - unfold GetWeightsAndIndices. fold inp. fold offset.
    destruct (gwi_weights_defined K mode (gwi_in_loc P inp) offset
                (gwi_indices (gwi_in_loc P inp) limit) Ho ltac:(lia))
      as [w ->].
    now eexists _, _.
Qed.

Lemma C6_offset_within_table_witness :
  let offset := gwi_offset 1024 x86_64 (gwi_in three_halves HALF_PIXEL 1 3) in
  0 <= offset <= 1024 /\
  exists w idx,
    GetWeightsAndIndices 1024 x86_64 three_halves HALF_PIXEL 1 3 9
    = Some (w, idx).
Proof.
  cbn zeta.
  destruct (C6_offset_within_table 1024 x86_64 three_halves HALF_PIXEL
              1 3 9 1) as (H1 & _ & _ & _ & H2).
  - lia.
  - reflexivity.
  - vm_compute. reflexivity.
  - vm_compute. reflexivity.
  - split; [ exact H1 | exact H2 ].
Defined.

(** C6 fails as stated.  For the finite scale 2^100 and the output
    coordinate 1 the input coordinate is 2^100, which no [index_t] holds:
    the two conversions yield what the platform's instruction yields.  On
    x86-64 the offset is the least [index_t]; on AArch64 it is the
    greatest one, and a table read falls outside of the table.  A NaN
    scale does the same on x86-64. *)
Lemma C6_offset_counterexample :
  let scale := S754_finite false 8388608 77 in
  valid scale = true /\
  F32.to_Q scale == Qpower 2 100 /\
  gwi_offset 1024 x86_64 (gwi_in scale NONE 1 2) = - 2 ^ 63 /\
  gwi_offset 1024 aarch64 (gwi_in scale NONE 1 2) = 2 ^ 63 - 1 /\
  GetWeightsAndIndices 1024 aarch64 scale NONE 1 2 4 = None /\
  gwi_offset 1024 x86_64 (gwi_in S754_nan NONE 1 2) = - 2 ^ 63 /\
  ~ (0 <= gwi_offset 1024 x86_64 (gwi_in scale NONE 1 2) <= 1024).
Proof.
  cbn zeta.
  assert (H : gwi_offset 1024 x86_64
                (gwi_in (S754_finite false 8388608 77) NONE 1 2) = - 2 ^ 63)
    by (vm_compute; reflexivity).
  repeat split; try (vm_compute; reflexivity).
  rewrite H. lia.
Qed.

(** *** Indices *)

Lemma Bound_range (val limit : Z) :
  1 <= limit <= index_max -> 0 <= Bound val limit <= limit - 1.
Proof.
  intros Hl. unfold Bound.
  rewrite wrap64_id by (unfold index_min, index_max in *; lia). lia.
Qed.

(** C2. Whatever the scale, the mode, the output coordinate and the output
    size, and on every platform, the four source indices computed by
    [GetWeightsAndIndices] for an axis of length [limit >= 1] lie in
    [0, limit - 1]: they are the ones of lines 82-83, which [Bound]
    clamps. *)
Theorem C2_indices_within_limit
        (K : Z) (P : Platform) (scale : float)
        (mode : CoordinateTransformationMode) (out_loc out_size limit : Z) :
  1 <= limit <= index_max ->
  let indices :=
    gwi_indices (gwi_in_loc P (gwi_in scale mode out_loc out_size)) limit in
  (forall i, In i (quad_list indices) -> 0 <= i <= limit - 1) /\
  (forall w idx,
      GetWeightsAndIndices K P scale mode out_loc out_size limit
      = Some (w, idx) -> idx = indices).
Proof.
  intros Hl indices. split.
  - intros i Hi. unfold indices, gwi_indices, quad_list in Hi. cbn in Hi.
    destruct Hi as [<- | [<- | [<- | [<- | []]]]]; now apply Bound_range.
  - intros w idx. unfold GetWeightsAndIndices.
    destruct (gwi_weights _ _ _ _ _); [ | discriminate ].
    intros [= _ <-]. reflexivity.
Qed.

Lemma C2_indices_within_limit_witness :
  1 <= 4 <= index_max /\
  (forall i,
      In i (quad_list
              (gwi_indices
                 (gwi_in_loc x86_64 (gwi_in F32.half HALF_PIXEL 0 8)) 4)) ->
      0 <= i <= 4 - 1).
Proof.
  split; [ unfold index_max; lia | ].
  apply (C2_indices_within_limit 1024 x86_64 F32.half HALF_PIXEL 0 8 4).
  unfold index_max; lia.
Defined.

(** *** Weights *)

Lemma hp_threshold_value :
  hp_threshold = S754_finite false 16384000 (-140) /\
  (F32.to_Q hp_threshold == 1000 * F32.to_Q F32.flt_min)%Q /\
  (F32.to_Q F32.flt_min == Qpower 2 (-126))%Q.
Proof. repeat split. Qed.

(** The check of every offset of every table of [table_resolutions], by
    evaluation. *)
Lemma half_pixel_tables_checked :
  forallb
    (fun K => all_offsets_sum_to_one K (InitCoeffsTable K F32.minus_half))
    table_resolutions = true.
Proof. vm_compute. reflexivity. Qed.

Lemma half_pixel_table_checked (K : Z) :
  In K table_resolutions ->
  1 <= K < 2 ^ 24 /\
  all_offsets_sum_to_one K (InitCoeffsTable K F32.minus_half) = true.
Proof.
  intros HK. split.
  - unfold table_resolutions in HK. cbn [In] in HK.
    repeat (destruct HK as [<- | HK]; [ lia | ]). contradiction.
  - exact (proj1 (forallb_forall _ _) half_pixel_tables_checked K HK).
Qed.

Lemma half_pixel_weights_generic
      (K : Z) (tab : list float) (in_loc offset : Z)
      (w : quad float) (idx : quad Z) :
  1 <= K < 2 ^ 24 ->
  Z.of_nat (length tab) = 2 * (K + 1) ->
  all_offsets_sum_to_one K tab = true ->
  option_map hp_normalize
    (hp_raw_weights tab in_loc idx (tab_pos K offset)) = Some w ->
  let pos := tab_pos K offset in
  exists raw : quad float,
    tap_weight tab (q0 idx) (wrap64 (in_loc - 1)) (q0 pos) (q0 raw) /\
    tap_weight tab (q1 idx) in_loc (q1 pos) (q1 raw) /\
    tap_weight tab (q2 idx) (wrap64 (in_loc + 1)) (q2 pos) (q2 raw) /\
    tap_weight tab (q3 idx) (wrap64 (in_loc + 2)) (q3 pos) (q3 raw) /\
    w = hp_normalize raw /\
    (idx = nominal_indices in_loc ->
     forallb F32.is_finite (quad_list w) = true /\
     (Qabs (quad_sum_Q w - 1) <= 1 # 100000)%Q).
Proof.
  intros HK Hlen Hall H pos. fold pos in H.
  destruct (hp_raw_weights tab in_loc idx pos) as [raw | ] eqn:Hraw;
    [ | discriminate ].
  cbn [option_map] in H. injection H as Hw.
  exists raw.
  assert (Htaps := Hraw). unfold hp_raw_weights in Htaps.
  destruct (hp_tap tab (q0 idx) _ _) as [w0 | ] eqn:H0; [ | discriminate ].
  destruct (hp_tap tab (q1 idx) _ _) as [w1 | ] eqn:H1; [ | discriminate ].
  destruct (hp_tap tab (q2 idx) _ _) as [w2 | ] eqn:H2; [ | discriminate ].
  destruct (hp_tap tab (q3 idx) _ _) as [w3 | ] eqn:H3; [ | discriminate ].
  injection Htaps as <-. cbn [q0 q1 q2 q3].
  repeat (split; [ now apply hp_tap_weight | ]).
  split; [ now rewrite <- Hw | ].
  intros Hnom. rewrite Hnom, hp_raw_weights_unclamped in Hraw.
  assert (Hin : 0 <= q1 pos < 2 * (K + 1)).
  { apply plain_weights_q1, read_Some_range in Hraw.
    now rewrite Hlen in Hraw. }
  destruct (tab_pos_in_table K offset ltac:(lia) Hin) as (a & Ha & Hpos).
  fold pos in Hpos. rewrite Hpos in Hraw.
  unfold all_offsets_sum_to_one in Hall.
  rewrite forallb_forall in Hall.
  specialize (Hall a (In_Zrange (K + 1) a ltac:(lia))).
  unfold hp_weights_at in Hall.
  rewrite Hraw in Hall. cbn [option_map] in Hall. rewrite Hw in Hall.
  unfold sums_to_one in Hall. apply andb_prop in Hall as [Hfin Hsum].
  split; [ exact Hfin | ].
  now apply Qle_bool_iff.
Qed.

(** C3. In HALF_PIXEL mode each of the four taps gets its entry of the
    A = -0.5 table when its clamped index is the nominal one and 0
    otherwise; when the magnitude of the sum of the four is at least
    1000 times the smallest positive normalized float, each weight is
    multiplied by the reciprocal of that sum, and otherwise the weights are
    left as they are.  When no tap is clamped, the four returned weights
    are finite and their exact sum is within 1e-5 of 1.  The table
    resolution is any of [table_resolutions], MACE's 1024 among them. *)
Theorem C3_half_pixel_weights
        (K : Z) (P : Platform) (scale : float) (out_loc out_size limit : Z)
        (w : quad float) (idx : quad Z) :
  In K table_resolutions ->
  GetWeightsAndIndices K P scale HALF_PIXEL out_loc out_size limit
  = Some (w, idx) ->
  let inp := gwi_in scale HALF_PIXEL out_loc out_size in
  let in_loc := gwi_in_loc P inp in
  let pos := tab_pos K (gwi_offset K P inp) in
  let tab := InitCoeffsTable K F32.minus_half in
  exists raw : quad float,
    tap_weight tab (q0 idx) (wrap64 (in_loc - 1)) (q0 pos) (q0 raw) /\
    tap_weight tab (q1 idx) in_loc (q1 pos) (q1 raw) /\
    tap_weight tab (q2 idx) (wrap64 (in_loc + 1)) (q2 pos) (q2 raw) /\
    tap_weight tab (q3 idx) (wrap64 (in_loc + 2)) (q3 pos) (q3 raw) /\
    (let weight_sum :=
       F32.add (F32.add (F32.add (q0 raw) (q1 raw)) (q2 raw)) (q3 raw) in
     w = if F32.leb (F32.mul (F32.of_Z 1000) F32.flt_min) (F32.abs weight_sum)
         then quad_map (fun x => F32.mul x (F32.div F32.one weight_sum)) raw
         else raw) /\
    (idx = nominal_indices in_loc ->
     forallb F32.is_finite (quad_list w) = true /\
     (Qabs (quad_sum_Q w - 1) <= 1 # 100000)%Q).
Proof.
  intros HK H inp in_loc pos tab.
  destruct (half_pixel_table_checked K HK) as [HKr Hsums].
  unfold GetWeightsAndIndices in H. fold inp in_loc in H.
  rewrite gwi_weights_half_pixel in H.
  destruct (option_map hp_normalize _) as [w' | ] eqn:Hw'; [ | discriminate ].
  injection H as -> Hidx. rewrite Hidx in Hw'.
  assert (Hlen : Z.of_nat (length (InitCoeffsTable K F32.minus_half))
                 = 2 * (K + 1))
    by (rewrite InitCoeffsTable_length; lia).
  destruct (half_pixel_weights_generic K _ _ _ _ _ HKr Hlen Hsums Hw')
    as (raw & T0 & T1 & T2 & T3 & Hn & Hs).
  exists raw. repeat (split; [ assumption | ]). exact Hs.
Qed.

Lemma C3_half_pixel_weights_witness :
  let w :=
    Quad (S754_finite true 12582912 (-29)) (S754_finite false 15204352 (-26))
         (S754_finite false 14548992 (-24)) (S754_finite true 9437184 (-27)) in
  In 1024 table_resolutions /\
  GetWeightsAndIndices 1024 x86_64 three_halves HALF_PIXEL 1 3 9
  = Some (w, Quad 0 1 2 3) /\
  (Qabs (quad_sum_Q w - 1) <= 1 # 100000)%Q.
Proof.
  cbn zeta.
  assert (HK : In 1024 table_resolutions)
    by (unfold table_resolutions; cbn [In]; tauto).
  assert (Hg : GetWeightsAndIndices 1024 x86_64 three_halves HALF_PIXEL 1 3 9
               = Some (Quad (S754_finite true 12582912 (-29))
                            (S754_finite false 15204352 (-26))
                            (S754_finite false 14548992 (-24))
                            (S754_finite true 9437184 (-27)),
                       Quad 0 1 2 3))
    by (vm_compute; reflexivity).
  split; [ exact HK | ]. split; [ exact Hg | ].
  destruct (C3_half_pixel_weights 1024 x86_64 three_halves 1 3 9 _ _ HK Hg)
    as (raw & _ & _ & _ & _ & _ & H).
  apply H. vm_compute. reflexivity.
Defined.

(** C9. In PYTORCH_HALF_PIXEL mode [GetWeightsAndIndices] takes the branch
    of the modes that are not HALF_PIXEL: the weights are the four entries
    of the table built with A = -0.75, whatever the indices and the axis
    limit are (nothing is zeroed for a clamped tap) and without
    renormalisation; the table built with A = -0.5 and the renormalisation
    are used in HALF_PIXEL mode, and in that mode only. *)
Theorem C9_pytorch_takes_default_branch
        (K : Z) (P : Platform) (scale : float) (out_loc out_size limit : Z) :
  let weights_of mode :=
    option_map fst
      (GetWeightsAndIndices K P scale mode out_loc out_size limit) in
  let offset_of mode :=
    gwi_offset K P (gwi_in scale mode out_loc out_size) in
  let in_loc_of mode :=
    gwi_in_loc P (gwi_in scale mode out_loc out_size) in
  weights_of PYTORCH_HALF_PIXEL
  = plain_weights (InitCoeffsTable K F32.minus_three_quarters)
      (tab_pos K (offset_of PYTORCH_HALF_PIXEL)) /\
  (forall mode,
      mode <> HALF_PIXEL ->
      weights_of mode
      = plain_weights (GetCoeffsTable K false) (tab_pos K (offset_of mode))) /\
  weights_of HALF_PIXEL
  = option_map hp_normalize
      (hp_raw_weights (GetCoeffsTable K true) (in_loc_of HALF_PIXEL)
         (gwi_indices (in_loc_of HALF_PIXEL) limit)
         (tab_pos K (offset_of HALF_PIXEL))) /\
  GetCoeffsTable K false = InitCoeffsTable K F32.minus_three_quarters /\
  GetCoeffsTable K true = InitCoeffsTable K F32.minus_half.
Proof.
  intros weights_of offset_of in_loc_of.
  assert (Hother : forall mode, mode <> HALF_PIXEL ->
            weights_of mode
            = plain_weights (InitCoeffsTable K F32.minus_three_quarters)
                (tab_pos K (offset_of mode))).
  { intros mode Hm. unfold weights_of, GetWeightsAndIndices.
    rewrite gwi_weights_other by assumption.
    fold (offset_of mode). now destruct (plain_weights _ _). }
  repeat split.
  - apply Hother. discriminate.
  - exact Hother.
  - unfold weights_of, GetWeightsAndIndices.
    rewrite gwi_weights_half_pixel.
    fold (in_loc_of HALF_PIXEL) (offset_of HALF_PIXEL).
    unfold GetCoeffsTable. now destruct (hp_raw_weights _ _ _ _).
Qed.

Lemma C9_pytorch_takes_default_branch_witness :
  NONE <> HALF_PIXEL /\
  option_map fst (GetWeightsAndIndices 4 x86_64 F32.half NONE 3 8 4)
  = plain_weights (GetCoeffsTable 4 false)
      (tab_pos 4 (gwi_offset 4 x86_64 (gwi_in F32.half NONE 3 8))).
Proof.
  split; [ discriminate | ].
  apply (C9_pytorch_takes_default_branch 4 x86_64 F32.half 3 8 4).
  discriminate.
Defined.

(** ** Separable interpolation *)

(** *** Rounding errors of the two computations *)

Lemma upow_ge_1 (k : nat) : (1 <= upow k)%Q.
Proof.
  induction k as [ | k IH ]; [ discriminate | ].
  cbn [upow]. unfold unit_roundoff in *. nra.
Qed.

Lemma upow_mono (k k' : nat) : (k <= k')%nat -> (upow k <= upow k')%Q.
Proof.
  induction 1 as [ | k' _ IH ]; [ apply Qle_refl | ].
  cbn [upow]. pose proof (upow_ge_1 k'). unfold unit_roundoff in *. nra.
Qed.

Lemma approx_exact (x : float) :
  approx x (F32.to_Q x) (Qabs (F32.to_Q x)) 0 0.
Proof.
  unfold approx. cbn [upow].
  setoid_replace (F32.to_Q x - F32.to_Q x)%Q with 0%Q by ring.
  split; [ | split; [ apply Qle_refl | discriminate ] ].
  cbn [Qabs Z.abs Qnum Qden]. pose proof (Qabs_nonneg (F32.to_Q x)). lra.
Qed.

Lemma approx_weaken (x : float) (R M : Q) (k k' : nat) (b b' : Q) :
  approx x R M k b -> (k <= k')%nat -> (b <= b')%Q ->
  approx x R M k' b'.
Proof.
  intros (H1 & H2 & H3) Hk Hb.
  pose proof (upow_mono k k' Hk). pose proof (Qabs_nonneg R).
  split; [ | split; [ exact H2 | lra ] ].
  eapply Qle_trans; [ exact H1 | ]. nra.
Qed.

Lemma approx_ext (x : float) (R R' M M' : Q) (k : nat) (b b' : Q) :
  approx x R M k b -> (R == R')%Q -> (M == M')%Q -> (b == b')%Q ->
  approx x R' M' k b'.
Proof.
  intros (H1 & H2 & H3) HR HM Hb. unfold approx.
  rewrite <- HR, <- HM, <- Hb. auto.
Qed.

Lemma approx_mul (x y : float) (R M : Q) (k : nat) (b : Q) :
  approx x R M k b -> valid x = true -> valid y = true ->
  F32.is_finite (F32.mul x y) = true ->
  approx (F32.mul x y) (R * F32.to_Q y) (M * Qabs (F32.to_Q y)) (S k)
         ((1 + unit_roundoff) * Qabs (F32.to_Q y) * b + underflow_unit).
Proof.
  intros (H1 & H2 & H3) Hx Hy Hfin.
  pose proof (mul_error x y Hx Hy Hfin) as He.
  set (f := F32.to_Q (F32.mul x y)) in *.
  set (a := F32.to_Q x) in *. set (Y := F32.to_Q y) in *.
  pose proof (upow_ge_1 k) as HU. set (U := upow k) in *.
  assert (Hun : (0 <= underflow_unit)%Q) by discriminate.
  pose proof (Qabs_nonneg Y) as HY.
  pose proof (Qabs_nonneg R) as HR.
  pose proof (Qabs_nonneg (a - R)) as HaR.
  split; [ | split ].
  - cbn [upow]. fold U.
    assert (Ha : (Qabs a <= M + Qabs (a - R))%Q).
    { setoid_replace a with (R + (a - R))%Q at 1 by ring.
      eapply Qle_trans; [ apply Qabs_triangle | ]. lra. }
    rewrite Qabs_Qmult in He.
    assert (Hsplit : (Qabs (f - R * Y)
                      <= Qabs (f - a * Y) + Qabs (a - R) * Qabs Y)%Q).
    { setoid_replace (f - R * Y)%Q with ((f - a * Y) + (a - R) * Y)%Q
        by ring.
      eapply Qle_trans; [ apply Qabs_triangle | ].
      rewrite Qabs_Qmult. apply Qle_refl. }
    eapply Qle_trans; [ exact Hsplit | ].
    set (eA := Qabs (a - R)) in *. set (aA := Qabs a) in *.
    set (yA := Qabs Y) in *. set (eM := Qabs (f - a * Y)) in *.
    unfold unit_roundoff in *.
    assert (P1 : (0 <= (M + eA - aA) * yA)%Q) by nra.
    assert (P2 : (0 <= ((U - 1) * M + b - eA) * yA)%Q) by nra.
    nra.
  - rewrite Qabs_Qmult. nra.
  - unfold unit_roundoff. nra.
Qed.

Lemma approx_add (x1 x2 : float) (R1 M1 R2 M2 : Q) (k : nat) (b1 b2 : Q) :
  approx x1 R1 M1 k b1 -> approx x2 R2 M2 k b2 ->
  valid x1 = true -> valid x2 = true ->
  F32.is_finite (F32.add x1 x2) = true ->
  approx (F32.add x1 x2) (R1 + R2) (M1 + M2) (S k)
         ((1 + unit_roundoff) * (b1 + b2)).
Proof.
  intros (H1 & H2 & H3) (G1 & G2 & G3) Hx1 Hx2 Hfin.
  pose proof (add_error x1 x2 Hx1 Hx2 Hfin) as He.
  set (f := F32.to_Q (F32.add x1 x2)) in *.
  set (a1 := F32.to_Q x1) in *. set (a2 := F32.to_Q x2) in *.
  pose proof (upow_ge_1 k) as HU. set (U := upow k) in *.
  pose proof (Qabs_nonneg R1) as HR1. pose proof (Qabs_nonneg R2) as HR2.
  split; [ | split ].
  - cbn [upow]. fold U.
    assert (Ha : (Qabs (a1 + a2)
                  <= M1 + M2 + Qabs (a1 - R1) + Qabs (a2 - R2))%Q).
    { setoid_replace (a1 + a2)%Q
        with ((R1 + R2) + ((a1 - R1) + (a2 - R2)))%Q by ring.
      eapply Qle_trans; [ apply Qabs_triangle | ].
      pose proof (Qabs_triangle R1 R2).
      pose proof (Qabs_triangle (a1 - R1) (a2 - R2)). lra. }
    assert (Hsplit : (Qabs (f - (R1 + R2))
                      <= Qabs (f - (a1 + a2)) + Qabs (a1 - R1)
                         + Qabs (a2 - R2))%Q).
    { setoid_replace (f - (R1 + R2))%Q
        with ((f - (a1 + a2)) + ((a1 - R1) + (a2 - R2)))%Q by ring.
      eapply Qle_trans; [ apply Qabs_triangle | ].
      pose proof (Qabs_triangle (a1 - R1) (a2 - R2)). lra. }
    eapply Qle_trans; [ exact Hsplit | ].
    set (e1 := Qabs (a1 - R1)) in *. set (e2 := Qabs (a2 - R2)) in *.
    set (sA := Qabs (a1 + a2)) in *. set (eF := Qabs (f - (a1 + a2))) in *.
    unfold unit_roundoff in *. nra.
  - eapply Qle_trans; [ apply Qabs_triangle | ]. lra.
  - unfold unit_roundoff. nra.
Qed.

Lemma Interpolate1D_finite_inv (w v : quad float) :
  F32.is_finite (Interpolate1D w v) = true ->
  forallb F32.is_finite (quad_list v) = true /\
  forallb F32.is_finite (quad_list w) = true.
Proof.
  destruct w as [w0 w1 w2 w3], v as [v0 v1 v2 v3].
  unfold Interpolate1D, quad_list. cbn [q0 q1 q2 q3 fadd fmul F32_Arith].
  intros H.
  apply is_finite_add_inv in H. destruct H as [H H3].
  apply is_finite_add_inv in H. destruct H as [H H2].
  apply is_finite_add_inv in H. destruct H as [H0 H1].
  apply is_finite_mul_inv in H0, H1, H2, H3. cbn [forallb].
  destruct H0 as [-> ->], H1 as [-> ->], H2 as [-> ->], H3 as [-> ->].
  split; reflexivity.
Qed.

Lemma Interpolate1D_valid (w v : quad float) :
  valid_quad w -> valid_quad v -> valid (Interpolate1D w v) = true.
Proof.
  intros (W0 & W1 & W2 & W3) (V0 & V1 & V2 & V3).
  unfold Interpolate1D. cbn [fadd fmul F32_Arith].
  repeat first [ apply add_valid | apply mul_valid ]; assumption.
Qed.

Lemma approx_Interpolate1D (w v : quad float) (R M b : quad Q) (k : nat) :
  approx (q0 v) (q0 R) (q0 M) k (q0 b) ->
  approx (q1 v) (q1 R) (q1 M) k (q1 b) ->
  approx (q2 v) (q2 R) (q2 M) k (q2 b) ->
  approx (q3 v) (q3 R) (q3 M) k (q3 b) ->
  valid_quad w -> valid_quad v ->
  F32.is_finite (Interpolate1D w v) = true ->
  approx (Interpolate1D w v)
    (q0 R * F32.to_Q (q0 w) + q1 R * F32.to_Q (q1 w)
     + q2 R * F32.to_Q (q2 w) + q3 R * F32.to_Q (q3 w))
    (q0 M * Qabs (F32.to_Q (q0 w)) + q1 M * Qabs (F32.to_Q (q1 w))
     + q2 M * Qabs (F32.to_Q (q2 w)) + q3 M * Qabs (F32.to_Q (q3 w)))
    (4 + k)
    (Interpolate1D_error (quad_map F32.to_Q w) b).
Proof.
  intros A0 A1 A2 A3 (W0 & W1 & W2 & W3) (V0 & V1 & V2 & V3) Hfin.
  unfold Interpolate1D in *. cbn [fadd fmul F32_Arith] in *.
  assert (H := Hfin).
  apply is_finite_add_inv in H. destruct H as [F012 F3].
  assert (H := F012).
  apply is_finite_add_inv in H. destruct H as [F01 F2].
  assert (H := F01).
  apply is_finite_add_inv in H. destruct H as [F0 F1].
  pose proof (approx_mul _ _ _ _ _ _ A0 V0 W0 F0) as P0.
  pose proof (approx_mul _ _ _ _ _ _ A1 V1 W1 F1) as P1.
  pose proof (approx_mul _ _ _ _ _ _ A2 V2 W2 F2) as P2.
  pose proof (approx_mul _ _ _ _ _ _ A3 V3 W3 F3) as P3.
  pose proof (mul_valid _ _ V0 W0) as U0.
  pose proof (mul_valid _ _ V1 W1) as U1.
  pose proof (mul_valid _ _ V2 W2) as U2.
  pose proof (mul_valid _ _ V3 W3) as U3.
  pose proof (approx_add _ _ _ _ _ _ _ _ _ P0 P1 U0 U1 F01) as S1.
  pose proof (add_valid _ _ U0 U1) as U01.
  apply (approx_weaken _ _ _ _ (S (S k)) _ _) with (3 := Qle_refl _) in P2;
    [ | lia ].
  pose proof (approx_add _ _ _ _ _ _ _ _ _ S1 P2 U01 U2 F012) as S2.
  pose proof (add_valid _ _ U01 U2) as U012.
  apply (approx_weaken _ _ _ _ (S (S (S k))) _ _) with (3 := Qle_refl _)
    in P3; [ | lia ].
  pose proof (approx_add _ _ _ _ _ _ _ _ _ S2 P3 U012 U3 Hfin) as S3.
  exact S3.
Qed.

Lemma mul_comm (x y : float) : F32.mul x y = F32.mul y x.
Proof.
  destruct x as [ sx | sx | | sx mx ex ], y as [ sy | sy | | sy my ey ];
    unfold F32.mul; cbn [SFmul]; rewrite ?(xorb_comm sx sy);
    try reflexivity.
  now rewrite Pos.mul_comm, Z.add_comm.
Qed.

Lemma is_finite_fold_add_inv (ts : list float) (acc : float) :
  F32.is_finite (fold_left F32.add ts acc) = true ->
  F32.is_finite acc = true.
Proof.
  revert acc. induction ts as [ | t ts IH ]; intros acc H; [ exact H | ].
  cbn [fold_left] in H. apply IH in H.
  now apply is_finite_add_inv in H.
Qed.

(** A product of three factors, however it is formed. *)
Lemma approx_prod3 (prod3 : float -> float -> float -> float)
      (y x v : float) :
  prod3 = prod_yx_v \/ prod3 = prod_y_xv \/ prod3 = prod_yv_x ->
  valid y = true -> valid x = true -> valid v = true ->
  valid (prod3 y x v) = true /\
  (F32.is_finite (prod3 y x v) = true ->
   approx (prod3 y x v) (exact3 (y, x, v)) (abs3 (y, x, v)) 2
          (err3 (y, x, v))).
Proof.
  intros Hp Hy Hx Hv.
  assert (Hun : (0 <= underflow_unit)%Q) by discriminate.
  pose proof (Qabs_nonneg (F32.to_Q y)) as Ay.
  pose proof (Qabs_nonneg (F32.to_Q x)) as Ax.
  pose proof (Qabs_nonneg (F32.to_Q v)) as Av.
  assert (G : forall a b c,
             valid a = true -> valid b = true -> valid c = true ->
             F32.is_finite (F32.mul (F32.mul a b) c) = true ->
             approx (F32.mul (F32.mul a b) c)
                    (F32.to_Q a * F32.to_Q b * F32.to_Q c)
                    (Qabs (F32.to_Q a) * Qabs (F32.to_Q b)
                     * Qabs (F32.to_Q c)) 2
                    ((1 + unit_roundoff) * Qabs (F32.to_Q c)
                     * underflow_unit + underflow_unit)).
  { intros a b c Ha Hb Hc Hfin.
    assert (Hab := Hfin). apply is_finite_mul_inv in Hab.
    destruct Hab as [Hab _].
    pose proof (approx_mul _ _ _ _ _ _ (approx_exact a) Ha Hb Hab) as P.
    pose proof (approx_mul _ _ _ _ _ _ P (mul_valid _ _ Ha Hb) Hc Hfin)
      as P'.
    eapply approx_ext; [ exact P' | reflexivity | reflexivity | ].
    ring. }
  unfold exact3, abs3, err3.
  destruct Hp as [-> | [-> | ->]];
    unfold prod_yx_v, prod_y_xv, prod_yv_x; cbn [fmul F32_Arith].
  - split; [ repeat apply mul_valid; assumption | ]. intros Hfin.
    eapply approx_weaken; [ exact (G y x v Hy Hx Hv Hfin) | lia | ].
    unfold unit_roundoff in *. nra.
  - rewrite (mul_comm y (F32.mul x v)).
    split; [ repeat apply mul_valid; assumption | ]. intros Hfin.
    eapply approx_weaken;
      [ eapply approx_ext; [ exact (G x v y Hx Hv Hy Hfin) | | | ]
      | lia | ].
    + ring.
    + ring.
    + reflexivity.
    + unfold unit_roundoff in *. nra.
  - split; [ repeat apply mul_valid; assumption | ]. intros Hfin.
    eapply approx_weaken;
      [ eapply approx_ext; [ exact (G y v x Hy Hv Hx Hfin) | | | ]
      | lia | ].
    + ring.
    + ring.
    + reflexivity.
    + unfold unit_roundoff in *. nra.
Qed.

(** The running sum of the products. *)
Lemma approx_sum_terms (prod3 : float -> float -> float -> float)
      (ts : list (float * float * float)) :
  prod3 = prod_yx_v \/ prod3 = prod_y_xv \/ prod3 = prod_yv_x ->
  forall (acc : float) (R M : Q) (k : nat) (b : Q),
    approx acc R M k b -> valid acc = true -> (2 <= k)%nat ->
    Forall valid3 ts ->
    F32.is_finite (fold_left F32.add (map (apply3 prod3) ts) acc) = true ->
    valid (fold_left F32.add (map (apply3 prod3) ts) acc) = true /\
    approx (fold_left F32.add (map (apply3 prod3) ts) acc)
           (fold_left Qplus (map exact3 ts) R)
           (fold_left Qplus (map abs3 ts) M)
           (length ts + k)
           (sum_error b (map err3 ts)).
Proof.
  intros Hp. induction ts as [ | t ts IHts ];
    intros acc R M k b Ha Hv Hk Hts Hfin.
  - cbn. split; assumption.
  - cbn [map fold_left length sum_error] in *.
    inversion Hts as [ | t' ts' Ht Hts' ]; subst t' ts'.
    destruct t as [[y x] v]. destruct Ht as (Hy & Hx & Hv3).
    destruct (approx_prod3 prod3 y x v Hp Hy Hx Hv3) as [Hvt Hat].
    cbn [apply3] in *.
    assert (Hhead := is_finite_fold_add_inv _ _ Hfin).
    assert (Ht := Hhead). apply is_finite_add_inv in Ht.
    destruct Ht as [_ Ht].
    pose proof (approx_weaken _ _ _ _ k _ _ (Hat Ht) Hk (Qle_refl _)) as At.
    pose proof (approx_add _ _ _ _ _ _ _ _ _ Ha At Hv Hvt Hhead) as As.
    destruct (IHts _ _ _ _ _ As (add_valid _ _ Hv Hvt) ltac:(lia) Hts' Hfin)
      as [Hvr Hr].
    split; [ exact Hvr | ].
    replace (S (length ts) + k)%nat with (length ts + S k)%nat by lia.
    exact Hr.
Qed.

Lemma upow_8 : (upow 8 - 1 <= 1 # 2 ^ 20)%Q.
Proof. vm_compute. discriminate. Qed.

Lemma upow_17 : (upow 17 - 1 <= 1 # 2 ^ 19)%Q.
Proof. vm_compute. discriminate. Qed.

Lemma conv_terms_factors (prod3 : float -> float -> float -> float)
      (patch : quad (quad float)) (y_weights x_weights : quad float) :
  conv_terms prod3 patch y_weights x_weights
  = map (apply3 prod3) (conv_factors patch y_weights x_weights).
Proof.
  destruct patch as [[a00 a01 a02 a03] [a10 a11 a12 a13]
                     [a20 a21 a22 a23] [a30 a31 a32 a33]].
  destruct y_weights as [y0 y1 y2 y3], x_weights as [x0 x1 x2 x3].
  reflexivity.
Qed.

(** The separable computation against the exact value. *)
Lemma separable_error (patch : quad (quad float))
      (y_weights x_weights : quad float) :
  valid_patch patch -> valid_quad y_weights -> valid_quad x_weights ->
  F32.is_finite (interpolate_patch patch y_weights x_weights) = true ->
  (Qabs (F32.to_Q (interpolate_patch patch y_weights x_weights)
         - exact_value patch y_weights x_weights)
   <= (1 # 2 ^ 20) * magnitude_sum patch y_weights x_weights
      + (1 # 2 ^ 147) * operand_sum patch y_weights x_weights)%Q /\
  (0 <= magnitude_sum patch y_weights x_weights)%Q.
Proof.
  intros (P0 & P1 & P2 & P3) Hy Hx Hfin.
  unfold interpolate_patch in Hfin |- *.
  destruct (Interpolate1D_finite_inv _ _ Hfin) as [Hrows _].
  unfold patch_rows, quad_map, quad_list in Hrows.
  cbn [q0 q1 q2 q3 forallb] in Hrows.
  apply andb_prop in Hrows. destruct Hrows as [F0 Hrows].
  apply andb_prop in Hrows. destruct Hrows as [F1 Hrows].
  apply andb_prop in Hrows. destruct Hrows as [F2 Hrows].
  apply andb_prop in Hrows. destruct Hrows as [F3 _].
  assert (Row : forall r, valid_quad r ->
             F32.is_finite (Interpolate1D x_weights r) = true ->
             approx (Interpolate1D x_weights r)
               (@Interpolate1D Q Q_Arith (to_Q_quad x_weights) (to_Q_quad r))
               (@Interpolate1D Q Q_Arith (magnitudes x_weights)
                  (magnitudes r))
               4
               (Interpolate1D_error (to_Q_quad x_weights) (Quad 0%Q 0%Q 0%Q 0%Q))).
  { intros r Hr Hf.
    exact (approx_Interpolate1D x_weights r (to_Q_quad r) (magnitudes r)
             (Quad 0%Q 0%Q 0%Q 0%Q) 0 (approx_exact _) (approx_exact _)
             (approx_exact _) (approx_exact _) Hx Hr Hf). }
  pose proof (Row _ P0 F0) as A0. pose proof (Row _ P1 F1) as A1.
  pose proof (Row _ P2 F2) as A2. pose proof (Row _ P3 F3) as A3.
  set (brow := Interpolate1D_error (to_Q_quad x_weights) (Quad 0%Q 0%Q 0%Q 0%Q))
    in *.
  assert (Hv : valid_quad (patch_rows patch x_weights)).
  { unfold patch_rows, quad_map, valid_quad. cbn [q0 q1 q2 q3].
    repeat split; apply Interpolate1D_valid; assumption. }
  pose proof (approx_Interpolate1D y_weights (patch_rows patch x_weights)
                (@patch_rows Q Q_Arith (to_Q_patch patch)
                   (to_Q_quad x_weights))
                (@patch_rows Q Q_Arith (magnitudes_patch patch)
                   (magnitudes x_weights))
                (Quad brow brow brow brow) 4 A0 A1 A2 A3 Hy Hv Hfin) as A.
  destruct A as (A & B & _).
  change (Qabs (F32.to_Q (Interpolate1D y_weights
                            (patch_rows patch x_weights))
                - exact_value patch y_weights x_weights)
          <= (upow 8 - 1) * magnitude_sum patch y_weights x_weights
             + Interpolate1D_error (to_Q_quad y_weights)
                 (Quad brow brow brow brow))%Q in A.
  change (Qabs (exact_value patch y_weights x_weights)
          <= magnitude_sum patch y_weights x_weights)%Q in B.
  pose proof (Qabs_nonneg (exact_value patch y_weights x_weights)) as HE.
  split; [ | lra ].
  eapply Qle_trans; [ exact A | ].
  pose proof upow_8 as HU.
  set (S := magnitude_sum patch y_weights x_weights) in *.
  assert (HS : (0 <= S)%Q) by lra.
  apply Qplus_le_compat; [ nra | ].
  destruct patch as [[a00 a01 a02 a03] [a10 a11 a12 a13]
                     [a20 a21 a22 a23] [a30 a31 a32 a33]].
  destruct y_weights as [y0 y1 y2 y3], x_weights as [x0 x1 x2 x3].
  unfold operand_sum, brow, Interpolate1D_error, product_error, quad_sum,
    magnitudes, to_Q_quad, quad_map.
  cbn [q0 q1 q2 q3].
  repeat match goal with
         | |- context [Qabs (F32.to_Q ?a)] =>
             let H := fresh "N" in
             let v := fresh "v" in
             pose proof (Qabs_nonneg (F32.to_Q a)) as H;
             set (v := Qabs (F32.to_Q a)) in *; clearbody v
         end.
  let c := eval vm_compute in underflow_unit in
  change underflow_unit with c.
  unfold unit_roundoff.
  change (1 # 2 ^ 147)%Q with (1 # 178405961588244985132285746181186892047843328)%Q.
  lra.
Qed.

Lemma Some_eq_inv {A : Type} (a b : A) : Some a = Some b -> a = b.
Proof. now intros [= ->]. Qed.

Lemma full_convolution_factors
      (prod3 : float -> float -> float -> float)
      (patch : quad (quad float)) (y_weights x_weights : quad float) :
  full_convolution prod3 patch y_weights x_weights
  = match conv_factors patch y_weights x_weights with
    | t :: ts =>
        Some (fold_left F32.add (map (apply3 prod3) ts) (apply3 prod3 t))
    | [] => None
    end.
Proof.
  unfold full_convolution. rewrite conv_terms_factors.
  destruct (conv_factors patch y_weights x_weights); reflexivity.
Qed.

(** The sum of the sixteen products against the exact value. *)
Lemma full_convolution_error
      (prod3 : float -> float -> float -> float)
      (patch : quad (quad float)) (y_weights x_weights : quad float)
      (full : float) :
  prod3 = prod_yx_v \/ prod3 = prod_y_xv \/ prod3 = prod_yv_x ->
  valid_patch patch -> valid_quad y_weights -> valid_quad x_weights ->
  full_convolution prod3 patch y_weights x_weights = Some full ->
  F32.is_finite full = true ->
  (Qabs (F32.to_Q full - exact_value patch y_weights x_weights)
   <= (1 # 2 ^ 19) * magnitude_sum patch y_weights x_weights
      + (1 # 2 ^ 145) * operand_sum patch y_weights x_weights)%Q.
Proof.
  intros Hp HP Hy Hx Hfull Hfin.
  rewrite full_convolution_factors in Hfull.
  destruct patch as [[a00 a01 a02 a03] [a10 a11 a12 a13]
                     [a20 a21 a22 a23] [a30 a31 a32 a33]].
  destruct y_weights as [y0 y1 y2 y3], x_weights as [x0 x1 x2 x3].
  destruct HP as ((V00 & V01 & V02 & V03) & (V10 & V11 & V12 & V13)
                  & (V20 & V21 & V22 & V23) & (V30 & V31 & V32 & V33)).
  destruct Hy as (Y0 & Y1 & Y2 & Y3), Hx as (X0 & X1 & X2 & X3).
  cbn [q0 q1 q2 q3] in *.
  set (ts := [(y0, x1, a01); (y0, x2, a02); (y0, x3, a03);
              (y1, x0, a10); (y1, x1, a11); (y1, x2, a12); (y1, x3, a13);
              (y2, x0, a20); (y2, x1, a21); (y2, x2, a22); (y2, x3, a23);
              (y3, x0, a30); (y3, x1, a31); (y3, x2, a32); (y3, x3, a33)]).
  change (conv_factors _ _ _) with ((y0, x0, a00) :: ts) in Hfull.
  cbv iota beta in Hfull. apply Some_eq_inv in Hfull.
  change (apply3 prod3 (y0, x0, a00)) with (prod3 y0 x0 a00) in Hfull.
  rewrite <- Hfull in Hfin |- *.
  destruct (approx_prod3 prod3 y0 x0 a00 Hp Y0 X0 V00) as [Hv0 Ha0].
  assert (Hts : Forall valid3 ts).
  { unfold ts. repeat (apply Forall_cons; [ repeat split; assumption | ]).
    apply Forall_nil. }
  destruct (approx_sum_terms prod3 ts Hp _ _ _ _ _
              (Ha0 (is_finite_fold_add_inv _ _ Hfin)) Hv0 (le_n 2) Hts Hfin)
    as [_ (A & B & _)].
  assert (HR : (fold_left Qplus (map exact3 ts) (exact3 (y0, x0, a00))
                == exact_value
                     (Quad (Quad a00 a01 a02 a03) (Quad a10 a11 a12 a13)
                           (Quad a20 a21 a22 a23) (Quad a30 a31 a32 a33))
                     (Quad y0 y1 y2 y3) (Quad x0 x1 x2 x3))%Q).
  { unfold ts, exact3, exact_value, interpolate_patch, patch_rows,
      Interpolate1D, to_Q_patch, to_Q_quad, quad_map.
    cbn [map fold_left q0 q1 q2 q3 fadd fmul Q_Arith]. ring. }
  assert (HM : (fold_left Qplus (map abs3 ts) (abs3 (y0, x0, a00))
                == magnitude_sum
                     (Quad (Quad a00 a01 a02 a03) (Quad a10 a11 a12 a13)
                           (Quad a20 a21 a22 a23) (Quad a30 a31 a32 a33))
                     (Quad y0 y1 y2 y3) (Quad x0 x1 x2 x3))%Q).
  { unfold ts, abs3, magnitude_sum, interpolate_patch, patch_rows,
      Interpolate1D, magnitudes_patch, magnitudes, quad_map.
    cbn [map fold_left q0 q1 q2 q3 fadd fmul Q_Arith]. ring. }
  rewrite HR in A, B. rewrite HM in A, B.
  eapply Qle_trans; [ exact A | ].
  pose proof upow_17 as HU.
  change (length ts + 2)%nat with 17%nat.
  set (E := exact_value _ _ _) in *. set (S := magnitude_sum _ _ _) in *.
  pose proof (Qabs_nonneg E) as HE.
  assert (HS : (0 <= S)%Q) by lra.
  apply Qplus_le_compat; [ nra | ].
  clear.
  unfold ts, sum_error, err3, operand_sum, quad_sum, magnitudes, quad_map.
  cbn [map fold_left q0 q1 q2 q3].
  repeat match goal with
         | |- context [Qabs (F32.to_Q ?a)] =>
             let H := fresh "N" in
             let v := fresh "v" in
             pose proof (Qabs_nonneg (F32.to_Q a)) as H;
             set (v := Qabs (F32.to_Q a)) in *; clearbody v
         end.
  let c := eval vm_compute in underflow_unit in
  change underflow_unit with c.
  unfold unit_roundoff.
  let c := eval vm_compute in (1 # 2 ^ 145)%Q in
  change (1 # 2 ^ 145)%Q with c.
  lra.
Qed.

(** C8 (as amended). On a 4x4 patch and weights of binary32 numbers:
    evaluated without rounding (over the rationals, on the values of
    these numbers), the separable expression of [ResizeImage] - the four
    row interpolations with the column weights, then the interpolation of
    the four intermediates with the row weights - is the sum of the
    sixteen products [y_weight[i] * x_weight[j] * input], however each
    product of three factors is formed.  In binary32 every operation
    rounds: when the separable result and the sum of the sixteen products
    are both finite, the first is within [2^-20 * S + 2^-147 * W] and the
    second within [2^-19 * S + 2^-145 * W] of that exact value, and so
    they are within [3 * 2^-20 * S + 5 * 2^-147 * W] of each other, where
    [S] is the sum of the magnitudes of the sixteen products and [W] is
    one plus the magnitudes of all weights and samples. *)
Theorem C8_separable_close_to_full_convolution
        (patch : quad (quad float)) (y_weights x_weights : quad float) :
  valid_patch patch -> valid_quad y_weights -> valid_quad x_weights ->
  let E := exact_value patch y_weights x_weights in
  let S := magnitude_sum patch y_weights x_weights in
  let W := operand_sum patch y_weights x_weights in
  let separable := interpolate_patch patch y_weights x_weights in
  (forall prod3,
      In prod3 [@prod_yx_v Q Q_Arith; @prod_y_xv Q Q_Arith;
                @prod_yv_x Q Q_Arith] ->
      exists e,
        @full_convolution Q Q_Arith prod3 (to_Q_patch patch)
          (to_Q_quad y_weights) (to_Q_quad x_weights) = Some e /\
        (e == E)%Q) /\
  (forall prod3 full,
      In prod3 [prod_yx_v; prod_y_xv; prod_yv_x] ->
      full_convolution prod3 patch y_weights x_weights = Some full ->
      F32.is_finite separable = true -> F32.is_finite full = true ->
      (Qabs (F32.to_Q separable - E)
       <= (1 # 2 ^ 20) * S + (1 # 2 ^ 147) * W)%Q /\
      (Qabs (F32.to_Q full - E)
       <= (1 # 2 ^ 19) * S + (1 # 2 ^ 145) * W)%Q /\
      (Qabs (F32.to_Q separable - F32.to_Q full)
       <= (3 # 2 ^ 20) * S + (5 # 2 ^ 147) * W)%Q).
Proof.
  intros HP Hy Hx E S W separable. split.
  - intros prod3 Hin. subst E.
    destruct patch as [[a00 a01 a02 a03] [a10 a11 a12 a13]
                       [a20 a21 a22 a23] [a30 a31 a32 a33]].
    destruct y_weights as [y0 y1 y2 y3], x_weights as [x0 x1 x2 x3].
    cbn [In] in Hin.
    destruct Hin as [<- | [<- | [<- | []]]];
      (eexists; split; [ reflexivity | ]);
      unfold exact_value, interpolate_patch, patch_rows, Interpolate1D,
        to_Q_patch, to_Q_quad, quad_map, sum_from, prod_yx_v, prod_y_xv,
        prod_yv_x, quad_list;
      cbn [fold_left flat_map map combine app fst snd q0 q1 q2 q3 fadd fmul
           Q_Arith]; ring.
  - intros prod3 full Hin Hfull Hsep Hfin.
    assert (Hp : prod3 = prod_yx_v \/ prod3 = prod_y_xv
                 \/ prod3 = prod_yv_x).
    { cbn [In] in Hin. destruct Hin as [<- | [<- | [<- | []]]]; auto. }
    destruct (separable_error patch y_weights x_weights HP Hy Hx Hsep)
      as [H1 HS].
    pose proof (full_convolution_error prod3 patch y_weights x_weights full
                  Hp HP Hy Hx Hfull Hfin) as H2.
    fold E S W separable in H1, H2, HS.
    split; [ exact H1 | split; [ exact H2 | ] ].
    setoid_replace (F32.to_Q separable - F32.to_Q full)%Q
      with ((F32.to_Q separable - E) + - (F32.to_Q full - E))%Q by ring.
    eapply Qle_trans; [ apply Qabs_triangle | ].
    rewrite Qabs_opp.
    set (d1 := Qabs (F32.to_Q separable - E)) in *.
    set (d2 := Qabs (F32.to_Q full - E)) in *.
    clearbody d1 d2 S W.
    let c := eval vm_compute in (1 # 2 ^ 20)%Q in
    change (1 # 2 ^ 20)%Q with c in *.
    let c := eval vm_compute in (1 # 2 ^ 147)%Q in
    change (1 # 2 ^ 147)%Q with c in *.
    let c := eval vm_compute in (1 # 2 ^ 19)%Q in
    change (1 # 2 ^ 19)%Q with c in *.
    let c := eval vm_compute in (1 # 2 ^ 145)%Q in
    change (1 # 2 ^ 145)%Q with c in *.
    let c := eval vm_compute in (3 # 2 ^ 20)%Q in
    change (3 # 2 ^ 20)%Q with c.
    let c := eval vm_compute in (5 # 2 ^ 147)%Q in
    change (5 # 2 ^ 147)%Q with c.
    lra.
Qed.

Lemma C8_separable_close_to_full_convolution_witness :
  let separable := interpolate_patch plane3_patch mid_weights mid_weights in
  let full := S754_finite false 11642470 (-25) in
  (Qabs (F32.to_Q separable - F32.to_Q full)
   <= (3 # 2 ^ 20) * magnitude_sum plane3_patch mid_weights mid_weights
      + (5 # 2 ^ 147) * operand_sum plane3_patch mid_weights mid_weights)%Q.
Proof.
  cbn zeta.
  destruct (C8_separable_close_to_full_convolution plane3_patch mid_weights
              mid_weights) as [_ H].
  - repeat split; reflexivity.
  - repeat split; reflexivity.
  - repeat split; reflexivity.
  - destruct (H prod_yx_v (S754_finite false 11642470 (-25)))
      as (_ & _ & H3).
    + cbn [In]. auto.
    + vm_compute. reflexivity.
    + vm_compute. reflexivity.
    + reflexivity.
    + exact H3.
Defined.

(** C8 fails in binary32.  Resizing the 3x3 plane [plane3] to 2x2 without
    a coordinate mode (scale 3/2), the element (1,1) that [ResizeImage]
    writes is the separable value of its 4x4 patch, and that value differs
    in the last place from the sum of the sixteen products, however each
    product of three factors is formed.  And on a row of samples at 0.95
    times the largest binary32 number, with the weights
    (-3/32, 19/32, 19/32, -3/32) on both axes, the separable value is
    infinite while the sum of the sixteen products is finite. *)
Lemma C8_binary32_counterexample :
  exists output y_weights x_weights y_indices x_indices patch,
    ResizeImage 1024 x86_64 plane3 1 3 3 2 2 1 three_halves three_halves
                NONE (repeat F32.zero 4) = Some output /\
    GetWeightsAndIndices 1024 x86_64 three_halves NONE 1 2 3
    = Some (y_weights, y_indices) /\
    GetWeightsAndIndices 1024 x86_64 three_halves NONE 1 2 3
    = Some (x_weights, x_indices) /\
    read_patch plane3 0 3 y_indices x_indices = Some patch /\
    nth_error output 3 = Some (interpolate_patch patch y_weights x_weights) /\
    interpolate_patch patch y_weights x_weights
    = S754_finite false 11642471 (-25) /\
    full_convolution prod_yx_v patch y_weights x_weights
    = Some (S754_finite false 11642470 (-25)) /\
    full_convolution prod_y_xv patch y_weights x_weights
    = Some (S754_finite false 11642470 (-25)) /\
    full_convolution prod_yv_x patch y_weights x_weights
    = Some (S754_finite false 11642470 (-25)) /\
    full_convolution prod_yx_v patch y_weights x_weights
    <> Some (interpolate_patch patch y_weights x_weights) /\
    interpolate_patch large_patch mid_weights mid_weights
    = S754_infinity false /\
    full_convolution prod_yx_v large_patch mid_weights mid_weights
    = Some (S754_finite false 9463398 104) /\
    full_convolution prod_y_xv large_patch mid_weights mid_weights
    = Some (S754_finite false 9463398 104) /\
    full_convolution prod_yv_x large_patch mid_weights mid_weights
    = Some (S754_finite false 9463398 104).
Proof.
  do 6 eexists.
  split; [ vm_compute; reflexivity | ].
  split; [ vm_compute; reflexivity | ].
  split; [ vm_compute; reflexivity | ].
  split; [ vm_compute; reflexivity | ].
  repeat split; try (vm_compute; reflexivity).
  vm_compute. discriminate.
Qed.

(** ** The operator adapters *)

Lemma static_size_spec (size_ : list Z) (h w : Z) :
  static_size size_ = Some (h, w) <-> size_ = [h; w] /\ 0 < h /\ 0 < w.
Proof.
  unfold static_size.
  destruct size_ as [ | a [ | b [ | c l ] ] ];
    try (split; [ discriminate | intros [[=] _] ]).
  destruct (Z.ltb_spec 0 a), (Z.ltb_spec 0 b); cbn [andb];
    (split; [ intros [= <- <-] || discriminate
            | intros [[= <- <-] [? ?]]; first [ reflexivity | lia ] ]).
  all: repeat split; assumption.
Qed.

(** C4. The CPU operator's [Run] stops on a failed check exactly when the
    input is not 4-dimensional, or when the static size is not usable
    (absent, or not two positive numbers) and there is no second input to
    take the size from.  When it does, nothing has been called and the
    output tensor is as it was: no output element has been produced. *)
Theorem C4_validation_before_output
        (K : Z) (P : Platform)
        (Tensor_Resize : Tensor -> list Z -> MaceStatus * Tensor)
        (GetSizeParamFromTensor : Tensor -> Z * Z)
        (CalculateResizeScale : Z -> Z -> bool -> float)
        (op : ResizeBicubicOp) (input : Tensor) (extra : list Tensor)
        (output : Tensor) :
  let o :=
    Run_CPU K P Tensor_Resize GetSizeParamFromTensor CalculateResizeScale
            op input extra output in
  ((exists c, res o = Abort c) <->
   (length (dims input) <> 4%nat \/
    (static_size (size_ op) = None /\ extra = []))) /\
  (forall c, res o = Abort c -> out o = output /\ calls o = []).
Proof.
  cbn zeta. unfold Run_CPU, resolve_size.
  destruct (dims input) as [ | d0 [ | d1 [ | d2 [ | d3 [ | d4 l ] ] ] ] ];
    cbn [length];
    try (split;
         [ split; [ intros _; left; lia | intros _; now eexists ]
         | intros c _; now split ]).
  destruct (static_size (size_ op)) as [ [oh ow] | ] eqn:Hs.
  - destruct (Tensor_Resize output [d0; d1; oh; ow]) as [st output1].
    split.
    + split.
      * intros [c Hc]. exfalso.
        destruct (negb (status_eqb st MACE_SUCCESS)); [ discriminate | ].
        destruct ((oh =? d2) && (ow =? d3)).
        -- destruct (std_copy _ _ _); discriminate.
        -- destruct (ResizeImage _ _ _ _ _ _ _ _ _ _ _ _ _); discriminate.
      * intros [Hr | [Hn _]]; [ lia | discriminate ].
    + intros c Hc. exfalso.
      destruct (negb (status_eqb st MACE_SUCCESS)); [ discriminate | ].
      destruct ((oh =? d2) && (ow =? d3)).
      * destruct (std_copy _ _ _); discriminate.
      * destruct (ResizeImage _ _ _ _ _ _ _ _ _ _ _ _ _); discriminate.
  - destruct extra as [ | size_tensor extra' ].
    + split.
      * split; [ intros _; right; now split | intros _; now eexists ].
      * intros c _. now split.
    + destruct (GetSizeParamFromTensor size_tensor) as [oh ow].
      destruct (Tensor_Resize output [d0; d1; oh; ow]) as [st output1].
      split.
      * split.
        -- intros [c Hc]. exfalso.
           destruct (negb (status_eqb st MACE_SUCCESS)); [ discriminate | ].
           destruct ((oh =? d2) && (ow =? d3)).
           ++ destruct (std_copy _ _ _); discriminate.
           ++ destruct (ResizeImage _ _ _ _ _ _ _ _ _ _ _ _ _); discriminate.
        -- intros [Hr | [_ Hn]]; [ lia | discriminate ].
      * intros c Hc. exfalso.
        destruct (negb (status_eqb st MACE_SUCCESS)); [ discriminate | ].
        destruct ((oh =? d2) && (ow =? d3)).
        -- destruct (std_copy _ _ _); discriminate.
        -- destruct (ResizeImage _ _ _ _ _ _ _ _ _ _ _ _ _); discriminate.
Qed.

Lemma C4_validation_before_output_witness :
  let output := {| dims := []; data := [F32.one] |} in
  let o :=
    Run_CPU 1024 x86_64 (fun t _ => (MACE_SUCCESS, t)) (fun _ => (1, 1))
            (fun _ _ _ => F32.one)
            {| align_corners_ := false;
               coordinate_transformation_mode_ := NONE;
               size_ := [-1; -1] |}
            {| dims := [1; 1; 1; 1]; data := [F32.one] |} [] output in
  res o = Abort CheckInputSize /\ out o = output /\ calls o = [].
Proof.
  cbn zeta.
  split; [ reflexivity | ].
  eapply (C4_validation_before_output 1024 x86_64).
  reflexivity.
Defined.

(** C1. When the resolved output height and width are the input's, the
    CPU operator's [Run] succeeds with an output buffer equal to the input
    buffer, element for element, and its only calls are the resizing of the
    output tensor and the copy: the 2D resize driver is not invoked. *)
Theorem C1_identity_copy
        (K : Z) (P : Platform)
        (Tensor_Resize : Tensor -> list Z -> MaceStatus * Tensor)
        (GetSizeParamFromTensor : Tensor -> Z * Z)
        (CalculateResizeScale : Z -> Z -> bool -> float)
        (op : ResizeBicubicOp) (input : Tensor) (extra : list Tensor)
        (output output1 : Tensor) (batch channels height width : Z) :
  dims input = [batch; channels; height; width] ->
  Z.of_nat (length (data input)) = batch * channels * height * width ->
  Z.of_nat (length (data input)) <= index_max ->
  resolve_size GetSizeParamFromTensor (size_ op) extra
  = Some (height, width) ->
  Tensor_Resize output [batch; channels; height; width]
  = (MACE_SUCCESS, output1) ->
  length (data output1) = length (data input) ->
  let o :=
    Run_CPU K P Tensor_Resize GetSizeParamFromTensor CalculateResizeScale
            op input extra output in
  res o = Return MACE_SUCCESS /\
  data (out o) = data input /\
  (forall i, nth_error (data (out o)) i = nth_error (data input) i) /\
  calls o = [CallTensorResize [batch; channels; height; width];
             CallCopy (batch * channels * height * width)] /\
  ~ In CallResizeImage (calls o).
Proof.
  intros Hdims Hcount Hmax Hsize Hresize Hlen. cbn zeta.
  unfold Run_CPU. rewrite Hdims, Hsize, Hresize. cbn [status_eqb negb].
  rewrite !Z.eqb_refl. cbn [andb].
  rewrite imul_product
    by (rewrite <- Hcount; unfold index_min; split; [ lia | exact Hmax ]).
  rewrite <- Hcount, std_copy_all by exact Hlen. cbn.
  repeat split; try reflexivity.
  intros [ [=] | [ [=] | [] ] ].
Qed.

Lemma C1_identity_copy_witness :
  let input :=
    {| dims := [1; 1; 2; 2]; data := map F32.of_Z [1; 2; 3; 4] |} in
  let o :=
    Run_CPU 1024 x86_64
            (fun t shape =>
               (MACE_SUCCESS,
                {| dims := shape;
                   data := repeat F32.zero
                             (Z.to_nat (fold_right Z.mul 1 shape)) |}))
            (fun _ => (2, 2)) (fun _ _ _ => F32.one)
            {| align_corners_ := false;
               coordinate_transformation_mode_ := HALF_PIXEL;
               size_ := [2; 2] |}
            input [] {| dims := []; data := [] |} in
  res o = Return MACE_SUCCESS /\ data (out o) = data input.
Proof.
  cbn zeta.
  pose proof
    (C1_identity_copy 1024 x86_64
       (fun t shape =>
          (MACE_SUCCESS,
           {| dims := shape;
              data := repeat F32.zero
                        (Z.to_nat (fold_right Z.mul 1 shape)) |}))
       (fun _ => (2, 2)) (fun _ _ _ => F32.one)
       {| align_corners_ := false;
          coordinate_transformation_mode_ := HALF_PIXEL;
          size_ := [2; 2] |}
       {| dims := [1; 1; 2; 2]; data := map F32.of_Z [1; 2; 3; 4] |}
       [] {| dims := []; data := [] |}
       {| dims := [1; 1; 2; 2]; data := repeat F32.zero 4 |}
       1 1 2 2 eq_refl eq_refl) as H.
  cbn zeta in H.
  destruct H as (H1 & H2 & _); try reflexivity.
  - unfold index_max. cbn. lia.
  - split; [ exact H1 | exact H2 ].
Defined.

(** C10. The GPU operator's [Run] has no identity fast path: once the
    input is 4-dimensional and the output size is resolved, whatever that
    size is (the input's height and width included), its single call is the
    kernel's [Compute], whose status and output tensor it returns as they
    are; the adapter copies nothing itself. *)
Theorem C10_gpu_always_delegates
        (GetSizeParamFromTensor : Tensor -> Z * Z)
        (kernel_Compute : Tensor -> Z -> Z -> Tensor -> MaceStatus * Tensor)
        (op : ResizeBicubicOp) (input : Tensor) (extra : list Tensor)
        (output : Tensor) (batch channels in_height in_width : Z)
        (out_height out_width : Z) :
  dims input = [batch; channels; in_height; in_width] ->
  resolve_size GetSizeParamFromTensor (size_ op) extra
  = Some (out_height, out_width) ->
  let o := Run_GPU GetSizeParamFromTensor kernel_Compute op input extra
                   output in
  let k := kernel_Compute input out_height out_width output in
  res o = Return (fst k) /\
  out o = snd k /\
  calls o = [CallKernelCompute out_height out_width] /\
  (forall count, ~ In (CallCopy count) (calls o)).
Proof.
  intros Hdims Hsize. cbn zeta. unfold Run_GPU.
  rewrite Hdims, Hsize.
  destruct (kernel_Compute input out_height out_width output) as [st t].
  cbn. repeat split.
  intros count [ [=] | [] ].
Qed.

Lemma C10_gpu_always_delegates_witness :
  let input :=
    {| dims := [1; 1; 2; 2]; data := map F32.of_Z [1; 2; 3; 4] |} in
  let output := {| dims := []; data := [] |} in
  let kernel (_ : Tensor) (h w : Z) (t : Tensor) :=
    (MACE_ERROR (h + w), t) in
  let o :=
    Run_GPU (fun _ => (2, 2)) kernel
            {| align_corners_ := false;
               coordinate_transformation_mode_ := NONE;
               size_ := [2; 2] |}
            input [] output in
  res o = Return (MACE_ERROR 4) /\ out o = output /\
  calls o = [CallKernelCompute 2 2].
Proof.
  cbn zeta.
  pose proof
    (C10_gpu_always_delegates (fun _ => (2, 2))
       (fun (_ : Tensor) (h w : Z) (t : Tensor) => (MACE_ERROR (h + w), t))
       {| align_corners_ := false;
          coordinate_transformation_mode_ := NONE;
          size_ := [2; 2] |}
       {| dims := [1; 1; 2; 2]; data := map F32.of_Z [1; 2; 3; 4] |}
       [] {| dims := []; data := [] |} 1 1 2 2 2 2 eq_refl eq_refl) as H.
  cbn zeta in H. destruct H as (H1 & H2 & H3 & _).
  split; [ exact H1 | split; [ exact H2 | exact H3 ] ].
Defined.
(** ** The loop nest of [ResizeImage] *)

Lemma Zrange_In (n a : Z) : In a (Zrange n) -> 0 <= a < n.
Proof.
  unfold Zrange. rewrite in_map_iff. intros [k [<- Hk]].
  apply in_seq in Hk. lia.
Qed.

Lemma foldM_invariant_from {A S : Type} (f : S -> A -> option S)
      (I : list A -> S -> Prop) (l : list A) :
  forall pre s0 s',
    (forall pre' a s t,
        In a l -> I pre' s -> f s a = Some t -> I (pre' ++ [a]) t) ->
    I pre s0 -> foldM f l s0 = Some s' -> I (pre ++ l) s'.
Proof.
  induction l as [ | a l IH ]; intros pre s0 s' Hstep H0 Hf.
  - cbn in Hf. injection Hf as <-. now rewrite app_nil_r.
  - cbn in Hf. destruct (f s0 a) as [ t | ] eqn:Ha; [ | discriminate ].
    cbn in Hf.
    replace (pre ++ a :: l) with ((pre ++ [a]) ++ l)
      by (rewrite <- app_assoc; reflexivity).
    apply (IH (pre ++ [a]) t s').
    + intros pre' a' s t' Hin. apply Hstep. now right.
    + apply (Hstep pre a s0 t); [ now left | assumption | assumption ].
    + exact Hf.
Qed.

Lemma foldM_invariant {A S : Type} (f : S -> A -> option S)
      (I : list A -> S -> Prop) (l : list A) (s0 s' : S) :
  (forall pre a s t,
      In a l -> I pre s -> f s a = Some t -> I (pre ++ [a]) t) ->
  I [] s0 -> foldM f l s0 = Some s' -> I l s'.
Proof.
  intros Hstep H0 Hf.
  exact (foldM_invariant_from f I l [] s0 s' Hstep H0 Hf).
Qed.

Lemma foldM_total {A S : Type} (f : S -> A -> option S) (J : S -> Prop)
      (l : list A) :
  (forall a s, In a l -> J s -> exists t, f s a = Some t /\ J t) ->
  forall s0, J s0 -> exists s', foldM f l s0 = Some s' /\ J s'.
Proof.
  induction l as [ | a l IH ]; intros Hstep s0 H0.
  - exists s0. split; [ reflexivity | assumption ].
  - destruct (Hstep a s0 (or_introl eq_refl) H0) as [t [Ht HJ]].
    destruct (IH (fun a' s Hin => Hstep a' s (or_intror Hin)) t HJ)
      as [s' [Hs' HJ']].
    exists s'. split; [ | assumption ].
    cbn. rewrite Ht. exact Hs'.
Qed.

Lemma bind_Some {A B : Type} (o : option A) (f : A -> option B) (b : B) :
  bind o f = Some b -> exists a, o = Some a /\ f a = Some b.
Proof.
  destruct o as [ a | ]; [ | discriminate ].
  intros H. exists a. split; [ reflexivity | exact H ].
Qed.

(** *** Writes *)

Lemma set_nth_length {A : Type} (n : nat) (v : A) (l : list A) :
  length (set_nth n v l) = length l.
Proof.
  revert n. induction l as [ | h t IH ]; intros [ | n ]; cbn;
    try reflexivity.
  now rewrite IH.
Qed.

Lemma set_nth_same {A : Type} (n : nat) (v : A) (l : list A) :
  (n < length l)%nat -> nth_error (set_nth n v l) n = Some v.
Proof.
  revert n. induction l as [ | h t IH ]; intros [ | n ] Hn; cbn in *;
    try lia; try reflexivity.
  apply IH. lia.
Qed.

Lemma set_nth_other {A : Type} (n m : nat) (v : A) (l : list A) :
  m <> n -> nth_error (set_nth n v l) m = nth_error l m.
Proof.
  revert n m. induction l as [ | h t IH ]; intros [ | n ] [ | m ] Hm; cbn;
    try reflexivity; try congruence.
  apply IH. congruence.
Qed.

Lemma write_Some {A : Type} (buf : list A) (i : Z) (v : A) :
  0 <= i < Z.of_nat (length buf) ->
  write buf i v = Some (set_nth (Z.to_nat i) v buf).
Proof.
  intros Hi. unfold write.
  destruct (Z.leb_spec 0 i); [ | lia ].
  destruct (Z.ltb_spec i (Z.of_nat (length buf))); [ | lia ].
  reflexivity.
Qed.

Lemma write_inv {A : Type} (buf : list A) (i : Z) (v : A) (t : list A) :
  write buf i v = Some t ->
  0 <= i < Z.of_nat (length buf) /\ t = set_nth (Z.to_nat i) v buf.
Proof.
  unfold write.
  destruct (Z.leb_spec 0 i); cbn [andb]; [ | discriminate ].
  destruct (Z.ltb_spec i (Z.of_nat (length buf))); [ | discriminate ].
  intros [= <-]. split; [ lia | reflexivity ].
Qed.

Lemma write_length {A : Type} (buf : list A) (i : Z) (v : A) (t : list A) :
  write buf i v = Some t -> length t = length buf.
Proof.
  intros H. apply write_inv in H. destruct H as [_ ->].
  apply set_nth_length.
Qed.

Lemma read_write_same {A : Type} (buf : list A) (i : Z) (v : A)
      (t : list A) :
  write buf i v = Some t -> read t i = Some v.
Proof.
  intros H. apply write_inv in H. destruct H as [Hi ->].
  unfold read. destruct (Z.ltb_spec i 0); [ lia | ].
  apply set_nth_same. lia.
Qed.

Lemma read_write_other {A : Type} (buf : list A) (i j : Z) (v : A)
      (t : list A) :
  write buf i v = Some t -> j <> i -> read t j = read buf j.
Proof.
  intros H Hj. apply write_inv in H. destruct H as [Hi ->].
  unfold read. destruct (Z.ltb_spec j 0); [ reflexivity | ].
  apply set_nth_other. lia.
Qed.

(** *** Positions of the elements of an NCHW tensor *)

Lemma radix_bound (q r Q R : Z) :
  0 <= q < Q -> 0 <= r < R -> 0 <= q * R + r < Q * R.
Proof. intros Hq Hr. nia. Qed.

Lemma radix_inj (q r q' r' R : Z) :
  0 <= r < R -> 0 <= r' < R -> q * R + r = q' * R + r' ->
  q = q' /\ r = r'.
Proof.
  intros Hr Hr' H.
  assert (E : q = q').
  { destruct (Z.lt_trichotomy q q') as [ L | [ E | G ] ];
      [ exfalso | assumption | exfalso ].
    - assert (R <= (q' - q) * R) by nia. lia.
    - assert (R <= (q - q') * R) by nia. lia. }
  subst q'. split; [ reflexivity | lia ].
Qed.

Lemma nchw_pos_range (B C H W b c y x : Z) :
  0 <= b < B -> 0 <= c < C -> 0 <= y < H -> 0 <= x < W ->
  0 <= nchw_pos C H W b c y x < B * C * H * W.
Proof.
  intros Hb Hc Hy Hx. unfold nchw_pos.
  pose proof (radix_bound b c B C Hb Hc) as H1.
  pose proof (radix_bound _ y _ H H1 Hy) as H2.
  exact (radix_bound _ x _ W H2 Hx).
Qed.

Lemma nchw_pos_inj (C H W b c y x b' c' y' x' : Z) :
  0 <= c < C -> 0 <= y < H -> 0 <= x < W ->
  0 <= c' < C -> 0 <= y' < H -> 0 <= x' < W ->
  nchw_pos C H W b c y x = nchw_pos C H W b' c' y' x' ->
  b = b' /\ c = c' /\ y = y' /\ x = x'.
Proof.
  intros Hc Hy Hx Hc' Hy' Hx' E. unfold nchw_pos in E.
  apply radix_inj in E; [ | assumption | assumption ].
  destruct E as [E ->].
  apply radix_inj in E; [ | assumption | assumption ].
  destruct E as [E ->].
  apply radix_inj in E; [ | assumption | assumption ].
  destruct E as [-> ->]. repeat split.
Qed.

(** The position computed by the 64-bit arithmetic of the loop body is
    the row-major one as long as the tensor has at most [index_max]
    elements. *)
Lemma plane_offset_exact (B C H W b c : Z) :
  0 <= b < B -> 0 <= c < C -> 0 <= H -> 0 <= W ->
  B * C * H * W <= index_max ->
  imul (imul (iadd (imul b C) c) H) W = (b * C + c) * H * W /\
  0 <= (b * C + c) * H * W /\
  (b * C + c) * H * W + H * W <= B * C * H * W.
Proof.
  intros Hb Hc HH HW HN.
  pose proof (radix_bound b c B C Hb Hc) as H1.
  assert (HHW : 0 <= H * W) by nia.
  assert (H2 : 0 <= (b * C + c) * H * W) by nia.
  assert (H3 : (b * C + c) * H * W + H * W <= B * C * H * W) by nia.
  split; [ | split; assumption ].
  destruct (Z.eq_dec (H * W) 0) as [ E | E ].
  - (* an empty plane: the product is 0 whatever wraps before *)
    assert (E' : H = 0 \/ W = 0) by nia.
    unfold imul, iadd.
    destruct E' as [ -> | -> ].
    + rewrite Z.mul_0_r. rewrite (wrap64_id 0) by index_lia.
      rewrite Z.mul_0_l. rewrite (wrap64_id 0) by index_lia. lia.
    + rewrite !Z.mul_0_r. rewrite (wrap64_id 0) by index_lia. lia.
  - assert (1 <= H * W) by lia.
    assert (1 <= H /\ 1 <= W) as [HH1 HW1] by nia.
    assert (Hbc : B * C <= B * C * H * W) by nia.
    assert (HbcH : (b * C + c) * H <= (b * C + c) * H * W) by nia.
    unfold imul, iadd.
    rewrite (wrap64_id (b * C)) by (unfold index_min, index_max in *; nia).
    rewrite (wrap64_id (b * C + c)) by (unfold index_min, index_max in *; nia).
    rewrite (wrap64_id ((b * C + c) * H))
      by (unfold index_min, index_max in *; nia).
    rewrite (wrap64_id ((b * C + c) * H * W))
      by (unfold index_min, index_max in *; nia).
    reflexivity.
Qed.

Lemma output_pos_exact (B C H W b c y x : Z) :
  0 <= b < B -> 0 <= c < C -> 0 <= y < H -> 0 <= x < W ->
  B * C * H * W <= index_max ->
  iadd (imul (imul (iadd (imul b C) c) H) W) (iadd (imul y W) x)
  = nchw_pos C H W b c y x.
Proof.
  intros Hb Hc Hy Hx HN.
  destruct (plane_offset_exact B C H W b c Hb Hc ltac:(lia) ltac:(lia) HN)
    as (-> & H2 & H3).
  pose proof (nchw_pos_range B C H W b c y x Hb Hc Hy Hx) as Hp.
  unfold nchw_pos in *.
  pose proof (radix_bound y x H W Hy Hx) as Hyx.
  unfold imul, iadd.
  rewrite (wrap64_id (y * W)) by (unfold index_min, index_max in *; nia).
  rewrite (wrap64_id (y * W + x)) by (unfold index_min, index_max in *; nia).
  rewrite wrap64_id by (unfold index_min, index_max in *; nia).
  ring.
Qed.

(** *** The invariant of the loop nest *)

Section LoopNest.
Variables (K : Z) (P : Platform) (images : list float).
Variables (B IH IW OH OW C : Z) (hs ws : float).
Variable mode : CoordinateTransformationMode.
Variable output : list float.
Hypothesis HN : B * C * OH * OW <= index_max.

Local Abbreviation Inv :=
  (resize_invariant K P images B IH IW OH OW C hs ws mode output).

Lemma resize_invariant_start : Inv (fun _ _ _ _ => False) output.
Proof.
  split; [ reflexivity | split ]; [ reflexivity | ].
  intros b y x c _ _ _ _ [].
Qed.

Lemma resize_invariant_weaken (Done Done' : Z -> Z -> Z -> Z -> Prop)
      (out : list float) :
  (forall b y x c,
      0 <= b < B -> 0 <= y < OH -> 0 <= x < OW -> 0 <= c < C ->
      Done' b y x c -> Done b y x c) ->
  Inv Done out -> Inv Done' out.
Proof.
  intros Himp (Hlen & Hframe & Hdone).
  split; [ assumption | split ]; [ assumption | ].
  intros b y x c Hb Hy Hx Hc Hd. apply Hdone; auto.
Qed.

Lemma ResizeImage_element_eq (y_weights x_weights : quad float)
      (y_indices x_indices : quad Z) (b y x c : Z) (out : list float) :
  ResizeImage_element images IH IW OH OW C y_weights x_weights y_indices
    x_indices b y x c out
  = bind (read_patch images (imul (imul (iadd (imul b C) c) IH) IW) IW
            y_indices x_indices)
      (fun patch =>
         write out
           (iadd (imul (imul (iadd (imul b C) c) OH) OW)
                 (iadd (imul y OW) x))
           (interpolate_patch patch y_weights x_weights)).
Proof. reflexivity. Qed.

(** The body of the channel loop. *)
Lemma resize_element_step (Done : Z -> Z -> Z -> Z -> Prop)
      (out t : list float) (yy xx : quad float * quad Z) (b y x c : Z) :
  0 <= b < B -> 0 <= y < OH -> 0 <= x < OW -> 0 <= c < C ->
  GetWeightsAndIndices K P hs mode y OH IH = Some yy ->
  GetWeightsAndIndices K P ws mode x OW IW = Some xx ->
  Inv Done out ->
  ResizeImage_element images IH IW OH OW C (fst yy) (fst xx) (snd yy)
    (snd xx) b y x c out = Some t ->
  Inv (fun b' y' x' c' =>
         Done b' y' x' c' \/ (b' = b /\ y' = y /\ x' = x /\ c' = c)) t.
Proof.
  intros Hb Hy Hx Hc Eyy Exx (Hlen & Hframe & Hdone) Hstep.
  rewrite ResizeImage_element_eq in Hstep.
  apply bind_Some in Hstep. destruct Hstep as [patch [Ep Hstep]].
  rewrite (output_pos_exact B C OH OW b c y x Hb Hc Hy Hx HN) in Hstep.
  pose proof (nchw_pos_range B C OH OW b c y x Hb Hc Hy Hx) as Hp.
  split; [ | split ].
  - rewrite (write_length _ _ _ _ Hstep). exact Hlen.
  - intros i Hi. rewrite (read_write_other _ _ i _ _ Hstep) by lia.
    apply Hframe. exact Hi.
  - intros b' y' x' c' Hb' Hy' Hx' Hc' Hd.
    destruct (Z.eq_dec (nchw_pos C OH OW b' c' y' x')
                       (nchw_pos C OH OW b c y x)) as [ E | E ].
    + apply nchw_pos_inj in E; try assumption.
      destruct E as (-> & -> & -> & ->).
      exists (interpolate_patch patch (fst yy) (fst xx)). split.
      * unfold element_value. rewrite Eyy. cbn [bind]. rewrite Exx.
        cbn [bind]. rewrite Ep. reflexivity.
      * apply (read_write_same _ _ _ _ Hstep).
    + destruct Hd as [ Hd | (-> & -> & -> & ->) ]; [ | congruence ].
      destruct (Hdone b' y' x' c' Hb' Hy' Hx' Hc' Hd) as [v [Hv Hr]].
      exists v. split; [ exact Hv | ].
      rewrite (read_write_other _ _ _ _ _ Hstep) by exact E. exact Hr.
Qed.


(** One loop of the nest, from what its body does. *)
Lemma resize_loop_level (f : list float -> Z -> option (list float))
      (n : Z) (cell : Z -> Z -> Z -> Z -> Z -> Prop)
      (Done : Z -> Z -> Z -> Z -> Prop) (out t : list float) :
  (forall a D s s',
      0 <= a < n -> Inv D s -> f s a = Some s' ->
      Inv (fun b y x c => D b y x c \/ cell a b y x c) s') ->
  Inv Done out -> foldM f (Zrange n) out = Some t ->
  Inv (fun b y x c =>
         Done b y x c \/ exists a, 0 <= a < n /\ cell a b y x c) t.
Proof.
  intros Hbody H0 Hf.
  apply (resize_invariant_weaken
           (fun b y x c =>
              Done b y x c \/
              exists a, In a (Zrange n) /\ cell a b y x c)).
  { intros b y x c _ _ _ _ [ Hd | [a [Ha Hcell]] ]; [ now left | right ].
    exists a. split; [ now apply In_Zrange | assumption ]. }
  revert Hf.
  apply (foldM_invariant f
           (fun pre s =>
              Inv (fun b y x c =>
                     Done b y x c \/
                     exists a, In a pre /\ cell a b y x c) s)).
  - intros pre a s s' Hin Hs Hstep.
    apply Zrange_In in Hin.
    pose proof (Hbody a _ s s' Hin Hs Hstep) as Hnew.
    revert Hnew. apply resize_invariant_weaken.
    intros b y x c _ _ _ _ [ Hd | [a' [Ha' Hcell]] ].
    + left. now left.
    + apply in_app_or in Ha'. destruct Ha' as [ Ha' | [ <- | [] ] ].
      * left. right. exists a'. split; assumption.
      * now right.
  - revert H0. apply resize_invariant_weaken.
    intros b y x c _ _ _ _ [ Hd | [a [[] _]] ]. exact Hd.
Qed.

(** The channel loop. *)
Lemma resize_channel_loop (Done : Z -> Z -> Z -> Z -> Prop)
      (out t : list float) (yy xx : quad float * quad Z) (b y x : Z) :
  0 <= b < B -> 0 <= y < OH -> 0 <= x < OW ->
  GetWeightsAndIndices K P hs mode y OH IH = Some yy ->
  GetWeightsAndIndices K P ws mode x OW IW = Some xx ->
  Inv Done out ->
  foldM
    (fun out c =>
       ResizeImage_element images IH IW OH OW C (fst yy) (fst xx) (snd yy)
         (snd xx) b y x c out)
    (Zrange C) out = Some t ->
  Inv (fun b' y' x' c' => Done b' y' x' c' \/ (b' = b /\ y' = y /\ x' = x))
      t.
Proof.
  intros Hb Hy Hx Eyy Exx H0 Hf.
  apply (resize_invariant_weaken
           (fun b' y' x' c' =>
              Done b' y' x' c' \/
              exists a,
                0 <= a < C /\ (b' = b /\ y' = y /\ x' = x /\ c' = a))).
  { intros b' y' x' c' _ _ _ Hc' [ Hd | (-> & -> & ->) ];
      [ now left | right ].
    exists c'. auto. }
  refine (resize_loop_level _ C
            (fun a b' y' x' c' => b' = b /\ y' = y /\ x' = x /\ c' = a)
            Done out t _ H0 Hf).
  intros a D s s' Ha Hs Hstep.
  exact (resize_element_step D s s' yy xx b y x a Hb Hy Hx Ha Eyy Exx Hs
           Hstep).
Qed.

(** The column loop. *)
Lemma resize_column_loop (Done : Z -> Z -> Z -> Z -> Prop)
      (out t : list float) (yy : quad float * quad Z) (b y : Z) :
  0 <= b < B -> 0 <= y < OH ->
  GetWeightsAndIndices K P hs mode y OH IH = Some yy ->
  Inv Done out ->
  foldM
    (fun out x =>
       xx <- GetWeightsAndIndices K P ws mode x OW IW ;;
       foldM
         (fun out c =>
            ResizeImage_element images IH IW OH OW C (fst yy) (fst xx)
              (snd yy) (snd xx) b y x c out)
         (Zrange C) out)
    (Zrange OW) out = Some t ->
  Inv (fun b' y' x' c' => Done b' y' x' c' \/ (b' = b /\ y' = y)) t.
Proof.
  intros Hb Hy Eyy H0 Hf.
  apply (resize_invariant_weaken
           (fun b' y' x' c' =>
              Done b' y' x' c' \/
              exists a, 0 <= a < OW /\ (b' = b /\ y' = y /\ x' = a))).
  { intros b' y' x' c' _ _ Hx' _ [ Hd | (-> & ->) ]; [ now left | right ].
    exists x'. auto. }
  refine (resize_loop_level _ OW
            (fun a b' y' x' c' => b' = b /\ y' = y /\ x' = a)
            Done out t _ H0 Hf).
  intros a D s s' Ha Hs Hstep.
  apply bind_Some in Hstep. destruct Hstep as [xx [Exx Hstep]].
  exact (resize_channel_loop D s s' yy xx b y a Hb Hy Ha Eyy Exx Hs Hstep).
Qed.

(** The row loop. *)
Lemma resize_row_loop (Done : Z -> Z -> Z -> Z -> Prop)
      (out t : list float) (b : Z) :
  0 <= b < B ->
  Inv Done out ->
  foldM
    (fun out y =>
       yy <- GetWeightsAndIndices K P hs mode y OH IH ;;
       foldM
         (fun out x =>
            xx <- GetWeightsAndIndices K P ws mode x OW IW ;;
            foldM
              (fun out c =>
                 ResizeImage_element images IH IW OH OW C (fst yy) (fst xx)
                   (snd yy) (snd xx) b y x c out)
              (Zrange C) out)
         (Zrange OW) out)
    (Zrange OH) out = Some t ->
  Inv (fun b' y' x' c' => Done b' y' x' c' \/ b' = b) t.
Proof.
  intros Hb H0 Hf.
  apply (resize_invariant_weaken
           (fun b' y' x' c' =>
              Done b' y' x' c' \/
              exists a, 0 <= a < OH /\ (b' = b /\ y' = a))).
  { intros b' y' x' c' _ Hy' _ _ [ Hd | -> ]; [ now left | right ].
    exists y'. auto. }
  refine (resize_loop_level _ OH (fun a b' y' x' c' => b' = b /\ y' = a)
            Done out t _ H0 Hf).
  intros a D s s' Ha Hs Hstep.
  apply bind_Some in Hstep. destruct Hstep as [yy [Eyy Hstep]].
  exact (resize_column_loop D s s' yy b a Hb Ha Eyy Hs Hstep).
Qed.

(** The whole nest. *)
Lemma resize_batch_loop (t : list float) :
  ResizeImage K P images B IH IW OH OW C hs ws mode output = Some t ->
  Inv (fun _ _ _ _ => True) t.
Proof.
  intros Hf.
  apply (resize_invariant_weaken
           (fun b' y' x' c' =>
              False \/ exists a, 0 <= a < B /\ b' = a)).
  { intros b' y' x' c' Hb' _ _ _ _. right. exists b'. auto. }
  refine (resize_loop_level _ B (fun a b' y' x' c' => b' = a)
            (fun _ _ _ _ => False) output t _ resize_invariant_start Hf).
  intros a D s s' Ha Hs Hstep.
  exact (resize_row_loop D s s' a Ha Hs Hstep).
Qed.

End LoopNest.

(** *** Every access of the loop nest is inside its buffer *)

Lemma coord_ok_floor (scale : float) (mode : CoordinateTransformationMode)
      (out_loc out_size : Z) :
  coord_ok scale mode out_loc out_size = true ->
  exists n,
    F32.floorZ (gwi_in scale mode out_loc out_size) = Some n /\
    in_index_range n = true.
Proof.
  unfold coord_ok.
  destruct (F32.floorZ (gwi_in scale mode out_loc out_size)) as [ n | ];
    [ | discriminate ].
  intros H. exists n. split; [ reflexivity | exact H ].
Qed.

Lemma GetWeightsAndIndices_defined
      (K : Z) (P : Platform) (scale : float)
      (mode : CoordinateTransformationMode) (out_loc out_size limit : Z) :
  1 <= K < 2 ^ 24 -> valid scale = true ->
  coord_ok scale mode out_loc out_size = true ->
  exists w,
    GetWeightsAndIndices K P scale mode out_loc out_size limit
    = Some (w, gwi_indices
                 (gwi_in_loc P (gwi_in scale mode out_loc out_size)) limit).
Proof.
  intros HK Hs Hc.
  destruct (coord_ok_floor _ _ _ _ Hc) as [n [Hf Hr]].
  pose proof (gwi_in_valid scale mode out_loc out_size Hs) as Hv.
  pose proof (gwi_offset_range K P _ n HK Hv Hf Hr) as Ho.
  unfold GetWeightsAndIndices.
  destruct (gwi_weights_defined K mode
              (gwi_in_loc P (gwi_in scale mode out_loc out_size))
              (gwi_offset K P (gwi_in scale mode out_loc out_size))
              (gwi_indices
                 (gwi_in_loc P (gwi_in scale mode out_loc out_size)) limit)
              Ho ltac:(lia)) as [w ->].
  now exists w.
Qed.

Lemma gwi_indices_range (in_loc limit : Z) :
  1 <= limit <= index_max ->
  forall i, In i (quad_list (gwi_indices in_loc limit)) ->
            0 <= i <= limit - 1.
Proof.
  intros Hl i. unfold gwi_indices, quad_list. cbn [q0 q1 q2 q3].
  intros [<- | [<- | [<- | [<- | []]]]]; apply Bound_range; exact Hl.
Qed.

Lemma read_patch_defined (images : list float) (base in_width : Z)
      (y_indices x_indices : quad Z) :
  (forall yi xi,
      In yi (quad_list y_indices) -> In xi (quad_list x_indices) ->
      exists v,
        read images (iadd base (iadd (imul yi in_width) xi)) = Some v) ->
  exists patch,
    read_patch images base in_width y_indices x_indices = Some patch.
Proof.
  intros H.
  assert (Hrow : forall yi,
             In yi (quad_list y_indices) ->
             exists r,
               (v0 <- read images
                        (iadd base (iadd (imul yi in_width)
                                         (q0 x_indices))) ;;
                v1 <- read images
                        (iadd base (iadd (imul yi in_width)
                                         (q1 x_indices))) ;;
                v2 <- read images
                        (iadd base (iadd (imul yi in_width)
                                         (q2 x_indices))) ;;
                v3 <- read images
                        (iadd base (iadd (imul yi in_width)
                                         (q3 x_indices))) ;;
                Some (Quad v0 v1 v2 v3)) = Some r).
  { intros yi Hyi.
    destruct (H yi (q0 x_indices) Hyi (or_introl eq_refl)) as [v0 ->].
    destruct (H yi (q1 x_indices) Hyi (or_intror (or_introl eq_refl)))
      as [v1 ->].
    destruct (H yi (q2 x_indices) Hyi
                (or_intror (or_intror (or_introl eq_refl)))) as [v2 ->].
    destruct (H yi (q3 x_indices) Hyi
                (or_intror (or_intror (or_intror (or_introl eq_refl)))))
      as [v3 ->].
    now eexists. }
  unfold read_patch.
  destruct (Hrow (q0 y_indices) (or_introl eq_refl)) as [r0 ->].
  destruct (Hrow (q1 y_indices) (or_intror (or_introl eq_refl))) as [r1 ->].
  destruct (Hrow (q2 y_indices)
              (or_intror (or_intror (or_introl eq_refl)))) as [r2 ->].
  destruct (Hrow (q3 y_indices)
              (or_intror (or_intror (or_intror (or_introl eq_refl)))))
    as [r3 ->].
  now eexists.
Qed.

Section LoopNestDefined.
Variables (K : Z) (P : Platform) (images : list float).
Variables (B IH IW OH OW C : Z) (hs ws : float).
Variable mode : CoordinateTransformationMode.
Variable output : list float.
Hypothesis HK : 1 <= K < 2 ^ 24.
Hypothesis Hhs : valid hs = true.
Hypothesis Hws : valid ws = true.
Hypothesis HIH : 1 <= IH.
Hypothesis HIW : 1 <= IW.
Hypothesis Hin : B * C * IH * IW <= Z.of_nat (length images).
Hypothesis Hin_max : B * C * IH * IW <= index_max.
Hypothesis Hout : B * C * OH * OW <= Z.of_nat (length output).
Hypothesis Hout_max : B * C * OH * OW <= index_max.
Hypothesis Hys : forall y, 0 <= y < OH -> coord_ok hs mode y OH = true.
Hypothesis Hxs : forall x, 0 <= x < OW -> coord_ok ws mode x OW = true.

Local Abbreviation J := (fun out : list float => length out = length output).

Lemma resize_element_defined (out : list float)
      (yy xx : quad float * quad Z) (in_y in_x b y x c : Z) :
  0 <= b < B -> 0 <= y < OH -> 0 <= x < OW -> 0 <= c < C ->
  snd yy = gwi_indices in_y IH -> snd xx = gwi_indices in_x IW ->
  J out ->
  exists t,
    ResizeImage_element images IH IW OH OW C (fst yy) (fst xx) (snd yy)
      (snd xx) b y x c out = Some t /\ J t.
Proof.
  intros Hb Hy Hx Hc Eyy Exx HJ.
  assert (Hplane : IH * IW <= B * C * IH * IW).
  { assert (1 <= B * C) by nia.
    assert (0 <= IH * IW) by nia.
    replace (B * C * IH * IW) with (B * C * (IH * IW)) by ring. nia. }
  assert (HIHmax : 1 <= IH <= index_max) by nia.
  assert (HIWmax : 1 <= IW <= index_max) by nia.
  rewrite ResizeImage_element_eq, Eyy, Exx.
  destruct (read_patch_defined images
              (imul (imul (iadd (imul b C) c) IH) IW) IW
              (gwi_indices in_y IH) (gwi_indices in_x IW)) as [patch ->].
  { intros yi xi Hyi Hxi.
    apply (gwi_indices_range _ _ HIHmax) in Hyi.
    apply (gwi_indices_range _ _ HIWmax) in Hxi.
    rewrite (output_pos_exact B C IH IW b c yi xi) by (assumption || lia).
    apply read_in_range.
    pose proof (nchw_pos_range B C IH IW b c yi xi Hb Hc ltac:(lia)
                  ltac:(lia)).
    lia. }
  cbn [bind].
  rewrite (output_pos_exact B C OH OW b c y x) by assumption.
  pose proof (nchw_pos_range B C OH OW b c y x Hb Hc Hy Hx) as Hp.
  cbv beta in *.
  rewrite write_Some by lia.
  eexists. split; [ reflexivity | ].
  rewrite set_nth_length. exact HJ.
Qed.

Lemma resize_channel_loop_defined (out : list float)
      (yy xx : quad float * quad Z) (in_y in_x b y x : Z) :
  0 <= b < B -> 0 <= y < OH -> 0 <= x < OW ->
  snd yy = gwi_indices in_y IH -> snd xx = gwi_indices in_x IW ->
  J out ->
  exists t,
    foldM
      (fun out c =>
         ResizeImage_element images IH IW OH OW C (fst yy) (fst xx)
           (snd yy) (snd xx) b y x c out)
      (Zrange C) out = Some t /\ J t.
Proof.
  intros Hb Hy Hx Eyy Exx HJ.
  apply (foldM_total _ J); [ | exact HJ ].
  intros c s Hc Hs. apply Zrange_In in Hc.
  exact (resize_element_defined s yy xx in_y in_x b y x c Hb Hy Hx Hc Eyy
           Exx Hs).
Qed.

Lemma resize_column_loop_defined (out : list float)
      (yy : quad float * quad Z) (in_y b y : Z) :
  0 <= b < B -> 0 <= y < OH ->
  snd yy = gwi_indices in_y IH ->
  J out ->
  exists t,
    foldM
      (fun out x =>
         xx <- GetWeightsAndIndices K P ws mode x OW IW ;;
         foldM
           (fun out c =>
              ResizeImage_element images IH IW OH OW C (fst yy) (fst xx)
                (snd yy) (snd xx) b y x c out)
           (Zrange C) out)
      (Zrange OW) out = Some t /\ J t.
Proof.
  intros Hb Hy Eyy HJ.
  apply (foldM_total _ J); [ | exact HJ ].
  intros x s Hx Hs. apply Zrange_In in Hx.
  destruct (GetWeightsAndIndices_defined K P ws mode x OW IW HK Hws
              (Hxs x Hx)) as [w ->].
  cbn [bind].
  exact (resize_channel_loop_defined s yy (w, _) in_y _ b y x Hb Hy Hx Eyy
           eq_refl Hs).
Qed.

Lemma resize_row_loop_defined (out : list float) (b : Z) :
  0 <= b < B ->
  J out ->
  exists t,
    foldM
      (fun out y =>
         yy <- GetWeightsAndIndices K P hs mode y OH IH ;;
         foldM
           (fun out x =>
              xx <- GetWeightsAndIndices K P ws mode x OW IW ;;
              foldM
                (fun out c =>
                   ResizeImage_element images IH IW OH OW C (fst yy)
                     (fst xx) (snd yy) (snd xx) b y x c out)
                (Zrange C) out)
           (Zrange OW) out)
      (Zrange OH) out = Some t /\ J t.
Proof.
  intros Hb HJ.
  apply (foldM_total _ J); [ | exact HJ ].
  intros y s Hy Hs. apply Zrange_In in Hy.
  destruct (GetWeightsAndIndices_defined K P hs mode y OH IH HK Hhs
              (Hys y Hy)) as [w ->].
  cbn [bind].
  exact (resize_column_loop_defined s (w, _) _ b y Hb Hy eq_refl Hs).
Qed.

Lemma resize_batch_loop_defined :
  exists t,
    ResizeImage K P images B IH IW OH OW C hs ws mode output = Some t /\
    length t = length output.
Proof.
  unfold ResizeImage.
  apply (foldM_total _ J); [ | reflexivity ].
  intros b s Hb Hs. apply Zrange_In in Hb.
  exact (resize_row_loop_defined s b Hb Hs).
Qed.

End LoopNestDefined.

(** *** What [ResizeImage] leaves in the output buffer *)

(** When [ResizeImage] completes on an output tensor of at most
    [index_max] elements, the buffer keeps its length, nothing behind the
    [batch * channels * out_height * out_width] elements of the tensor is
    touched, and the element [(b, c, y, x)] of the NCHW output holds the
    separable interpolation of the 4x4 patch selected for row [y] and
    column [x] in the channel plane [(b, c)] of the input: later
    iterations never overwrite it. *)
Theorem ResizeImage_writes_every_element
        (K : Z) (P : Platform) (images : list float)
        (batch_size in_height in_width out_height out_width channels : Z)
        (height_scale width_scale : float)
        (mode : CoordinateTransformationMode) (output out' : list float) :
  batch_size * channels * out_height * out_width <= index_max ->
  ResizeImage K P images batch_size in_height in_width out_height out_width
    channels height_scale width_scale mode output = Some out' ->
  length out' = length output /\
  (forall i,
      batch_size * channels * out_height * out_width <= i ->
      read out' i = read output i) /\
  (forall b c y x,
      0 <= b < batch_size -> 0 <= c < channels ->
      0 <= y < out_height -> 0 <= x < out_width ->
      exists v,
        element_value K P images in_height in_width out_height out_width
          channels height_scale width_scale mode b y x c = Some v /\
        read out' (nchw_pos channels out_height out_width b c y x)
        = Some v).
Proof.
  intros HN Hrun.
  destruct (resize_batch_loop K P images batch_size in_height in_width
              out_height out_width channels height_scale width_scale mode
              output HN out' Hrun) as (Hlen & Hframe & Hdone).
  split; [ exact Hlen | split ]; [ exact Hframe | ].
  intros b c y x Hb Hc Hy Hx.
  exact (Hdone b y x c Hb Hy Hx Hc I).
Qed.

Lemma ResizeImage_writes_every_element_witness :
  exists out',
    ResizeImage 1024 x86_64 plane3 1 3 3 2 2 1 three_halves three_halves
      NONE (repeat F32.zero 4) = Some out' /\
    length out' = 4%nat /\
    read out' (nchw_pos 1 2 2 0 0 1 1)
    = element_value 1024 x86_64 plane3 3 3 2 2 1 three_halves three_halves
        NONE 0 1 1 0.
Proof.
  destruct (ResizeImage 1024 x86_64 plane3 1 3 3 2 2 1 three_halves
              three_halves NONE (repeat F32.zero 4)) as [ out' | ] eqn:E.
  - exists out'. split; [ reflexivity | ].
    destruct (ResizeImage_writes_every_element 1024 x86_64 plane3 1 3 3 2 2
                1 three_halves three_halves NONE (repeat F32.zero 4) out')
      as (Hlen & _ & Hdone).
    + unfold index_max. lia.
    + exact E.
    + split; [ exact Hlen | ].
      destruct (Hdone 0 0 1 1) as [v [Hv Hr]]; try lia.
      rewrite Hr, Hv. reflexivity.
  - vm_compute in E. discriminate E.
Defined.

(** [ResizeImage] neither reads outside of the input buffer nor writes
    outside of the output buffer, and no table read fails, when the table
    resolution is below 2^24, the input planes are not empty, both
    buffers hold their tensor of at most [index_max] elements, the two
    scales are binary32 numbers and every input coordinate is finite with
    an integer part that fits in [index_t]. *)
Theorem ResizeImage_stays_in_bounds
        (K : Z) (P : Platform) (images : list float)
        (batch_size in_height in_width out_height out_width channels : Z)
        (height_scale width_scale : float)
        (mode : CoordinateTransformationMode) (output : list float) :
  1 <= K < 2 ^ 24 ->
  valid height_scale = true -> valid width_scale = true ->
  1 <= in_height -> 1 <= in_width ->
  batch_size * channels * in_height * in_width
  <= Z.of_nat (length images) ->
  batch_size * channels * in_height * in_width <= index_max ->
  batch_size * channels * out_height * out_width
  <= Z.of_nat (length output) ->
  batch_size * channels * out_height * out_width <= index_max ->
  (forall y, 0 <= y < out_height ->
             coord_ok height_scale mode y out_height = true) ->
  (forall x, 0 <= x < out_width ->
             coord_ok width_scale mode x out_width = true) ->
  exists out',
    ResizeImage K P images batch_size in_height in_width out_height
      out_width channels height_scale width_scale mode output = Some out' /\
    length out' = length output.
Proof.
  intros HK Hhs Hws HIH HIW Hin Hin_max Hout Hout_max Hys Hxs.
  exact (resize_batch_loop_defined K P images batch_size in_height in_width
           out_height out_width channels height_scale width_scale mode
           output HK Hhs Hws HIH HIW Hin Hin_max Hout Hout_max Hys Hxs).
Qed.

Lemma ResizeImage_stays_in_bounds_witness :
  exists out',
    ResizeImage 1024 aarch64 plane3 1 3 3 2 2 1 three_halves three_halves
      HALF_PIXEL (repeat F32.zero 4) = Some out' /\
    length out' = 4%nat.
Proof.
  apply (ResizeImage_stays_in_bounds 1024 aarch64 plane3 1 3 3 2 2 1
           three_halves three_halves HALF_PIXEL (repeat F32.zero 4)).
  - lia.
  - reflexivity.
  - reflexivity.
  - lia.
  - lia.
  - cbn. lia.
  - unfold index_max. lia.
  - cbn. lia.
  - unfold index_max. lia.
  - intros y Hy.
    assert (E : y = 0 \/ y = 1) by lia.
    destruct E as [ -> | -> ]; vm_compute; reflexivity.
  - intros x Hx.
    assert (E : x = 0 \/ x = 1) by lia.
    destruct E as [ -> | -> ]; vm_compute; reflexivity.
Defined.

(** *** The CPU operator on the resize path *)

(** End to end, for a table resolution K with [1 <= K < 2^24].  The
    input has rank 4, with a height and a width of at least 1; the
    resolved output size differs from the input size; [Tensor::Resize]
    succeeds; the input and the resized output each hold exactly the
    [batch * channels * height * width] elements of their shape, at most
    2^63 - 1; and [CalculateResizeScale] returns binary32 scales under
    which every output row and every output column has a finite input
    coordinate whose floor fits [index_t].  Then [Run] returns
    [MACE_SUCCESS] after exactly the two calls [Tensor::Resize] and
    [ResizeImage]; the output keeps the shape set by [Tensor::Resize],
    and each of its elements is the interpolated value of
    [element_value]. *)
Theorem Run_CPU_resizes
        (K : Z) (P : Platform)
        (Tensor_Resize : Tensor -> list Z -> MaceStatus * Tensor)
        (GetSizeParamFromTensor : Tensor -> Z * Z)
        (CalculateResizeScale : Z -> Z -> bool -> float)
        (op : ResizeBicubicOp) (input : Tensor) (extra : list Tensor)
        (output output1 : Tensor)
        (batch channels in_height in_width out_height out_width : Z) :
  1 <= K < 2 ^ 24 ->
  dims input = [batch; channels; in_height; in_width] ->
  resolve_size GetSizeParamFromTensor (size_ op) extra
  = Some (out_height, out_width) ->
  out_height <> in_height \/ out_width <> in_width ->
  Tensor_Resize output [batch; channels; out_height; out_width]
  = (MACE_SUCCESS, output1) ->
  1 <= in_height -> 1 <= in_width ->
  Z.of_nat (length (data input))
  = batch * channels * in_height * in_width ->
  Z.of_nat (length (data input)) <= index_max ->
  Z.of_nat (length (data output1))
  = batch * channels * out_height * out_width ->
  Z.of_nat (length (data output1)) <= index_max ->
  let mode := coordinate_transformation_mode_ op in
  let height_scale :=
    CalculateResizeScale in_height out_height (align_corners_ op) in
  let width_scale :=
    CalculateResizeScale in_width out_width (align_corners_ op) in
  valid height_scale = true -> valid width_scale = true ->
  (forall y, 0 <= y < out_height ->
             coord_ok height_scale mode y out_height = true) ->
  (forall x, 0 <= x < out_width ->
             coord_ok width_scale mode x out_width = true) ->
  let o :=
    Run_CPU K P Tensor_Resize GetSizeParamFromTensor CalculateResizeScale
            op input extra output in
  res o = Return MACE_SUCCESS /\
  calls o = [CallTensorResize [batch; channels; out_height; out_width];
             CallResizeImage] /\
  dims (out o) = dims output1 /\
  length (data (out o)) = length (data output1) /\
  (forall b c y x,
      0 <= b < batch -> 0 <= c < channels ->
      0 <= y < out_height -> 0 <= x < out_width ->
      exists v,
        element_value K P (data input) in_height in_width out_height
          out_width channels height_scale width_scale mode b y x c
        = Some v /\
        read (data (out o)) (nchw_pos channels out_height out_width b c y x)
        = Some v).
Proof.
  intros HK Hdims Hsize Hdiff Hresize HIH HIW Hin Hin_max Hout Hout_max
         mode height_scale width_scale Hhs Hws Hys Hxs o.
  destruct (resize_batch_loop_defined K P (data input) batch in_height
              in_width out_height out_width channels height_scale
              width_scale mode (data output1) HK Hhs Hws HIH HIW
              ltac:(lia) ltac:(lia) ltac:(lia) ltac:(lia) Hys Hxs)
    as [t [Ht Hlen]].
  destruct (resize_batch_loop K P (data input) batch in_height in_width
              out_height out_width channels height_scale width_scale mode
              (data output1) ltac:(lia) t Ht) as (_ & _ & Hdone).
  assert (Ho : o = {| res := Return MACE_SUCCESS;
                      out := {| dims := dims output1; data := t |};
                      calls := [CallTensorResize
                                  [batch; channels; out_height; out_width];
                                CallResizeImage] |}).
  { subst o. unfold Run_CPU. rewrite Hdims, Hsize, Hresize.
    cbn [status_eqb negb].
    replace ((out_height =? in_height) && (out_width =? in_width))
      with false
      by (symmetry; apply andb_false_iff;
          destruct Hdiff; [ left | right ]; now apply Z.eqb_neq).
    fold mode. fold height_scale. fold width_scale.
    rewrite Ht. reflexivity. }
  rewrite Ho. cbn [res out calls dims data].
  repeat split; try reflexivity; try assumption.
  intros b c y x Hb Hc Hy Hx.
  exact (Hdone b y x c Hb Hy Hx Hc I).
Qed.

Lemma Run_CPU_resizes_witness :
  let input := {| dims := [1; 1; 3; 3]; data := plane3 |} in
  let o :=
    Run_CPU 1024 x86_64
            (fun t shape =>
               (MACE_SUCCESS,
                {| dims := shape;
                   data := repeat F32.zero
                             (Z.to_nat (fold_right Z.mul 1 shape)) |}))
            (fun _ => (2, 2)) (fun _ _ _ => three_halves)
            {| align_corners_ := false;
               coordinate_transformation_mode_ := HALF_PIXEL;
               size_ := [2; 2] |}
            input [] {| dims := []; data := [] |} in
  res o = Return MACE_SUCCESS /\
  dims (out o) = [1; 1; 2; 2] /\
  length (data (out o)) = 4%nat.
Proof.
  cbn zeta.
  pose proof
    (Run_CPU_resizes 1024 x86_64
       (fun t shape =>
          (MACE_SUCCESS,
           {| dims := shape;
              data := repeat F32.zero
                        (Z.to_nat (fold_right Z.mul 1 shape)) |}))
       (fun _ => (2, 2)) (fun _ _ _ => three_halves)
       {| align_corners_ := false;
          coordinate_transformation_mode_ := HALF_PIXEL;
          size_ := [2; 2] |}
       {| dims := [1; 1; 3; 3]; data := plane3 |}
       [] {| dims := []; data := [] |}
       {| dims := [1; 1; 2; 2]; data := repeat F32.zero 4 |}
       1 1 3 3 2 2) as H.
  cbn zeta in H.
  destruct H as (H1 & _ & H3 & H4 & _).
  - lia.
  - reflexivity.
  - reflexivity.
  - left. lia.
  - reflexivity.
  - lia.
  - lia.
  - reflexivity.
  - unfold index_max. cbn. lia.
  - reflexivity.
  - unfold index_max. cbn. lia.
  - reflexivity.
  - reflexivity.
  - intros y Hy.
    assert (E : y = 0 \/ y = 1) by lia.
    destruct E as [ -> | -> ]; vm_compute; reflexivity.
  - intros x Hx.
    assert (E : x = 0 \/ x = 1) by lia.
    destruct E as [ -> | -> ]; vm_compute; reflexivity.
  - split; [ exact H1 | split ]; [ exact H3 | exact H4 ].
Defined.

(** ** The coefficient tables, entry by entry *)

Lemma nth_error_flat_map_pair {A B : Type} (f g : A -> B) (l : list A)
      (k : nat) :
  nth_error (flat_map (fun i => [f i; g i]) l) (2 * k)
  = option_map f (nth_error l k) /\
  nth_error (flat_map (fun i => [f i; g i]) l) (2 * k + 1)
  = option_map g (nth_error l k).
Proof.
  revert k. induction l as [ | a l IH ]; intros k.
  - cbn [flat_map]. rewrite !nth_error_nil. split; reflexivity.
  - destruct k as [ | k ].
    + split; reflexivity.
    + replace (2 * S k)%nat with (S (S (2 * k))) by lia.
      replace (S (S (2 * k)) + 1)%nat with (S (S (2 * k + 1))) by lia.
      cbn [flat_map app nth_error]. apply IH.
Qed.

Lemma nth_error_Zrange (n : Z) (k : nat) :
  (k < Z.to_nat n)%nat -> nth_error (Zrange n) k = Some (Z.of_nat k).
Proof.
  intros Hk. unfold Zrange. rewrite nth_error_map.
  rewrite (nth_error_nth' _ 0%nat) by (rewrite length_seq; exact Hk).
  rewrite seq_nth by exact Hk. reflexivity.
Qed.

Lemma InitCoeffsTable_entries (K : Z) (A : float) (i : Z) :
  0 <= i <= K ->
  read (InitCoeffsTable K A) (2 * i) = Some (entry_near K A i) /\
  read (InitCoeffsTable K A) (2 * i + 1) = Some (entry_far K A i).
Proof.
  intros Hi. unfold read.
  destruct (Z.ltb_spec (2 * i) 0); [ lia | ].
  destruct (Z.ltb_spec (2 * i + 1) 0); [ lia | ].
  replace (Z.to_nat (2 * i)) with (2 * Z.to_nat i)%nat by lia.
  replace (Z.to_nat (2 * i + 1)) with (2 * Z.to_nat i + 1)%nat by lia.
  unfold InitCoeffsTable.
  destruct (nth_error_flat_map_pair
              (fun i => coeff_near A (table_x K i))
              (fun i =>
                 coeff_far A (F32.add_double (table_x K i) F32.one_double))
              (Zrange (K + 1)) (Z.to_nat i)) as [H1 H2].
  cbv zeta. rewrite H1, H2.
  rewrite nth_error_Zrange by lia.
  rewrite Z2Nat.id by lia. split; reflexivity.
Qed.

Lemma plain_weights_at (K : Z) (A : float) (a : Z) :
  0 <= a <= K ->
  plain_weights (InitCoeffsTable K A) (nominal_pos K a)
  = Some (weights_at K A a).
Proof.
  intros Ha. unfold plain_weights, nominal_pos. cbn [q0 q1 q2 q3].
  destruct (InitCoeffsTable_entries K A a Ha) as [-> ->].
  destruct (InitCoeffsTable_entries K A (K - a) ltac:(lia)) as [-> ->].
  reflexivity.
Qed.

Lemma table_resolutions_range (K : Z) :
  In K table_resolutions -> 1 <= K < 2 ^ 24.
Proof.
  unfold table_resolutions. cbn [In]. intros HK.
  repeat (destruct HK as [<- | HK]; [ lia | ]). contradiction.
Qed.

Lemma checked_resolutions_range (K : Z) :
  In K checked_resolutions -> 1 <= K < 2 ^ 24.
Proof.
  unfold checked_resolutions. cbn [In]. intros HK.
  repeat (destruct HK as [<- | HK]; [ lia | ]). contradiction.
Qed.

(** *** Which entries a successful call has read *)

Lemma wrap64_double (x : Z) : exists c, wrap64 (x * 2) = 2 * c.
Proof.
  destruct (wrap64_decomp (x * 2)) as [k Hk].
  exists (x + k * 2 ^ 63). lia.
Qed.

Lemma wrap64_succ_even (c : Z) :
  index_min <= 2 * c <= index_max -> wrap64 (2 * c + 1) = 2 * c + 1.
Proof. intros Hc. apply wrap64_id. index_lia. Qed.

Lemma tab_pos_any_in_table (K offset i : Z) :
  0 <= K < 2 ^ 24 ->
  In i (quad_list (tab_pos K offset)) -> 0 <= i < 2 * (K + 1) ->
  exists a, 0 <= a <= K /\ tab_pos K offset = nominal_pos K a.
Proof.
  intros HK Hin Hi.
  apply tab_pos_in_table; [ exact HK | ].
  unfold tab_pos, quad_list in Hin. cbn [q0 q1 q2 q3] in Hin.
  destruct (wrap64_double offset) as [c Hc].
  pose proof (wrap64_range (offset * 2)) as Hr.
  assert (Hnear :
            forall r, wrap64 (K - offset) = r ->
                      0 <= wrap64 (r * 2) < 2 * (K + 1) ->
                      0 <= wrap64 (offset * 2) < 2 * (K + 1)).
  { intros r Hr' Hq2.
    destruct (wrap64_decomp (K - offset)) as [j Hj].
    destruct (wrap64_decomp (r * 2)) as [l Hl].
    rewrite (wrap64_congr (offset * 2)
               (2 * (K - (r + l * 2 ^ 63))) (l + 2 * j)) by lia.
    rewrite wrap64_id by index_lia. lia. }
  destruct Hin as [ <- | [ <- | [ <- | [ <- | [] ] ] ] ].
  - rewrite Hc in Hi |- *. rewrite Hc in Hr.
    rewrite wrap64_succ_even in Hi by exact Hr. lia.
  - exact Hi.
  - apply (Hnear _ eq_refl). exact Hi.
  - apply (Hnear _ eq_refl).
    destruct (wrap64_double (wrap64 (K - offset))) as [d Hd].
    pose proof (wrap64_range (wrap64 (K - offset) * 2)) as Hr2.
    rewrite Hd in Hi |- *. rewrite Hd in Hr2.
    rewrite wrap64_succ_even in Hi by exact Hr2. lia.
Qed.

(** *** The weights of the default table *)

Lemma default_tables_checked :
  forallb
    (fun K =>
       forallb
         (fun a =>
            default_weights_ok (weights_at K F32.minus_three_quarters a))
         (Zrange (K + 1)))
    checked_resolutions = true.
Proof. vm_compute. reflexivity. Qed.

Lemma tables_checked_at (ok : quad float -> bool) (A : float) (K a : Z) :
  forallb
    (fun K => forallb (fun a => ok (weights_at K A a)) (Zrange (K + 1)))
    checked_resolutions = true ->
  In K checked_resolutions -> 0 <= a <= K ->
  ok (weights_at K A a) = true.
Proof.
  intros Hall HK Ha.
  rewrite forallb_forall in Hall. specialize (Hall K HK).
  rewrite forallb_forall in Hall.
  exact (Hall a (In_Zrange (K + 1) a ltac:(lia))).
Qed.

Lemma GetWeightsAndIndices_inv
      (K : Z) (P : Platform) (scale : float)
      (mode : CoordinateTransformationMode) (out_loc out_size limit : Z)
      (w : quad float) (idx : quad Z) :
  GetWeightsAndIndices K P scale mode out_loc out_size limit
  = Some (w, idx) ->
  let inp := gwi_in scale mode out_loc out_size in
  gwi_weights K mode (gwi_in_loc P inp) (gwi_offset K P inp)
    (gwi_indices (gwi_in_loc P inp) limit) = Some w /\
  idx = gwi_indices (gwi_in_loc P inp) limit.
Proof.
  unfold GetWeightsAndIndices. cbv zeta.
  destruct (gwi_weights K mode _ _ _) as [ w' | ]; [ | discriminate ].
  intros [= <- <-]. split; reflexivity.
Qed.

(** In every mode but HALF_PIXEL, for each of the table resolutions 1, 2,
    4, ..., 1024, the four weights returned by [GetWeightsAndIndices] are
    finite, their exact sum is within 1e-5 of 1, and their magnitudes add
    up to at most 11/8: an interpolated value never exceeds 1.375 times
    the largest magnitude of the four samples, rounding apart. *)
Theorem default_weights_sum_to_one
        (K : Z) (P : Platform) (scale : float)
        (mode : CoordinateTransformationMode) (out_loc out_size limit : Z)
        (w : quad float) (idx : quad Z) :
  In K checked_resolutions ->
  mode <> HALF_PIXEL ->
  GetWeightsAndIndices K P scale mode out_loc out_size limit
  = Some (w, idx) ->
  forallb F32.is_finite (quad_list w) = true /\
  (Qabs (quad_sum_Q w - 1) <= 1 # 100000)%Q /\
  (quad_abs_sum_Q w <= 11 # 8)%Q.
Proof.
  intros HK Hm H.
  pose proof (checked_resolutions_range K HK) as HKr.
  apply GetWeightsAndIndices_inv in H. cbv zeta in H.
  destruct H as [Hw _].
  rewrite gwi_weights_other in Hw by exact Hm.
  assert (Hin : 0 <= q1 (tab_pos K (gwi_offset K P
                          (gwi_in scale mode out_loc out_size)))
                < 2 * (K + 1)).
  { pose proof (plain_weights_q1 _ _ _ Hw) as Hq.
    apply read_Some_range in Hq.
    rewrite InitCoeffsTable_length in Hq. lia. }
  destruct (tab_pos_in_table K _ ltac:(lia) Hin) as (a & Ha & Hpos).
  rewrite Hpos, plain_weights_at in Hw by exact Ha.
  injection Hw as Hw.
  pose proof (tables_checked_at default_weights_ok F32.minus_three_quarters
                K a default_tables_checked HK Ha) as Hok.
  rewrite Hw in Hok. clear Hw.
  unfold default_weights_ok, sums_to_one in Hok.
  apply andb_prop in Hok as [Hok Hgain].
  apply andb_prop in Hok as [Hfin Hsum].
  split; [ exact Hfin | split ].
  - apply Qle_bool_iff. exact Hsum.
  - apply Qle_bool_iff. exact Hgain.
Qed.

Lemma default_weights_sum_to_one_witness :
  exists w idx,
    GetWeightsAndIndices 1024 x86_64 three_halves NONE 1 2 3
    = Some (w, idx) /\
    (Qabs (quad_sum_Q w - 1) <= 1 # 100000)%Q /\
    (quad_abs_sum_Q w <= 11 # 8)%Q.
Proof.
  destruct (GetWeightsAndIndices 1024 x86_64 three_halves NONE 1 2 3)
    as [ [w idx] | ] eqn:E.
  - exists w, idx. split; [ reflexivity | ].
    destruct (default_weights_sum_to_one 1024 x86_64 three_halves NONE
                1 2 3 w idx) as (_ & H1 & H2).
    + unfold checked_resolutions. cbn [In]. tauto.
    + discriminate.
    + exact E.
    + split; [ exact H1 | exact H2 ].
  - vm_compute in E. discriminate E.
Defined.

(** *** The half-pixel weights, whichever taps are clamped *)

Lemma half_pixel_patterns_checked :
  forallb
    (fun K =>
       forallb (fun a => all_patterns_ok (weights_at K F32.minus_half a))
               (Zrange (K + 1)))
    checked_resolutions = true.
Proof. vm_compute. reflexivity. Qed.

Lemma all_tap_patterns (keep : quad bool) : In keep tap_patterns.
Proof.
  destruct keep as [ [] [] [] [] ]; unfold tap_patterns;
    cbn [flat_map map app In]; tauto.
Qed.

Lemma all_patterns_ok_spec (t : quad float) (keep : quad bool) :
  all_patterns_ok t = true ->
  half_pixel_weights_ok (hp_normalize (keep_taps keep t)) = true.
Proof.
  unfold all_patterns_ok. rewrite forallb_forall. intros H.
  exact (H keep (all_tap_patterns keep)).
Qed.

Lemma hp_raw_weights_taps (tab : list float) (in_loc : Z)
      (idx pos : quad Z) (raw : quad float) :
  hp_raw_weights tab in_loc idx pos = Some raw ->
  tap_weight tab (q0 idx) (wrap64 (in_loc - 1)) (q0 pos) (q0 raw) /\
  tap_weight tab (q1 idx) in_loc (q1 pos) (q1 raw) /\
  tap_weight tab (q2 idx) (wrap64 (in_loc + 1)) (q2 pos) (q2 raw) /\
  tap_weight tab (q3 idx) (wrap64 (in_loc + 2)) (q3 pos) (q3 raw).
Proof.
  unfold hp_raw_weights. intros H.
  destruct (hp_tap tab (q0 idx) _ _) as [w0 | ] eqn:H0; [ | discriminate ].
  destruct (hp_tap tab (q1 idx) _ _) as [w1 | ] eqn:H1; [ | discriminate ].
  destruct (hp_tap tab (q2 idx) _ _) as [w2 | ] eqn:H2; [ | discriminate ].
  destruct (hp_tap tab (q3 idx) _ _) as [w3 | ] eqn:H3; [ | discriminate ].
  injection H as <-. cbn [q0 q1 q2 q3].
  repeat split; now apply hp_tap_weight.
Qed.

Lemma tap_weight_read (tab : list float) (index nominal pos : Z)
      (r : float) :
  tap_weight tab index nominal pos r -> (index =? nominal) = true ->
  0 <= pos < Z.of_nat (length tab).
Proof.
  unfold tap_weight. intros H E. rewrite E in H.
  exact (read_Some_range _ _ _ H).
Qed.

Lemma tap_weight_value (tab : list float) (index nominal pos : Z)
      (r t : float) :
  read tab pos = Some t -> tap_weight tab index nominal pos r ->
  r = if index =? nominal then t else S754_zero false.
Proof.
  unfold tap_weight. intros Ht H.
  destruct (index =? nominal); congruence.
Qed.

(** The raw taps are the table entries of one offset, the clamped ones
    replaced by zero; with every tap clamped no entry is read at all. *)
Lemma hp_raw_weights_kept (K : Z) (A : float) (in_loc offset : Z)
      (idx : quad Z) (raw : quad float) :
  0 <= K < 2 ^ 24 ->
  hp_raw_weights (InitCoeffsTable K A) in_loc idx (tab_pos K offset)
  = Some raw ->
  (kept_taps in_loc idx = Quad false false false false /\
   raw = Quad (S754_zero false) (S754_zero false) (S754_zero false)
              (S754_zero false)) \/
  exists a,
    0 <= a <= K /\
    raw = keep_taps (kept_taps in_loc idx) (weights_at K A a).
Proof.
  intros HK Hraw.
  apply hp_raw_weights_taps in Hraw. destruct Hraw as (T0 & T1 & T2 & T3).
  assert (Hlen : Z.of_nat (length (InitCoeffsTable K A)) = 2 * (K + 1))
    by (rewrite InitCoeffsTable_length; lia).
  assert (Hin : forall i,
             In i (quad_list (tab_pos K offset)) ->
             0 <= i < Z.of_nat (length (InitCoeffsTable K A)) ->
             exists a,
               0 <= a <= K /\
               raw = keep_taps (kept_taps in_loc idx) (weights_at K A a)).
  { intros i Hi Hr. rewrite Hlen in Hr.
    destruct (tab_pos_any_in_table K offset i HK Hi Hr) as (a & Ha & Hpos).
    exists a. split; [ exact Ha | ].
    rewrite Hpos in T0, T1, T2, T3.
    unfold nominal_pos in T0, T1, T2, T3. cbn [q0 q1 q2 q3] in T0, T1, T2, T3.
    destruct (InitCoeffsTable_entries K A a Ha) as [N1 F1].
    destruct (InitCoeffsTable_entries K A (K - a) ltac:(lia)) as [N2 F2].
    apply (tap_weight_value _ _ _ _ _ _ F1) in T0.
    apply (tap_weight_value _ _ _ _ _ _ N1) in T1.
    apply (tap_weight_value _ _ _ _ _ _ N2) in T2.
    apply (tap_weight_value _ _ _ _ _ _ F2) in T3.
    destruct raw as [r0 r1 r2 r3]. cbn [q0 q1 q2 q3] in T0, T1, T2, T3.
    unfold keep_taps, kept_taps, weights_at. cbn [q0 q1 q2 q3].
    now rewrite T0, T1, T2, T3. }
  destruct (q0 idx =? wrap64 (in_loc - 1)) eqn:E0.
  { right. apply (Hin (q0 (tab_pos K offset))).
    - unfold quad_list. cbn [In]. tauto.
    - exact (tap_weight_read _ _ _ _ _ T0 E0). }
  destruct (q1 idx =? in_loc) eqn:E1.
  { right. apply (Hin (q1 (tab_pos K offset))).
    - unfold quad_list. cbn [In]. tauto.
    - exact (tap_weight_read _ _ _ _ _ T1 E1). }
  destruct (q2 idx =? wrap64 (in_loc + 1)) eqn:E2.
  { right. apply (Hin (q2 (tab_pos K offset))).
    - unfold quad_list. cbn [In]. tauto.
    - exact (tap_weight_read _ _ _ _ _ T2 E2). }
  destruct (q3 idx =? wrap64 (in_loc + 2)) eqn:E3.
  { right. apply (Hin (q3 (tab_pos K offset))).
    - unfold quad_list. cbn [In]. tauto.
    - exact (tap_weight_read _ _ _ _ _ T3 E3). }
  left. split.
  - unfold kept_taps. now rewrite E0, E1, E2, E3.
  - unfold tap_weight in T0, T1, T2, T3.
    rewrite E0 in T0. rewrite E1 in T1. rewrite E2 in T2. rewrite E3 in T3.
    destruct raw as [r0 r1 r2 r3]. cbn [q0 q1 q2 q3] in T0, T1, T2, T3.
    now subst.
Qed.

Lemma half_pixel_weights_ok_spec (w : quad float) :
  half_pixel_weights_ok w = true ->
  forallb F32.is_finite (quad_list w) = true /\
  ((Qabs (quad_sum_Q w - 1) <= 1 # 100000)%Q \/
   forallb is_zero (quad_list w) = true).
Proof.
  unfold half_pixel_weights_ok, sums_to_one. intros H.
  apply orb_prop in H. destruct H as [ H | H ].
  - apply andb_prop in H as [Hfin Hsum].
    split; [ exact Hfin | left ]. apply Qle_bool_iff. exact Hsum.
  - split; [ | right; exact H ].
    destruct w as [ [] [] [] [] ]; cbn in H |- *;
      first [ reflexivity | discriminate H ].
Qed.

(** In HALF_PIXEL mode, for each of the table resolutions 1, 2, 4, ...,
    1024 and whichever taps the borders of the input have clamped, the
    four weights returned by [GetWeightsAndIndices] are finite, and either
    their exact sum is within 1e-5 of 1 or all four are zero (which takes
    a raw weight sum of magnitude below 1000 * FLT_MIN: every tap clamped,
    or only taps whose table entry is zero kept). *)
Theorem half_pixel_weights_renormalized
        (K : Z) (P : Platform) (scale : float) (out_loc out_size limit : Z)
        (w : quad float) (idx : quad Z) :
  In K checked_resolutions ->
  GetWeightsAndIndices K P scale HALF_PIXEL out_loc out_size limit
  = Some (w, idx) ->
  forallb F32.is_finite (quad_list w) = true /\
  ((Qabs (quad_sum_Q w - 1) <= 1 # 100000)%Q \/
   forallb is_zero (quad_list w) = true).
Proof.
  intros HK H.
  pose proof (checked_resolutions_range K HK) as HKr.
  apply GetWeightsAndIndices_inv in H. cbv zeta in H.
  destruct H as [Hw _].
  rewrite gwi_weights_half_pixel in Hw.
  destruct (hp_raw_weights _ _ _ _) as [ raw | ] eqn:Hraw;
    [ | discriminate ].
  cbn [option_map] in Hw. injection Hw as Hw.
  apply half_pixel_weights_ok_spec. rewrite <- Hw. clear Hw.
  destruct (hp_raw_weights_kept K _ _ _ _ raw ltac:(lia) Hraw)
    as [ [_ Hz] | (a & Ha & Hk) ].
  - rewrite Hz. vm_compute. reflexivity.
  - rewrite Hk. apply all_patterns_ok_spec.
    exact (tables_checked_at all_patterns_ok F32.minus_half K a
             half_pixel_patterns_checked HK Ha).
Qed.

Lemma half_pixel_weights_renormalized_witness :
  exists w idx,
    GetWeightsAndIndices 1024 x86_64 three_halves HALF_PIXEL 1 2 3
    = Some (w, idx) /\
    idx <> nominal_indices
             (gwi_in_loc x86_64 (gwi_in three_halves HALF_PIXEL 1 2)) /\
    (Qabs (quad_sum_Q w - 1) <= 1 # 100000)%Q.
Proof.
  destruct (GetWeightsAndIndices 1024 x86_64 three_halves HALF_PIXEL 1 2 3)
    as [ [w idx] | ] eqn:E.
  - exists w, idx. split; [ reflexivity | ].
    destruct (half_pixel_weights_renormalized 1024 x86_64 three_halves
                1 2 3 w idx) as (_ & H).
    + unfold checked_resolutions. cbn [In]. tauto.
    + exact E.
    + vm_compute in E. injection E as <- <-.
      split; [ vm_compute; discriminate | ].
      destruct H as [ H | H ]; [ exact H | vm_compute in H; discriminate H ].
  - vm_compute in E. discriminate E.
Defined.

(** ** Independence of the platform *)

Lemma lrintf_any_platform (x : float) (K : Z) :
  (forall P, 0 <= lrintf P x <= K) ->
  forall P P', lrintf P x = lrintf P' x.
Proof.
  intros H P P'.
  specialize (H {| cvt_invalid := fun _ => -1 |}).
  unfold lrintf in *.
  destruct (F32.rintZ x) as [ n | ];
    [ destruct (in_index_range n) | ]; cbn in H; try lia; reflexivity.
Qed.

Lemma gwi_offset_any_platform (K : Z) (inp : float) (n : Z) :
  1 <= K < 2 ^ 24 ->
  valid inp = true -> F32.floorZ inp = Some n ->
  in_index_range n = true ->
  forall P P', gwi_offset K P inp = gwi_offset K P' inp.
Proof.
  intros HK Hv Hf Hr P P'.
  unfold gwi_offset, gwi_delta.
  rewrite (gwi_in_loc_floor P inp n Hv Hf Hr).
  rewrite (gwi_in_loc_floor P' inp n Hv Hf Hr).
  apply (lrintf_any_platform _ K).
  intros P0.
  pose proof (gwi_offset_range K P0 inp n HK Hv Hf Hr) as H.
  unfold gwi_offset, gwi_delta in H.
  rewrite (gwi_in_loc_floor P0 inp n Hv Hf Hr) in H. exact H.
Qed.

Lemma GetWeightsAndIndices_any_platform
      (K : Z) (scale : float) (mode : CoordinateTransformationMode)
      (out_loc out_size limit : Z) :
  1 <= K < 2 ^ 24 -> valid scale = true ->
  coord_ok scale mode out_loc out_size = true ->
  forall P P',
    GetWeightsAndIndices K P scale mode out_loc out_size limit
    = GetWeightsAndIndices K P' scale mode out_loc out_size limit.
Proof.
  intros HK Hs Hc P P'.
  destruct (coord_ok_floor _ _ _ _ Hc) as [n [Hf Hr]].
  pose proof (gwi_in_valid scale mode out_loc out_size Hs) as Hv.
  unfold GetWeightsAndIndices.
  rewrite (gwi_offset_any_platform K _ n HK Hv Hf Hr P P').
  rewrite (gwi_in_loc_floor P _ n Hv Hf Hr).
  rewrite (gwi_in_loc_floor P' _ n Hv Hf Hr).
  reflexivity.
Qed.

Lemma foldM_ext {A S : Type} (f g : S -> A -> option S) (l : list A) :
  (forall a s, In a l -> f s a = g s a) ->
  forall s, foldM f l s = foldM g l s.
Proof.
  induction l as [ | a l IH ]; intros H s; [ reflexivity | ].
  cbn [foldM]. rewrite (H a s (or_introl eq_refl)).
  destruct (g s a) as [ t | ]; [ | reflexivity ].
  cbn [bind]. apply IH. intros a' s' Hin. apply H. now right.
Qed.

(** Under strict binary32 evaluation (every operation rounded once, as it
    is written), the result of [ResizeImage] does not depend on what the
    target's float-to-[index_t] conversions return for a NaN, an infinity
    or a number out of range: for binary32 scales and K with
    [1 <= K < 2^24], when every input coordinate is finite with a floor
    that fits [index_t], [ResizeImage] returns the same buffer (or fails
    alike) whatever the conversions return for such operands. *)
Theorem ResizeImage_platform_independent
        (K : Z) (P P' : Platform) (images : list float)
        (batch_size in_height in_width out_height out_width channels : Z)
        (height_scale width_scale : float)
        (mode : CoordinateTransformationMode) (output : list float) :
  1 <= K < 2 ^ 24 ->
  valid height_scale = true -> valid width_scale = true ->
  (forall y, 0 <= y < out_height ->
             coord_ok height_scale mode y out_height = true) ->
  (forall x, 0 <= x < out_width ->
             coord_ok width_scale mode x out_width = true) ->
  ResizeImage K P images batch_size in_height in_width out_height
    out_width channels height_scale width_scale mode output
  = ResizeImage K P' images batch_size in_height in_width out_height
      out_width channels height_scale width_scale mode output.
Proof.
  intros HK Hhs Hws Hys Hxs.
  unfold ResizeImage.
  apply foldM_ext. intros b s _.
  apply foldM_ext. intros y s' Hy. apply Zrange_In in Hy.
  rewrite (GetWeightsAndIndices_any_platform K height_scale mode y
             out_height in_height HK Hhs (Hys y Hy) P P').
  destruct (GetWeightsAndIndices K P' height_scale mode y out_height
              in_height) as [ yy | ]; [ | reflexivity ].
  cbn [bind].
  apply foldM_ext. intros x s'' Hx. apply Zrange_In in Hx.
  rewrite (GetWeightsAndIndices_any_platform K width_scale mode x
             out_width in_width HK Hws (Hxs x Hx) P P').
  reflexivity.
Qed.

Lemma ResizeImage_platform_independent_witness :
  ResizeImage 1024 x86_64 plane3 1 3 3 2 2 1 three_halves three_halves
    HALF_PIXEL (repeat F32.zero 4)
  = ResizeImage 1024 aarch64 plane3 1 3 3 2 2 1 three_halves three_halves
      HALF_PIXEL (repeat F32.zero 4).
Proof.
  apply ResizeImage_platform_independent.
  - lia.
  - reflexivity.
  - reflexivity.
  - intros y Hy.
    assert (E : y = 0 \/ y = 1) by lia.
    destruct E as [ -> | -> ]; vm_compute; reflexivity.
  - intros x Hx.
    assert (E : x = 0 \/ x = 1) by lia.
    destruct E as [ -> | -> ]; vm_compute; reflexivity.
Defined.

(** ** An empty input plane *)

Lemma Zrange_first (n : Z) : 1 <= n -> exists l, Zrange n = 0 :: l.
Proof.
  intros Hn. unfold Zrange.
  destruct (Z.to_nat n) as [ | k ] eqn:E; [ lia | ].
  cbn [seq map]. now eexists.
Qed.

Lemma foldM_first_fails {A S : Type} (f : S -> A -> option S) (a : A)
      (l : list A) (s : S) :
  f s a = None -> foldM f (a :: l) s = None.
Proof. intros H. cbn [foldM]. now rewrite H. Qed.

Lemma read_negative {A : Type} (buf : list A) (i : Z) :
  i < 0 -> read buf i = None.
Proof.
  intros Hi. unfold read. destruct (Z.ltb_spec i 0); [ reflexivity | lia ].
Qed.

Lemma Bound_any_limit (val limit : Z) :
  0 <= limit <= index_max ->
  -1 <= Bound val limit <= limit - 1 /\ (limit = 0 -> Bound val limit = -1).
Proof.
  intros Hl. unfold Bound. rewrite wrap64_id by index_lia. lia.
Qed.

Lemma read_patch_first_fails (images : list float) (base in_width : Z)
      (y_indices x_indices : quad Z) :
  read images
       (iadd base (iadd (imul (q0 y_indices) in_width) (q0 x_indices)))
  = None ->
  read_patch images base in_width y_indices x_indices = None.
Proof. intros H. unfold read_patch. rewrite H. reflexivity. Qed.

Lemma empty_plane_first_read (images : list float) (IH IW C in_y in_x : Z) :
  0 <= IH <= index_max -> 0 <= IW <= index_max -> IH = 0 \/ IW = 0 ->
  read_patch images (imul (imul (iadd (imul 0 C) 0) IH) IW) IW
    (gwi_indices in_y IH) (gwi_indices in_x IW) = None.
Proof.
  intros HIH HIW Hempty.
  apply read_patch_first_fails, read_negative.
  unfold gwi_indices. cbn [q0].
  destruct (Bound_any_limit (wrap64 (in_y - 1)) IH HIH) as [Hy Hy0].
  destruct (Bound_any_limit (wrap64 (in_x - 1)) IW HIW) as [Hx Hx0].
  set (yi := Bound (wrap64 (in_y - 1)) IH) in *.
  set (xi := Bound (wrap64 (in_x - 1)) IW) in *.
  assert (W0 : wrap64 0 = 0) by (apply wrap64_id; index_lia).
  assert (Hbase : imul (imul (iadd (imul 0 C) 0) IH) IW = 0).
  { unfold imul, iadd.
    repeat rewrite ?Z.mul_0_l, ?Z.add_0_r, ?W0. reflexivity. }
  rewrite Hbase. unfold imul, iadd.
  destruct Hempty as [ E | E ].
  - specialize (Hy0 E). rewrite Hy0.
    rewrite (wrap64_id (-1 * IW)) by index_lia.
    rewrite (wrap64_id (-1 * IW + xi)) by index_lia.
    rewrite wrap64_id by index_lia. lia.
  - specialize (Hx0 E). rewrite Hx0. subst IW.
    rewrite Z.mul_0_r, W0, !Z.add_0_l.
    rewrite !(wrap64_id (-1)) by index_lia. lia.
Qed.

Lemma ResizeImage_empty_plane
      (K : Z) (P : Platform) (images : list float)
      (B IH IW OH OW C : Z) (hs ws : float)
      (mode : CoordinateTransformationMode) (output : list float) :
  1 <= B -> 1 <= C -> 1 <= OH -> 1 <= OW ->
  0 <= IH <= index_max -> 0 <= IW <= index_max -> IH = 0 \/ IW = 0 ->
  ResizeImage K P images B IH IW OH OW C hs ws mode output = None.
Proof.
  intros HB HC HOH HOW HIH HIW Hempty.
  unfold ResizeImage.
  destruct (Zrange_first B HB) as [lb ->].
  destruct (Zrange_first OH HOH) as [ly ->].
  destruct (Zrange_first OW HOW) as [lx ->].
  destruct (Zrange_first C HC) as [lc ->].
  apply foldM_first_fails. apply foldM_first_fails.
  destruct (GetWeightsAndIndices K P hs mode 0 OH IH) as [ [yw yi] | ] eqn:Ey;
    [ | reflexivity ].
  cbn [bind]. apply foldM_first_fails.
  destruct (GetWeightsAndIndices K P ws mode 0 OW IW) as [ [xw xi] | ] eqn:Ex;
    [ | reflexivity ].
  cbn [bind fst snd]. apply foldM_first_fails.
  apply GetWeightsAndIndices_inv in Ey, Ex. cbv zeta in Ey, Ex.
  destruct Ey as [_ ->], Ex as [_ ->].
  rewrite ResizeImage_element_eq.
  rewrite empty_plane_first_read by assumption. reflexivity.
Qed.

(** A rank-4 input with an empty plane (height or width 0) cannot be
    resized to a non-empty output: once [Tensor::Resize] has succeeded,
    [ResizeImage] is called and its first patch read is before the start
    of the input buffer.  Nothing is written. *)
Theorem Run_CPU_empty_input_plane
        (K : Z) (P : Platform)
        (Tensor_Resize : Tensor -> list Z -> MaceStatus * Tensor)
        (GetSizeParamFromTensor : Tensor -> Z * Z)
        (CalculateResizeScale : Z -> Z -> bool -> float)
        (op : ResizeBicubicOp) (input : Tensor) (extra : list Tensor)
        (output output1 : Tensor)
        (batch channels in_height in_width out_height out_width : Z) :
  dims input = [batch; channels; in_height; in_width] ->
  1 <= batch -> 1 <= channels ->
  0 <= in_height <= index_max -> 0 <= in_width <= index_max ->
  in_height = 0 \/ in_width = 0 ->
  resolve_size GetSizeParamFromTensor (size_ op) extra
  = Some (out_height, out_width) ->
  1 <= out_height -> 1 <= out_width ->
  Tensor_Resize output [batch; channels; out_height; out_width]
  = (MACE_SUCCESS, output1) ->
  let o :=
    Run_CPU K P Tensor_Resize GetSizeParamFromTensor CalculateResizeScale
            op input extra output in
  res o = Undefined /\
  out o = output1 /\
  calls o = [CallTensorResize [batch; channels; out_height; out_width];
             CallResizeImage].
Proof.
  intros Hdims HB HC HIH HIW Hempty Hsize HOH HOW Hresize o.
  assert (Ho : o = {| res := Undefined; out := output1;
                      calls := [CallTensorResize
                                  [batch; channels; out_height; out_width];
                                CallResizeImage] |}).
  { subst o. unfold Run_CPU. rewrite Hdims, Hsize, Hresize.
    cbn [status_eqb negb].
    replace ((out_height =? in_height) && (out_width =? in_width))
      with false
      by (symmetry; apply andb_false_iff;
          destruct Hempty; [ left | right ]; apply Z.eqb_neq; lia).
    rewrite ResizeImage_empty_plane by assumption. reflexivity. }
  rewrite Ho. repeat split.
Qed.

Lemma Run_CPU_empty_input_plane_witness :
  let o :=
    Run_CPU 1024 x86_64
            (fun t shape =>
               (MACE_SUCCESS,
                {| dims := shape;
                   data := repeat F32.zero
                             (Z.to_nat (fold_right Z.mul 1 shape)) |}))
            (fun _ => (2, 2)) (fun _ _ _ => F32.zero)
            {| align_corners_ := false;
               coordinate_transformation_mode_ := NONE;
               size_ := [2; 2] |}
            {| dims := [1; 1; 0; 3]; data := [] |} []
            {| dims := []; data := [] |} in
  res o = Undefined.
Proof.
  cbn zeta.
  pose proof
    (Run_CPU_empty_input_plane 1024 x86_64
       (fun t shape =>
          (MACE_SUCCESS,
           {| dims := shape;
              data := repeat F32.zero
                        (Z.to_nat (fold_right Z.mul 1 shape)) |}))
       (fun _ => (2, 2)) (fun _ _ _ => F32.zero)
       {| align_corners_ := false;
          coordinate_transformation_mode_ := NONE;
          size_ := [2; 2] |}
       {| dims := [1; 1; 0; 3]; data := [] |} []
       {| dims := []; data := [] |}
       {| dims := [1; 1; 2; 2]; data := repeat F32.zero 4 |}
       1 1 0 3 2 2 eq_refl) as H.
  cbn zeta in H.
  destruct H as (H1 & _).
  - lia.
  - lia.
  - unfold index_max. lia.
  - unfold index_max. lia.
  - left. reflexivity.
  - reflexivity.
  - lia.
  - lia.
  - reflexivity.
  - exact H1.
Defined.

(** ** The two operators *)

Section BothOperators.
Variables (K : Z) (P : Platform).
Variable Tensor_Resize : Tensor -> list Z -> MaceStatus * Tensor.
Variable GetSizeParamFromTensor : Tensor -> Z * Z.
Variable CalculateResizeScale : Z -> Z -> bool -> float.
Variable kernel_Compute : Tensor -> Z -> Z -> Tensor -> MaceStatus * Tensor.

Local Abbreviation run_cpu :=
  (Run_CPU K P Tensor_Resize GetSizeParamFromTensor CalculateResizeScale).
Local Abbreviation run_gpu := (Run_GPU GetSizeParamFromTensor kernel_Compute).

Lemma Run_CPU_cases (op : ResizeBicubicOp) (input : Tensor)
      (extra : list Tensor) (output : Tensor) :
  (length (dims input) <> 4%nat /\
   run_cpu op input extra output
   = {| res := Abort CheckInputRank; out := output; calls := [] |}) \/
  (length (dims input) = 4%nat /\
   resolve_size GetSizeParamFromTensor (size_ op) extra = None /\
   run_cpu op input extra output
   = {| res := Abort CheckInputSize; out := output; calls := [] |}) \/
  (exists batch channels in_height in_width out_height out_width,
      dims input = [batch; channels; in_height; in_width] /\
      resolve_size GetSizeParamFromTensor (size_ op) extra
      = Some (out_height, out_width) /\
      hd_error (calls (run_cpu op input extra output))
      = Some (CallTensorResize [batch; channels; out_height; out_width]) /\
      forall c, res (run_cpu op input extra output) <> Abort c).
Proof.
  unfold Run_CPU.
  destruct (dims input) as [ | b [ | c [ | h [ | w [ | ? ? ] ] ] ] ];
    try (left; split; [ cbn; lia | reflexivity ]).
  destruct (resolve_size GetSizeParamFromTensor (size_ op) extra)
    as [ [oh ow] | ].
  2:{ right. left. repeat split. }
  right. right. exists b, c, h, w, oh, ow.
  split; [ reflexivity | split ]; [ reflexivity | ].
  destruct (Tensor_Resize output [b; c; oh; ow]) as [st o1].
  destruct (negb (status_eqb st MACE_SUCCESS)).
  { split; [ reflexivity | discriminate ]. }
  destruct ((oh =? h) && (ow =? w)).
  - destruct (std_copy _ _ _); split; first [ reflexivity | discriminate ].
  - destruct (ResizeImage _ _ _ _ _ _ _ _ _ _ _ _ _);
      split; first [ reflexivity | discriminate ].
Qed.

Lemma Run_GPU_cases (op : ResizeBicubicOp) (input : Tensor)
      (extra : list Tensor) (output : Tensor) :
  (length (dims input) <> 4%nat /\
   run_gpu op input extra output
   = {| res := Abort CheckInputRank; out := output; calls := [] |}) \/
  (length (dims input) = 4%nat /\
   resolve_size GetSizeParamFromTensor (size_ op) extra = None /\
   run_gpu op input extra output
   = {| res := Abort CheckInputSize; out := output; calls := [] |}) \/
  (exists out_height out_width,
      length (dims input) = 4%nat /\
      resolve_size GetSizeParamFromTensor (size_ op) extra
      = Some (out_height, out_width) /\
      calls (run_gpu op input extra output)
      = [CallKernelCompute out_height out_width] /\
      forall c, res (run_gpu op input extra output) <> Abort c).
Proof.
  unfold Run_GPU.
  destruct (dims input) as [ | b [ | c [ | h [ | w [ | ? ? ] ] ] ] ];
    try (left; split; [ cbn; lia | reflexivity ]).
  destruct (resolve_size GetSizeParamFromTensor (size_ op) extra)
    as [ [oh ow] | ].
  2:{ right. left. repeat split. }
  right. right. exists oh, ow.
  destruct (kernel_Compute input oh ow output) as [st o1].
  repeat split. discriminate.
Qed.

(** The CPU and the GPU operator validate alike: on the same operator
    attributes and inputs both abort on the same failed check or neither
    aborts, and when they do not abort the output size handed to the
    OpenCL kernel is the one of the shape the CPU operator requests from
    [Tensor::Resize]. *)
Theorem Run_CPU_and_GPU_validate_alike
        (op : ResizeBicubicOp) (input : Tensor) (extra : list Tensor)
        (output : Tensor) :
  (forall c,
      res (run_cpu op input extra output) = Abort c <->
      res (run_gpu op input extra output) = Abort c) /\
  ((forall c, res (run_cpu op input extra output) <> Abort c) ->
   exists batch channels out_height out_width,
     hd_error (calls (run_cpu op input extra output))
     = Some (CallTensorResize [batch; channels; out_height; out_width]) /\
     calls (run_gpu op input extra output)
     = [CallKernelCompute out_height out_width]).
Proof.
  destruct (Run_CPU_cases op input extra output)
    as [ [Hc1 Ec] | [ (Hc1 & Hc2 & Ec)
                    | (b & c & h & w & oh & ow & Hc1 & Hc2 & Hc3 & Hc4) ] ];
    destruct (Run_GPU_cases op input extra output)
      as [ [Hg1 Eg] | [ (Hg1 & Hg2 & Eg)
                      | (oh' & ow' & Hg1 & Hg2 & Hg3 & Hg4) ] ];
    try congruence;
    try (rewrite Hc1 in Hg1; cbn in Hg1; congruence).
  - rewrite Ec, Eg. cbn [res]. split; [ tauto | ].
    intros H. now destruct (H CheckInputRank).
  - rewrite Ec, Eg. cbn [res]. split; [ tauto | ].
    intros H. now destruct (H CheckInputSize).
  - split.
    + intros c0. split; intros H; [ now destruct (Hc4 c0) | now destruct (Hg4 c0) ].
    + intros _. exists b, c, oh, ow. split; [ exact Hc3 | ].
      rewrite Hg3. congruence.
Qed.

(** A static [size] attribute with two positive entries takes precedence:
    the output size is that attribute and the inputs after the first one
    are never looked at, on either device. *)
Theorem static_size_overrides_size_tensor
        (op : ResizeBicubicOp) (input : Tensor) (extra extra' : list Tensor)
        (output : Tensor) (h w : Z) :
  size_ op = [h; w] -> 0 < h -> 0 < w ->
  resolve_size GetSizeParamFromTensor (size_ op) extra = Some (h, w) /\
  run_cpu op input extra output = run_cpu op input extra' output /\
  run_gpu op input extra output = run_gpu op input extra' output.
Proof.
  intros Hs Hh Hw.
  assert (Hr : forall e,
             resolve_size GetSizeParamFromTensor (size_ op) e = Some (h, w)).
  { intros e. unfold resolve_size.
    rewrite (proj2 (static_size_spec (size_ op) h w)); [ reflexivity | ].
    repeat split; assumption. }
  split; [ apply Hr | split ].
  - unfold Run_CPU. now rewrite (Hr extra), (Hr extra').
  - unfold Run_GPU. now rewrite (Hr extra), (Hr extra').
Qed.

(** The CPU operator returns an error status exactly when
    [Tensor::Resize] does: neither the copy nor [ResizeImage] reports
    one.  The status is then returned at once: no element is copied,
    [ResizeImage] is not called, and the output is what [Tensor::Resize]
    left. *)
Theorem Run_CPU_returns_resize_error
        (op : ResizeBicubicOp) (input : Tensor) (extra : list Tensor)
        (output : Tensor) (code : Z) :
  (res (run_cpu op input extra output) = Return (MACE_ERROR code) <->
   exists batch channels in_height in_width out_height out_width output1,
     dims input = [batch; channels; in_height; in_width] /\
     resolve_size GetSizeParamFromTensor (size_ op) extra
     = Some (out_height, out_width) /\
     Tensor_Resize output [batch; channels; out_height; out_width]
     = (MACE_ERROR code, output1)) /\
  (forall batch channels in_height in_width out_height out_width output1,
      dims input = [batch; channels; in_height; in_width] ->
      resolve_size GetSizeParamFromTensor (size_ op) extra
      = Some (out_height, out_width) ->
      Tensor_Resize output [batch; channels; out_height; out_width]
      = (MACE_ERROR code, output1) ->
      run_cpu op input extra output
      = {| res := Return (MACE_ERROR code);
           out := output1;
           calls := [CallTensorResize
                       [batch; channels; out_height; out_width]] |}).
Proof.
  assert (Hfail :
            forall batch channels in_height in_width out_height out_width
                   output1,
              dims input = [batch; channels; in_height; in_width] ->
              resolve_size GetSizeParamFromTensor (size_ op) extra
              = Some (out_height, out_width) ->
              Tensor_Resize output [batch; channels; out_height; out_width]
              = (MACE_ERROR code, output1) ->
              run_cpu op input extra output
              = {| res := Return (MACE_ERROR code);
                   out := output1;
                   calls := [CallTensorResize
                               [batch; channels; out_height; out_width]] |}).
  { intros b c h w oh ow o1 Hdims Hsize Hresize.
    unfold Run_CPU. rewrite Hdims, Hsize, Hresize. reflexivity. }
  split; [ split | exact Hfail ].
  - unfold Run_CPU.
    destruct (dims input) as [ | b [ | c [ | h [ | w [ | ? ? ] ] ] ] ];
      try discriminate.
    destruct (resolve_size GetSizeParamFromTensor (size_ op) extra)
      as [ [oh ow] | ]; [ | discriminate ].
    destruct (Tensor_Resize output [b; c; oh; ow]) as [st o1] eqn:Er.
    destruct st as [ | code' ].
    + cbn [status_eqb negb].
      destruct ((oh =? h) && (ow =? w)).
      * destruct (std_copy _ _ _); discriminate.
      * destruct (ResizeImage _ _ _ _ _ _ _ _ _ _ _ _ _); discriminate.
    + cbn [status_eqb negb res]. intros [= ->].
      now exists b, c, h, w, oh, ow, o1.
  - intros (b & c & h & w & oh & ow & o1 & Hdims & Hsize & Hresize).
    now rewrite (Hfail b c h w oh ow o1 Hdims Hsize Hresize).
Qed.

End BothOperators.

Lemma static_size_overrides_size_tensor_witness :
  let op := {| align_corners_ := false;
               coordinate_transformation_mode_ := NONE;
               size_ := [2; 2] |} in
  let input := {| dims := [1; 1; 3; 3]; data := plane3 |} in
  let resize := fun (t : Tensor) (shape : list Z) =>
                  (MACE_SUCCESS,
                   {| dims := shape; data := repeat F32.zero 4 |}) in
  let scale := fun (_ _ : Z) (_ : bool) => three_halves in
  let output := {| dims := []; data := [] |} in
  Run_CPU 1024 x86_64 resize (fun _ => (7, 7)) scale op input [] output
  = Run_CPU 1024 x86_64 resize (fun _ => (7, 7)) scale op input [input]
      output.
Proof.
  cbn zeta.
  destruct (static_size_overrides_size_tensor 1024 x86_64
              (fun (t : Tensor) (shape : list Z) =>
                 (MACE_SUCCESS,
                  {| dims := shape; data := repeat F32.zero 4 |}))
              (fun _ => (7, 7))
              (fun (_ _ : Z) (_ : bool) => three_halves)
              (fun t _ _ o => (MACE_SUCCESS, o))
              {| align_corners_ := false;
                 coordinate_transformation_mode_ := NONE;
                 size_ := [2; 2] |}
              {| dims := [1; 1; 3; 3]; data := plane3 |}
              [] [{| dims := [1; 1; 3; 3]; data := plane3 |}]
              {| dims := []; data := [] |} 2 2 eq_refl)
    as (_ & H & _).
  - lia.
  - lia.
  - exact H.
Defined.

(** ** Integral input coordinates *)

(** *** Exact binary32 operations *)

Lemma mul_one_r (s : bool) (m : positive) (e : Z) :
  valid (S754_finite s m e) = true ->
  F32.mul (S754_finite s m e) F32.one = S754_finite s m e.
Proof.
  intros Hv. destruct (valid_finite s m e Hv) as (Hf & He & Hm).
  change F32.one with (S754_finite false 8388608 (-23)).
  unfold F32.mul, SFmul. rewrite xorb_false_r.
  replace (S754_finite s m e) with (S754_finite s m (e + -23 + 23))
    by (f_equal; lia).
  apply binary_round_aux_shift; try lia.
  rewrite (digits_shift m (m * 8388608) 23) by lia.
  replace (Zpos (digits2_pos m) + 23 + (e + -23))
    with (Zpos (digits2_pos m) + e) by lia.
  lia.
Qed.

Lemma mul_zero_r (x : float) (s : bool) :
  F32.is_finite x = true ->
  is_zero (F32.mul x (S754_zero s)) = true.
Proof. destruct x; intros H; try discriminate H; reflexivity. Qed.

Lemma add_zero_l (s sx : bool) (m : positive) (e : Z) :
  F32.add (S754_zero s) (S754_finite sx m e) = S754_finite sx m e.
Proof. reflexivity. Qed.

Lemma add_zero_r (s sx : bool) (m : positive) (e : Z) :
  F32.add (S754_finite sx m e) (S754_zero s) = S754_finite sx m e.
Proof. reflexivity. Qed.

Lemma add_zeros (x y : float) :
  is_zero x = true -> is_zero y = true -> is_zero (F32.add x y) = true.
Proof.
  destruct x as [ sx | | | ]; intros Hx; try discriminate Hx.
  destruct y as [ sy | | | ]; intros Hy; try discriminate Hy.
  now destruct sx, sy.
Qed.

Lemma floorZ_of_Z (n : Z) :
  - 2 ^ 24 < n < 2 ^ 24 -> F32.floorZ (F32.of_Z n) = Some n.
Proof.
  intros Hn. unfold F32.of_Z.
  destruct (binary_normalize_small n false Hn)
    as [ [-> ->] | (s & p & mn & en & Hnp & -> & Hen & Hmn & _) ];
    [ reflexivity | ].
  unfold F32.floorZ, F32.smant. f_equal.
  destruct (Z.leb_spec 0 en) as [ H0 | H0 ].
  - assert (en = 0) by lia. subst en.
    change (- 0) with 0 in Hmn. rewrite Z.pow_0_r, Z.mul_1_r in *.
    rewrite Hnp. destruct s; cbn [cond_Zopp]; lia.
  - rewrite Hmn, <- cond_Zopp_mul, <- Hnp.
    apply Z.div_mul. pose proof (pow2_pos (- en) ltac:(lia)). lia.
Qed.

Lemma sub_of_Z_self (n : Z) :
  - 2 ^ 24 < n < 2 ^ 24 ->
  F32.sub (F32.of_Z n) (F32.of_Z n) = S754_zero false.
Proof.
  intros Hn. unfold F32.of_Z.
  destruct (binary_normalize_small n false Hn)
    as [ [_ ->] | (s & p & mn & en & _ & -> & _) ];
    [ reflexivity | ].
  rewrite sub_finite, Z.sub_diag. reflexivity.
Qed.

Lemma of_Z_finite (n : Z) :
  - 2 ^ 24 < n < 2 ^ 24 -> F32.is_finite (F32.of_Z n) = true.
Proof.
  intros Hn. unfold F32.of_Z.
  destruct (binary_normalize_small n false Hn)
    as [ [_ ->] | (s & p & mn & en & _ & -> & _) ]; reflexivity.
Qed.

Lemma lrintf_zero (P : Platform) (x : float) :
  is_zero x = true -> lrintf P x = 0.
Proof. destruct x; intros H; try discriminate H; reflexivity. Qed.

(** *** The offset and the weights of an integral coordinate *)

Lemma gwi_integral_coordinate (K : Z) (P : Platform) (n : Z) :
  1 <= K < 2 ^ 24 -> - 2 ^ 24 < n < 2 ^ 24 ->
  gwi_in_loc P (F32.of_Z n) = n /\ gwi_offset K P (F32.of_Z n) = 0.
Proof.
  intros HK Hn.
  assert (Hloc : gwi_in_loc P (F32.of_Z n) = n).
  { apply gwi_in_loc_floor.
    - apply of_Z_valid.
    - apply floorZ_of_Z. exact Hn.
    - apply in_index_range_small. exact Hn. }
  split; [ exact Hloc | ].
  unfold gwi_offset, gwi_delta. rewrite Hloc, sub_of_Z_self by exact Hn.
  apply lrintf_zero.
  pose proof (of_Z_finite K ltac:(lia)) as HKf.
  destruct (F32.of_Z K); try discriminate HKf; reflexivity.
Qed.

Lemma float_eqb_eq (x y : float) : float_eqb x y = true -> x = y.
Proof.
  destruct x as [ s | | | s m e ], y as [ t | | | t n f ];
    cbn [float_eqb]; intros H; try discriminate H.
  - apply eqb_prop in H. now subst.
  - apply andb_prop in H as [H He]. apply andb_prop in H as [Hs Hm].
    apply eqb_prop in Hs. apply Pos.eqb_eq in Hm. apply Z.eqb_eq in He.
    now subst.
Qed.

Lemma quad_eqb_eq (v w : quad float) : quad_eqb v w = true -> v = w.
Proof.
  unfold quad_eqb. destruct v as [v0 v1 v2 v3], w as [w0 w1 w2 w3].
  cbn [q0 q1 q2 q3]. intros H.
  apply andb_prop in H as [H H3]. apply andb_prop in H as [H H2].
  apply andb_prop in H as [H0 H1].
  apply float_eqb_eq in H0, H1, H2, H3. now subst.
Qed.

Lemma unit_weights_checked :
  forallb
    (fun K =>
       quad_eqb (weights_at K F32.minus_half 0) unit_weights
       && quad_eqb (weights_at K F32.minus_three_quarters 0) unit_weights)
    table_resolutions = true.
Proof. vm_compute. reflexivity. Qed.

Lemma weights_at_zero (K : Z) (A : float) :
  In K table_resolutions ->
  A = F32.minus_half \/ A = F32.minus_three_quarters ->
  weights_at K A 0 = unit_weights.
Proof.
  intros HK HA.
  pose proof (proj1 (forallb_forall _ _) unit_weights_checked K HK) as H.
  cbv beta in H. apply andb_prop in H as [H1 H2].
  destruct HA as [ -> | -> ]; now apply quad_eqb_eq.
Qed.

Lemma hp_raw_weights_at (K : Z) (A : float) (in_loc a : Z) (idx : quad Z) :
  0 <= a <= K ->
  hp_raw_weights (InitCoeffsTable K A) in_loc idx (nominal_pos K a)
  = Some (keep_taps (kept_taps in_loc idx) (weights_at K A a)).
Proof.
  intros Ha. unfold hp_raw_weights, hp_tap, nominal_pos, keep_taps,
    kept_taps, weights_at.
  cbn [q0 q1 q2 q3].
  destruct (InitCoeffsTable_entries K A a Ha) as [-> ->].
  destruct (InitCoeffsTable_entries K A (K - a) ltac:(lia)) as [-> ->].
  destruct (_ =? _), (_ =? _), (_ =? _), (_ =? _); reflexivity.
Qed.

Lemma gwi_weights_integral (K : Z) (mode : CoordinateTransformationMode)
      (n limit : Z) :
  In K table_resolutions ->
  (mode = HALF_PIXEL -> 0 <= n < limit /\ limit <= index_max) ->
  gwi_weights K mode n 0 (gwi_indices n limit) = Some unit_weights.
Proof.
  intros HK Hhp.
  pose proof (table_resolutions_range K HK) as HKr.
  destruct (mode_eqb mode HALF_PIXEL) eqn:Em.
  - assert (mode = HALF_PIXEL)
      by (destruct mode; try discriminate; reflexivity).
    subst mode. destruct (Hhp eq_refl) as [Hn Hl].
    rewrite gwi_weights_half_pixel, tab_pos_nominal by lia.
    rewrite hp_raw_weights_at by lia.
    rewrite weights_at_zero by (assumption || now left).
    cbn [option_map]. f_equal.
    assert (Hk : q1 (kept_taps n (gwi_indices n limit)) = true).
    { unfold kept_taps, gwi_indices, Bound. cbn [q1].
      rewrite wrap64_id by index_lia. apply Z.eqb_eq. lia. }
    destruct (kept_taps n (gwi_indices n limit)) as [ [] k1 [] [] ];
      cbn [q1] in Hk; subst k1; vm_compute; reflexivity.
  - rewrite gwi_weights_other, tab_pos_nominal
      by (lia || (intros ->; discriminate)).
    rewrite plain_weights_at by lia.
    rewrite weights_at_zero by (assumption || now right). reflexivity.
Qed.

Lemma Interpolate1D_unit_weights (values : quad float) :
  forallb F32.is_finite (quad_list values) = true ->
  valid (q1 values) = true ->
  (is_zero (q1 values) = false ->
   Interpolate1D unit_weights values = q1 values) /\
  (is_zero (q1 values) = true ->
   is_zero (Interpolate1D unit_weights values) = true).
Proof.
  destruct values as [v0 v1 v2 v3]. unfold quad_list. cbn [q0 q1 q2 q3 forallb].
  intros Hfin Hv.
  apply andb_prop in Hfin as [H0 Hfin]. apply andb_prop in Hfin as [H1 Hfin].
  apply andb_prop in Hfin as [H2 Hfin]. apply andb_prop in Hfin as [H3 _].
  unfold Interpolate1D, unit_weights. cbn [q0 q1 q2 q3 fadd fmul F32_Arith].
  pose proof (mul_zero_r v0 false H0) as Z0.
  pose proof (mul_zero_r v2 false H2) as Z2.
  pose proof (mul_zero_r v3 false H3) as Z3.
  destruct (F32.mul v0 (S754_zero false)) as [ s0 | | | ];
    try discriminate Z0.
  destruct (F32.mul v2 (S754_zero false)) as [ s2 | | | ];
    try discriminate Z2.
  destruct (F32.mul v3 (S754_zero false)) as [ s3 | | | ];
    try discriminate Z3.
  destruct v1 as [ s1 | | | s1 m1 e1 ]; try discriminate H1.
  - split; [ discriminate | intros _ ].
    repeat apply add_zeros; reflexivity.
  - split; [ intros _ | discriminate ].
    rewrite mul_one_r by exact Hv.
    now rewrite add_zero_l, !add_zero_r.
Qed.


(** When the input coordinate of an output coordinate is an integer [n]
    of magnitude below 2^24 (in HALF_PIXEL mode, with
    [0 <= n < limit <= 2^63 - 1]), [GetWeightsAndIndices] returns the
    weights (0, 1, 0, 0) and the indices that lines 82-83 give for
    [in_loc = n], for each table resolution 1, 2, 4, ..., 4096.  With these weights [Interpolate1D]
    applied to four finite binary32 values returns the second value
    unchanged (a zero may change its sign). *)
Theorem integral_coordinate_selects_sample
        (K : Z) (P : Platform) (scale : float)
        (mode : CoordinateTransformationMode)
        (out_loc out_size limit n : Z) :
  In K table_resolutions ->
  gwi_in scale mode out_loc out_size = F32.of_Z n ->
  - 2 ^ 24 < n < 2 ^ 24 ->
  (mode = HALF_PIXEL -> 0 <= n < limit /\ limit <= index_max) ->
  GetWeightsAndIndices K P scale mode out_loc out_size limit
  = Some (unit_weights, gwi_indices n limit) /\
  (forall values : quad float,
      forallb F32.is_finite (quad_list values) = true ->
      valid (q1 values) = true ->
      (is_zero (q1 values) = false ->
       Interpolate1D unit_weights values = q1 values) /\
      (is_zero (q1 values) = true ->
       is_zero (Interpolate1D unit_weights values) = true)).
Proof.
  intros HK Hin Hn Hhp.
  pose proof (table_resolutions_range K HK) as HKr.
  split; [ | exact Interpolate1D_unit_weights ].
  unfold GetWeightsAndIndices. rewrite Hin.
  destruct (gwi_integral_coordinate K P n HKr Hn) as [-> ->].
  now rewrite gwi_weights_integral.
Qed.

Lemma integral_coordinate_selects_sample_witness :
  GetWeightsAndIndices 1024 x86_64 (F32.of_Z 2) NONE 3 4 8
  = Some (unit_weights, Quad 5 6 7 7) /\
  Interpolate1D unit_weights
    (Quad (F32.of_Z 10) (F32.of_Z 20) (F32.of_Z 30) (F32.of_Z 40))
  = F32.of_Z 20.
Proof.
  destruct (integral_coordinate_selects_sample 1024 x86_64 (F32.of_Z 2)
              NONE 3 4 8 6) as [H1 H2].
  - unfold table_resolutions. cbn [In]. tauto.
  - vm_compute. reflexivity.
  - lia.
  - discriminate.
  - split; [ exact H1 | ].
    destruct (H2 (Quad (F32.of_Z 10) (F32.of_Z 20) (F32.of_Z 30)
                       (F32.of_Z 40))) as [H _].
    + reflexivity.
    + reflexivity.
    + apply H. reflexivity.
Defined.

(** PYTORCH_HALF_PIXEL with an output of at most one sample: whatever the
    scale (a NaN included), the output coordinate and the platform,
    [GetWeightsAndIndices] returns the weights (0, 1, 0, 0) and the
    indices (0, 0, min(1, limit-1), min(2, limit-1)), for
    [1 <= limit <= 2^63 - 1] and each table resolution 1, 2, 4, ..., 4096:
    the weight 1 is on the first position of the input. *)
Theorem pytorch_single_output_takes_first_sample
        (K : Z) (P : Platform) (scale : float)
        (out_loc out_size limit : Z) :
  In K table_resolutions ->
  out_size <= 1 ->
  1 <= limit <= index_max ->
  GetWeightsAndIndices K P scale PYTORCH_HALF_PIXEL out_loc out_size limit
  = Some (unit_weights,
          Quad 0 0 (Z.min 1 (limit - 1)) (Z.min 2 (limit - 1))).
Proof.
  intros HK Hsize Hl.
  pose proof (table_resolutions_range K HK) as HKr.
  assert (Hin : gwi_in scale PYTORCH_HALF_PIXEL out_loc out_size
                = F32.of_Z 0).
  { unfold gwi_in. cbn [mode_eqb].
    destruct (Z.ltb_spec 1 out_size); [ lia | reflexivity ]. }
  unfold GetWeightsAndIndices. rewrite Hin.
  destruct (gwi_integral_coordinate K P 0 HKr ltac:(lia)) as [-> ->].
  rewrite gwi_weights_integral by (assumption || discriminate).
  do 2 f_equal. unfold gwi_indices, Bound.
  rewrite !wrap64_id by index_lia. f_equal; lia.
Qed.

Lemma pytorch_single_output_takes_first_sample_witness :
  GetWeightsAndIndices 1024 aarch64 S754_nan PYTORCH_HALF_PIXEL 0 1 5
  = Some (unit_weights, Quad 0 0 1 2).
Proof.
  apply (pytorch_single_output_takes_first_sample 1024 aarch64 S754_nan
           0 1 5).
  - unfold table_resolutions. cbn [In]. tauto.
  - lia.
  - unfold index_max. lia.
Defined.

(** ** Border replication *)

(** Away from the ends of the [index_t] range, the four indices are the
    positions [in_loc - 1 .. in_loc + 2] clamped to [0, limit - 1]: they
    never decrease, and no tap is clamped exactly when
    [1 <= in_loc <= limit - 3]; beyond an end of the input all four are
    the border position. *)
Theorem gwi_indices_replicate_border (in_loc limit : Z) :
  1 <= limit <= index_max ->
  index_min + 1 <= in_loc <= index_max - 2 ->
  let idx := gwi_indices in_loc limit in
  let clamp v := Z.max 0 (Z.min (limit - 1) v) in
  idx = Quad (clamp (in_loc - 1)) (clamp in_loc) (clamp (in_loc + 1))
             (clamp (in_loc + 2)) /\
  (q0 idx <= q1 idx /\ q1 idx <= q2 idx /\ q2 idx <= q3 idx) /\
  (idx = nominal_indices in_loc <-> 1 <= in_loc /\ in_loc + 2 <= limit - 1) /\
  (in_loc + 2 <= 0 -> idx = Quad 0 0 0 0) /\
  (limit <= in_loc -> idx = Quad (limit - 1) (limit - 1) (limit - 1)
                                 (limit - 1)).
Proof.
  intros Hl Hn idx clamp. subst idx clamp.
  unfold gwi_indices, nominal_indices, Bound. cbn [q0 q1 q2 q3].
  rewrite !wrap64_id by index_lia.
  split; [ f_equal; lia | ].
  split; [ lia | ].
  split; [ | split; intros H; f_equal; lia ].
  split.
  - intros [= H0 H1 H2 H3]. lia.
  - intros H. f_equal; lia.
Qed.

Lemma gwi_indices_replicate_border_witness :
  gwi_indices 0 3 = Quad 0 0 1 2 /\
  gwi_indices 7 3 = Quad 2 2 2 2 /\
  gwi_indices 1 4 = nominal_indices 1.
Proof.
  destruct (gwi_indices_replicate_border 0 3) as (H1 & _);
    [ unfold index_max; lia | unfold index_min, index_max; lia | ].
  destruct (gwi_indices_replicate_border 7 3) as (_ & _ & _ & _ & H2);
    [ unfold index_max; lia | unfold index_min, index_max; lia | ].
  destruct (gwi_indices_replicate_border 1 4) as (_ & _ & H3 & _);
    [ unfold index_max; lia | unfold index_min, index_max; lia | ].
  split; [ exact H1 | split ].
  - apply H2. lia.
  - apply H3. lia.
Defined.

(** ** The interpolation in exact arithmetic *)

Lemma Interpolate1D_bound_Q (weights values : quad Q) (M : Q) :
  (forall v, In v (quad_list values) -> Qabs v <= M)%Q ->
  (Qabs (@Interpolate1D Q Q_Arith weights values)
   <= M * quad_abs_sum weights)%Q.
Proof.
  destruct weights as [w0 w1 w2 w3], values as [v0 v1 v2 v3].
  unfold quad_list, Interpolate1D, quad_abs_sum.
  cbn [q0 q1 q2 q3 fadd fmul Q_Arith In]. intros H.
  assert (T : forall v w, (Qabs v <= M -> Qabs (v * w) <= M * Qabs w)%Q).
  { intros v w Hv. rewrite Qabs_Qmult.
    apply Qmult_le_compat_r; [ exact Hv | apply Qabs_nonneg ]. }
  pose proof (T v0 w0 (H v0 ltac:(tauto))) as T0.
  pose proof (T v1 w1 (H v1 ltac:(tauto))) as T1.
  pose proof (T v2 w2 (H v2 ltac:(tauto))) as T2.
  pose proof (T v3 w3 (H v3 ltac:(tauto))) as T3.
  setoid_replace (M * (Qabs w0 + Qabs w1 + Qabs w2 + Qabs w3))%Q
    with (M * Qabs w0 + M * Qabs w1 + M * Qabs w2 + M * Qabs w3)%Q
    by ring.
  eapply Qle_trans; [ apply Qabs_triangle | ].
  apply Qplus_le_compat; [ | exact T3 ].
  eapply Qle_trans; [ apply Qabs_triangle | ].
  apply Qplus_le_compat; [ | exact T2 ].
  eapply Qle_trans; [ apply Qabs_triangle | ].
  apply Qplus_le_compat; [ exact T0 | exact T1 ].
Qed.

(** Over the rationals, that is without rounding: the value interpolated
    from a 4x4 patch whose samples have magnitude at most [M] has
    magnitude at most [M] times the sum of the magnitudes of the row
    weights times that of the column weights, and a constant patch [c]
    gives [c] times the sum of the row weights times the sum of the column
    weights. *)
Theorem interpolate_patch_exact_gain
        (patch : quad (quad Q)) (y_weights x_weights : quad Q) (M c : Q) :
  (forall row v, In row (quad_list patch) -> In v (quad_list row) ->
                 Qabs v <= M)%Q ->
  (Qabs (@interpolate_patch Q Q_Arith patch y_weights x_weights)
   <= M * quad_abs_sum x_weights * quad_abs_sum y_weights)%Q /\
  (@interpolate_patch Q Q_Arith (constant_patch c) y_weights x_weights
   == c * quad_sum y_weights * quad_sum x_weights)%Q.
Proof.
  intros H. split.
  - unfold interpolate_patch.
    apply Interpolate1D_bound_Q.
    intros v Hv. unfold patch_rows, quad_map, quad_list in Hv.
    cbn [q0 q1 q2 q3 In] in Hv.
    destruct patch as [r0 r1 r2 r3]. cbn [q0 q1 q2 q3] in Hv.
    unfold quad_list in H. cbn [q0 q1 q2 q3 In] in H.
    destruct Hv as [ <- | [ <- | [ <- | [ <- | [] ] ] ] ];
      apply Interpolate1D_bound_Q; intros v Hv;
      [ apply (H r0) | apply (H r1) | apply (H r2) | apply (H r3) ];
      tauto.
  - destruct y_weights as [y0 y1 y2 y3], x_weights as [x0 x1 x2 x3].
    unfold interpolate_patch, patch_rows, quad_map, Interpolate1D,
      constant_patch, quad_sum.
    cbn [q0 q1 q2 q3 fadd fmul Q_Arith]. ring.
Qed.

Lemma interpolate_patch_exact_gain_witness :
  let w := Quad (-1 # 8) (5 # 8) (5 # 8) (-1 # 8) in
  (Qabs (@interpolate_patch Q Q_Arith (constant_patch 2%Q) w w)
   <= 2 * quad_abs_sum w * quad_abs_sum w)%Q /\
  (@interpolate_patch Q Q_Arith (constant_patch 2%Q) w w
   == 2 * quad_sum w * quad_sum w)%Q.
Proof.
  cbn zeta.
  apply (interpolate_patch_exact_gain (constant_patch 2%Q)
           (Quad (-1 # 8) (5 # 8) (5 # 8) (-1 # 8))
           (Quad (-1 # 8) (5 # 8) (5 # 8) (-1 # 8)) 2%Q 2%Q).
  intros row v Hrow Hv.
  unfold constant_patch, quad_list in Hrow. cbn [q0 q1 q2 q3 In] in Hrow.
  destruct Hrow as [ <- | [ <- | [ <- | [ <- | [] ] ] ] ];
    unfold quad_list in Hv; cbn [q0 q1 q2 q3 In] in Hv;
    destruct Hv as [ <- | [ <- | [ <- | [ <- | [] ] ] ] ];
    vm_compute; discriminate.
Defined.

(** ** Operators built without a [size] argument *)

(** An operator whose definition has no [size] argument gets the default
    [{-1, -1}], which is no static size: on the CPU and on the GPU alike,
    [Run] with a single input aborts on the [InputSize() >= 2] check
    without touching the output, and with a second input the output size
    is the one read from that tensor. *)
Theorem default_size_needs_size_tensor
        (K : Z) (P : Platform)
        (Tensor_Resize : Tensor -> list Z -> MaceStatus * Tensor)
        (GetSizeParamFromTensor : Tensor -> Z * Z)
        (CalculateResizeScale : Z -> Z -> bool -> float)
        (kernel_Compute : Tensor -> Z -> Z -> Tensor -> MaceStatus * Tensor)
        (GetOptionalArg_align_corners : bool -> bool)
        (GetOptionalArg_coordinate_transformation_mode : Z -> Z)
        (GetRepeatedArgs_size : list Z -> list Z)
        (mode_of_int : Z -> CoordinateTransformationMode)
        (input output : Tensor) :
  GetRepeatedArgs_size [-1; -1] = [-1; -1] ->
  length (dims input) = 4%nat ->
  let cpu :=
    ResizeBicubicOp_CPU GetOptionalArg_align_corners
      GetOptionalArg_coordinate_transformation_mode GetRepeatedArgs_size
      mode_of_int in
  let gpu :=
    ResizeBicubicOp_GPU GetOptionalArg_align_corners
      GetOptionalArg_coordinate_transformation_mode GetRepeatedArgs_size
      mode_of_int true in
  gpu = Some cpu /\
  Run_CPU K P Tensor_Resize GetSizeParamFromTensor CalculateResizeScale
          cpu input [] output
  = {| res := Abort CheckInputSize; out := output; calls := [] |} /\
  Run_GPU GetSizeParamFromTensor kernel_Compute cpu input [] output
  = {| res := Abort CheckInputSize; out := output; calls := [] |} /\
  (forall size_tensor rest,
      resolve_size GetSizeParamFromTensor (size_ cpu) (size_tensor :: rest)
      = Some (GetSizeParamFromTensor size_tensor)).
Proof.
  intros Hsize Hrank cpu gpu.
  assert (Hs : size_ cpu = [-1; -1]) by exact Hsize.
  split; [ reflexivity | ].
  destruct (dims input) as [ | b [ | c [ | h [ | w [ | ? ? ] ] ] ] ] eqn:Hd;
    try discriminate Hrank.
  split; [ | split ].
  - unfold Run_CPU. rewrite Hd. unfold resolve_size. rewrite Hs. reflexivity.
  - unfold Run_GPU. rewrite Hd. unfold resolve_size. rewrite Hs. reflexivity.
  - intros t rest. unfold resolve_size. rewrite Hs. reflexivity.
Qed.

Lemma default_size_needs_size_tensor_witness :
  res (Run_CPU 1024 x86_64 (fun t _ => (MACE_SUCCESS, t)) (fun _ => (2, 2))
         (fun _ _ _ => three_halves)
         (ResizeBicubicOp_CPU (fun d => d) (fun d => d) (fun d => d)
            (fun _ => NONE))
         {| dims := [1; 1; 3; 3]; data := plane3 |} []
         {| dims := []; data := [] |})
  = Abort CheckInputSize.
Proof.
  destruct (default_size_needs_size_tensor 1024 x86_64
              (fun t _ => (MACE_SUCCESS, t)) (fun _ => (2, 2))
              (fun _ _ _ => three_halves) (fun t _ _ o => (MACE_SUCCESS, o))
              (fun d => d) (fun d => d) (fun d => d) (fun _ => NONE)
              {| dims := [1; 1; 3; 3]; data := plane3 |}
              {| dims := []; data := [] |} eq_refl eq_refl)
    as (_ & H & _).
  cbv zeta in H. rewrite H. reflexivity.
Defined.

(** ** The previous contents of the output buffer *)

Lemma foldM_ends_alike {A S : Type} (R : S -> S -> Prop)
      (f : S -> A -> option S) (l : list A) :
  (forall a s s', In a l -> R s s' -> ends_alike R (f s a) (f s' a)) ->
  forall s s', R s s' -> ends_alike R (foldM f l s) (foldM f l s').
Proof.
  induction l as [ | a l IH ]; intros Hstep s s' HR; [ exact HR | ].
  cbn [foldM].
  pose proof (Hstep a s s' (or_introl eq_refl) HR) as Ha.
  destruct (f s a) as [ t | ], (f s' a) as [ t' | ];
    cbn [ends_alike bind] in Ha |- *; try contradiction; [ | exact I ].
  apply IH; [ | exact Ha ].
  intros a' u u' Hin. apply Hstep. now right.
Qed.

Lemma write_ends_alike (s s' : list float) (i : Z) (v : float) :
  same_length s s' -> ends_alike same_length (write s i v) (write s' i v).
Proof.
  unfold same_length, write. intros H. rewrite <- H.
  destruct ((0 <=? i) && (i <? Z.of_nat (length s))); [ | exact I ].
  cbn [ends_alike]. unfold same_length. now rewrite !set_nth_length.
Qed.

Lemma ResizeImage_ends_alike
      (K : Z) (P : Platform) (images : list float)
      (B IH IW OH OW C : Z) (hs ws : float)
      (mode : CoordinateTransformationMode) (output output' : list float) :
  same_length output output' ->
  ends_alike same_length
    (ResizeImage K P images B IH IW OH OW C hs ws mode output)
    (ResizeImage K P images B IH IW OH OW C hs ws mode output').
Proof.
  unfold ResizeImage.
  apply foldM_ends_alike. intros b s s' _.
  apply foldM_ends_alike. intros y u u' _ Hu.
  destruct (GetWeightsAndIndices K P hs mode y OH IH) as [ yy | ];
    [ | exact I ].
  cbn [bind]. revert u u' Hu.
  apply foldM_ends_alike. intros x u u' _ Hu.
  destruct (GetWeightsAndIndices K P ws mode x OW IW) as [ xx | ];
    [ | exact I ].
  cbn [bind]. revert u u' Hu.
  apply foldM_ends_alike. intros c u u' _ Hu.
  rewrite !ResizeImage_element_eq.
  destruct (read_patch images _ IW (snd yy) (snd xx)) as [ patch | ];
    [ | exact I ].
  cbn [bind]. apply write_ends_alike. exact Hu.
Qed.

Lemma nchw_pos_surj (B C H W i : Z) :
  0 <= B -> 0 <= C -> 0 <= H -> 0 <= W ->
  0 <= i < B * C * H * W ->
  exists b c y x,
    0 <= b < B /\ 0 <= c < C /\ 0 <= y < H /\ 0 <= x < W /\
    i = nchw_pos C H W b c y x.
Proof.
  intros HB HC HH HW Hi.
  assert (0 < B /\ 0 < C /\ 0 < H /\ 0 < W) as (PB & PC & PH & PW) by nia.
  exists (i / W / H / C), (i / W / H mod C), (i / W mod H), (i mod W).
  pose proof (Z.mod_pos_bound i W PW).
  pose proof (Z.mod_pos_bound (i / W) H PH).
  pose proof (Z.mod_pos_bound (i / W / H) C PC).
  pose proof (Z.div_mod i W ltac:(lia)) as E1.
  pose proof (Z.div_mod (i / W) H ltac:(lia)) as E2.
  pose proof (Z.div_mod (i / W / H) C ltac:(lia)) as E3.
  assert (0 <= i / W) by (apply Z.div_pos; lia).
  assert (0 <= i / W / H) by (apply Z.div_pos; lia).
  assert (0 <= i / W / H / C) by (apply Z.div_pos; lia).
  assert (i / W < B * C * H) by (apply Z.div_lt_upper_bound; lia).
  assert (i / W / H < B * C) by (apply Z.div_lt_upper_bound; lia).
  assert (i / W / H / C < B) by (apply Z.div_lt_upper_bound; lia).
  repeat split; try lia.
  unfold nchw_pos. lia.
Qed.

Lemma read_ext (t t' : list float) :
  length t = length t' ->
  (forall i, 0 <= i < Z.of_nat (length t) -> read t i = read t' i) ->
  t = t'.
Proof.
  intros Hlen H. apply nth_error_ext. intros n.
  destruct (Nat.lt_ge_cases n (length t)) as [ Hn | Hn ].
  - specialize (H (Z.of_nat n) ltac:(lia)). unfold read in H.
    destruct (Z.ltb_spec (Z.of_nat n) 0); [ lia | ].
    now rewrite Nat2Z.id in H.
  - rewrite (proj2 (nth_error_None t n)) by exact Hn.
    rewrite (proj2 (nth_error_None t' n)) by lia. reflexivity.
Qed.

(** [ResizeImage] overwrites the whole output tensor: on two output
    buffers that hold exactly the [batch * channels * out_height *
    out_width] elements of the tensor, it fails on both or leaves the same
    values in both, whatever they held before. *)
Theorem ResizeImage_ignores_output_contents
        (K : Z) (P : Platform) (images : list float)
        (batch_size in_height in_width out_height out_width channels : Z)
        (height_scale width_scale : float)
        (mode : CoordinateTransformationMode)
        (output output' : list float) :
  0 <= batch_size -> 0 <= channels -> 0 <= out_height -> 0 <= out_width ->
  batch_size * channels * out_height * out_width <= index_max ->
  Z.of_nat (length output)
  = batch_size * channels * out_height * out_width ->
  length output' = length output ->
  ResizeImage K P images batch_size in_height in_width out_height
    out_width channels height_scale width_scale mode output
  = ResizeImage K P images batch_size in_height in_width out_height
      out_width channels height_scale width_scale mode output'.
Proof.
  intros HB HC HOH HOW HN Hlen Hlen'.
  pose proof (ResizeImage_ends_alike K P images batch_size in_height
                in_width out_height out_width channels height_scale
                width_scale mode output output' (eq_sym Hlen')) as Halike.
  destruct (ResizeImage K P images batch_size in_height in_width out_height
              out_width channels height_scale width_scale mode output)
    as [ t | ] eqn:Et;
    destruct (ResizeImage K P images batch_size in_height in_width
                out_height out_width channels height_scale width_scale
                mode output') as [ t' | ] eqn:Et';
    cbn [ends_alike] in Halike; try contradiction; [ | reflexivity ].
  f_equal.
  destruct (resize_batch_loop K P images batch_size in_height in_width
              out_height out_width channels height_scale width_scale mode
              output HN t Et) as (Lt & _ & Dt).
  destruct (resize_batch_loop K P images batch_size in_height in_width
              out_height out_width channels height_scale width_scale mode
              output' HN t' Et') as (Lt' & _ & Dt').
  apply read_ext; [ congruence | ].
  intros i Hi. rewrite Lt, Hlen in Hi.
  destruct (nchw_pos_surj batch_size channels out_height out_width i
              HB HC HOH HOW Hi) as (b & c & y & x & Hb & Hc & Hy & Hx & ->).
  destruct (Dt b y x c Hb Hy Hx Hc I) as [v [Hv Hr]].
  destruct (Dt' b y x c Hb Hy Hx Hc I) as [v' [Hv' Hr']].
  rewrite Hr, Hr'. congruence.
Qed.

Lemma ResizeImage_ignores_output_contents_witness :
  ResizeImage 1024 x86_64 plane3 1 3 3 2 2 1 three_halves three_halves
    HALF_PIXEL (repeat F32.zero 4)
  = ResizeImage 1024 x86_64 plane3 1 3 3 2 2 1 three_halves three_halves
      HALF_PIXEL [F32.one; tenth; F32.half; F32.one].
Proof.
  apply ResizeImage_ignores_output_contents; try lia; try reflexivity.
  unfold index_max. lia.
Defined.

(** ** Decimation by an integer factor *)

Lemma of_Z_pos_form (p : positive) :
  Zpos p < 2 ^ 24 ->
  exists m e,
    F32.of_Z (Zpos p) = S754_finite false m e /\
    e = Zpos (digits2_pos p) - 24 /\ e <= 0 /\
    Zpos m = Zpos p * 2 ^ (- e).
Proof.
  intros Hp.
  pose proof (digits2_pos_bounds p) as Hd.
  assert (Hd24 : Zpos (digits2_pos p) <= 24).
  { destruct (Z_le_gt_dec (Zpos (digits2_pos p)) 24) as [ H | H ];
      [ exact H | exfalso ].
    assert (2 ^ 24 <= 2 ^ (Zpos (digits2_pos p) - 1))
      by (apply Z.pow_le_mono_r; lia).
    lia. }
  set (e := Zpos (digits2_pos p) - 24).
  pose proof (pow2_pos (- e) ltac:(lia)) as Hpow.
  exists (Z.to_pos (Zpos p * 2 ^ (- e))), e.
  assert (Hm : Zpos (Z.to_pos (Zpos p * 2 ^ (- e))) = Zpos p * 2 ^ (- e))
    by (apply Z2Pos.id; lia).
  split; [ | repeat split; (lia || exact Hm) ].
  change (F32.of_Z (Zpos p))
    with (binary_round F32.prec F32.emax false p 0).
  apply binary_round_pad.
  - rewrite fexp32. lia.
  - lia.
  - lia.
  - rewrite Hm. replace (0 - e) with (- e) by lia. reflexivity.
Qed.

Lemma mul_of_Z_pos (a b : positive) :
  Zpos a * Zpos b < 2 ^ 24 ->
  F32.mul (F32.of_Z (Zpos a)) (F32.of_Z (Zpos b)) = F32.of_Z (Zpos (a * b)).
Proof.
  intros Hab.
  assert (Ha : Zpos a < 2 ^ 24) by nia.
  assert (Hb : Zpos b < 2 ^ 24) by nia.
  destruct (of_Z_pos_form a Ha) as (ma & ea & -> & Hea & Hea0 & Hma).
  destruct (of_Z_pos_form b Hb) as (mb & eb & -> & Heb & Heb0 & Hmb).
  destruct (of_Z_pos_form (a * b) ltac:(lia))
    as (mc & ec & -> & Hec & Hec0 & Hmc).
  pose proof (digits_mul_lower a b) as Hlow.
  pose proof (pow2_pos (- ea) ltac:(lia)) as Hpa.
  pose proof (pow2_pos (- eb) ltac:(lia)) as Hpb.
  pose proof (pow2_pos (- ec) ltac:(lia)) as Hpc.
  assert (Hprod : Zpos (ma * mb) = Zpos (a * b) * 2 ^ (- ea - eb)).
  { rewrite !Pos2Z.inj_mul, Hma, Hmb.
    replace (- ea - eb) with (- ea + - eb) by lia.
    rewrite pow2_split by lia. ring. }
  unfold F32.mul, SFmul. cbn [xorb].
  replace (S754_finite false mc ec)
    with (S754_finite false mc (ea + eb + (ec - (ea + eb))))
    by (f_equal; lia).
  apply binary_round_aux_shift.
  - rewrite (digits_shift (a * b) (ma * mb) (- ea - eb)) by (lia || exact Hprod).
    rewrite fexp32. lia.
  - lia.
  - rewrite Hprod, Hmc.
    replace (- ea - eb) with (- ec + (ec - (ea + eb))) by lia.
    rewrite pow2_split by lia. ring.
  - lia.
Qed.

Lemma mul_of_Z_nonneg (a b : Z) :
  0 <= a -> 0 < b < 2 ^ 24 -> a * b < 2 ^ 24 ->
  F32.mul (F32.of_Z a) (F32.of_Z b) = F32.of_Z (a * b).
Proof.
  intros Ha Hb Hab.
  destruct b as [ | pb | pb ]; try lia.
  destruct a as [ | pa | pa ]; try lia.
  - destruct (of_Z_pos_form pb ltac:(lia)) as (mb & eb & -> & _).
    reflexivity.
  - apply mul_of_Z_pos. exact Hab.
Qed.

Lemma gwi_decimation
      (K : Z) (P : Platform) (mode : CoordinateTransformationMode)
      (out_loc out_size limit d : Z) :
  In K table_resolutions ->
  mode <> HALF_PIXEL -> mode <> PYTORCH_HALF_PIXEL ->
  0 <= out_loc -> 0 < d < 2 ^ 24 -> out_loc * d < 2 ^ 24 ->
  gwi_in (F32.of_Z d) mode out_loc out_size = F32.of_Z (out_loc * d) /\
  GetWeightsAndIndices K P (F32.of_Z d) mode out_loc out_size limit
  = Some (unit_weights, gwi_indices (out_loc * d) limit).
Proof.
  intros HK Hhp Hpt Ho Hd Hod.
  pose proof (table_resolutions_range K HK) as HKr.
  assert (Hin : gwi_in (F32.of_Z d) mode out_loc out_size
                = F32.of_Z (out_loc * d)).
  { unfold gwi_in.
    destruct mode; try congruence; cbn [mode_eqb];
      now apply mul_of_Z_nonneg. }
  split; [ exact Hin | ].
  unfold GetWeightsAndIndices. rewrite Hin.
  destruct (gwi_integral_coordinate K P (out_loc * d) HKr ltac:(nia))
    as [-> ->].
  now rewrite gwi_weights_integral.
Qed.

Lemma gwi_indices_q1 (n limit : Z) :
  1 <= limit <= index_max -> 0 <= n ->
  q1 (gwi_indices n limit) = Z.min n (limit - 1).
Proof.
  intros Hl Hn. unfold gwi_indices, Bound. cbn [q1].
  rewrite wrap64_id by index_lia. lia.
Qed.

(** Without a coordinate mode and with an integral scale [d] (taking
    every [d]-th sample), the input coordinate of the output coordinate
    [out_loc] is exactly [out_loc * d]: the weights are (0, 1, 0, 0) and
    the second index is [out_loc * d] clamped to the input, so that the
    output sample is a copy of that input sample. *)
Theorem integer_decimation_selects_samples
        (K : Z) (P : Platform) (mode : CoordinateTransformationMode)
        (out_loc out_size limit d : Z) :
  In K table_resolutions ->
  mode <> HALF_PIXEL -> mode <> PYTORCH_HALF_PIXEL ->
  0 <= out_loc -> 0 < d < 2 ^ 24 -> out_loc * d < 2 ^ 24 ->
  1 <= limit <= index_max ->
  GetWeightsAndIndices K P (F32.of_Z d) mode out_loc out_size limit
  = Some (unit_weights, gwi_indices (out_loc * d) limit) /\
  q1 (gwi_indices (out_loc * d) limit) = Z.min (out_loc * d) (limit - 1).
Proof.
  intros HK Hhp Hpt Ho Hd Hod Hl. split.
  - exact (proj2 (gwi_decimation K P mode out_loc out_size limit d HK Hhp
                    Hpt Ho Hd Hod)).
  - apply gwi_indices_q1; [ exact Hl | nia ].
Qed.

Lemma integer_decimation_selects_samples_witness :
  GetWeightsAndIndices 1024 x86_64 (F32.of_Z 2) NONE 3 4 8
  = Some (unit_weights, gwi_indices 6 8) /\
  q1 (gwi_indices 6 8) = 6.
Proof.
  destruct (integer_decimation_selects_samples 1024 x86_64 NONE 3 4 8 2)
    as [H1 H2].
  - unfold table_resolutions. cbn [In]. tauto.
  - discriminate.
  - discriminate.
  - lia.
  - lia.
  - lia.
  - unfold index_max. lia.
  - split; [ exact H1 | exact H2 ].
Defined.

(** *** The whole image *)

Lemma same_value_trans (a b c : float) :
  same_value a b -> same_value b c -> same_value a c.
Proof.
  unfold same_value.
  intros [ -> | [Ha Hb] ] [ -> | [Hb' Hc] ]; auto.
Qed.

Lemma Interpolate1D_unit_same (values : quad float) :
  forallb finite_float (quad_list values) = true ->
  same_value (Interpolate1D unit_weights values) (q1 values) /\
  finite_float (Interpolate1D unit_weights values) = true.
Proof.
  intros H.
  assert (Hfin : forallb F32.is_finite (quad_list values) = true).
  { rewrite forallb_forall in H |- *. intros v Hv.
    specialize (H v Hv). unfold finite_float in H.
    now apply andb_prop in H. }
  assert (H1 : finite_float (q1 values) = true).
  { rewrite forallb_forall in H. apply H.
    unfold quad_list. cbn [In]. tauto. }
  unfold finite_float in H1. apply andb_prop in H1 as [F1 V1].
  destruct (Interpolate1D_unit_weights values Hfin V1) as [Hnz Hz].
  destruct (is_zero (q1 values)) eqn:E.
  - specialize (Hz eq_refl). split.
    + right. split; [ exact Hz | exact E ].
    + destruct (Interpolate1D unit_weights values); try discriminate Hz.
      reflexivity.
  - specialize (Hnz eq_refl). rewrite Hnz. split.
    + now left.
    + unfold finite_float. now rewrite F1, V1.
Qed.

Lemma interpolate_patch_unit (patch : quad (quad float)) :
  (forall row, In row (quad_list patch) ->
               forallb finite_float (quad_list row) = true) ->
  same_value (interpolate_patch patch unit_weights unit_weights)
             (q1 (q1 patch)).
Proof.
  intros H. unfold interpolate_patch.
  destruct patch as [r0 r1 r2 r3]. unfold quad_list in H.
  cbn [q0 q1 q2 q3 In] in H.
  destruct (Interpolate1D_unit_same r0 (H r0 ltac:(tauto))) as [_ F0].
  destruct (Interpolate1D_unit_same r1 (H r1 ltac:(tauto))) as [S1 F1].
  destruct (Interpolate1D_unit_same r2 (H r2 ltac:(tauto))) as [_ F2].
  destruct (Interpolate1D_unit_same r3 (H r3 ltac:(tauto))) as [_ F3].
  apply (same_value_trans _ (Interpolate1D unit_weights r1)).
  - apply (Interpolate1D_unit_same
             (patch_rows (Quad r0 r1 r2 r3) unit_weights)).
    unfold patch_rows, quad_map, quad_list. cbn [q0 q1 q2 q3 forallb].
    now rewrite F0, F1, F2, F3.
  - cbn [q1]. exact S1.
Qed.

Lemma read_finite (images : list float) (i : Z) (v : float) :
  forallb finite_float images = true -> read images i = Some v ->
  finite_float v = true.
Proof.
  intros H Hr. rewrite forallb_forall in H. apply H.
  unfold read in Hr. destruct (i <? 0); [ discriminate | ].
  now apply nth_error_In in Hr.
Qed.

Lemma read_row_inv (images : list float) (p0 p1 p2 p3 : Z)
      (row : quad float) :
  forallb finite_float images = true ->
  (v0 <- read images p0 ;; v1 <- read images p1 ;;
   v2 <- read images p2 ;; v3 <- read images p3 ;;
   Some (Quad v0 v1 v2 v3)) = Some row ->
  read images p1 = Some (q1 row) /\
  forallb finite_float (quad_list row) = true.
Proof.
  intros Hfin H.
  destruct (read images p0) as [ v0 | ] eqn:E0; [ | discriminate H ].
  destruct (read images p1) as [ v1 | ] eqn:E1; [ | discriminate H ].
  destruct (read images p2) as [ v2 | ] eqn:E2; [ | discriminate H ].
  destruct (read images p3) as [ v3 | ] eqn:E3; [ | discriminate H ].
  cbn [bind] in H. injection H as <-.
  split; [ reflexivity | ].
  unfold quad_list. cbn [q0 q1 q2 q3 forallb].
  rewrite (read_finite _ _ _ Hfin E0), (read_finite _ _ _ Hfin E1),
    (read_finite _ _ _ Hfin E2), (read_finite _ _ _ Hfin E3).
  reflexivity.
Qed.

Lemma read_patch_inv (images : list float) (base in_width : Z)
      (y_indices x_indices : quad Z) (patch : quad (quad float)) :
  forallb finite_float images = true ->
  read_patch images base in_width y_indices x_indices = Some patch ->
  read images
       (iadd base (iadd (imul (q1 y_indices) in_width) (q1 x_indices)))
  = Some (q1 (q1 patch)) /\
  (forall row, In row (quad_list patch) ->
               forallb finite_float (quad_list row) = true).
Proof.
  intros Hfin. unfold read_patch. intros H.
  apply bind_Some in H. destruct H as [r0 [R0 H]].
  apply bind_Some in H. destruct H as [r1 [R1 H]].
  apply bind_Some in H. destruct H as [r2 [R2 H]].
  apply bind_Some in H. destruct H as [r3 [R3 H]].
  injection H as <-.
  apply (read_row_inv _ _ _ _ _ _ Hfin) in R0, R1, R2, R3.
  cbn [q1]. split; [ exact (proj1 R1) | ].
  unfold quad_list. cbn [q0 q1 q2 q3 In].
  intros row [ <- | [ <- | [ <- | [ <- | [] ] ] ] ];
    [ exact (proj2 R0) | exact (proj2 R1) | exact (proj2 R2)
    | exact (proj2 R3) ].
Qed.

Lemma bind_Some_ret {A B : Type} (o : option A) (g : A -> B) (b : B) :
  bind o (fun a => Some (g a)) = Some b -> exists a, o = Some a /\ b = g a.
Proof.
  destruct o as [ a | ]; [ | discriminate ].
  intros [= <-]. now exists a.
Qed.

Lemma element_value_inv
      (K : Z) (P : Platform) (images : list float)
      (IH IW OH OW C : Z) (hs ws : float)
      (mode : CoordinateTransformationMode) (b y x c : Z) (v : float) :
  element_value K P images IH IW OH OW C hs ws mode b y x c = Some v ->
  exists yy xx patch,
    GetWeightsAndIndices K P hs mode y OH IH = Some yy /\
    GetWeightsAndIndices K P ws mode x OW IW = Some xx /\
    read_patch images (imul (imul (iadd (imul b C) c) IH) IW) IW (snd yy)
      (snd xx) = Some patch /\
    v = interpolate_patch patch (fst yy) (fst xx).
Proof.
  intros H.
  assert (E : element_value K P images IH IW OH OW C hs ws mode b y x c
              = bind (GetWeightsAndIndices K P hs mode y OH IH)
                  (fun yy =>
                     bind (GetWeightsAndIndices K P ws mode x OW IW)
                       (fun xx =>
                          bind (read_patch images
                                  (imul (imul (iadd (imul b C) c) IH) IW)
                                  IW (snd yy) (snd xx))
                            (fun patch =>
                               Some (interpolate_patch patch (fst yy)
                                       (fst xx))))))
    by reflexivity.
  rewrite E in H. clear E.
  apply bind_Some in H. destruct H as [yy [Hy H]].
  apply bind_Some in H. destruct H as [xx [Hx H]].
  apply bind_Some_ret in H. destruct H as [patch [Hp H]].
  exists yy, xx, patch. repeat split; assumption.
Qed.

(** Taking every [dh]-th row and every [dw]-th column.  For a table
    resolution 1, 2, 4, ..., 4096, a mode other than HALF_PIXEL and
    PYTORCH_HALF_PIXEL, and scales that are the integers [dh] and [dw]
    with [0 < dh, dw < 2^24], [out_height * dh <= 2^24] and
    [out_width * dw <= 2^24] (so that every input coordinate is an
    integer that binary32 holds), on an input of finite binary32 numbers
    that holds exactly the [batch * channels * in_height * in_width]
    elements of the tensor, at most 2^63 - 1, with [in_height] and
    [in_width] at least 1, and an output buffer with room for the at most
    2^63 - 1 elements of the result: [ResizeImage] completes, and the
    element [(b, c, y, x)] of its output has the value of the input
    sample at row [min (y * dh) (in_height - 1)] and column
    [min (x * dw) (in_width - 1)] of the same plane; a zero may change
    its sign. *)
Theorem ResizeImage_integer_decimation
        (K : Z) (P : Platform) (images : list float)
        (batch_size in_height in_width out_height out_width channels : Z)
        (dh dw : Z) (mode : CoordinateTransformationMode)
        (output : list float) :
  In K table_resolutions ->
  mode <> HALF_PIXEL -> mode <> PYTORCH_HALF_PIXEL ->
  0 < dh < 2 ^ 24 -> 0 < dw < 2 ^ 24 ->
  out_height * dh <= 2 ^ 24 -> out_width * dw <= 2 ^ 24 ->
  0 <= batch_size -> 0 <= channels -> 1 <= in_height -> 1 <= in_width ->
  Z.of_nat (length images)
  = batch_size * channels * in_height * in_width ->
  Z.of_nat (length images) <= index_max ->
  forallb finite_float images = true ->
  batch_size * channels * out_height * out_width
  <= Z.of_nat (length output) ->
  batch_size * channels * out_height * out_width <= index_max ->
  exists out',
    ResizeImage K P images batch_size in_height in_width out_height
      out_width channels (F32.of_Z dh) (F32.of_Z dw) mode output
    = Some out' /\
    forall b c y x,
      0 <= b < batch_size -> 0 <= c < channels ->
      0 <= y < out_height -> 0 <= x < out_width ->
      exists v s,
        read out' (nchw_pos channels out_height out_width b c y x)
        = Some v /\
        read images
             (nchw_pos channels in_height in_width b c
                (Z.min (y * dh) (in_height - 1))
                (Z.min (x * dw) (in_width - 1)))
        = Some s /\
        same_value v s.
Proof.
  intros HK Hhp Hpt Hdh Hdw HOH HOW HB HC HIH HIW Hlen Hmax Hfin Hout
         Hout_max.
  pose proof (table_resolutions_range K HK) as HKr.
  assert (Hcoord : forall d n size o,
             0 < d < 2 ^ 24 -> n * d <= 2 ^ 24 -> 0 <= o < n ->
             coord_ok (F32.of_Z d) mode o size = true).
  { intros d n size o Hd Hn Ho.
    assert (Hod : o * d < 2 ^ 24) by nia.
    destruct (gwi_decimation K P mode o size 0 d HK Hhp Hpt ltac:(lia)
                Hd Hod) as [Hin _].
    unfold coord_ok. rewrite Hin, floorZ_of_Z by nia.
    apply in_index_range_small. nia. }
  destruct (resize_batch_loop_defined K P images batch_size in_height
              in_width out_height out_width channels (F32.of_Z dh)
              (F32.of_Z dw) mode output HKr (of_Z_valid dh) (of_Z_valid dw)
              HIH HIW ltac:(lia) ltac:(lia) Hout Hout_max
              (fun y Hy => Hcoord dh out_height out_height y Hdh HOH Hy)
              (fun x Hx => Hcoord dw out_width out_width x Hdw HOW Hx))
    as [t [Ht _]].
  exists t. split; [ exact Ht | ].
  intros b c y x Hb Hc Hy Hx.
  destruct (resize_batch_loop K P images batch_size in_height in_width
              out_height out_width channels (F32.of_Z dh) (F32.of_Z dw)
              mode output Hout_max t Ht) as (_ & _ & Hdone).
  destruct (Hdone b y x c Hb Hy Hx Hc I) as [v [Hv Hr]].
  assert (Hplane : in_height * in_width
                   <= batch_size * channels * in_height * in_width).
  { assert (1 <= batch_size * channels) by nia.
    assert (0 <= in_height * in_width) by nia.
    replace (batch_size * channels * in_height * in_width)
      with (batch_size * channels * (in_height * in_width)) by ring.
    nia. }
  assert (HIHmax : 1 <= in_height <= index_max) by nia.
  assert (HIWmax : 1 <= in_width <= index_max) by nia.
  assert (Hyd : y * dh < 2 ^ 24) by nia.
  assert (Hxd : x * dw < 2 ^ 24) by nia.
  apply element_value_inv in Hv.
  destruct Hv as (yy & xx & patch & Eyy & Exx & Hp & ->).
  rewrite (proj2 (gwi_decimation K P mode y out_height in_height dh HK Hhp
                    Hpt ltac:(lia) Hdh Hyd)) in Eyy.
  rewrite (proj2 (gwi_decimation K P mode x out_width in_width dw HK Hhp
                    Hpt ltac:(lia) Hdw Hxd)) in Exx.
  injection Eyy as <-. injection Exx as <-. cbn [fst snd] in Hp, Hr |- *.
  destruct (read_patch_inv _ _ _ _ _ patch Hfin Hp) as [Hcentre Hrows].
  rewrite !gwi_indices_q1 in Hcentre by (assumption || nia).
  rewrite (output_pos_exact batch_size channels in_height in_width b c)
    in Hcentre by (assumption || lia).
  exists (interpolate_patch patch unit_weights unit_weights),
    (q1 (q1 patch)).
  split; [ exact Hr | split ]; [ exact Hcentre | ].
  apply interpolate_patch_unit. exact Hrows.
Qed.

Lemma ResizeImage_integer_decimation_witness :
  exists out',
    ResizeImage 1024 x86_64 ramp3 1 3 3 2 2 1 (F32.of_Z 2) (F32.of_Z 2)
      NONE (repeat F32.zero 4) = Some out' /\
    exists v,
      read out' (nchw_pos 1 2 2 0 0 1 1) = Some v /\
      same_value v (F32.of_Z 9).
Proof.
  destruct (ResizeImage_integer_decimation 1024 x86_64 ramp3 1 3 3 2 2 1
              2 2 NONE (repeat F32.zero 4)) as [out' [H1 H2]].
  - unfold table_resolutions. cbn [In]. tauto.
  - discriminate.
  - discriminate.
  - lia.
  - lia.
  - lia.
  - lia.
  - lia.
  - lia.
  - lia.
  - lia.
  - reflexivity.
  - unfold index_max. cbn. lia.
  - reflexivity.
  - cbn. lia.
  - unfold index_max. lia.
  - exists out'. split; [ exact H1 | ].
    destruct (H2 0 0 1 1) as (v & s & Hv & Hs & Hsame); try lia.
    exists v. split; [ exact Hv | ].
    assert (Es : s = F32.of_Z 9).
    { vm_compute in Hs. injection Hs as <-. reflexivity. }
    rewrite <- Es. exact Hsame.
Defined.

(** ** The order of the work items *)

Lemma foldM_app {A S : Type} (f : S -> A -> option S) (l l' : list A)
      (s : S) :
  foldM f (l ++ l') s = bind (foldM f l s) (foldM f l').
Proof.
  revert s. induction l as [ | a l IH ]; intros s; [ reflexivity | ].
  cbn [app foldM]. destruct (f s a) as [ t | ]; [ | reflexivity ].
  cbn [bind]. apply IH.
Qed.

Lemma foldM_map {A A' S : Type} (f : S -> A' -> option S) (h : A -> A')
      (l : list A) (s : S) :
  foldM f (map h l) s = foldM (fun s a => f s (h a)) l s.
Proof.
  revert s. induction l as [ | a l IH ]; intros s; [ reflexivity | ].
  cbn [map foldM]. destruct (f s (h a)) as [ t | ]; [ | reflexivity ].
  cbn [bind]. apply IH.
Qed.

Lemma foldM_flat_map {A A' S : Type} (f : S -> A' -> option S)
      (g : A -> list A') (l : list A) (s : S) :
  foldM f (flat_map g l) s = foldM (fun s a => foldM f (g a) s) l s.
Proof.
  revert s. induction l as [ | a l IH ]; intros s; [ reflexivity | ].
  cbn [flat_map foldM]. rewrite foldM_app.
  destruct (foldM f (g a) s) as [ t | ]; [ | reflexivity ].
  cbn [bind]. apply IH.
Qed.

(** The nest of [ResizeImage] is the run of its rows in their order. *)
Lemma ResizeImage_as_rows
      (K : Z) (P : Platform) (images : list float)
      (B IH IW OH OW C : Z) (hs ws : float)
      (mode : CoordinateTransformationMode) (output : list float) :
  ResizeImage K P images B IH IW OH OW C hs ws mode output
  = ResizeImage_rows K P images IH IW OH OW C hs ws mode (row_items B OH)
      output.
Proof.
  unfold ResizeImage_rows, row_items.
  rewrite foldM_flat_map.
  unfold ResizeImage. apply foldM_ext. intros b s _.
  rewrite foldM_map. reflexivity.
Qed.

Lemma In_row_items (B OH b y : Z) :
  In (b, y) (row_items B OH) <-> 0 <= b < B /\ 0 <= y < OH.
Proof.
  unfold row_items. rewrite in_flat_map. split.
  - intros [b' [Hb Hy]]. apply in_map_iff in Hy.
    destruct Hy as [y' [[= <- <-] Hy]].
    split; now apply Zrange_In.
  - intros [Hb Hy]. exists b. split; [ now apply In_Zrange | ].
    apply in_map_iff. exists y. split; [ reflexivity | now apply In_Zrange ].
Qed.

Section RowOrder.
Variables (K : Z) (P : Platform) (images : list float).
Variables (B IH IW OH OW C : Z) (hs ws : float).
Variable mode : CoordinateTransformationMode.
Hypothesis HN : B * C * OH * OW <= index_max.

Local Abbreviation row :=
  (ResizeImage_row K P images IH IW OH OW C hs ws mode).

Lemma ResizeImage_row_eq (b y : Z) (out : list float) :
  row b y out
  = bind (GetWeightsAndIndices K P hs mode y OH IH)
      (fun yy =>
         foldM
           (fun out x =>
              xx <- GetWeightsAndIndices K P ws mode x OW IW ;;
              foldM
                (fun out c =>
                   ResizeImage_element images IH IW OH OW C (fst yy)
                     (fst xx) (snd yy) (snd xx) b y x c out)
                (Zrange C) out)
           (Zrange OW) out).
Proof. reflexivity. Qed.

(** One row, started from any state [out] of the buffer. *)
Lemma ResizeImage_row_step (output : list float)
      (Done : Z -> Z -> Z -> Z -> Prop) (out t : list float) (b y : Z) :
  0 <= b < B -> 0 <= y < OH ->
  resize_invariant K P images B IH IW OH OW C hs ws mode output Done out ->
  row b y out = Some t ->
  resize_invariant K P images B IH IW OH OW C hs ws mode output
    (fun b' y' x' c' => Done b' y' x' c' \/ (b' = b /\ y' = y)) t.
Proof.
  intros Hb Hy Hinv Hrow.
  rewrite ResizeImage_row_eq in Hrow.
  apply bind_Some in Hrow. destruct Hrow as [yy [Eyy Hrow]].
  exact (resize_column_loop K P images B IH IW OH OW C hs ws mode output HN
           Done out t yy b y Hb Hy Eyy Hinv Hrow).
Qed.

Lemma ResizeImage_row_length (out t : list float) (b y : Z) :
  0 <= b < B -> 0 <= y < OH ->
  row b y out = Some t -> same_length out t.
Proof.
  intros Hb Hy Hrow.
  destruct (ResizeImage_row_step out (fun _ _ _ _ => False) out t b y Hb Hy
              (resize_invariant_start K P images B IH IW OH OW C hs ws mode
                 out) Hrow) as (Hlen & _).
  unfold same_length. now rewrite Hlen.
Qed.

Lemma ResizeImage_row_ends_alike (b y : Z) (s s' : list float) :
  same_length s s' -> ends_alike same_length (row b y s) (row b y s').
Proof.
  intros Hs. rewrite !ResizeImage_row_eq.
  destruct (GetWeightsAndIndices K P hs mode y OH IH) as [ yy | ];
    [ | exact I ].
  cbn [bind]. revert s s' Hs.
  apply foldM_ends_alike. intros x u u' _ Hu.
  destruct (GetWeightsAndIndices K P ws mode x OW IW) as [ xx | ];
    [ | exact I ].
  cbn [bind]. revert u u' Hu.
  apply foldM_ends_alike. intros c u u' _ Hu.
  rewrite !ResizeImage_element_eq.
  destruct (read_patch images _ IW (snd yy) (snd xx)) as [ patch | ];
    [ | exact I ].
  cbn [bind]. apply write_ends_alike. exact Hu.
Qed.

Lemma ResizeImage_rows_invariant (work : list (Z * Z))
      (output t : list float) :
  (forall b y, In (b, y) work -> 0 <= b < B /\ 0 <= y < OH) ->
  ResizeImage_rows K P images IH IW OH OW C hs ws mode work output
  = Some t ->
  resize_invariant K P images B IH IW OH OW C hs ws mode output
    (fun b y _ _ => In (b, y) work) t.
Proof.
  intros Hwork. unfold ResizeImage_rows.
  apply (foldM_invariant _
           (fun pre s =>
              resize_invariant K P images B IH IW OH OW C hs ws mode output
                (fun b y _ _ => In (b, y) pre) s)).
  - intros pre [b y] s t' Hin Hs Hstep. cbn [fst snd] in Hstep.
    destruct (Hwork b y Hin) as [Hb Hy].
    pose proof (ResizeImage_row_step output _ s t' b y Hb Hy Hs Hstep)
      as Hnew.
    revert Hnew. apply resize_invariant_weaken.
    intros b' y' x' c' _ _ _ _ Hin'. apply in_app_or in Hin'.
    destruct Hin' as [ Hin' | [ [= <- <-] | [] ] ];
      [ now left | right; split; reflexivity ].
  - revert output. intros output.
    apply (resize_invariant_weaken K P images B IH IW OH OW C hs ws mode
             output (fun _ _ _ _ => False)).
    + intros b y x c _ _ _ _ [].
    + apply resize_invariant_start.
Qed.

Lemma ResizeImage_rows_completes (work : list (Z * Z))
      (output : list float) :
  (forall b y, In (b, y) work -> 0 <= b < B /\ 0 <= y < OH) ->
  (exists t,
      ResizeImage_rows K P images IH IW OH OW C hs ws mode work output
      = Some t) <->
  (forall b y, In (b, y) work -> exists t, row b y output = Some t).
Proof.
  intros Hwork.
  assert (Hgen : forall l s,
             (forall b y, In (b, y) l -> 0 <= b < B /\ 0 <= y < OH) ->
             (exists t,
                 foldM (fun out item => row (fst item) (snd item) out) l s
                 = Some t) <->
             (forall b y, In (b, y) l -> exists t, row b y s = Some t)).
  { induction l as [ | [b y] l IHl ]; intros s Hl.
    - split; [ intros _ b y [] | intros _; now exists s ].
    - cbn [foldM fst snd].
      destruct (Hl b y (or_introl eq_refl)) as [Hb Hy].
      assert (Hl' : forall b y, In (b, y) l -> 0 <= b < B /\ 0 <= y < OH)
        by (intros b' y' Hin; apply Hl; now right).
      assert (Hsame : forall s1 b' y',
                 same_length s s1 ->
                 (exists t, row b' y' s = Some t) <->
                 (exists t, row b' y' s1 = Some t)).
      { intros s1 b' y' Hs1.
        pose proof (ResizeImage_row_ends_alike b' y' s s1 Hs1) as Ha.
        destruct (row b' y' s) as [ u | ], (row b' y' s1) as [ u' | ];
          cbn [ends_alike] in Ha; try contradiction.
        - split; intros _; now eexists.
        - split; intros [? [=]]. }
      split.
      + intros [t Ht].
        destruct (row b y s) as [ s1 | ] eqn:E1; [ | discriminate Ht ].
        cbn [bind] in Ht.
        pose proof (ResizeImage_row_length s s1 b y Hb Hy E1) as Hs1.
        pose proof (proj1 (IHl s1 Hl') (ex_intro _ t Ht)) as Hrest.
        intros b' y' [ [= <- <-] | Hin ].
        * rewrite E1. now exists s1.
        * apply (Hsame s1 b' y' Hs1). now apply Hrest.
      + intros H.
        destruct (H b y (or_introl eq_refl)) as [s1 E1].
        rewrite E1. cbn [bind].
        pose proof (ResizeImage_row_length s s1 b y Hb Hy E1) as Hs1.
        apply (IHl s1 Hl'). intros b' y' Hin.
        apply (Hsame s1 b' y' Hs1). apply H. now right. }
  exact (Hgen work output Hwork).
Qed.

End RowOrder.

(** The output does not depend on the order in which the work items of
    [Compute2D] are run: running the body of the nest on the pairs
    [(b, y)] one after the other in any order (a pair may even be run
    again) gives what the sequential nest gives - the same buffer, or a
    failure in both cases - when the output buffer holds exactly the
    elements of the output tensor. *)
Theorem ResizeImage_any_row_order
        (K : Z) (P : Platform) (images : list float)
        (batch_size in_height in_width out_height out_width channels : Z)
        (height_scale width_scale : float)
        (mode : CoordinateTransformationMode)
        (work : list (Z * Z)) (output : list float) :
  0 <= batch_size -> 0 <= channels -> 0 <= out_height -> 0 <= out_width ->
  batch_size * channels * out_height * out_width <= index_max ->
  Z.of_nat (length output)
  = batch_size * channels * out_height * out_width ->
  (forall b y,
      In (b, y) work <-> 0 <= b < batch_size /\ 0 <= y < out_height) ->
  ResizeImage_rows K P images in_height in_width out_height out_width
    channels height_scale width_scale mode work output
  = ResizeImage K P images batch_size in_height in_width out_height
      out_width channels height_scale width_scale mode output.
Proof.
  intros HB HC HOH HOW HN Hlen Hwork.
  rewrite ResizeImage_as_rows.
  assert (Hw : forall b y, In (b, y) work ->
                           0 <= b < batch_size /\ 0 <= y < out_height)
    by (intros b y; apply Hwork).
  assert (Hr : forall b y, In (b, y) (row_items batch_size out_height) ->
                           0 <= b < batch_size /\ 0 <= y < out_height)
    by (intros b y; apply In_row_items).
  pose proof (ResizeImage_rows_completes K P images batch_size in_height
                in_width out_height out_width channels height_scale
                width_scale mode HN work output Hw) as Cw.
  pose proof (ResizeImage_rows_completes K P images batch_size in_height
                in_width out_height out_width channels height_scale
                width_scale mode HN (row_items batch_size out_height)
                output Hr) as Cr.
  destruct (ResizeImage_rows K P images in_height in_width out_height
              out_width channels height_scale width_scale mode work output)
    as [ t | ] eqn:Et;
    destruct (ResizeImage_rows K P images in_height in_width out_height
                out_width channels height_scale width_scale mode
                (row_items batch_size out_height) output)
      as [ t' | ] eqn:Et'.
  - f_equal.
    destruct (ResizeImage_rows_invariant K P images batch_size in_height
                in_width out_height out_width channels height_scale
                width_scale mode HN work output t Hw Et) as (Lt & _ & Dt).
    destruct (ResizeImage_rows_invariant K P images batch_size in_height
                in_width out_height out_width channels height_scale
                width_scale mode HN (row_items batch_size out_height)
                output t' Hr Et') as (Lt' & _ & Dt').
    apply read_ext; [ congruence | ].
    intros i Hi. rewrite Lt, Hlen in Hi.
    destruct (nchw_pos_surj batch_size channels out_height out_width i
                HB HC HOH HOW Hi)
      as (b & c & y & x & Hb & Hc & Hy & Hx & ->).
    destruct (Dt b y x c Hb Hy Hx Hc (proj2 (Hwork b y) (conj Hb Hy)))
      as [v [Hv Hrd]].
    destruct (Dt' b y x c Hb Hy Hx Hc
                (proj2 (In_row_items _ _ b y) (conj Hb Hy)))
      as [v' [Hv' Hrd']].
    rewrite Hrd, Hrd'. congruence.
  - exfalso.
    assert (H : exists t0 : list float, None = Some t0).
    { apply Cr. intros b y Hin. apply (proj1 Cw (ex_intro _ t eq_refl)).
      apply Hwork. now apply In_row_items. }
    destruct H as [? [=]].
  - exfalso.
    assert (H : exists t0 : list float, None = Some t0).
    { apply Cw. intros b y Hin. apply (proj1 Cr (ex_intro _ t' eq_refl)).
      apply In_row_items. now apply Hwork. }
    destruct H as [? [=]].
  - reflexivity.
Qed.

Lemma ResizeImage_any_row_order_witness :
  ResizeImage_rows 1024 x86_64 plane3 3 3 2 2 1 three_halves three_halves
    HALF_PIXEL [(0, 1); (0, 0); (0, 1)] (repeat F32.zero 4)
  = ResizeImage 1024 x86_64 plane3 1 3 3 2 2 1 three_halves three_halves
      HALF_PIXEL (repeat F32.zero 4).
Proof.
  apply ResizeImage_any_row_order; try lia; try reflexivity.
  - unfold index_max. lia.
  - intros b y. cbn [In]. split.
    + intros [ [= <- <-] | [ [= <- <-] | [ [= <- <-] | [] ] ] ]; lia.
    + intros [Hb Hy].
      assert (b = 0) by lia. assert (E : y = 0 \/ y = 1) by lia.
      subst b. destruct E as [ -> | -> ]; tauto.
Defined.

(** ** Accuracy of the coefficient tables *)

Lemma tables_accurate_checked :
  table_accurate F32.minus_half && table_accurate F32.minus_three_quarters
  = true.
Proof. vm_compute. reflexivity. Qed.

Lemma close_to_spec (v : float) (q : Q) :
  close_to v q = true ->
  F32.is_finite v = true /\ (Qabs (F32.to_Q v - q) <= 1 # 1048576)%Q.
Proof.
  unfold close_to. intros H. apply andb_prop in H as [Hf Hq].
  split; [ exact Hf | ]. apply Qle_bool_iff. exact Hq.
Qed.

Lemma table_accurate_at (A : float) (K i : Z) :
  table_accurate A = true -> In K checked_resolutions -> 0 <= i <= K ->
  entries_accurate K A i = true.
Proof.
  unfold table_accurate. intros H HK Hi.
  rewrite forallb_forall in H. specialize (H K HK).
  rewrite forallb_forall in H.
  exact (H i (In_Zrange (K + 1) i ltac:(lia))).
Qed.

(** The tables hold the cubic convolution kernel: for each table
    resolution [K] of 1, 2, 4, ..., 1024 and both values of [A], the
    entries [2i] and [2i + 1] are finite and within 2^-20 of the exact
    values of the two polynomials at [i / K] and at [1 + i / K]. *)
Theorem InitCoeffsTable_accurate (K : Z) (A : float) (i : Z) :
  In K checked_resolutions ->
  A = F32.minus_half \/ A = F32.minus_three_quarters ->
  0 <= i <= K ->
  exists near far : float,
    read (InitCoeffsTable K A) (2 * i) = Some near /\
    read (InitCoeffsTable K A) (2 * i + 1) = Some far /\
    F32.is_finite near = true /\ F32.is_finite far = true /\
    (Qabs (F32.to_Q near
           - kernel_near (F32.to_Q A) (inject_Z i / inject_Z K))
     <= 1 # 1048576)%Q /\
    (Qabs (F32.to_Q far
           - kernel_far (F32.to_Q A) (inject_Z i / inject_Z K + 1))
     <= 1 # 1048576)%Q.
Proof.
  intros HK HA Hi.
  destruct (InitCoeffsTable_entries K A i Hi) as [Hn Hf].
  exists (entry_near K A i), (entry_far K A i).
  split; [ exact Hn | split ]; [ exact Hf | ].
  pose proof tables_accurate_checked as Hall.
  apply andb_prop in Hall as [H1 H2].
  assert (Hok : entries_accurate K A i = true).
  { destruct HA as [ -> | -> ];
      [ exact (table_accurate_at _ K i H1 HK Hi)
      | exact (table_accurate_at _ K i H2 HK Hi) ]. }
  clear H1 H2 Hn Hf.
  unfold entries_accurate in Hok. cbv zeta in Hok.
  set (near := entry_near K A i) in *.
  set (far := entry_far K A i) in *.
  clearbody near far.
  apply andb_prop in Hok as [Hnear Hfar].
  destruct (close_to_spec _ _ Hnear) as [F1 Q1].
  destruct (close_to_spec _ _ Hfar) as [F2 Q2].
  repeat split; assumption.
Qed.

Lemma InitCoeffsTable_accurate_witness :
  exists near far : float,
    read (InitCoeffsTable 1024 F32.minus_three_quarters) 1024 = Some near /\
    read (InitCoeffsTable 1024 F32.minus_three_quarters) 1025 = Some far /\
    (Qabs (F32.to_Q near - (19 # 32)) <= 1 # 1048576)%Q /\
    (Qabs (F32.to_Q far - (- 3 # 32)) <= 1 # 1048576)%Q.
Proof.
  destruct (InitCoeffsTable_accurate 1024 F32.minus_three_quarters 512)
    as (near & far & Hn & Hf & _ & _ & Q1 & Q2).
  - unfold checked_resolutions. cbn [In]. tauto.
  - now right.
  - lia.
  - exists near, far.
    split; [ exact Hn | split ]; [ exact Hf | split ].
    + assert (E : (kernel_near (F32.to_Q F32.minus_three_quarters)
                     (inject_Z 512 / inject_Z 1024) == 19 # 32)%Q)
        by (vm_compute; reflexivity).
      now rewrite <- E.
    + assert (E : (kernel_far (F32.to_Q F32.minus_three_quarters)
                     (inject_Z 512 / inject_Z 1024 + 1) == - 3 # 32)%Q)
        by (vm_compute; reflexivity).
      now rewrite <- E.
Defined.
